(** * tabby: the graph-construction core of [build_graph.py]

    A shallow embedding of [standalone_scripts/build_graph.py] and the
    properties of its URL canonicalizer, fingerprinter, near-duplicate
    resolver, cluster builder, edge builder and graph assembly.

    Conventions of the embedding.
    - A Python [dict] used as a record (a tab, an edge, a group) is a Rocq
      record; a [dict] used as a map is a [gmap], or an association list
      where the insertion order is observable.
    - A Python list indexed by position is a [list] read with [!!]; an index
      out of range raises [IndexError] in Python and is [None] here.
    - A [while] loop runs on fuel; running out of fuel is [None] as well.
      Every theorem about a result proves that the result exists.
    - Text is a [string] of bytes (the UTF-8 encoding of the Python [str]);
      comparing such strings byte by byte is comparing the Python strings
      code point by code point.
    - A Python [float] score is a rational [Q], computed exactly: the code
      adds, multiplies, divides, compares and rounds scores. *)

From stdpp Require Import gmap strings list sorting.
From Stdlib Require Import ZArith QArith Qround Lqa Ascii.

Open Scope nat_scope.

(** ** Loops in the option monad *)

(** [for x in xs: s = body(s, x)], where the body may fail. *)
Fixpoint for_each {A St : Type} (xs : list A) (body : St → A → option St)
    (s : St) : option St :=
  match xs with
  | [] => Some s
  | x :: xs' => s' ← body s x; for_each xs' body s'
  end.

(** [range(a, b)]. *)
Definition range (a b : nat) : list nat := seq a (b - a).

(** ** Dictionaries whose order matters *)

(** [d.setdefault(k, []).append(v)] on an insertion-ordered dictionary. *)
Fixpoint setdefault_append {K V : Type} `{EqDecision K}
    (k : K) (v : V) (d : list (K * list V)) : list (K * list V) :=
  match d with
  | [] => [(k, [v])]
  | (k', vs) :: d' =>
      if decide (k' = k) then (k', vs ++ [v]) :: d'
      else (k', vs) :: setdefault_append k v d'
  end.

(** [min(l)]; Python raises [ValueError] on an empty list. *)
Definition list_min (l : list nat) : option nat :=
  match l with
  | [] => None
  | x :: l' => Some (foldl Nat.min x l')
  end.

(** ** Union-find on a flat parent array

    [dedupe_tabs] and [build_groups] each define the same two closures over
    a local [parent] list; the embedding passes the list explicitly. *)
Module UF.

(** [find]: the loop
    [while parent[x] != x: parent[x] = parent[parent[x]]; x = parent[x]]. *)
Fixpoint find_loop (fuel : nat) (parent : list nat) (x : nat)
  : option (list nat * nat) :=
  match fuel with
  | O => None
  | S fuel' =>
      px ← parent !! x;
      if decide (px = x) then Some (parent, x)
      else
        ppx ← parent !! px;
        let parent' := <[x := ppx]> parent in
        x' ← parent' !! x;
        find_loop fuel' parent' x'
  end.

Definition find (parent : list nat) (x : nat) : option (list nat * nat) :=
  find_loop (length parent) parent x.

(** [union]: [ra, rb = find(a), find(b)]; [if ra != rb: parent[rb] = ra]. *)
Definition union (parent : list nat) (a b : nat) : option (list nat) :=
  '(parent1, ra) ← find parent a;
  '(parent2, rb) ← find parent1 b;
  if decide (ra = rb) then Some parent2
  else
    _ ← parent2 !! rb;
    Some (<[rb := ra]> parent2).

(** [reach parent x r d]: following parent links from [x] ends at the
    root [r] after exactly [d] links. *)
Inductive reach (parent : list nat) : nat → nat → nat → Prop :=
| reach_root x :
    parent !! x = Some x → reach parent x x 0
| reach_step x px r d :
    parent !! x = Some px → px ≠ x → reach parent px r d →
    reach parent x r (S d).

(** A parent array is a forest when every index reaches a root. *)
Definition forest (parent : list nat) : Prop :=
  ∀ x, x < length parent → ∃ r d, reach parent x r d.

(** Two indices are in the same set when they reach the same root. *)
Definition same (parent : list nat) (i j : nat) : Prop :=
  ∃ r di dj, reach parent i r di ∧ reach parent j r dj.

(** [p'] keeps every root of [p] (path compression does). *)
Definition keeps_roots (p p' : list nat) : Prop :=
  length p' = length p ∧
  ∀ y r d, reach p y r d → ∃ d', d' ≤ d ∧ reach p' y r d'.

(** [groups.setdefault(find(idx), []).append(idx)] for every index: the
    loop that ends both [dedupe_tabs] and the union-find part of
    [build_groups]. *)
Definition collect_step (st : list nat * list (nat * list nat)) (idx : nat)
  : option (list nat * list (nat * list nat)) :=
  let '(parent, groups) := st in
  '(parent, root) ← find parent idx;
  Some (parent, setdefault_append root idx groups).

Definition collect_groups (n : nat) (parent : list nat)
  : option (list nat * list (nat * list nat)) :=
  for_each (range 0 n) collect_step (parent, []).

End UF.

(** ** Python [str] operations used by the code *)
Module Str.

Definition code (c : ascii) : nat := nat_of_ascii c.

Definition between (lo hi : nat) (c : ascii) : bool :=
  (lo <=? code c) && (code c <=? hi).

Definition is_upper : ascii → bool := between 65 90.
Definition is_lower : ascii → bool := between 97 122.
Definition is_digit : ascii → bool := between 48 57.
Definition is_alpha (c : ascii) : bool := is_upper c || is_lower c.

Definition lower_char (c : ascii) : ascii :=
  if is_upper c then ascii_of_nat (code c + 32) else c.

(** [s.lower()], on ASCII letters. *)
Fixpoint lower (s : string) : string :=
  match s with
  | EmptyString => EmptyString
  | String c s' => String (lower_char c) (lower s')
  end.

(** [c in s]. *)
Fixpoint contains (c : ascii) (s : string) : bool :=
  match s with
  | EmptyString => false
  | String a s' => bool_decide (a = c) || contains c s'
  end.

Fixpoint all_chars (f : ascii → bool) (s : string) : bool :=
  match s with
  | EmptyString => true
  | String a s' => f a && all_chars f s'
  end.

(** [s.split(c, 1)] when [c] occurs in [s]: the text before and after the
    first [c]. *)
Fixpoint split1 (c : ascii) (s : string) : option (string * string) :=
  match s with
  | EmptyString => None
  | String a s' =>
      if bool_decide (a = c) then Some (EmptyString, s')
      else '(h, t) ← split1 c s'; Some (String a h, t)
  end.

(** [s.rsplit(c, 1)] when [c] occurs in [s]: the text before and after the
    last [c]. *)
Fixpoint rsplit1 (c : ascii) (s : string) : option (string * string) :=
  match s with
  | EmptyString => None
  | String a s' =>
      match rsplit1 c s' with
      | Some (h, t) => Some (String a h, t)
      | None => if bool_decide (a = c) then Some (EmptyString, s') else None
      end
  end.

(** [s.split(c)]. *)
Fixpoint split (c : ascii) (s : string) : list string :=
  match s with
  | EmptyString => [EmptyString]
  | String a s' =>
      if bool_decide (a = c) then EmptyString :: split c s'
      else match split c s' with
           | h :: t => String a h :: t
           | [] => [String a EmptyString]
           end
  end.

(** [sep.join(l)] for a one-character separator. *)
Fixpoint join (c : ascii) (l : list string) : string :=
  match l with
  | [] => EmptyString
  | [x] => x
  | x :: l' => x +:+ String c (join c l')
  end.

Definition startswith (p s : string) : bool := String.prefix p s.

(** [s.endswith(c)] for a one-character suffix. *)
Fixpoint endswith (c : ascii) (s : string) : bool :=
  match s with
  | EmptyString => false
  | String a EmptyString => bool_decide (a = c)
  | String _ s' => endswith c s'
  end.

(** [s[:-1]]. *)
Fixpoint drop_last (s : string) : string :=
  match s with
  | EmptyString => EmptyString
  | String _ EmptyString => EmptyString
  | String a s' => String a (drop_last s')
  end.

(** [s[n:]]. *)
Fixpoint drop (n : nat) (s : string) : string :=
  match n, s with
  | S n', String _ s' => drop n' s'
  | _, _ => s
  end.

(** [s.lstrip(chars)] for the characters accepted by [f]. *)
Fixpoint lstrip (f : ascii → bool) (s : string) : string :=
  match s with
  | String a s' => if f a then lstrip f s' else s
  | EmptyString => EmptyString
  end.

(** Removes every character accepted by [f]. *)
Fixpoint remove (f : ascii → bool) (s : string) : string :=
  match s with
  | EmptyString => EmptyString
  | String a s' => if f a then remove f s' else String a (remove f s')
  end.

(** The longest prefix without a character accepted by [stop], and the
    rest. *)
Fixpoint span (stop : ascii → bool) (s : string) : string * string :=
  match s with
  | EmptyString => (EmptyString, EmptyString)
  | String a s' =>
      if stop a then (EmptyString, s)
      else let '(h, t) := span stop s' in (String a h, t)
  end.

(** [s.replace(a, b)] for single characters. *)
Fixpoint replace (a b : ascii) (s : string) : string :=
  match s with
  | EmptyString => EmptyString
  | String c s' => String (if bool_decide (c = a) then b else c) (replace a b s')
  end.

(** A Python value is falsy when it is the empty string. *)
Definition truthy (s : string) : bool := negb (bool_decide (s = EmptyString)).

End Str.

(** ** UTF-8

    A surrogate code point, which a Python [str] may hold (the JSON text
    ["\udc80"] gives one) and UTF-8 excludes, is in a string of the
    embedding the three bytes [ED A0..BF 80..BF] that its number gives. *)
Module Utf8.
Import Str.

Definition is_ascii (c : ascii) : bool := code c <? 128.

(** Text whose characters are ASCII. *)
Definition ascii_text (s : string) : Prop := all_chars is_ascii s = true.

(** [IS_CONTINUATION_BYTE]. *)
Definition is_continuation (c : ascii) : bool := between 128 191 c.

(** U+FFFD, the replacement character. *)
Definition replacement : string :=
  String (ascii_of_nat 239) (String (ascii_of_nat 191)
    (String (ascii_of_nat 189) EmptyString)).

(** The second byte of a sequence of three: a continuation byte that gives
    neither an overlong form nor a surrogate. *)
Definition second_of_three (lead b : ascii) : bool :=
  is_continuation b
  && negb (if code b <? 160 then code lead =? 224 else code lead =? 237).

(** The second byte of a sequence of four: a continuation byte that gives
    neither an overlong form nor a number above U+10FFFF. *)
Definition second_of_four (lead b : ascii) : bool :=
  is_continuation b
  && negb (if code b <? 144 then code lead =? 240 else code lead =? 244).

(** [bytes.decode("utf-8", "replace")], the loop of [unicode_decode_utf8]
    over [utf8_decode]: a byte that cannot start a sequence, and a sequence
    up to the byte that cannot continue it, become U+FFFD and decoding goes
    on at the next byte; a sequence that the end of the data cuts becomes
    one U+FFFD. *)
Fixpoint decode (s : string) : string :=
  match s with
  | EmptyString => EmptyString
  | String a s0 =>
      if code a <? 128 then String a (decode s0)
      else if code a <? 194 then replacement +:+ decode s0
      else if code a <? 224 then
        match s0 with
        | EmptyString => replacement
        | String b s1 =>
            if is_continuation b then String a (String b (decode s1))
            else replacement +:+ decode s0
        end
      else if code a <? 240 then
        match s0 with
        | EmptyString => replacement
        | String b s1 =>
            if second_of_three a b then
              match s1 with
              | EmptyString => replacement
              | String c s2 =>
                  if is_continuation c
                  then String a (String b (String c (decode s2)))
                  else replacement +:+ decode s1
              end
            else replacement +:+ decode s0
        end
      else if code a <? 245 then
        match s0 with
        | EmptyString => replacement
        | String b s1 =>
            if second_of_four a b then
              match s1 with
              | EmptyString => replacement
              | String c s2 =>
                  if is_continuation c then
                    match s2 with
                    | EmptyString => replacement
                    | String d s3 =>
                        if is_continuation d
                        then String a (String b (String c (String d (decode s3))))
                        else replacement +:+ decode s2
                    end
                  else replacement +:+ decode s1
              end
            else replacement +:+ decode s0
        end
      else replacement +:+ decode s0
  end.

(** The text holds a surrogate: [ED] and a byte of [A0..BF]. In the bytes
    of any other code point [ED] is followed by a byte of [80..9F]. *)
Fixpoint has_surrogate (s : string) : bool :=
  match s with
  | EmptyString => false
  | String a s' =>
      match s' with
      | String b _ => (code a =? 237) && between 160 191 b
      | EmptyString => false
      end
      || has_surrogate s'
  end.

(** [str.encode("utf-8")] with [errors="strict"]: [UnicodeEncodeError] on a
    surrogate; the bytes of any other text are the string itself. *)
Definition encode (s : string) : option string :=
  if has_surrogate s then None else Some s.

End Utf8.

(** ** [ipaddress]

    What [urlsplit] needs of [ipaddress.ip_address]: which strings are
    addresses ([Lib/ipaddress.py], CPython 3.11). *)
Module Ipaddress.
Import Str.

Definition hex_digit_char (c : ascii) : bool :=
  is_digit c || between 65 70 c || between 97 102 c.

(** [int(s, 10)] on a string of decimal digits, after the value [n] of the
    digits read so far. *)
Fixpoint decimal_from (n : nat) (s : string) : nat :=
  match s with
  | EmptyString => n
  | String c s' => decimal_from (10 * n + (code c - 48)) s'
  end.

Definition decimal_value (s : string) : nat := decimal_from 0 s.

(** [_parse_octet] returns: decimal digits, at most three, no leading
    zero, at most 255. *)
Definition octet_ok (octet_str : string) : bool :=
  if truthy octet_str && all_chars is_digit octet_str
     && (String.length octet_str <=? 3)
  then (bool_decide (octet_str = "0") || negb (startswith "0" octet_str))
       && (decimal_value octet_str <=? 255)
  else false.

(** [IPv4Address(address)] returns. *)
Definition ipv4_ok (address : string) : bool :=
  negb (contains "/" address)
  && truthy address
  && let octets := split "." address in
     bool_decide (length octets = 4) && forallb octet_ok octets.

(** [_parse_hextet] returns: one to four hexadecimal digits. *)
Definition hextet_ok (hextet_str : string) : bool :=
  all_chars hex_digit_char hextet_str
  && (String.length hextet_str <=? 4)
  && truthy hextet_str.

(** The positions from 1 to [len(parts) - 2] that hold an empty part. *)
Definition skip_indices (parts : list string) : list nat :=
  filter (λ i, parts !! i = Some "") (seq 1 (length parts - 2)).

(** [_BaseV6._ip_int_from_string] returns. The two parts that replace an
    IPv4 suffix are hexadecimal numbers of one to four digits; ["0"]
    stands for each of them. *)
Definition ipv6_parts_ok (ip_str : string) : bool :=
  truthy ip_str
  && let parts := split ":" ip_str in
     (3 <=? length parts)
     && match (if contains "." (List.last parts "")
               then if ipv4_ok (List.last parts "")
                    then Some (removelast parts ++ ["0"; "0"])
                    else None
               else Some parts) with
        | None => false
        | Some parts =>
            let n := length parts in
            (n <=? 9)
            && match skip_indices parts with
               | [] =>
                   bool_decide (n = 8)
                   && truthy (default "" (head parts))
                   && truthy (List.last parts "")
                   && forallb hextet_ok parts
               | [skip_index] =>
                   let parts_hi := skip_index in
                   let parts_lo := n - skip_index - 1 in
                   let head_empty := negb (truthy (default "" (head parts))) in
                   let last_empty := negb (truthy (List.last parts "")) in
                   let parts_hi' := if head_empty then parts_hi - 1 else parts_hi in
                   let parts_lo' := if last_empty then parts_lo - 1 else parts_lo in
                   negb (head_empty && negb (bool_decide (parts_hi' = 0)))
                   && negb (last_empty && negb (bool_decide (parts_lo' = 0)))
                   && (parts_hi' + parts_lo' <? 8)
                   && forallb hextet_ok (firstn parts_hi' parts)
                   && forallb hextet_ok (skipn (n - parts_lo') parts)
               | _ => false
               end
        end.

(** [IPv6Address(address)] returns: an optional scope after [%], not empty
    and without a second [%]. *)
Definition ipv6_ok (address : string) : bool :=
  negb (contains "/" address)
  && match split1 "%" address with
     | None => ipv6_parts_ok address
     | Some (addr, scope_id) =>
         truthy scope_id && negb (contains "%" scope_id) && ipv6_parts_ok addr
     end.

End Ipaddress.

(** ** [urllib.parse]

    The library functions [canonicalize_url] calls, after
    [Lib/urllib/parse.py] of CPython 3.11 with the check of bracketed hosts
    (3.11.4 and the patched 3.11.2), on text whose characters are ASCII.
    [urlparse] raises [ValueError] on a netloc with an unmatched square
    bracket or with a bracketed host that is no IPv6 or IPvFuture address;
    the model returns [None] there. *)
Module Urllib.
Import Str.

Record ParseResult := {
  scheme : string;
  netloc : string;
  path : string;
  params : string;
  query : string;
  fragment : string;
}.

Definition uses_netloc : list string :=
  [""; "ftp"; "http"; "gopher"; "nntp"; "telnet"; "imap"; "wais"; "file";
   "mms"; "https"; "shttp"; "snews"; "prospero"; "rtsp"; "rtspu"; "rsync";
   "svn"; "svn+ssh"; "sftp"; "nfs"; "git"; "git+ssh"; "ws"; "wss"].

Definition uses_params : list string :=
  [""; "ftp"; "hdl"; "prospero"; "http"; "imap"; "https"; "shttp"; "rtsp";
   "rtspu"; "sip"; "sips"; "mms"; "sftp"; "tel"].

(** [scheme_chars]: letters, digits and [+-.]. *)
Definition scheme_char (c : ascii) : bool :=
  is_alpha c || is_digit c || contains c "+-.".

(** [_WHATWG_C0_CONTROL_OR_SPACE]. *)
Definition c0_control_or_space (c : ascii) : bool := code c <=? 32.

(** [_UNSAFE_URL_BYTES_TO_REMOVE]: tab, carriage return, newline. *)
Definition unsafe_url_byte (c : ascii) : bool :=
  bool_decide (code c = 9) || bool_decide (code c = 13) || bool_decide (code c = 10).

(** The scheme test of [urlsplit]: [i = url.find(':')], [i > 0], a first
    character that is an ASCII letter, and only scheme characters before
    the colon. *)
Definition split_scheme (url : string) : string * string :=
  match split1 ":" url with
  | Some (String c0 pre, rest) =>
      if is_alpha c0 && all_chars scheme_char (String c0 pre)
      then (lower (String c0 pre), rest)
      else (EmptyString, url)
  | _ => (EmptyString, url)
  end.

Definition netloc_delim (c : ascii) : bool := contains c "/?#".

(** [re.match(r"\Av[a-fA-F0-9]+\..+\Z", hostname)] for a [hostname] that
    starts with [v]: hexadecimal digits, a dot, and at least one more
    character, none a newline. *)
Definition ipvfuture_ok (hostname : string) : bool :=
  let '(digits, rest) := span (λ c, negb (Ipaddress.hex_digit_char c)) (drop 1 hostname) in
  truthy digits
  && startswith "." rest
  && truthy (drop 1 rest)
  && negb (contains (ascii_of_nat 10) (drop 1 rest)).

(** [_check_bracketed_host] returns: an IPvFuture address, or an address
    that [ip_address] takes for IPv6 (it tries IPv4 first, and an IPv4
    address in brackets is refused). *)
Definition check_bracketed_host (hostname : string) : bool :=
  if startswith "v" hostname then ipvfuture_ok hostname
  else negb (Ipaddress.ipv4_ok hostname) && Ipaddress.ipv6_ok hostname.

(** [_check_bracketed_netloc] returns. *)
Definition check_bracketed_netloc (netloc : string) : bool :=
  let hostname_and_port :=
    match rsplit1 "@" netloc with
    | Some (_, after) => after
    | None => netloc
    end in
  match split1 "[" hostname_and_port with
  | Some (before_bracket, bracketed) =>
      if truthy before_bracket then false
      else
        let '(hostname, port) :=
          default (bracketed, EmptyString) (split1 "]" bracketed) in
        if truthy port && negb (startswith ":" port) then false
        else check_bracketed_host hostname
  | None =>
      let hostname :=
        match split1 ":" hostname_and_port with
        | Some (hostname, _) => hostname
        | None => hostname_and_port
        end in
      check_bracketed_host hostname
  end.

Definition urlsplit (url : string) : option (string * string * string * string * string) :=
  let url := lstrip c0_control_or_space url in
  let url := remove unsafe_url_byte url in
  let '(scheme, url) := split_scheme url in
  '(netloc, url) ←
    (if startswith "//" url then
       let '(netloc, rest) := span netloc_delim (drop 2 url) in
       if (contains "[" netloc && negb (contains "]" netloc))
          || (contains "]" netloc && negb (contains "[" netloc))
       then None
       else if contains "[" netloc && contains "]" netloc
       then if check_bracketed_netloc netloc then Some (netloc, rest) else None
       else Some (netloc, rest)
     else Some (EmptyString, url));
  let '(url, fragment) := default (url, EmptyString) (split1 "#" url) in
  let '(url, query) := default (url, EmptyString) (split1 "?" url) in
  Some (scheme, netloc, url, query, fragment).

(** [_splitparams]: the parameters of the last path segment. *)
Definition splitparams (url : string) : string * string :=
  match rsplit1 "/" url with
  | Some (dir, last) =>
      match split1 ";" last with
      | Some (a, b) => (dir +:+ String "/" a, b)
      | None => (url, EmptyString)
      end
  | None => default (url, EmptyString) (split1 ";" url)
  end.

Definition urlparse (url : string) : option ParseResult :=
  '(scheme, netloc, url, query, fragment) ← urlsplit url;
  let '(url, params) :=
    if bool_decide (scheme ∈ uses_params) && contains ";" url
    then splitparams url else (url, EmptyString) in
  Some {| scheme := scheme; netloc := netloc; path := url; params := params;
          query := query; fragment := fragment |}.

Definition urlunsplit (scheme netloc url query fragment : string) : string :=
  let url :=
    if truthy netloc
       || (truthy scheme && bool_decide (scheme ∈ uses_netloc)
           && negb (startswith "//" url))
    then
      let url := if truthy url && negb (startswith "/" url)
                 then String "/" url else url in
      "//" +:+ netloc +:+ url
    else url in
  let url := if truthy scheme then scheme +:+ String ":" url else url in
  let url := if truthy query then url +:+ String "?" query else url in
  if truthy fragment then url +:+ String "#" fragment else url.

Definition urlunparse (p : ParseResult) : string :=
  let url := if truthy (params p) then path p +:+ String ";" (params p) else path p in
  urlunsplit (scheme p) (netloc p) url (query p) (fragment p).

(** The value of a hexadecimal digit. *)
Definition hex_value (c : ascii) : option nat :=
  if is_digit c then Some (code c - 48)
  else if between 65 70 c then Some (code c - 55)
  else if between 97 102 c then Some (code c - 87)
  else None.

(** [unquote]: [%XX] becomes the byte [XX]; any other [%] stays. Python
    then decodes the bytes from UTF-8, which leaves well-formed text as it
    is and replaces an ill-formed sequence by U+FFFD; the embedding keeps
    the bytes. *)
Fixpoint unquote (s : string) : string :=
  match s with
  | EmptyString => EmptyString
  | String c s' =>
      if bool_decide (c = "%"%char) then
        match s' with
        | String h1 (String h2 rest) =>
            match hex_value h1, hex_value h2 with
            | Some a, Some b => String (ascii_of_nat (16 * a + b)) (unquote rest)
            | _, _ => String c (unquote s')
            end
        | _ => String c (unquote s')
        end
      else String c (unquote s')
  end.

(** [parse_qsl(qs, keep_blank_values=True)]. *)
Definition parse_field (name_value : string) : list (string * string) :=
  if truthy name_value then
    let '(n, v) := default (name_value, EmptyString) (split1 "=" name_value) in
    [(unquote (replace "+" " " n), unquote (replace "+" " " v))]
  else [].

Definition parse_qsl (qs : string) : list (string * string) :=
  mjoin (parse_field <$> split "&" qs).

(** [_ALWAYS_SAFE]: letters, digits and [_.-~]. *)
Definition always_safe (c : ascii) : bool :=
  is_alpha c || is_digit c || contains c "_.-~".

Definition hex_digit (n : nat) : ascii :=
  if n <? 10 then ascii_of_nat (48 + n) else ascii_of_nat (55 + n).

(** [quote_plus]: a space is [+], an unsafe byte is [%XX]. *)
Fixpoint quote_plus (s : string) : string :=
  match s with
  | EmptyString => EmptyString
  | String c s' =>
      if always_safe c then String c (quote_plus s')
      else if bool_decide (c = " "%char) then String "+" (quote_plus s')
      else String "%" (String (hex_digit (code c / 16))
                         (String (hex_digit (code c mod 16)) (quote_plus s')))
  end.

(** [urlencode(params, doseq=True)] on a list of pairs of strings. *)
Definition urlencode (query : list (string * string)) : string :=
  join "&" ((λ '(k, v), quote_plus k +:+ String "=" (quote_plus v)) <$> query).

(** [unquote(string)] with its defaults [encoding="utf-8"] and
    [errors="replace"]. A string without [%] is returned as it is. In any
    other, every maximal run of ASCII characters ([_asciire]) goes through
    [unquote_to_bytes], which is [unquote] above, and is decoded; the
    characters between the runs are kept. [run] holds the ASCII characters
    read since the last character that is not ASCII. *)
Fixpoint unquote_runs (run s : string) : string :=
  match s with
  | EmptyString => Utf8.decode (unquote run)
  | String a s' =>
      if Utf8.is_ascii a then unquote_runs (run +:+ String a EmptyString) s'
      else Utf8.decode (unquote run) +:+ String a (unquote_runs EmptyString s')
  end.

Definition unquote_text (s : string) : string :=
  if contains "%" s then unquote_runs EmptyString s else s.

(** [parse_qsl(qs, keep_blank_values=True)], decoding with [unquote_text]. *)
Definition parse_field_text (name_value : string) : list (string * string) :=
  if truthy name_value then
    let '(n, v) := default (name_value, EmptyString) (split1 "=" name_value) in
    [(unquote_text (replace "+" " " n), unquote_text (replace "+" " " v))]
  else [].

Definition parse_qsl_text (qs : string) : list (string * string) :=
  mjoin (parse_field_text <$> split "&" qs).

(** [quote_plus] of a [str]: [quote] encodes it first, with
    [errors="strict"]. *)
Definition quote_plus_text (s : string) : option string :=
  quote_plus <$> Utf8.encode s.

(** [urlencode(params, doseq=True)], which raises when a key or a value
    cannot be encoded. *)
Definition urlencode_text (query : list (string * string)) : option string :=
  fields ← mapM (λ '(k, v),
                   k' ← quote_plus_text k;
                   v' ← quote_plus_text v;
                   Some (k' +:+ String "=" v')) query;
  Some (join "&" fields).

End Urllib.

(** ** URL canonicalizer *)

Definition TRACKING_PARAMS : list string :=
  ["fbclid"; "gclid"; "igshid"; "mc_cid"; "mc_eid"; "msclkid"; "ref";
   "ref_src"; "utm_campaign"; "utm_content"; "utm_medium"; "utm_source";
   "utm_term"].

(** The order of [params.sort()] on pairs of strings: by key, then value. *)
Definition param_le (p q : string * string) : Prop :=
  if decide (p.1 = q.1) then (p.2 ≤ q.2)%string else (p.1 ≤ q.1)%string.

#[global] Instance param_le_dec : RelDecision param_le.
Proof. intros p q. unfold param_le. case_decide; apply _. Defined.

Module Canon.
Import Str Urllib.

(** [(parsed.scheme or "https").lower()]. *)
Definition canon_scheme (parsed : ParseResult) : string :=
  lower (if truthy (scheme parsed) then scheme parsed else "https").

(** The default port is dropped: [host, port = netloc.rsplit(":", 1)]. *)
Definition strip_default_port (scheme netloc : string) : string :=
  if contains ":" netloc then
    match rsplit1 ":" netloc with
    | Some (host, port) =>
        if (bool_decide (scheme = "http") && bool_decide (port = "80"))
           || (bool_decide (scheme = "https") && bool_decide (port = "443"))
        then host else netloc
    | None => netloc
    end
  else netloc.

Definition strip_www (netloc : string) : string :=
  if startswith "www." netloc then drop 4 netloc else netloc.

Definition canon_netloc (parsed : ParseResult) : string :=
  strip_www (strip_default_port (canon_scheme parsed) (lower (netloc parsed))).

Definition strip_slash (path : string) : string :=
  if negb (bool_decide (path = "/")) && endswith "/" path
  then drop_last path else path.

Definition canon_path (parsed : ParseResult) : string :=
  strip_slash (if truthy (path parsed) then path parsed else "/").

(** A parameter is dropped when its lowercased key is a tracking parameter
    or starts with [utm_]. *)
Definition is_tracking (kv : string * string) : bool :=
  let key_l := lower kv.1 in
  bool_decide (key_l ∈ TRACKING_PARAMS) || startswith "utm_" key_l.

Definition canon_params (parsed : ParseResult) : list (string * string) :=
  merge_sort param_le
    (filter (λ kv, is_tracking kv = false) (parse_qsl (query parsed))).

Definition canon_query (parsed : ParseResult) : string :=
  urlencode (canon_params parsed).

(** The components handed to [urlunparse]. *)
Definition canonical (parsed : ParseResult) : ParseResult :=
  {| scheme := canon_scheme parsed; netloc := canon_netloc parsed;
     path := canon_path parsed; params := ""; query := canon_query parsed;
     fragment := "" |}.

(** [key.lower()] as far as the test on the key reads it. The names the
    lowered key is compared with are ASCII, and the only character beyond
    ASCII whose lowercase is an ASCII letter is U+212A, the Kelvin sign
    (bytes [E2 84 AA]), which gives [k]. *)
Fixpoint lower_text (s : string) : string :=
  match s with
  | EmptyString => EmptyString
  | String a s1 =>
      match s1 with
      | String b (String c s3) =>
          if (code a =? 226) && (code b =? 132) && (code c =? 170)
          then String "k" (lower_text s3)
          else String (lower_char a) (lower_text s1)
      | _ => String (lower_char a) (lower_text s1)
      end
  end.

Definition is_tracking_text (kv : string * string) : bool :=
  let key_l := lower_text kv.1 in
  bool_decide (key_l ∈ TRACKING_PARAMS) || startswith "utm_" key_l.

(** The list [params] after [params.sort()]. *)
Definition canon_params_text (parsed : ParseResult) : list (string * string) :=
  merge_sort param_le
    (filter (λ kv, is_tracking_text kv = false) (parse_qsl_text (query parsed))).

(** The components handed to [urlunparse], for the query that [urlencode]
    returned. *)
Definition assembled (parsed : ParseResult) (query : string) : ParseResult :=
  {| scheme := canon_scheme parsed; netloc := canon_netloc parsed;
     path := canon_path parsed; params := ""; query := query;
     fragment := "" |}.

End Canon.

(** [is_http_url]. *)
Definition is_http_url (url : string) : bool :=
  Str.startswith "http://" url || Str.startswith "https://" url.

(** [canonicalize_url] as a function of the bytes of the URL: the
    percent-escapes of the query are decoded to the bytes they name. *)
Definition canonicalize_url (url : string) : string :=
  match Urllib.urlparse url with
  | None => url
  | Some parsed => Urllib.urlunparse (Canon.canonical parsed)
  end.

(** The call [canonicalize_url(url)] (lines 78-102). Only [urlparse] is
    inside the [try]: its exception returns [url]. [parse_qsl] decodes the
    escapes as text, with U+FFFD for bytes that are no UTF-8, and
    [urlencode], outside the [try], raises [UnicodeEncodeError] on a key or
    a value that holds a surrogate: the call is [None] then. *)
Definition canonicalize_url_call (url : string) : option string :=
  match Urllib.urlparse url with
  | None => Some url
  | Some parsed =>
      query ← Urllib.urlencode_text (Canon.canon_params_text parsed);
      Some (Urllib.urlunparse (Canon.assembled parsed query))
  end.

(** ** Tab records *)

(** A tab as [load_tabs] builds it and the enrichment loop of [main] fills
    it. [load_tabs] always sets [id], [url], [title], [domain] and
    [canonical_url] to strings; a key that may be absent is an [option] or
    an empty list (what [tab.get(key, [])] reads). *)
Record Tab := {
  tab_id : nat;
  tab_url : string;
  tab_title : string;
  tab_domain : string;
  tab_canonical_url : string;
  tab_keywords : list string;
  tab_tokens : list string;
  tab_embedding : option (list Q);
  tab_simhash : option Z;
  tab_duplicate_of : option nat;
  tab_aliases : list string;
  tab_group_id : Z;
}.

Definition set_canonical_url (c : string) (t : Tab) : Tab :=
  {| tab_id := tab_id t; tab_url := tab_url t; tab_title := tab_title t;
     tab_domain := tab_domain t; tab_canonical_url := c;
     tab_keywords := tab_keywords t; tab_tokens := tab_tokens t;
     tab_embedding := tab_embedding t; tab_simhash := tab_simhash t;
     tab_duplicate_of := tab_duplicate_of t; tab_aliases := tab_aliases t;
     tab_group_id := tab_group_id t |}.

Definition set_duplicate_of (d : option nat) (t : Tab) : Tab :=
  {| tab_id := tab_id t; tab_url := tab_url t; tab_title := tab_title t;
     tab_domain := tab_domain t; tab_canonical_url := tab_canonical_url t;
     tab_keywords := tab_keywords t; tab_tokens := tab_tokens t;
     tab_embedding := tab_embedding t; tab_simhash := tab_simhash t;
     tab_duplicate_of := d; tab_aliases := tab_aliases t;
     tab_group_id := tab_group_id t |}.

Definition set_aliases (a : list string) (t : Tab) : Tab :=
  {| tab_id := tab_id t; tab_url := tab_url t; tab_title := tab_title t;
     tab_domain := tab_domain t; tab_canonical_url := tab_canonical_url t;
     tab_keywords := tab_keywords t; tab_tokens := tab_tokens t;
     tab_embedding := tab_embedding t; tab_simhash := tab_simhash t;
     tab_duplicate_of := tab_duplicate_of t; tab_aliases := a;
     tab_group_id := tab_group_id t |}.

Definition set_group_id (g : Z) (t : Tab) : Tab :=
  {| tab_id := tab_id t; tab_url := tab_url t; tab_title := tab_title t;
     tab_domain := tab_domain t; tab_canonical_url := tab_canonical_url t;
     tab_keywords := tab_keywords t; tab_tokens := tab_tokens t;
     tab_embedding := tab_embedding t; tab_simhash := tab_simhash t;
     tab_duplicate_of := tab_duplicate_of t; tab_aliases := tab_aliases t;
     tab_group_id := g |}.

(** ** Fingerprint distance *)

Fixpoint pos_bit_count (p : positive) : nat :=
  match p with
  | xH => 1
  | xO p' => pos_bit_count p'
  | xI p' => S (pos_bit_count p')
  end.

(** [int.bit_count()]: the number of ones in the absolute value. *)
Definition bit_count (z : Z) : nat :=
  match z with
  | Z0 => 0
  | Zpos p => pos_bit_count p
  | Zneg p => pos_bit_count p
  end.

Definition hamming_distance (a b : Z) : nat := bit_count (Z.lxor a b).

(** ** Fingerprinter *)

(** [hashlib.md5] belongs to the Python library: [token_hash token] stands
    for [int.from_bytes(hashlib.md5(token.encode("utf-8")).digest()[:8],
    "big")], and the fingerprint is defined over any such hash. *)
Section Fingerprint.
Variable token_hash : string → Z.

(** One round of the inner loop: [vector[i] += 1] when bit [i] of [h] is
    set, [vector[i] -= 1] otherwise. The vector has 64 cells, so the index
    is always in range. *)
Definition vote_bit (h : Z) (vector : list Z) (i : nat) : list Z :=
  match vector !! i with
  | Some score =>
      <[i := if Z.testbit h (Z.of_nat i) then (score + 1)%Z else (score - 1)%Z]> vector
  | None => vector
  end.

(** The loop [for i in range(64)] for one token. *)
Definition vote_token (vector : list Z) (token : string) : list Z :=
  foldl (vote_bit (token_hash token)) vector (range 0 64).

(** [value |= 1 << i] for every positive [score] of [enumerate(vector)]. *)
Definition set_bit (value : Z) (entry : nat * Z) : Z :=
  if (0 <? entry.2)%Z then Z.lor value (Z.shiftl 1 (Z.of_nat entry.1)) else value.

Definition vector_value (vector : list Z) : Z :=
  foldl set_bit 0%Z (imap pair vector).

Definition simhash_from_tokens (tokens : list string) : option Z :=
  match tokens with
  | [] => None
  | _ :: _ => Some (vector_value (foldl vote_token (replicate 64 0%Z) tokens))
  end.

End Fingerprint.

(** ** Near-duplicate resolver *)
Module Dedupe.
Import Str.

(** [tab.get("canonical_url") or canonicalize_url(tab.get("url", ""))]. *)
Definition dedupe_key (tab : Tab) : string :=
  if truthy (tab_canonical_url tab) then tab_canonical_url tab
  else canonicalize_url (tab_url tab).

(** The body of the exact-match loop over [enumerate(tabs)]. *)
Definition exact_step (st : list Tab * list nat * gmap string nat) (idx : nat)
  : option (list Tab * list nat * gmap string nat) :=
  let '(tabs, parent, canonical_map) := st in
  tab ← tabs !! idx;
  let canonical := dedupe_key tab in
  if negb (truthy canonical) then Some st
  else
    let tabs := <[idx := set_canonical_url canonical tab]> tabs in
    match canonical_map !! canonical with
    | Some first =>
        parent ← UF.union parent idx first;
        Some (tabs, parent, canonical_map)
    | None => Some (tabs, parent, <[canonical := idx]> canonical_map)
    end.

Definition exact_phase (tabs : list Tab) (parent : list nat)
  : option (list Tab * list nat * gmap string nat) :=
  for_each (range 0 (length tabs)) exact_step (tabs, parent, ∅).

(** The test guarding [union(i, j)] in the fingerprint loop. *)
Definition near_duplicate (hamming_threshold : Z) (ti tj : Tab) (sim_a sim_b : Z)
  : bool :=
  truthy (tab_domain ti) && bool_decide (tab_domain ti = tab_domain tj)
  && bool_decide (Z.of_nat (hamming_distance sim_a sim_b) ≤ hamming_threshold)%Z.

Definition near_step (tabs : list Tab) (hamming_threshold : Z) (i : nat)
    (ti : Tab) (sim_a : Z) (parent : list nat) (j : nat) : option (list nat) :=
  tj ← tabs !! j;
  match tab_simhash tj with
  | None => Some parent
  | Some sim_b =>
      if near_duplicate hamming_threshold ti tj sim_a sim_b
      then UF.union parent i j else Some parent
  end.

Definition near_row (tabs : list Tab) (hamming_threshold : Z)
    (parent : list nat) (i : nat) : option (list nat) :=
  ti ← tabs !! i;
  match tab_simhash ti with
  | None => Some parent
  | Some sim_a =>
      for_each (range (i + 1) (length tabs))
        (near_step tabs hamming_threshold i ti sim_a) parent
  end.

Definition near_phase (tabs : list Tab) (hamming_threshold : Z)
    (parent : list nat) : option (list nat) :=
  for_each (range 0 (length tabs)) (near_row tabs hamming_threshold) parent.

(** The first loop over a cluster: the primary map, the duplicate count and
    the raw URLs of the non-primary members. *)
Definition mark_step (tabs : list Tab) (primary : nat)
    (st : gmap nat nat * nat * list string) (idx : nat)
  : option (gmap nat nat * nat * list string) :=
  let '(primary_map, duplicates, aliases) := st in
  if decide (idx ≠ primary) then
    t ← tabs !! idx;
    Some (<[idx := primary]> primary_map, S duplicates, aliases ++ [tab_url t])
  else Some (<[idx := primary]> primary_map, duplicates, aliases).

(** [existing.add(url)] for every truthy [url]. *)
Definition add_aliases (existing : gset string) (aliases : list string)
  : gset string :=
  foldl (λ ex url, if truthy url then {[url]} ∪ ex else ex) existing aliases.

(** [sorted(existing)]. *)
Definition sorted (existing : gset string) : list string :=
  merge_sort String.le (elements existing).

(** The second loop over a cluster: [duplicate_of] and a missing
    [canonical_url] of every non-primary member. [primary_tab] is a
    reference to [tabs[primary]], so it is read from the current list. *)
Definition link_step (primary : nat) (tabs : list Tab) (idx : nat)
  : option (list Tab) :=
  if decide (idx ≠ primary) then
    t ← tabs !! idx;
    let t := set_duplicate_of (Some primary) t in
    if negb (truthy (tab_canonical_url t)) then
      primary_tab ← tabs !! primary;
      Some (<[idx := set_canonical_url (tab_canonical_url primary_tab) t]> tabs)
    else Some (<[idx := t]> tabs)
  else Some tabs.

(** The body of the loop over [groups.values()]. *)
Definition resolve_step (st : list Tab * gmap nat nat * nat)
    (entry : nat * list nat) : option (list Tab * gmap nat nat * nat) :=
  let '(tabs, primary_map, duplicates) := st in
  let indices := entry.2 in
  primary ← list_min indices;
  '(primary_map, duplicates, aliases) ←
    for_each indices (mark_step tabs primary) (primary_map, duplicates, []);
  match aliases with
  | [] => Some (tabs, primary_map, duplicates)
  | _ :: _ =>
      primary_tab ← tabs !! primary;
      let existing := add_aliases (list_to_set (tab_aliases primary_tab)) aliases in
      let tabs := <[primary := set_aliases (sorted existing) primary_tab]> tabs in
      tabs ← for_each indices (link_step primary) tabs;
      Some (tabs, primary_map, duplicates)
  end.

Definition resolve (groups : list (nat * list nat)) (tabs : list Tab)
  : option (list Tab * gmap nat nat * nat) :=
  for_each groups resolve_step (tabs, ∅, 0).

(** The duplicate clusters: the dictionary [groups] of [dedupe_tabs], with
    the tabs as the exact-match loop leaves them. *)
Definition dedupe_clusters (tabs : list Tab) (hamming_threshold : Z)
  : option (list Tab * list (nat * list nat)) :=
  let parent := range 0 (length tabs) in
  '(tabs, parent, _) ← exact_phase tabs parent;
  parent ← near_phase tabs hamming_threshold parent;
  '(_, groups) ← UF.collect_groups (length tabs) parent;
  Some (tabs, groups).

End Dedupe.

(** [dedupe_tabs] returns [(primary_map, duplicates)] and updates the tabs in
    place; the embedding returns the updated tabs as well. *)
Definition dedupe_tabs (tabs : list Tab) (hamming_threshold : Z)
  : option (list Tab * gmap nat nat * nat) :=
  '(tabs, groups) ← Dedupe.dedupe_clusters tabs hamming_threshold;
  Dedupe.resolve groups tabs.

(** ** Cluster builder *)

(** A group as [build_groups] returns it. *)
Record Group := {
  group_id : nat;
  group_tab_ids : list nat;
  group_size : nat;
}.

Module Groups.

(** [similarity_matrix[i][j]]. *)
Definition cell (similarity_matrix : list (list Q)) (i j : nat) : option Q :=
  row ← similarity_matrix !! i; row !! j.

(** [domain_map.setdefault(domain, []).append(idx)] for a truthy domain. *)
Definition domain_step (domain_map : list (string * list nat)) (entry : nat * Tab)
  : list (string * list nat) :=
  if Str.truthy (tab_domain entry.2)
  then setdefault_append (tab_domain entry.2) entry.1 domain_map
  else domain_map.

Definition build_domain_map (tabs : list Tab) : list (string * list nat) :=
  foldl domain_step [] (imap pair tabs).

(** The body of the loop over [domain_map.values()]. *)
Definition union_domain (domain_group_min : Z) (parent : list nat)
    (entry : string * list nat) : option (list nat) :=
  let indices := entry.2 in
  if (Z.max 2 domain_group_min <=? Z.of_nat (length indices))%Z then
    root ← indices !! 0;
    for_each (drop 1 indices) (λ parent idx, UF.union parent root idx) parent
  else Some parent.

Definition domain_phase (tabs : list Tab) (domain_group_min : Z)
    (parent : list nat) : option (list nat) :=
  for_each (build_domain_map tabs) (union_domain domain_group_min) parent.

(** [scored.sort(key=lambda t: t[1], reverse=True)]: a stable sort by
    descending score. *)
Fixpoint insert_by_score (x : nat * Q) (l : list (nat * Q)) : list (nat * Q) :=
  match l with
  | [] => [x]
  | y :: l' => if Qle_bool x.2 y.2 then y :: insert_by_score x l' else x :: l
  end.

Definition sort_by_score (l : list (nat * Q)) : list (nat * Q) :=
  foldl (λ sorted x, insert_by_score x sorted) [] l.

(** [[(j, similarity_matrix[i][j]) for j in range(n) if j != i]]. *)
Definition scored_row (similarity_matrix : list (list Q)) (n i : nat)
  : option (list (nat * Q)) :=
  mapM (λ j, score ← cell similarity_matrix i j; Some (j, score))
       (filter (λ j, j ≠ i) (range 0 n)).

(** The neighbor set of tab [i]. *)
Definition neighbor_set (similarity_matrix : list (list Q)) (n : nat)
    (threshold : Q) (knn_k : Z) (i : nat) : option (gset nat) :=
  scored ← scored_row similarity_matrix n i;
  let scored := sort_by_score scored in
  let filtered := (filter (λ js, Qle_bool threshold js.2 = true) scored).*1 in
  let filtered := if (0 <? knn_k)%Z then take (Z.to_nat knn_k) filtered else filtered in
  Some (list_to_set filtered).

Definition build_neighbors (similarity_matrix : list (list Q)) (n : nat)
    (threshold : Q) (knn_k : Z) : option (list (gset nat)) :=
  mapM (neighbor_set similarity_matrix n threshold knn_k) (range 0 n).

(** [if i in neighbors[j]: union(i, j)]. *)
Definition mutual_step (neighbors : list (gset nat)) (i : nat)
    (parent : list nat) (j : nat) : option (list nat) :=
  nj ← neighbors !! j;
  if decide (i ∈ (nj : gset nat)) then UF.union parent i j else Some parent.

(** [for j in neighbors[i]]: Python visits a set in hash order, the
    embedding in the order of [elements]. The order decides which index
    becomes the root of a set, not which indices are in it. *)
Definition mutual_row (neighbors : list (gset nat)) (parent : list nat) (i : nat)
  : option (list nat) :=
  ni ← neighbors !! i;
  for_each (elements ni) (mutual_step neighbors i) parent.

Definition mutual_phase (neighbors : list (gset nat)) (n : nat)
    (parent : list nat) : option (list nat) :=
  for_each (range 0 n) (mutual_row neighbors) parent.

(** [if similarity_matrix[i][j] >= threshold: union(i, j)]. *)
Definition threshold_step (similarity_matrix : list (list Q)) (threshold : Q)
    (i : nat) (parent : list nat) (j : nat) : option (list nat) :=
  weight ← cell similarity_matrix i j;
  if Qle_bool threshold weight then UF.union parent i j else Some parent.

Definition threshold_row (similarity_matrix : list (list Q)) (threshold : Q)
    (n : nat) (parent : list nat) (i : nat) : option (list nat) :=
  for_each (range (i + 1) n) (threshold_step similarity_matrix threshold i) parent.

Definition threshold_phase (similarity_matrix : list (list Q)) (threshold : Q)
    (n : nat) (parent : list nat) : option (list nat) :=
  for_each (range 0 n) (threshold_row similarity_matrix threshold n) parent.

(** The dictionary [groups_map]: the sets of the union-find structure. *)
Definition build_group_map (tabs : list Tab) (similarity_matrix : list (list Q))
    (threshold : Q) (domain_group : bool) (domain_group_min : Z)
    (mutual_knn : bool) (knn_k : Z) : option (list (nat * list nat)) :=
  let n := length tabs in
  let parent := range 0 n in
  parent ← (if domain_group then domain_phase tabs domain_group_min parent
            else Some parent);
  parent ← (if mutual_knn then
              neighbors ← build_neighbors similarity_matrix n threshold knn_k;
              mutual_phase neighbors n parent
            else threshold_phase similarity_matrix threshold n parent);
  '(_, groups_map) ← UF.collect_groups n parent;
  Some groups_map.

(** One round of the loop over [enumerate(groups_map.items())]. *)
Definition number_step (tabs : list Tab) (st : list Group * gmap nat nat)
    (entry : nat * (nat * list nat)) : option (list Group * gmap nat nat) :=
  let '(groups, tab_to_group) := st in
  let gid := entry.1 in
  group_tabs ← mapM (λ i, tabs !! i) entry.2.2;
  let tab_ids := tab_id <$> group_tabs in
  Some (groups ++ [{| group_id := gid; group_tab_ids := tab_ids;
                      group_size := length tab_ids |}],
        foldl (λ m tid, <[tid := gid]> m) tab_to_group tab_ids).

Definition number_groups (tabs : list Tab) (groups_map : list (nat * list nat))
  : option (list Group * gmap nat nat) :=
  for_each (imap pair groups_map) (number_step tabs) ([], ∅).

End Groups.

Definition build_groups (tabs : list Tab) (similarity_matrix : list (list Q))
    (threshold : Q) (domain_group : bool) (domain_group_min : Z)
    (mutual_knn : bool) (knn_k : Z) : option (list Group * gmap nat nat) :=
  groups_map ← Groups.build_group_map tabs similarity_matrix threshold
                  domain_group domain_group_min mutual_knn knn_k;
  Groups.number_groups tabs groups_map.

(** ** Similarity scorer *)

(** Scores are rationals: the embedding computes exactly where Python
    computes in binary floating point. *)

(** [sum(x * y for x, y in zip(a, b))]. *)
Definition dot (a b : list Q) : Q := foldl Qplus 0%Q (zip_with Qmult a b).

(** [math.sqrt] belongs to the Python library: the scorer is defined over
    any square-root function. *)
Section Scorer.
Variable sqrt : Q → Q.

Definition cosine_similarity (a b : option (list Q)) : Q :=
  match a, b with
  | Some (x :: a'), Some (y :: b') =>
      let a := x :: a' in
      let b := y :: b' in
      if decide (length a = length b) then
        let norm_a := sqrt (dot a a) in
        let norm_b := sqrt (dot b b) in
        if Qeq_bool norm_a 0 || Qeq_bool norm_b 0 then 0%Q
        else (dot a b / (norm_a * norm_b))%Q
      else 0%Q
  | _, _ => 0%Q
  end.

Definition jaccard (a b : list string) : Q :=
  let set_a : gset string := list_to_set a in
  let set_b : gset string := list_to_set b in
  if decide (set_a = ∅ ∨ set_b = ∅) then 0%Q
  else (inject_Z (Z.of_nat (size (set_a ∩ set_b))) /
        inject_Z (Z.of_nat (size (set_a ∪ set_b))))%Q.

Definition similarity_score (ta tb : Tab) (domain_bonus : Q) : Q :=
  let similarity := cosine_similarity (tab_embedding ta) (tab_embedding tb) in
  let similarity :=
    if Qeq_bool similarity 0 then jaccard (tab_keywords ta) (tab_keywords tb)
    else similarity in
  if Str.truthy (tab_domain ta) && bool_decide (tab_domain ta = tab_domain tb)
  then (similarity + domain_bonus)%Q
  else similarity.

(** [matrix[i][j] = score]; an index out of range raises [IndexError]. *)
Definition set_cell (matrix : list (list Q)) (i j : nat) (score : Q)
  : option (list (list Q)) :=
  row ← matrix !! i;
  _ ← row !! j;
  Some (<[i := <[j := score]> row]> matrix).

(** The body of the inner loop of [build_similarity_matrix]. *)
Definition score_step (tabs : list Tab) (domain_bonus : Q) (i : nat)
    (matrix : list (list Q)) (j : nat) : option (list (list Q)) :=
  ta ← tabs !! i;
  tb ← tabs !! j;
  let score := similarity_score ta tb domain_bonus in
  matrix ← set_cell matrix i j score;
  set_cell matrix j i score.

Definition build_similarity_matrix (tabs : list Tab) (domain_bonus : Q)
  : option (list (list Q)) :=
  let count := length tabs in
  for_each (range 0 count)
    (λ matrix i, for_each (range (i + 1) count) (score_step tabs domain_bonus i) matrix)
    (replicate count (replicate count 0%Q)).

End Scorer.

(** ** Edge builder *)

(** An edge as [build_edges] appends it. *)
Record Edge := {
  edge_source : nat;
  edge_target : nat;
  edge_weight : Q;
  edge_reason : string;
}.

(** Rounding to the nearest integer, a tie going to the even one. *)
Definition round_half_even (q : Q) : Z :=
  let f := Qfloor q in
  match Qcompare (q - inject_Z f) (1 # 2) with
  | Lt => f
  | Gt => (f + 1)%Z
  | Eq => if Z.even f then f else (f + 1)%Z
  end.

(** [round(x, ndigits)]: the closest multiple of [10 ** -ndigits], a tie
    going to the even one. *)
Definition round (x : Q) (ndigits : nat) : Q :=
  let scale := inject_Z (10 ^ Z.of_nat ndigits) in
  (inject_Z (round_half_even (x * scale)) / scale)%Q.

(** The body of the inner loop of [build_edges]. *)
Definition edge_step (tabs : list Tab) (similarity_matrix : list (list Q))
    (threshold : Q) (i : nat) (edges : list Edge) (j : nat) : option (list Edge) :=
  weight ← Groups.cell similarity_matrix i j;
  if Qle_bool threshold weight then
    ti ← tabs !! i;
    tj ← tabs !! j;
    let reason :=
      if decide (tab_domain ti = tab_domain tj) then "similarity+domain"
      else "similarity" in
    Some (edges ++ [{| edge_source := tab_id ti; edge_target := tab_id tj;
                       edge_weight := round weight 3; edge_reason := reason |}])
  else Some edges.

Definition build_edges (tabs : list Tab) (similarity_matrix : list (list Q))
    (threshold : Q) : option (list Edge) :=
  let n := length tabs in
  for_each (range 0 n)
    (λ edges i, for_each (range (i + 1) n) (edge_step tabs similarity_matrix threshold i) edges)
    [].

(** ** Graph assembly *)

(** The command-line options that the core reads. *)
Record Args := {
  args_dedupe_hamming : Z;
  args_domain_bonus : Q;
  args_edge_threshold : Q;
  args_group_threshold : Q;
  args_no_domain_group : bool;
  args_domain_group_min : Z;
  args_no_mutual_knn : bool;
  args_knn_k : Z;
  args_store_embeddings : bool;
}.

(** The counters of [graph["stats"]] that the core computes; the others
    count the requests of the enrichment loop. *)
Record Stats := {
  tab_count : nat;
  group_count : nat;
  edge_count : nat;
  duplicates : nat;
}.

(** A group of the output graph. *)
Record LabeledGroup := {
  labeled_id : nat;
  labeled_label : string;
  labeled_tab_ids : list nat;
  labeled_size : nat;
}.

Record Graph := {
  graph_stats : Stats;
  graph_tabs : list Tab;
  graph_groups : list LabeledGroup;
  graph_edges : list Edge;
}.

(** [tab.pop("tokens", None)], and [tab.pop("embedding", None)] unless
    embeddings are stored. *)
Definition pop_fields (store_embeddings : bool) (t : Tab) : Tab :=
  {| tab_id := tab_id t; tab_url := tab_url t; tab_title := tab_title t;
     tab_domain := tab_domain t; tab_canonical_url := tab_canonical_url t;
     tab_keywords := tab_keywords t; tab_tokens := [];
     tab_embedding := if store_embeddings then tab_embedding t else None;
     tab_simhash := tab_simhash t; tab_duplicate_of := tab_duplicate_of t;
     tab_aliases := tab_aliases t; tab_group_id := tab_group_id t |}.

(** One round of the loop that gives every tab its [group_id]: the state
    is the tabs updated so far and the dictionary [groups_map]. The id [-1]
    is the key of no group. *)
Definition assign_step (primary_map tab_to_group_primary : gmap nat nat)
    (st : list Tab * gmap nat (list nat)) (tab : Tab)
  : list Tab * gmap nat (list nat) :=
  let '(updated, groups_map) := st in
  let primary_id := default (tab_id tab) (primary_map !! tab_id tab) in
  let group_id := tab_to_group_primary !! primary_id in
  (updated ++ [set_group_id (from_option Z.of_nat (-1)%Z group_id) tab],
   match group_id with
   | Some gid =>
       match groups_map !! gid with
       | Some tab_ids => <[gid := tab_ids ++ [tab_id tab]]> groups_map
       | None => groups_map
       end
   | None => groups_map
   end).

(** [{g.get("id"): [] for g in groups_primary}]. *)
Definition empty_groups_map (groups_primary : list Group) : gmap nat (list nat) :=
  foldl (λ m g, <[group_id g := []]> m) ∅ groups_primary.

(** [{t.get("id"): t for t in tabs}]. The dictionary holds the tab objects
    themselves, so it is read off the tabs as the assignment loop leaves
    them. *)
Definition index_by_id (tabs : list Tab) : gmap nat Tab :=
  foldl (λ m t, <[tab_id t := t]> m) ∅ tabs.

(** [label_group] and [compute_idf] pick the words of a label; the assembly
    is defined over any labelling of a group's primary tabs given the
    documents of all primary tabs. *)
Section Assembly.
Variable sqrt : Q → Q.
Variable label_group : list Tab → list (list string) → string.

(** One round of the loop over [groups_primary]. *)
Definition label_step (tab_by_id : gmap nat Tab) (groups_map : gmap nat (list nat))
    (primary_docs : list (list string)) (group : Group) : LabeledGroup :=
  let gid := group_id group in
  let tab_ids := default [] (groups_map !! gid) in
  let group_primary_tabs := omap (λ tid, tab_by_id !! tid) tab_ids in
  let group_primary_tabs :=
    filter (λ t, tab_duplicate_of t = None) group_primary_tabs in
  {| labeled_id := gid;
     labeled_label := label_group group_primary_tabs primary_docs;
     labeled_tab_ids := tab_ids;
     labeled_size := length tab_ids |}.

(** [main] from the call of [dedupe_tabs] to the dictionary [graph], on the
    tabs as the enrichment loop leaves them. *)
Definition main (tabs : list Tab) (args : Args) : option Graph :=
  '(tabs, primary_map, duplicates) ← dedupe_tabs tabs (args_dedupe_hamming args);
  let primary_tabs := filter (λ t, tab_duplicate_of t = None) tabs in
  let primary_docs := tab_tokens <$> primary_tabs in
  similarity_matrix ← build_similarity_matrix sqrt primary_tabs (args_domain_bonus args);
  edges ← build_edges primary_tabs similarity_matrix (args_edge_threshold args);
  '(groups_primary, tab_to_group_primary) ←
    build_groups primary_tabs similarity_matrix (args_group_threshold args)
      (negb (args_no_domain_group args)) (args_domain_group_min args)
      (negb (args_no_mutual_knn args)) (args_knn_k args);
  let '(tabs, groups_map) :=
    foldl (assign_step primary_map tab_to_group_primary)
          ([], empty_groups_map groups_primary) tabs in
  let tab_by_id := index_by_id tabs in
  let groups := label_step tab_by_id groups_map primary_docs <$> groups_primary in
  let tabs := pop_fields (args_store_embeddings args) <$> tabs in
  Some {| graph_stats := {| tab_count := length tabs;
                            group_count := length groups;
                            edge_count := length edges;
                            duplicates := duplicates |};
          graph_tabs := tabs;
          graph_groups := groups;
          graph_edges := edges |}.

End Assembly.

(** ** More [str] operations *)
Module Text.
Import Str.

(** [len(s)]. *)
Fixpoint len (s : string) : nat :=
  match s with
  | EmptyString => 0
  | String _ s' => S (len s')
  end.

(** The first [n] characters. *)
Fixpoint take (n : nat) (s : string) : string :=
  match n, s with
  | S n', String a s' => String a (take n' s')
  | _, _ => EmptyString
  end.

(** [s[:k]]: a negative [k] counts from the end. *)
Definition slice_to (k : Z) (s : string) : string :=
  if (0 <=? k)%Z then take (Z.to_nat k) s
  else take (len s - Z.to_nat (- k)) s.

(** The index of the last [c] of [s], counted from [i]. *)
Fixpoint rfind_from (i : nat) (c : ascii) (s : string) : option nat :=
  match s with
  | EmptyString => None
  | String a s' =>
      match rfind_from (S i) c s' with
      | Some j => Some j
      | None => if bool_decide (a = c) then Some i else None
      end
  end.

(** [s.rfind(c)]: [-1] when [c] does not occur. *)
Definition rfind (c : ascii) (s : string) : Z :=
  from_option Z.of_nat (-1)%Z (rfind_from 0 c s).

(** The ASCII characters for which [str.isspace] holds. *)
Definition is_space (c : ascii) : bool :=
  between 9 13 c || between 28 32 c.

(** [s.rstrip(chars)] for the characters accepted by [f]. *)
Fixpoint rstrip (f : ascii → bool) (s : string) : string :=
  match s with
  | EmptyString => EmptyString
  | String a s' =>
      match rstrip f s' with
      | EmptyString => if f a then EmptyString else String a EmptyString
      | r => String a r
      end
  end.

(** [s.strip()]. *)
Definition strip (s : string) : string := rstrip is_space (lstrip is_space s).

(** [s.split()]: the maximal runs of characters that are not white space. *)
Fixpoint split_ws (s : string) : list string :=
  match s with
  | EmptyString => []
  | String a s' =>
      if is_space a then split_ws s'
      else
        match s' with
        | EmptyString => [String a EmptyString]
        | String b _ =>
            if is_space b then String a EmptyString :: split_ws s'
            else
              match split_ws s' with
              | w :: ws => String a w :: ws
              | [] => [String a EmptyString]
              end
        end
  end.

(** [sep.join(l)]. *)
Fixpoint join_with (sep : string) (l : list string) : string :=
  match l with
  | [] => EmptyString
  | [x] => x
  | x :: l' => x +:+ sep +:+ join_with sep l'
  end.

End Text.

(** ** Loader *)

(** [normalize_domain]. [urlparse] raising makes it raise; [split] returns
    at least one piece. *)
Definition normalize_domain (url : string) : option string :=
  parsed ← Urllib.urlparse url;
  domain ← head (Str.split ":" (Str.lower (Urllib.netloc parsed)));
  Some (if Str.startswith "www." domain then Str.drop 4 domain else domain).

(** A tab of the backup file: [t.get("url")] and [t.get("title")], [None]
    for a missing key or a JSON [null]. *)
Record RawTab := {
  raw_url : option string;
  raw_title : option string;
}.

(** The values [browser] and [windowId] of a window are copied to its tabs
    and never read: they are of any type [J]. *)
Record Window (J : Type) := {
  window_browser : J;
  window_id : J;
  window_tabs : list RawTab;
}.
Arguments window_browser {J} _.
Arguments window_id {J} _.
Arguments window_tabs {J} _.

(** A tab as [load_tabs] appends it: the fields the core reads, and the two
    values of its window. The key [group_id] is absent until [main] sets
    it; the embedding holds [-1] there. *)
Record Loaded (J : Type) := {
  loaded_tab : Tab;
  loaded_browser : J;
  loaded_window_id : J;
}.
Arguments loaded_tab {J} _.
Arguments loaded_browser {J} _.
Arguments loaded_window_id {J} _.

Section Loader.
Context {J : Type}.

(** The body of the loop over [w.get("tabs", [])]. *)
Definition load_tab (w : Window J) (tabs : list (Loaded J)) (t : RawTab)
  : option (list (Loaded J)) :=
  let url := Text.strip (default "" (raw_url t)) in
  if negb (Str.truthy url) then Some tabs
  else
    let title := Text.strip (default "" (raw_title t)) in
    let tab_id := length tabs in
    canonical_url ← canonicalize_url_call url;
    domain ← normalize_domain url;
    Some (tabs ++
          [{| loaded_tab :=
                {| tab_id := tab_id; tab_url := url; tab_title := title;
                   tab_domain := domain; tab_canonical_url := canonical_url;
                   tab_keywords := []; tab_tokens := []; tab_embedding := None;
                   tab_simhash := None; tab_duplicate_of := None;
                   tab_aliases := []; tab_group_id := (-1)%Z |};
              loaded_browser := window_browser w;
              loaded_window_id := window_id w |}]).

(** [load_tabs], from the parsed JSON of the backup file. *)
Definition load_tabs (data : list (Window J)) : option (list (Loaded J)) :=
  for_each data (λ tabs w, for_each (window_tabs w) (load_tab w) tabs) [].

End Loader.

(** ** Text clipping *)

Definition truncate_text (text : string) (max_chars : Z) : string :=
  if (Z.of_nat (Text.len text) <=? max_chars)%Z then text
  else
    let clipped := Text.slice_to (max_chars - 1) text in
    let last_space := Text.rfind " " clipped in
    if (200 <? last_space)%Z then Text.slice_to last_space clipped else clipped.

(** [build_embedding_text]. *)
Definition build_embedding_text (title summary domain fallback : string) : string :=
  let parts := [] in
  let parts := if Str.truthy title then parts ++ ["Title: " +:+ title] else parts in
  let parts := if Str.truthy summary then parts ++ ["Summary: " +:+ summary] else parts in
  let parts := if Str.truthy domain then parts ++ ["Domain: " +:+ domain] else parts in
  let parts :=
    if negb (bool_decide (parts ≠ [])) && Str.truthy fallback
    then parts ++ [fallback] else parts in
  Text.join_with (String (ascii_of_nat 10) EmptyString) parts.

(** ** Tokens and keywords *)

Definition STOPWORDS : list string :=
  [
   "a"; "about"; "above"; "after"; "again"; "against"; "all"; "am";
   "an"; "and"; "any"; "are"; "as"; "at"; "be"; "because";
   "been"; "before"; "being"; "below"; "between"; "both"; "but"; "by";
   "can"; "did"; "do"; "does"; "doing"; "down"; "during"; "each";
   "few"; "for"; "from"; "further"; "had"; "has"; "have"; "having";
   "he"; "her"; "here"; "hers"; "herself"; "him"; "himself"; "his";
   "how"; "i"; "if"; "in"; "into"; "is"; "it"; "its";
   "itself"; "just"; "me"; "more"; "most"; "my"; "myself"; "no";
   "nor"; "not"; "now"; "of"; "off"; "on"; "once"; "only";
   "or"; "other"; "our"; "ours"; "ourselves"; "out"; "over"; "own";
   "same"; "she"; "should"; "so"; "some"; "such"; "than"; "that";
   "the"; "their"; "theirs"; "them"; "themselves"; "then"; "there"; "these";
   "they"; "this"; "those"; "through"; "to"; "too"; "under"; "until";
   "up"; "very"; "was"; "we"; "were"; "what"; "when"; "where";
   "which"; "while"; "who"; "whom"; "why"; "with"; "would"; "you";
   "your"; "yours"; "yourself"; "yourselves" ].

(** A character of the class [[a-z0-9]]. *)
Definition is_word_char (c : ascii) : bool := Str.is_lower c || Str.is_digit c.

(** [re.sub(r"[^a-z0-9]+", " ", text)]: every maximal run of other
    characters becomes one space. [in_run] tells that the run has begun. *)
Fixpoint sub_other (in_run : bool) (text : string) : string :=
  match text with
  | EmptyString => EmptyString
  | String c text' =>
      if is_word_char c then String c (sub_other false text')
      else if in_run then sub_other true text'
      else String " " (sub_other true text')
  end.

(** [tokenize], on text whose letters are ASCII. *)
Definition tokenize (text : string) : list string :=
  let text := Str.lower text in
  let text := sub_other false text in
  filter (λ t, 3 ≤ Text.len t ∧ t ∉ STOPWORDS) (Text.split_ws text).

(** [counts[t] += 1] on an insertion-ordered [Counter]. *)
Fixpoint count_up {K : Type} `{EqDecision K} (k : K) (counts : list (K * nat))
  : list (K * nat) :=
  match counts with
  | [] => [(k, 1)]
  | (k', n) :: counts' =>
      if decide (k' = k) then (k', S n) :: counts'
      else (k', n) :: count_up k counts'
  end.

(** [Counter(items)]. *)
Definition Counter {K : Type} `{EqDecision K} (items : list K) : list (K * nat) :=
  foldl (λ counts k, count_up k counts) [] items.

(** A stable sort by descending count: what [sorted(..., key=itemgetter(1),
    reverse=True)] and [heapq.nlargest] return. *)
Fixpoint insert_by_count {K : Type} (x : K * nat) (l : list (K * nat))
  : list (K * nat) :=
  match l with
  | [] => [x]
  | y :: l' => if x.2 <=? y.2 then y :: insert_by_count x l' else x :: l
  end.

Definition sort_by_count {K : Type} (l : list (K * nat)) : list (K * nat) :=
  foldl (λ sorted x, insert_by_count x sorted) [] l.

(** [counts.most_common(n)] for an integer [n]: [heapq.nlargest] returns
    nothing for [n <= 0]. *)
Definition most_common {K : Type} (n : Z) (counts : list (K * nat))
  : list (K * nat) :=
  if (n <=? 0)%Z then [] else take (Z.to_nat n) (sort_by_count counts).

Definition extract_keywords (text : string) (max_keywords : Z) : list string :=
  let tokens := tokenize text in
  let counts := Counter tokens in
  (most_common max_keywords counts).*1.

(** ** Summary cache *)

(** [get_cache_entry], on a cache of entries of any type. *)
Definition get_cache_entry {A : Type} (cache : gmap string A) (url : string)
  : option A * option string :=
  if decide (size cache = 0) then (None, None)
  else
    match cache !! url with
    | Some entry => (Some entry, Some url)
    | None =>
        match cache !! canonicalize_url url with
        | Some entry => (Some entry, Some (canonicalize_url url))
        | None => (None, None)
        end
    end.

(** The update of the cache that ends the enrichment of a tab ([main],
    lines 754-769): the entry goes under the tab's canonical URL and under
    the canonical form of its raw URL. *)
Definition store_cache_entry {A : Type} (cache : gmap string A)
    (tab_canonical url : string) (entry : A) : gmap string A :=
  let cache_key :=
    if Str.truthy tab_canonical then tab_canonical else canonicalize_url url in
  let alt_key := canonicalize_url url in
  if Str.truthy cache_key then
    let cache := <[cache_key := entry]> cache in
    if Str.truthy alt_key && negb (bool_decide (alt_key = cache_key))
    then <[alt_key := entry]> cache else cache
  else cache.

(** *** What the resolver is meant to compute *)
Module DedupeSpec.
Import Str Dedupe.

(** A tab after the exact-match loop: a truthy key is stored as its
    [canonical_url]. *)
Definition filled (t : Tab) : Tab :=
  if truthy (dedupe_key t) then set_canonical_url (dedupe_key t) t else t.

(** Tabs [a] and [b] have the same truthy key. *)
Definition same_key (tabs : list Tab) (a b : nat) : Prop :=
  ∃ ta tb, tabs !! a = Some ta ∧ tabs !! b = Some tb ∧
    dedupe_key ta = dedupe_key tb ∧ truthy (dedupe_key ta) = true.

(** Tabs [a] and [b] both carry a fingerprint and pass the test of the
    fingerprint loop. *)
Definition near (tabs : list Tab) (hamming_threshold : Z) (a b : nat) : Prop :=
  ∃ ta tb sim_a sim_b, tabs !! a = Some ta ∧ tabs !! b = Some tb ∧
    tab_simhash ta = Some sim_a ∧ tab_simhash tb = Some sim_b ∧
    near_duplicate hamming_threshold ta tb sim_a sim_b = true.

(** [p'] has the length of [p] and splits none of its sets. *)
Definition extends (p p' : list nat) : Prop :=
  length p' = length p ∧ ∀ a b, UF.same p a b → UF.same p' a b.

(** The two ways the resolver unions a pair of tabs: an equal non-empty
    [canonical_url], or the same non-empty domain with fingerprints at
    Hamming distance at most the threshold. *)
Definition unioned (tabs : list Tab) (hamming_threshold : Z) (a b : nat) : Prop :=
  ∃ ta tb, tabs !! a = Some ta ∧ tabs !! b = Some tb ∧
    ((tab_canonical_url ta = tab_canonical_url tb ∧ tab_canonical_url ta ≠ "") ∨
     (tab_domain ta ≠ "" ∧ tab_domain ta = tab_domain tb ∧
      ∃ sim_a sim_b, tab_simhash ta = Some sim_a ∧ tab_simhash tb = Some sim_b ∧
        (Z.of_nat (hamming_distance sim_a sim_b) ≤ hamming_threshold)%Z)).

(** The dictionary [groups] after the indices below [k]: one entry per root
    of [p], holding the indices of that root's set. *)
Definition clusters_ok (p : list nat) (k : nat) (groups : list (nat * list nat))
  : Prop :=
  NoDup groups.*1 ∧
  (∀ r l, (r, l) ∈ groups →
     NoDup l ∧ l ≠ [] ∧ ∀ idx, idx ∈ l ↔ idx < k ∧ ∃ d, UF.reach p idx r d) ∧
  (∀ idx r d, idx < k → UF.reach p idx r d → r ∈ groups.*1).

(** The list [aliases] built for a cluster: the raw URLs of its non-primary
    members. *)
Definition cluster_aliases (tabs : list Tab) (indices : list nat) (primary : nat)
  : list string :=
  tab_url <$> omap (λ idx, tabs !! idx) (filter (λ idx, idx ≠ primary) indices).

(** The primary of a cluster after resolution. *)
Definition resolved_primary (tabs : list Tab) (indices : list nat)
    (primary : nat) (tp : Tab) : Tab :=
  match cluster_aliases tabs indices primary with
  | [] => tp
  | al => set_aliases (sorted (add_aliases (list_to_set (tab_aliases tp)) al)) tp
  end.

(** A non-primary member [t] of a cluster after resolution. *)
Definition resolved_alias (primary : nat) (tp t : Tab) : Tab :=
  if truthy (tab_canonical_url t) then set_duplicate_of (Some primary) t
  else set_canonical_url (tab_canonical_url tp) (set_duplicate_of (Some primary) t).

Definition resolved (tabs : list Tab) (indices : list nat) (primary idx : nat)
  : option Tab :=
  t ← tabs !! idx;
  tp ← tabs !! primary;
  Some (if decide (idx = primary) then resolved_primary tabs indices primary tp
        else resolved_alias primary tp t).

(** The record kept for the duplicates of every cluster: a non-primary
    member points to the primary's id, and the primary's [aliases] are
    duplicate-free, sorted, and hold the raw URL of each non-primary member
    whose URL satisfies [kept]. *)
Definition duplicates_recorded (kept : string → Prop) (tabs : list Tab)
    (hamming_threshold : Z) : Prop :=
  ∀ tabs1 groups tabs' primary_map duplicates,
    dedupe_clusters tabs hamming_threshold = Some (tabs1, groups) →
    dedupe_tabs tabs hamming_threshold = Some (tabs', primary_map, duplicates) →
    ∀ root indices primary idx t0,
      (root, indices) ∈ groups → list_min indices = Some primary →
      idx ∈ indices → idx ≠ primary → tabs !! idx = Some t0 →
      ∃ t tp, tabs' !! idx = Some t ∧ tabs' !! primary = Some tp ∧
        tab_duplicate_of t = Some (tab_id tp) ∧
        (kept (tab_url t0) → tab_url t0 ∈ tab_aliases tp) ∧
        NoDup (tab_aliases tp) ∧ StronglySorted String.le (tab_aliases tp).

(** The primary of a cluster with duplicates that had no [canonical_url]
    ends with the [canonical_url] of one of its non-primary members. *)
Definition primary_inherits_canonical (tabs : list Tab) (hamming_threshold : Z)
  : Prop :=
  ∀ tabs1 groups tabs' primary_map duplicates,
    dedupe_clusters tabs hamming_threshold = Some (tabs1, groups) →
    dedupe_tabs tabs hamming_threshold = Some (tabs', primary_map, duplicates) →
    ∀ root indices primary tp0,
      (root, indices) ∈ groups → list_min indices = Some primary →
      tabs !! primary = Some tp0 → tab_canonical_url tp0 = "" →
      (∃ idx, idx ∈ indices ∧ idx ≠ primary) →
      ∃ tp idx t, tabs' !! primary = Some tp ∧
        idx ∈ indices ∧ idx ≠ primary ∧
        (tabs !! idx = Some t ∨ tabs' !! idx = Some t) ∧
        tab_canonical_url tp = tab_canonical_url t.

(** Ids are assigned in input order: [load_tabs] sets [id] to [len(tabs)]. *)
Definition ids_positional (tabs : list Tab) : Prop :=
  ∀ i t, tabs !! i = Some t → tab_id t = i.

End DedupeSpec.

(** *** What the cluster builder is meant to compute *)
Module GroupsSpec.

(** The matrix has a cell for every pair of tabs. *)
Definition square (n : nat) (similarity_matrix : list (list Q)) : Prop :=
  ∀ i j, i < n → j < n → is_Some (Groups.cell similarity_matrix i j).

(** The dictionary [domain_map]: one entry per non-empty domain, holding
    the indices of the tabs of that domain. *)
Definition domain_map_ok (tabs : list Tab) (domain_map : list (string * list nat))
  : Prop :=
  NoDup domain_map.*1 ∧
  (∀ d l, (d, l) ∈ domain_map →
     d ≠ "" ∧ NoDup l ∧
     (∀ idx, idx ∈ l ↔ ∃ t, tabs !! idx = Some t ∧ tab_domain t = d) ∧
     length l = length (filter (λ t, tab_domain t = d) tabs)) ∧
  (∀ idx t, tabs !! idx = Some t → tab_domain t ≠ "" →
     tab_domain t ∈ domain_map.*1).

(** Tabs [i] and [j] share a non-empty domain that at least
    [domain_group_min] tabs have. *)
Definition same_domain (tabs : list Tab) (domain_group_min : Z) (i j : nat) : Prop :=
  ∃ ti tj, tabs !! i = Some ti ∧ tabs !! j = Some tj ∧
    tab_domain ti = tab_domain tj ∧ tab_domain ti ≠ "" ∧
    (domain_group_min ≤
       Z.of_nat (length (filter (λ t, tab_domain t = tab_domain ti) tabs)))%Z.

(** The parent array after the domain rule (or the initial one when the
    rule is off): the first step of [build_group_map]. *)
Definition domain_parent (tabs : list Tab) (domain_group : bool)
    (domain_group_min : Z) : option (list nat) :=
  if domain_group
  then Groups.domain_phase tabs domain_group_min (range 0 (length tabs))
  else Some (range 0 (length tabs)).

(** Each of two tabs scores the other at or above the threshold. *)
Definition mutually_similar (n : nat) (similarity_matrix : list (list Q))
    (threshold : Q) (i j : nat) : Prop :=
  i < n ∧ j < n ∧ i ≠ j ∧
  ∃ w w', Groups.cell similarity_matrix i j = Some w ∧
          Groups.cell similarity_matrix j i = Some w' ∧
          Qle_bool threshold w = true ∧ Qle_bool threshold w' = true.

(** Two tab ids lie in one group. *)
Definition merged (groups : list Group) (a b : nat) : Prop :=
  ∃ g, g ∈ groups ∧ a ∈ group_tab_ids g ∧ b ∈ group_tab_ids g.

(** A group lists the ids of the tabs of an entry of [groups_map]. *)
Definition group_of (tabs : list Tab) (entry : nat * (nat * list nat)) (g : Group)
  : Prop :=
  group_id g = entry.1 ∧
  Forall2 (λ i tid, ∃ t, tabs !! i = Some t ∧ tab_id t = tid)
          entry.2.2 (group_tab_ids g).

End GroupsSpec.

(** *** What the edge builder and the assembly are meant to compute *)
Module GraphSpec.

(** A matrix of [n] rows of [n] cells. *)
Definition dims (n : nat) (matrix : list (list Q)) : Prop :=
  length matrix = n ∧ ∀ i row, matrix !! i = Some row → length row = n.

(** The edge of the pair [i < j] of [tabs], whose score [w] passes the
    threshold. *)
Definition edge_of (tabs : list Tab) (similarity_matrix : list (list Q))
    (threshold : Q) (e : Edge) : Prop :=
  ∃ i j ti tj w, i < j ∧ tabs !! i = Some ti ∧ tabs !! j = Some tj ∧
    Groups.cell similarity_matrix i j = Some w ∧ (threshold <= w)%Q ∧
    edge_source e = tab_id ti ∧ edge_target e = tab_id tj ∧
    edge_weight e = round w 3 ∧
    edge_reason e = (if decide (tab_domain ti = tab_domain tj)
                     then "similarity+domain" else "similarity").

(** The tab as the assignment loop of [main] leaves it. *)
Definition assigned (primary_map tab_to_group_primary : gmap nat nat) (tab : Tab)
  : Tab :=
  set_group_id
    (from_option Z.of_nat (-1)%Z
       (tab_to_group_primary !! default (tab_id tab) (primary_map !! tab_id tab)))
    tab.

(** [tid] is the id of a tab of the graph that duplicates no other. *)
Definition primary_id (graph : Graph) (tid : nat) : Prop :=
  ∃ t, t ∈ graph_tabs graph ∧ tab_id t = tid ∧ tab_duplicate_of t = None.

(** The shape of an edge: primary endpoints, the smaller id first, and a
    weight field that satisfies [weight_ok]. *)
Definition edge_well_formed (weight_ok : Q → Prop) (graph : Graph) (e : Edge)
  : Prop :=
  primary_id graph (edge_source e) ∧ primary_id graph (edge_target e) ∧
  edge_source e < edge_target e ∧ weight_ok (edge_weight e).

(** The edge joins the tabs at the indices [edge_source] and [edge_target]
    of [tabs], the list as [dedupe_tabs] leaves it: both are primary, their
    score passes the threshold, and the weight field is that score rounded
    to three decimals. *)
Definition scored_edge (sqrt : Q → Q) (domain_bonus threshold : Q)
    (tabs : list Tab) (e : Edge) : Prop :=
  ∃ ti tj, tabs !! edge_source e = Some ti ∧ tabs !! edge_target e = Some tj ∧
    tab_duplicate_of ti = None ∧ tab_duplicate_of tj = None ∧
    (threshold <= similarity_score sqrt ti tj domain_bonus)%Q ∧
    edge_weight e = round (similarity_score sqrt ti tj domain_bonus) 3.

Section Graphs.
Variable sqrt : Q → Q.
Variable label_group : list Tab → list (list string) → string.

(** Every edge of the graph that [main] builds is well formed. *)
Definition edges_well_formed (weight_ok : Q → Q → Prop) (tabs : list Tab)
    (args : Args) : Prop :=
  ∀ graph, main sqrt label_group tabs args = Some graph →
    ∀ e, e ∈ graph_edges graph →
      edge_well_formed (weight_ok (args_edge_threshold args)) graph e.

End Graphs.

End GraphSpec.

(** *** What the canonicalizer is meant to compute *)
Module CanonSpec.
Import Str Urllib Canon.

(** The call returns every input of the class [malformed] unchanged. *)
Definition returned_unchanged (malformed : string → Prop) : Prop :=
  ∀ url, malformed url → canonicalize_url_call url = Some url.


End CanonSpec.

(** *** Sample tabs *)
Module Samples.

(** U+DC80 alone, as the JSON text ["\udc80"] gives it. *)
Definition lone_surrogate : string :=
  String (ascii_of_nat 237) (String (ascii_of_nat 178)
    (String (ascii_of_nat 128) EmptyString)).

(** A tab as [load_tabs] leaves it, with a fingerprint. *)
Definition sample_tab (i : nat) (url canonical domain : string) (h : option Z) : Tab :=
  {| tab_id := i; tab_url := url; tab_title := ""; tab_domain := domain;
     tab_canonical_url := canonical; tab_keywords := []; tab_tokens := [];
     tab_embedding := None; tab_simhash := h; tab_duplicate_of := None;
     tab_aliases := []; tab_group_id := (-1)%Z |}.

(** Tabs 0 and 1 share a canonical URL; tabs 1 and 2 share a domain and
    have fingerprints one bit apart. *)
Definition chain_tabs : list Tab :=
  [ sample_tab 0 "https://a.com/x?utm_source=y" "https://a.com/x" "a.com" None;
    sample_tab 1 "https://a.com/x" "https://a.com/x" "a.com" (Some 1024%Z);
    sample_tab 2 "https://a.com/q" "https://a.com/q" "a.com" (Some 1025%Z) ].

(** Tab 1 duplicates tab 0 and has an empty raw URL. *)
Definition empty_url_tabs : list Tab :=
  [ sample_tab 0 "https://a.com/x" "https://a.com/x" "a.com" None;
    sample_tab 1 "" "https://a.com/x" "a.com" None ].

(** Tab 0 has no [canonical_url]; tab 1 is its near-duplicate. *)
Definition uncanonical_tabs : list Tab :=
  [ sample_tab 0 "https://a.com/x" "" "a.com" (Some 5%Z);
    sample_tab 1 "https://a.com/y" "https://a.com/y" "a.com" (Some 5%Z) ].

(** Three tabs of one domain with nothing else in common. *)
Definition same_domain_tabs : list Tab :=
  [ sample_tab 0 "https://a.com/1" "https://a.com/1" "a.com" None;
    sample_tab 1 "https://a.com/2" "https://a.com/2" "a.com" None;
    sample_tab 2 "https://a.com/3" "https://a.com/3" "a.com" None ].

Definition dissimilar_matrix : list (list Q) :=
  [ [0; 0; 0]; [0; 0; 0]; [0; 0; 0] ]%Q.

(** Three tabs of three domains: tab 1 resembles both others, which do not
    resemble each other. *)
Definition bridge_tabs : list Tab :=
  [ sample_tab 0 "https://a.com/" "https://a.com" "a.com" None;
    sample_tab 1 "https://b.com/" "https://b.com" "b.com" None;
    sample_tab 2 "https://c.com/" "https://c.com" "c.com" None ].

Definition bridge_matrix : list (list Q) :=
  [ [0; 9 # 10; 0]; [9 # 10; 0; 8 # 10]; [0; 8 # 10; 0] ]%Q.

(** A tab as the enrichment loop leaves it, with keywords. *)
Definition keyword_tab (i : nat) (url domain : string) (keywords : list string)
  : Tab :=
  {| tab_id := i; tab_url := url; tab_title := ""; tab_domain := domain;
     tab_canonical_url := url; tab_keywords := keywords; tab_tokens := [];
     tab_embedding := None; tab_simhash := None; tab_duplicate_of := None;
     tab_aliases := []; tab_group_id := (-1)%Z |}.

(** Two tabs of two domains that share one keyword of three: their score is
    [1/3]. *)
Definition third_tabs : list Tab :=
  [ keyword_tab 0 "https://a.com/x" "a.com" ["rust"; "parser"];
    keyword_tab 1 "https://b.com/y" "b.com" ["parser"; "python"] ].

(** The default options, with an edge threshold. *)
Definition sample_args (edge_threshold : Q) : Args :=
  {| args_dedupe_hamming := 3; args_domain_bonus := 25 # 100;
     args_edge_threshold := edge_threshold; args_group_threshold := 25 # 100;
     args_no_domain_group := false; args_domain_group_min := 2;
     args_no_mutual_knn := false; args_knn_k := 6;
     args_store_embeddings := false |}.

(** No sample tab carries an embedding, so no square root is ever taken. *)
Definition unused_sqrt (x : Q) : Q := x.

(** The label of a group: the title of its first primary tab. *)
Definition first_title (group_primary_tabs : list Tab) (_ : list (list string))
  : string :=
  from_option tab_title "" (head group_primary_tabs).

End Samples.

(** *** Properties of the parent array *)
Module UFFacts.
Import UF.

Lemma reach_lt p x r d : reach p x r d → x < length p.
Proof. destruct 1; by eapply lookup_lt_Some. Qed.

Lemma reach_is_root p x r d : reach p x r d → p !! r = Some r.
Proof. induction 1; auto. Qed.

Lemma reach_root_lt p x r d : reach p x r d → r < length p.
Proof. intros H. eapply lookup_lt_Some, reach_is_root, H. Qed.

Lemma reach_det p x r d :
  reach p x r d → ∀ r' d', reach p x r' d' → r = r' ∧ d = d'.
Proof.
  induction 1 as [x Hx | x px r d Hx Hne _ IH]; intros r' d' H'.
  - inversion H' as [? Hy | ? px' ? ? Hy Hne' Hr']; subst; [done | congruence].
  - inversion H' as [? Hy | ? px' ? d0 Hy Hne' Hr']; subst; [congruence |].
    assert (px' = px) by congruence. subst px'.
    destruct (IH _ _ Hr') as [-> ->]. done.
Qed.

Lemma reach_root_of_root p r r' d : p !! r = Some r → reach p r r' d → r' = r ∧ d = 0.
Proof.
  intros Hr H. destruct (reach_det _ _ _ _ (reach_root p r Hr) _ _ H); auto.
Qed.

(** The nodes of a path are pairwise distinct and lie in the array, so a
    path has fewer links than the array has cells. *)
Lemma reach_path p x r d :
  reach p x r d →
  ∃ l : list nat, length l = S d ∧ NoDup l ∧
    ∀ y, y ∈ l → ∃ d', d' ≤ d ∧ reach p y r d'.
Proof.
  induction 1 as [x Hx | x px r d Hx Hne Hr (l & Hlen & Hnd & Hl)].
  - exists [x]. split_and!; [done | apply NoDup_singleton |].
    intros y ->%list_elem_of_singleton. exists 0. split; [lia | by constructor].
  - exists (x :: l). split_and!.
    + simpl. by rewrite Hlen.
    + constructor; [| done]. intros Hin. destruct (Hl _ Hin) as (d' & Hle & Hd').
      assert (Hx' : reach p x r (S d)) by (by econstructor).
      destruct (reach_det _ _ _ _ Hx' _ _ Hd') as [_ ?]. lia.
    + intros y [-> | Hin]%elem_of_cons.
      * exists (S d). split; [lia | by econstructor].
      * destruct (Hl _ Hin) as (d' & Hle & Hd'). exists d'. split; [lia | done].
Qed.

Lemma reach_bound p x r d : reach p x r d → d < length p.
Proof.
  intros H. destruct (reach_path _ _ _ _ H) as (l & Hlen & Hnd & Hl).
  assert (Hsub : l ⊆ seq 0 (length p)).
  { intros y Hy. destruct (Hl _ Hy) as (d' & _ & Hd').
    apply elem_of_seq. pose proof (reach_lt _ _ _ _ Hd'). lia. }
  pose proof (submseteq_length _ _ (NoDup_submseteq _ _ Hnd (λ y Hy, Hsub y Hy))) as Hle.
  rewrite length_seq in Hle. lia.
Qed.

Lemma keeps_roots_refl p : keeps_roots p p.
Proof. split; [done |]. intros y r d H. exists d. split; [lia | done]. Qed.

Lemma keeps_roots_trans p1 p2 p3 :
  keeps_roots p1 p2 → keeps_roots p2 p3 → keeps_roots p1 p3.
Proof.
  intros [Hl1 H1] [Hl2 H2]. split; [congruence |].
  intros y r d Hy. destruct (H1 _ _ _ Hy) as (d1 & Hle1 & Hy1).
  destruct (H2 _ _ _ Hy1) as (d2 & Hle2 & Hy2). exists d2. split; [lia | done].
Qed.

Lemma keeps_roots_forest p p' : keeps_roots p p' → forest p → forest p'.
Proof.
  intros [Hlen Hk] Hf x Hx. rewrite Hlen in Hx.
  destruct (Hf x Hx) as (r & d & Hr). destruct (Hk _ _ _ Hr) as (d' & _ & Hr').
  eauto.
Qed.

Lemma keeps_roots_same p p' i j : keeps_roots p p' → same p i j → same p' i j.
Proof.
  intros [_ Hk] (r & di & dj & Hi & Hj).
  destruct (Hk _ _ _ Hi) as (di' & _ & Hi'). destruct (Hk _ _ _ Hj) as (dj' & _ & Hj').
  by exists r, di', dj'.
Qed.

Lemma keeps_roots_same_inv p p' i j :
  keeps_roots p p' → forest p → same p' i j → same p i j.
Proof.
  intros [Hlen Hk] Hf (r & di & dj & Hi & Hj).
  pose proof (reach_lt _ _ _ _ Hi) as Hli. pose proof (reach_lt _ _ _ _ Hj) as Hlj.
  rewrite Hlen in Hli, Hlj.
  destruct (Hf i Hli) as (ri & ei & Hri). destruct (Hf j Hlj) as (rj & ej & Hrj).
  destruct (Hk _ _ _ Hri) as (ei' & _ & Hri'). destruct (Hk _ _ _ Hrj) as (ej' & _ & Hrj').
  destruct (reach_det _ _ _ _ Hi _ _ Hri') as [-> _].
  destruct (reach_det _ _ _ _ Hj _ _ Hrj') as [-> _].
  by exists rj, ei, ej.
Qed.

(** One round of the loop of [find]: [parent[x] = parent[parent[x]]]. *)
Lemma compress_keeps p x px ppx :
  p !! x = Some px → px ≠ x → p !! px = Some ppx →
  keeps_roots p (<[x := ppx]> p).
Proof.
  intros Hx Hne Hpx. split; [apply length_insert |].
  assert (Hxlt : x < length p) by (by eapply lookup_lt_Some).
  intros y r d. revert y r. induction (lt_wf d) as [d _ IH]. intros y r Hy.
  destruct (decide (y = x)) as [-> | Hyx].
  - inversion Hy as [? Hy0 | ? px' ? d1 Hy0 Hne' Hr1]; subst; [congruence |].
    assert (px' = px) by congruence. subst px'.
    inversion Hr1 as [? Hp0 | ? ppx' ? d2 Hp0 Hne2 Hr2]; subst.
    + assert (ppx = r) by congruence. subst ppx.
      destruct (IH 0 ltac:(lia) r r Hr1) as (d' & Hle & Hd').
      exists (S d'). split; [lia |].
      econstructor; [by apply list_lookup_insert_eq | exact Hne | exact Hd'].
    + assert (ppx' = ppx) by congruence. subst ppx'.
      destruct (IH d2 ltac:(lia) ppx r Hr2) as (d' & Hle & Hd').
      exists (S d'). split; [lia |].
      econstructor; [by apply list_lookup_insert_eq | | exact Hd'].
      intros ->. destruct (reach_det _ _ _ _ Hy _ _ Hr2). lia.
  - inversion Hy as [? Hy0 | ? py ? d1 Hy0 Hne' Hr1]; subst.
    + exists 0. split; [lia |]. constructor. by rewrite list_lookup_insert_ne.
    + destruct (IH d1 ltac:(lia) py r Hr1) as (d' & Hle & Hd').
      exists (S d'). split; [lia |].
      econstructor; [by rewrite list_lookup_insert_ne | exact Hne' | exact Hd'].
Qed.

Lemma find_loop_spec fuel :
  ∀ p x r d, reach p x r d → d < fuel →
    ∃ p', find_loop fuel p x = Some (p', r) ∧ keeps_roots p p'.
Proof.
  induction fuel as [| fuel IH]; intros p x r d Hx Hd; [lia |].
  inversion Hx as [? Hx0 | ? px ? d1 Hx0 Hne Hr1]; subst; simpl.
  - rewrite Hx0. simpl. rewrite decide_True by done.
    exists p. split; [done | apply keeps_roots_refl].
  - rewrite Hx0. simpl. rewrite decide_False by done.
    assert (∃ ppx d2, p !! px = Some ppx ∧ reach p ppx r d2 ∧ d2 ≤ d1)
      as (ppx & d2 & Hpx & Hr2 & Hle).
    { inversion Hr1 as [? Hp0 | ? ppx ? d2 Hp0 Hne2 Hr2]; subst.
      - exists r, 0. by split_and!.
      - exists ppx, d2. split_and!; [done | done | lia]. }
    rewrite Hpx. simpl.
    rewrite list_lookup_insert_eq by (by eapply lookup_lt_Some). simpl.
    pose proof (compress_keeps _ _ _ _ Hx0 Hne Hpx) as Hk.
    destruct Hk as [Hlen Hk']. destruct (Hk' _ _ _ Hr2) as (d3 & Hle3 & Hr3).
    destruct (IH _ _ _ _ Hr3 ltac:(lia)) as (p' & Hfind & Hk2).
    exists p'. split; [done |].
    eapply keeps_roots_trans; [| exact Hk2]. by split.
Qed.

Lemma find_spec p x r d :
  reach p x r d → ∃ p', find p x = Some (p', r) ∧ keeps_roots p p'.
Proof.
  intros Hx. eapply find_loop_spec; [exact Hx | by eapply reach_bound].
Qed.

(** [parent[rb] = ra] for two distinct roots: the set of [rb] joins [ra]. *)
Lemma link_roots p ra rb :
  p !! ra = Some ra → p !! rb = Some rb → ra ≠ rb →
  ∀ y r d, reach p y r d →
    ∃ d', reach (<[rb := ra]> p) y (if decide (r = rb) then ra else r) d'.
Proof.
  intros Hra Hrb Hne y r d. induction 1 as [x Hx | x px r d Hx Hpx _ (d' & IH)].
  - case_decide as Hc.
    + subst x. exists 1. econstructor.
      * apply list_lookup_insert_eq. by eapply lookup_lt_Some.
      * done.
      * constructor. by rewrite list_lookup_insert_ne.
    + exists 0. constructor. by rewrite list_lookup_insert_ne.
  - exists (S d'). econstructor; [| exact Hpx | exact IH].
    rewrite list_lookup_insert_ne; [done |]. intros ->. congruence.
Qed.

Lemma union_spec p a b :
  forest p → a < length p → b < length p →
  ∃ p' ra rb da db,
    union p a b = Some p' ∧ reach p a ra da ∧ reach p b rb db ∧
    length p' = length p ∧
    ∀ y r d, reach p y r d →
      ∃ d', reach p' y (if decide (r = rb) then ra else r) d'.
Proof.
  intros Hf Ha Hb.
  destruct (Hf a Ha) as (ra & da & Hra). destruct (Hf b Hb) as (rb & db & Hrb).
  destruct (find_spec _ _ _ _ Hra) as (p1 & Hf1 & Hk1).
  destruct Hk1 as [Hlen1 Hk1]. destruct (Hk1 _ _ _ Hrb) as (db1 & _ & Hrb1).
  destruct (find_spec _ _ _ _ Hrb1) as (p2 & Hf2 & Hk2).
  assert (Hk : keeps_roots p p2) by (eapply keeps_roots_trans; [by split | done]).
  destruct Hk as [Hlen Hk].
  exists (if decide (ra = rb) then p2 else <[rb := ra]> p2), ra, rb, da, db.
  split_and!; [| done | done | |].
  - unfold union. rewrite Hf1. simpl. rewrite Hf2. simpl.
    case_decide; [done |].
    assert (is_Some (p2 !! rb)) as [? ->]; [| done].
    apply lookup_lt_is_Some. rewrite Hlen. by eapply reach_root_lt.
  - case_decide; [done | by rewrite length_insert].
  - intros y r d Hy. destruct (Hk _ _ _ Hy) as (d2 & _ & Hy2).
    destruct (decide (ra = rb)) as [-> | Hne].
    + exists d2. by case_decide; subst.
    + destruct (Hk _ _ _ Hra) as (? & _ & Hra2). destruct (Hk _ _ _ Hrb) as (? & _ & Hrb2).
      eapply link_roots; [by eapply reach_is_root | by eapply reach_is_root | done | done].
Qed.

(** What a [union] call does to the partition: it returns, the array stays a
    forest, no set is split, the two arguments end in one set, and nothing
    else is merged. *)
Lemma union_partition p a b :
  forest p → a < length p → b < length p →
  ∃ p', union p a b = Some p' ∧ length p' = length p ∧ forest p' ∧
    (∀ i j, same p i j → same p' i j) ∧ same p' a b ∧
    (∀ E : relation nat, Equivalence E →
       (∀ i j, same p i j → E i j) → E a b → ∀ i j, same p' i j → E i j).
Proof.
  intros Hf Ha Hb.
  destruct (union_spec p a b Hf Ha Hb)
    as (p' & ra & rb & da & db & Hu & Hra & Hrb & Hlen & Hsp).
  exists p'. split_and!; [done | done | | | |].
  - intros x Hx. rewrite Hlen in Hx. destruct (Hf x Hx) as (r & d & Hr).
    destruct (Hsp _ _ _ Hr) as (d' & Hr'). eauto.
  - intros i j (r & di & dj & Hi & Hj).
    destruct (Hsp _ _ _ Hi) as (di' & Hi'). destruct (Hsp _ _ _ Hj) as (dj' & Hj').
    eexists _, di', dj'. by split.
  - destruct (Hsp _ _ _ Hra) as (da' & Ha'). destruct (Hsp _ _ _ Hrb) as (db' & Hb').
    rewrite decide_True in Hb' by done.
    exists ra, da', db'. split; [| done]. by case_decide; subst.
  - intros E HE Hin Hab i j (r & di & dj & Hi & Hj).
    pose proof (reach_lt _ _ _ _ Hi) as Hli. pose proof (reach_lt _ _ _ _ Hj) as Hlj.
    rewrite Hlen in Hli, Hlj.
    destruct (Hf i Hli) as (ri & ei & Hri). destruct (Hf j Hlj) as (rj & ej & Hrj).
    destruct (Hsp _ _ _ Hri) as (ei' & Hri'). destruct (Hsp _ _ _ Hrj) as (ej' & Hrj').
    destruct (reach_det _ _ _ _ Hi _ _ Hri') as [Hr1 _].
    destruct (reach_det _ _ _ _ Hj _ _ Hrj') as [Hr2 _].
    assert (Hia : ri = ra → E i a) by (intros ->; apply Hin; by exists ra, ei, da).
    assert (Hib : ri = rb → E i b) by (intros ->; apply Hin; by exists rb, ei, db).
    assert (Hja : rj = ra → E j a) by (intros ->; apply Hin; by exists ra, ej, da).
    assert (Hjb : rj = rb → E j b) by (intros ->; apply Hin; by exists rb, ej, db).
    assert (Hij : ri = rj → E i j) by (intros ->; apply Hin; by exists rj, ei, ej).
    repeat case_decide; subst;
      first
        [ by apply Hij
        | by (etrans; [by apply Hib |]; etrans; [symmetry; exact Hab |];
              symmetry; by apply Hja)
        | by (etrans; [by apply Hia |]; etrans; [exact Hab |];
              symmetry; by apply Hjb) ].
Qed.

(** The initial array [list(range(n))]: every index is its own root. *)
Lemma reach_seq n x : x < n → reach (seq 0 n) x x 0.
Proof. intros Hx. constructor. by rewrite lookup_seq_lt. Qed.

Lemma forest_seq n : forest (seq 0 n).
Proof.
  intros x Hx. rewrite length_seq in Hx. exists x, 0. by apply reach_seq.
Qed.

Lemma same_seq n i j : same (seq 0 n) i j → i = j.
Proof.
  intros (r & di & dj & Hi & Hj).
  pose proof (reach_lt _ _ _ _ Hi) as Hli. pose proof (reach_lt _ _ _ _ Hj) as Hlj.
  rewrite length_seq in Hli, Hlj.
  destruct (reach_det _ _ _ _ Hi _ _ (reach_seq n i Hli)) as [-> _].
  destruct (reach_det _ _ _ _ Hj _ _ (reach_seq n j Hlj)) as [-> _]. done.
Qed.

Lemma same_refl p i : forest p → i < length p → same p i i.
Proof. intros Hf Hi. destruct (Hf i Hi) as (r & d & Hr). by exists r, d, d. Qed.

Lemma same_sym p i j : same p i j → same p j i.
Proof. intros (r & di & dj & Hi & Hj). by exists r, dj, di. Qed.

Lemma same_trans p i j k : same p i j → same p j k → same p i k.
Proof.
  intros (r & di & dj & Hi & Hj) (r' & dj' & dk & Hj' & Hk).
  destruct (reach_det _ _ _ _ Hj _ _ Hj') as [-> _]. by exists r', di, dk.
Qed.

Lemma same_lt p i j : same p i j → i < length p ∧ j < length p.
Proof. intros (r & di & dj & Hi & Hj). split; by eapply reach_lt. Qed.

End UFFacts.

(** *** Loop invariants *)
Module LoopFacts.

(** The invariant rule for a loop over a list: [I pre s] holds of the state
    [s] reached after the elements [pre]. *)
Lemma for_each_prefix {A St : Type} (I : list A → St → Prop)
    (xs : list A) (body : St → A → option St) (s0 : St) :
  I [] s0 →
  (∀ pre x post s, xs = pre ++ x :: post → I pre s →
     ∃ s', body s x = Some s' ∧ I (pre ++ [x]) s') →
  ∃ s', for_each xs body s0 = Some s' ∧ I xs s'.
Proof.
  intros H0 Hstep.
  assert (Hgen : ∀ post pre s, xs = pre ++ post → I pre s →
            ∃ s', for_each post body s = Some s' ∧ I xs s').
  { induction post as [| x post IH]; intros pre s Hxs Hpre.
    - exists s. rewrite app_nil_r in Hxs. subst pre. done.
    - destruct (Hstep pre x post s Hxs Hpre) as (s1 & Hb & H1).
      destruct (IH (pre ++ [x]) s1) as (s' & Hf & HI); [by rewrite <- app_assoc | done |].
      exists s'. simpl. rewrite Hb. done. }
  by apply (Hgen xs [] s0).
Qed.

(** The invariant rule for a loop over [range(a, b)]. *)
Lemma for_each_range {St : Type} (I : nat → St → Prop)
    (a b : nat) (body : St → nat → option St) (s0 : St) :
  a ≤ b → I a s0 →
  (∀ k s, a ≤ k < b → I k s → ∃ s', body s k = Some s' ∧ I (S k) s') →
  ∃ s', for_each (range a b) body s0 = Some s' ∧ I b s'.
Proof.
  unfold range. intros Hab. remember (b - a) as m eqn:Hm.
  revert a s0 Hab Hm. induction m as [| m IH]; intros a s0 Hab Hm H0 Hstep.
  - exists s0. replace b with a by lia. done.
  - destruct (Hstep a s0 ltac:(lia) H0) as (s1 & Hb & H1).
    destruct (IH (S a) s1 ltac:(lia) ltac:(lia) H1) as (s' & Hf & HI).
    { intros k s Hk. apply Hstep. lia. }
    exists s'. simpl. rewrite Hb. done.
Qed.

(** An empty range, as when [a >= b]. *)
Lemma for_each_range_empty {St : Type} (a b : nat) (body : St → nat → option St) s :
  b ≤ a → for_each (range a b) body s = Some s.
Proof. intros H. unfold range. by replace (b - a) with 0 by lia. Qed.

End LoopFacts.

(** *** The canonicalizer: shape of the result *)
Module CanonShape.
Import Str Urllib Canon.

Lemma append_cons c s t : String c s +:+ t = String c (s +:+ t).
Proof. done. Qed.

Lemma append_nil_l t : "" +:+ t = t.
Proof. done. Qed.

Lemma append_assoc a b c : (a +:+ b) +:+ c = a +:+ (b +:+ c).
Proof.
  induction a as [| x a IH]; [done |]. by rewrite !append_cons, IH.
Qed.

Lemma append_nil_r a : a +:+ "" = a.
Proof. induction a as [| x a IH]; [done |]. by rewrite append_cons, IH. Qed.


Lemma lower_nil_inv s : lower s = "" → s = "".
Proof. by destruct s. Qed.

Lemma canon_scheme_nonempty parsed : canon_scheme parsed ≠ "".
Proof.
  unfold canon_scheme. intros H%lower_nil_inv.
  destruct (truthy (scheme parsed)) eqn:Ht; [| done].
  unfold truthy in Ht. rewrite H in Ht. done.
Qed.

(** The assembled URL starts with the scheme and a colon. *)
Lemma urlunparse_canonical parsed :
  ∃ rest, urlunparse (canonical parsed) = canon_scheme parsed +:+ String ":" rest.
Proof.
  unfold urlunparse, urlunsplit, canonical. cbn [params path scheme netloc query fragment].
  change (truthy "") with false. cbv iota.
  assert (Ht : truthy (canon_scheme parsed) = true).
  { unfold truthy. rewrite bool_decide_eq_false_2; [done | apply canon_scheme_nonempty]. }
  rewrite Ht.
  match goal with
  | |- ∃ rest, (if ?c then (?a +:+ String ":" ?u) +:+ ?q else _) = _ =>
      destruct c; [exists (u +:+ q) | exists u]
  end.
  - by rewrite append_assoc.
  - done.
Qed.

Lemma canonicalize_url_nonempty url : canonicalize_url url ≠ "".
Proof.
  unfold canonicalize_url. destruct (urlparse url) as [parsed |] eqn:Hp.
  - destruct (urlunparse_canonical parsed) as (rest & ->).
    pose proof (canon_scheme_nonempty parsed) as Hs.
    by destruct (canon_scheme parsed).
  - intros ->. vm_compute in Hp. done.
Qed.

End CanonShape.

(** *** The canonicalizer: a second pass *)
Module CanonFacts.
Import Str Urllib Canon CanonShape.

Ltac each_char c := destruct c as [[] [] [] [] [] [] [] []].

Lemma lower_char_idem c : lower_char (lower_char c) = lower_char c.
Proof. each_char c; reflexivity. Qed.

Lemma lower_idem s : lower (lower s) = lower s.
Proof. induction s as [| c s IH]; [done |]. simpl. by rewrite lower_char_idem, IH. Qed.









Lemma drop_last_nonempty a b s : drop_last (String a (String b s)) ≠ "".
Proof. done. Qed.


(** **** The order of [params.sort()] *)

#[global] Instance param_le_total : Total param_le.
Proof.
  intros [k1 v1] [k2 v2]. unfold param_le. cbn [fst snd].
  repeat case_decide; subst; try done; apply (total String.le).
Qed.

#[global] Instance param_le_antisymm : AntiSymm (=) param_le.
Proof.
  intros [k1 v1] [k2 v2]. unfold param_le. cbn [fst snd].
  destruct (decide (k1 = k2)) as [-> | Hne].
  - rewrite decide_True by done. intros Ha Hb. f_equal. by apply (anti_symm String.le).
  - rewrite decide_False by done. intros Ha Hb. exfalso.
    by apply Hne, (anti_symm String.le).
Qed.

#[global] Instance param_le_trans : Transitive param_le.
Proof.
  intros [k1 v1] [k2 v2] [k3 v3]. unfold param_le. cbn [fst snd].
  destruct (decide (k1 = k2)) as [E12 | H12], (decide (k2 = k3)) as [E23 | H23];
    intros Ha Hb; case_decide as H13; subst;
    first [done | by etrans | exfalso; by apply H12, (anti_symm String.le)].
Qed.



(** **** [parse_qsl] reads back what [urlencode] writes *)
















(** **** The components of the canonical form are canonical *)



End CanonFacts.

(** *** Claims about the canonicalizer *)
(** ** Facts about the call of the canonicalizer *)
Module CallFacts.
Import Str Urllib Canon CanonShape.

Section Chars.
Variable P : ascii → bool.

Lemma all_chars_cons a s : all_chars P (String a s) = P a && all_chars P s.
Proof. done. Qed.

Lemma all_chars_app s t : all_chars P (s +:+ t) = all_chars P s && all_chars P t.
Proof.
  induction s as [| a s IH]; [done |].
  by rewrite append_cons, !all_chars_cons, IH, andb_assoc.
Qed.

Lemma all_chars_lstrip f s : all_chars P s = true → all_chars P (lstrip f s) = true.
Proof.
  induction s as [| a s IH]; [done |]. simpl. intros [Ha Hs]%andb_prop.
  destruct (f a); [by apply IH |]. simpl. by rewrite Ha, Hs.
Qed.

Lemma all_chars_remove f s : all_chars P s = true → all_chars P (remove f s) = true.
Proof.
  induction s as [| a s IH]; [done |]. simpl. intros [Ha Hs]%andb_prop.
  destruct (f a); [by apply IH |]. simpl. by rewrite Ha, IH.
Qed.

Lemma all_chars_drop n : ∀ s, all_chars P s = true → all_chars P (drop n s) = true.
Proof.
  induction n as [| n IH]; intros [| a s]; try done.
  simpl. intros [_ Hs]%andb_prop. by apply IH.
Qed.

Lemma all_chars_span f s :
  all_chars P s = true →
  all_chars P (span f s).1 = true ∧ all_chars P (span f s).2 = true.
Proof.
  induction s as [| a s IH]; [done |]. intros Has.
  pose proof Has as [Ha Hs]%andb_prop. simpl.
  destruct (f a); [done |].
  destruct (span f s) as [h t]. destruct (IH Hs) as [Hh Ht]. simpl in *.
  by rewrite Ha, Hh.
Qed.

Lemma all_chars_split1 c s h t :
  split1 c s = Some (h, t) → all_chars P s = true →
  all_chars P h = true ∧ all_chars P t = true.
Proof.
  revert h. induction s as [| a s IH]; intros h; [done |]. simpl.
  intros Hsp [Ha Hs]%andb_prop.
  case_bool_decide; [by simplify_eq |].
  destruct (split1 c s) as [[h' t'] |]; [| done]. simpl in Hsp. simplify_eq.
  destruct (IH _ eq_refl Hs) as [Hh Ht]. simpl. by rewrite Ha, Hh.
Qed.

Lemma all_chars_split c s :
  all_chars P s = true → Forall (λ x, all_chars P x = true) (split c s).
Proof.
  induction s as [| a s IH]; [by repeat constructor |]. simpl.
  intros [Ha Hs]%andb_prop. specialize (IH Hs).
  case_bool_decide; [by constructor |].
  destruct (split c s) as [| h t]; [by repeat constructor; simpl; rewrite Ha |].
  apply Forall_cons in IH as [Hh Ht]. constructor; [| done].
  simpl. by rewrite Ha, Hh.
Qed.

Lemma all_chars_replace a b s :
  P b = true → all_chars P s = true → all_chars P (replace a b s) = true.
Proof.
  intros Hb. induction s as [| c s IH]; [done |]. simpl.
  intros [Hc Hs]%andb_prop. rewrite (IH Hs).
  by case_bool_decide; rewrite ?Hb, ?Hc.
Qed.

End Chars.

(** The query that [urlsplit] returns holds characters of the URL only. *)
Lemma urlsplit_query_chars (P : ascii → bool) url sch nl pth q frag :
  urlsplit url = Some (sch, nl, pth, q, frag) → all_chars P url = true →
  all_chars P q = true.
Proof.
  unfold urlsplit. intros Hp Hall.
  apply (all_chars_lstrip P c0_control_or_space) in Hall.
  apply (all_chars_remove P unsafe_url_byte) in Hall.
  revert Hp Hall.
  generalize (remove unsafe_url_byte (lstrip c0_control_or_space url)). intros u.
  assert (Hsch : all_chars P u = true → all_chars P (split_scheme u).2 = true).
  { intros Hu. unfold split_scheme.
    destruct (split1 ":" u) as [[[| c0 pre] rest] |] eqn:Hs; try done.
    destruct (is_alpha c0 && _); [| done]. simpl.
    by destruct (all_chars_split1 P _ _ _ _ Hs Hu). }
  destruct (split_scheme u) as [sch' u1]. simpl in Hsch.
  intros Hp Hu. specialize (Hsch Hu). clear Hu u.
  match type of Hp with
  | mbind _ ?m = _ => destruct m as [[nl' u2] |] eqn:Hm; [| done]
  end.
  assert (Hnet : all_chars P u2 = true).
  { destruct (startswith "//" u1); [| by simplify_eq].
    pose proof (all_chars_span P netloc_delim (drop 2 u1)
                  (all_chars_drop P 2 u1 Hsch)) as [_ Hr].
    destruct (span netloc_delim (drop 2 u1)) as [n r]. simpl in Hr.
    repeat (match type of Hm with
            | context [if ?c then _ else _] => destruct c
            end); by simplify_eq. }
  simpl in Hp.
  assert (Hfrag : all_chars P (default (u2, "") (split1 "#" u2)).1 = true).
  { destruct (split1 "#" u2) as [[h t] |] eqn:Hs; [| done].
    by destruct (all_chars_split1 P _ _ _ _ Hs Hnet). }
  destruct (default (u2, "") (split1 "#" u2)) as [u3 frag'].
  assert (Hq : all_chars P (default (u3, "") (split1 "?" u3)).2 = true).
  { destruct (split1 "?" u3) as [[h t] |] eqn:Hs; [| done].
    by destruct (all_chars_split1 P _ _ _ _ Hs Hfrag). }
  destruct (default (u3, "") (split1 "?" u3)) as [u4 q'].
  by simplify_eq.
Qed.

Lemma urlparse_query_chars (P : ascii → bool) url parsed :
  urlparse url = Some parsed → all_chars P url = true →
  all_chars P (query parsed) = true.
Proof.
  unfold urlparse. intros Hp Hall.
  destruct (urlsplit url) as [[[[[sch nl] pth] q] frag] |] eqn:Hs; [| done].
  simpl in Hp.
  pose proof (urlsplit_query_chars P _ _ _ _ _ _ Hs Hall) as Hq.
  destruct (bool_decide (sch ∈ uses_params) && contains ";" pth);
    [destruct (splitparams pth) |]; by simplify_eq.
Qed.

(** *** The decoder gives text that can be encoded *)

Lemma has_surrogate_cons a s :
  code a ≠ 237 → Utf8.has_surrogate (String a s) = Utf8.has_surrogate s.
Proof.
  intros Ha. cbn [Utf8.has_surrogate].
  apply Nat.eqb_neq in Ha. rewrite Ha. by destruct s.
Qed.

Lemma has_surrogate_low a b s :
  code b < 160 →
  Utf8.has_surrogate (String a (String b s)) = Utf8.has_surrogate (String b s).
Proof.
  intros Hb. cbn [Utf8.has_surrogate]. unfold between.
  apply Nat.leb_gt in Hb. by rewrite Hb, andb_false_r.
Qed.

Lemma has_surrogate_replacement s :
  Utf8.has_surrogate (Utf8.replacement +:+ s) = Utf8.has_surrogate s.
Proof.
  unfold Utf8.replacement. rewrite !append_cons, append_nil_l.
  by rewrite !has_surrogate_cons by (by vm_compute).
Qed.

Lemma is_continuation_code b : Utf8.is_continuation b = true → 128 ≤ code b ≤ 191.
Proof.
  unfold Utf8.is_continuation, between.
  intros [H1 H2]%andb_prop. apply Nat.leb_le in H1, H2. lia.
Qed.

Lemma second_of_three_code a b :
  Utf8.second_of_three a b = true →
  128 ≤ code b ≤ 191 ∧ (code a = 237 → code b < 160).
Proof.
  unfold Utf8.second_of_three. intros [Hc Hr]%andb_prop.
  split; [by apply is_continuation_code |]. intros Ha.
  destruct (code b <? 160) eqn:Hb; [by apply Nat.ltb_lt in Hb |].
  rewrite Ha in Hr. done.
Qed.

Lemma second_of_four_code a b : Utf8.second_of_four a b = true → 128 ≤ code b ≤ 191.
Proof.
  unfold Utf8.second_of_four. intros [Hc _]%andb_prop.
  by apply is_continuation_code.
Qed.

(** [decode] leaves no surrogate: what it copies is a well-formed sequence,
    and what it puts in is U+FFFD. *)
Lemma decode_no_surrogate_bounded n :
  ∀ s, String.length s ≤ n → Utf8.has_surrogate (Utf8.decode s) = false.
Proof.
  induction n as [| n IH]; intros [| a s0] Hlen; simpl in Hlen; try done; [lia |].
  cbn [Utf8.decode].
  assert (H0 : Utf8.has_surrogate (Utf8.decode s0) = false) by (apply IH; lia).
  destruct (code a <? 128) eqn:H128.
  { apply Nat.ltb_lt in H128. rewrite has_surrogate_cons by lia. done. }
  destruct (code a <? 194) eqn:H194; [by rewrite has_surrogate_replacement |].
  destruct (code a <? 224) eqn:H224.
  { apply Nat.ltb_lt in H224.
    destruct s0 as [| b s1]; [by vm_compute |].
    destruct (Utf8.is_continuation b) eqn:Hb;
      [| by rewrite has_surrogate_replacement].
    apply is_continuation_code in Hb.
    rewrite !has_surrogate_cons by lia. apply IH; simpl in Hlen |- *; lia. }
  destruct (code a <? 240) eqn:H240.
  { destruct s0 as [| b s1]; [by vm_compute |].
    destruct (Utf8.second_of_three a b) eqn:Hb;
      [| by rewrite has_surrogate_replacement].
    apply second_of_three_code in Hb as [Hb Hed].
    destruct s1 as [| c s2]; [by vm_compute |].
    destruct (Utf8.is_continuation c) eqn:Hc.
    - apply is_continuation_code in Hc.
      destruct (decide (code a = 237)) as [Ha | Ha].
      + rewrite has_surrogate_low by auto.
        rewrite !has_surrogate_cons by lia. apply IH; simpl in Hlen |- *; lia.
      + rewrite !has_surrogate_cons by lia. apply IH; simpl in Hlen |- *; lia.
    - rewrite has_surrogate_replacement. apply IH; simpl in Hlen |- *; lia. }
  destruct (code a <? 245) eqn:H245; [| by rewrite has_surrogate_replacement].
  apply Nat.ltb_ge in H240.
  destruct s0 as [| b s1]; [by vm_compute |].
  destruct (Utf8.second_of_four a b) eqn:Hb;
    [| by rewrite has_surrogate_replacement].
  apply second_of_four_code in Hb.
  destruct s1 as [| c s2]; [by vm_compute |].
  destruct (Utf8.is_continuation c) eqn:Hc;
    [| rewrite has_surrogate_replacement; apply IH; simpl in Hlen |- *; lia].
  apply is_continuation_code in Hc.
  destruct s2 as [| d s3]; [by vm_compute |].
  destruct (Utf8.is_continuation d) eqn:Hd;
    [| rewrite has_surrogate_replacement; apply IH; simpl in Hlen |- *; lia].
  apply is_continuation_code in Hd.
  rewrite !has_surrogate_cons by lia. apply IH; simpl in Hlen |- *; lia.
Qed.

Lemma decode_no_surrogate s : Utf8.has_surrogate (Utf8.decode s) = false.
Proof. by apply (decode_no_surrogate_bounded (String.length s)). Qed.

Lemma ascii_no_surrogate s : Utf8.ascii_text s → Utf8.has_surrogate s = false.
Proof.
  unfold Utf8.ascii_text. induction s as [| a s IH]; [done |].
  rewrite all_chars_cons. intros [Ha Hs]%andb_prop.
  unfold Utf8.is_ascii in Ha. apply Nat.ltb_lt in Ha.
  rewrite has_surrogate_cons by lia. by apply IH.
Qed.

(** On ASCII text there is one run, the text. *)
Lemma unquote_runs_ascii s :
  ∀ run, Utf8.ascii_text s → unquote_runs run s = Utf8.decode (unquote (run +:+ s)).
Proof.
  unfold Utf8.ascii_text. induction s as [| a s IH]; intros run.
  - by rewrite append_nil_r.
  - rewrite all_chars_cons. intros [Ha Hs]%andb_prop.
    cbn [unquote_runs]. rewrite Ha, IH by done.
    by rewrite append_assoc, append_cons, append_nil_l.
Qed.

Lemma unquote_text_ascii s :
  Utf8.ascii_text s → Utf8.has_surrogate (unquote_text s) = false.
Proof.
  intros Hs. unfold unquote_text. destruct (contains "%" s).
  - rewrite unquote_runs_ascii by done. apply decode_no_surrogate.
  - by apply ascii_no_surrogate.
Qed.

(** A key and a value that [urlencode] can encode. *)
Definition encodable (kv : string * string) : Prop :=
  Utf8.has_surrogate kv.1 = false ∧ Utf8.has_surrogate kv.2 = false.

Lemma parse_field_text_encodable nv :
  Utf8.ascii_text nv → Forall encodable (parse_field_text nv).
Proof.
  intros Hnv. unfold parse_field_text. destruct (truthy nv); [| constructor].
  assert (H : Utf8.ascii_text (default (nv, "") (split1 "=" nv)).1 ∧
              Utf8.ascii_text (default (nv, "") (split1 "=" nv)).2).
  { destruct (split1 "=" nv) as [[h t] |] eqn:Hs; [| done].
    by apply (all_chars_split1 Utf8.is_ascii) in Hs. }
  destruct (default (nv, "") (split1 "=" nv)) as [n v]. destruct H as [Hn Hv].
  repeat constructor; simpl;
    by apply unquote_text_ascii, all_chars_replace.
Qed.

Lemma parse_qsl_text_encodable qs :
  Utf8.ascii_text qs → Forall encodable (parse_qsl_text qs).
Proof.
  intros Hqs. unfold parse_qsl_text.
  pose proof (all_chars_split Utf8.is_ascii "&" qs Hqs) as Hall.
  induction Hall as [| x l Hx _ IH]; [constructor |].
  rewrite fmap_cons. simpl. apply Forall_app. split; [| done].
  by apply parse_field_text_encodable.
Qed.

Lemma canon_params_text_encodable parsed :
  Utf8.ascii_text (query parsed) → Forall encodable (canon_params_text parsed).
Proof.
  intros Hq. unfold canon_params_text.
  rewrite merge_sort_Permutation.
  apply Forall_forall. intros kv [_ Hin]%list_elem_of_filter.
  revert kv Hin. apply Forall_forall. by apply parse_qsl_text_encodable.
Qed.

(** [urlencode] returns on keys and values without a surrogate. *)
Lemma urlencode_text_encodable l :
  Forall encodable l → urlencode_text l = Some (urlencode l).
Proof.
  intros Hall. unfold urlencode_text, urlencode.
  assert (Hm : mapM (λ '(k, v), k' ← quote_plus_text k;
                                v' ← quote_plus_text v;
                                Some (k' +:+ String "=" v')) l =
               Some ((λ '(k, v), quote_plus k +:+ String "=" (quote_plus v)) <$> l)).
  { induction Hall as [| [k v] l [Hk Hv] _ IH]; [done |].
    simpl in Hk, Hv. cbn [mapM]. rewrite IH.
    unfold quote_plus_text, Utf8.encode. rewrite Hk, Hv. done. }
  rewrite Hm. done.
Qed.

(** The assembled URL starts with the scheme and a colon. *)
Lemma urlunparse_assembled parsed q :
  ∃ rest, urlunparse (assembled parsed q) = canon_scheme parsed +:+ String ":" rest.
Proof.
  unfold urlunparse, urlunsplit, assembled. cbn [params path scheme netloc query fragment].
  change (truthy "") with false. cbv iota.
  assert (Ht : truthy (canon_scheme parsed) = true).
  { unfold truthy. rewrite bool_decide_eq_false_2; [done | apply canon_scheme_nonempty]. }
  rewrite Ht.
  match goal with
  | |- ∃ rest, (if ?c then (?a +:+ String ":" ?u) +:+ ?q else _) = _ =>
      destruct c; [exists (u +:+ q) | exists u]
  end.
  - by rewrite append_assoc.
  - done.
Qed.

(** On ASCII text the call returns, with the query of the decoded
    parameters. *)
Lemma call_returns url :
  Utf8.ascii_text url →
  match urlparse url with
  | None => canonicalize_url_call url = Some url
  | Some parsed =>
      urlencode_text (canon_params_text parsed) =
        Some (urlencode (canon_params_text parsed)) ∧
      canonicalize_url_call url =
        Some (urlunparse (assembled parsed (urlencode (canon_params_text parsed))))
  end.
Proof.
  intros Hurl. unfold canonicalize_url_call.
  destruct (urlparse url) as [parsed |] eqn:Hp; [| done].
  assert (He : urlencode_text (canon_params_text parsed) =
               Some (urlencode (canon_params_text parsed))).
  { apply urlencode_text_encodable, canon_params_text_encodable.
    by apply (urlparse_query_chars Utf8.is_ascii url). }
  by rewrite He.
Qed.

(** *** The call and the function of the bytes *)

Lemma decode_ascii s : Utf8.ascii_text s → Utf8.decode s = s.
Proof.
  unfold Utf8.ascii_text. induction s as [| a s IH]; [done |].
  rewrite all_chars_cons. intros [Ha Hs]%andb_prop.
  cbn [Utf8.decode]. unfold Utf8.is_ascii in Ha. by rewrite Ha, IH.
Qed.

Lemma unquote_no_percent s : contains "%" s = false → unquote s = s.
Proof.
  induction s as [| a s IH]; [done |]. cbn [contains unquote].
  intros [Ha Hs]%orb_false_elim. rewrite Ha, IH by done. done.
Qed.

Lemma unquote_text_unquote s :
  Utf8.ascii_text s → Utf8.ascii_text (unquote s) → unquote_text s = unquote s.
Proof.
  intros Hs Hu. unfold unquote_text. destruct (contains "%" s) eqn:Hc.
  - rewrite unquote_runs_ascii, append_nil_l by done. by apply decode_ascii.
  - by rewrite unquote_no_percent.
Qed.

Lemma lower_text_ascii s : Utf8.ascii_text s → lower_text s = lower s.
Proof.
  unfold Utf8.ascii_text. induction s as [| a s IH]; [done |].
  rewrite all_chars_cons. intros [Ha Hs]%andb_prop.
  cbn [lower_text lower]. rewrite <- IH by done.
  unfold Utf8.is_ascii in Ha. apply Nat.ltb_lt in Ha.
  destruct s as [| b [| c s3]]; try done.
  destruct (code a =? 226) eqn:He; [apply Nat.eqb_eq in He; lia | done].
Qed.

(** A key and a value of ASCII characters. *)
Definition ascii_pair (kv : string * string) : Prop :=
  Utf8.ascii_text kv.1 ∧ Utf8.ascii_text kv.2.

Lemma parse_field_text_ascii nv :
  Utf8.ascii_text nv → Forall ascii_pair (parse_field nv) →
  parse_field_text nv = parse_field nv.
Proof.
  intros Hnv. unfold parse_field_text, parse_field. destruct (truthy nv); [| done].
  assert (H : Utf8.ascii_text (default (nv, "") (split1 "=" nv)).1 ∧
              Utf8.ascii_text (default (nv, "") (split1 "=" nv)).2).
  { destruct (split1 "=" nv) as [[h t] |] eqn:Hs; [| done].
    by apply (all_chars_split1 Utf8.is_ascii) in Hs. }
  destruct (default (nv, "") (split1 "=" nv)) as [n v]. destruct H as [Hn Hv].
  intros [[Hk Hw] _]%Forall_cons. simpl in Hk, Hw.
  by rewrite !unquote_text_unquote by (done || by apply all_chars_replace).
Qed.

Lemma parse_qsl_text_ascii qs :
  Utf8.ascii_text qs → Forall ascii_pair (parse_qsl qs) →
  parse_qsl_text qs = parse_qsl qs.
Proof.
  intros Hqs. unfold parse_qsl_text, parse_qsl.
  pose proof (all_chars_split Utf8.is_ascii "&" qs Hqs) as Hall.
  induction Hall as [| x l Hx _ IH]; [done |].
  rewrite !fmap_cons. simpl. intros [Hf Hl]%Forall_app.
  by rewrite parse_field_text_ascii, IH.
Qed.

Lemma filter_tracking_ascii l :
  Forall ascii_pair l →
  filter (λ kv, is_tracking_text kv = false) l =
    filter (λ kv, is_tracking kv = false) l.
Proof.
  induction 1 as [| kv l [Hk _] _ IH]; [done |].
  rewrite !filter_cons, IH.
  assert (He : is_tracking_text kv = is_tracking kv).
  { unfold is_tracking_text, is_tracking. by rewrite lower_text_ascii. }
  rewrite He. by repeat case_decide.
Qed.

(** [canonicalize_url] is what the call returns when the escapes of the
    query name ASCII characters. *)
Lemma call_agrees url :
  Utf8.ascii_text url →
  match urlparse url with
  | None => True
  | Some parsed => Forall ascii_pair (parse_qsl (query parsed))
  end →
  canonicalize_url_call url = Some (canonicalize_url url).
Proof.
  intros Hurl Hq. pose proof (call_returns url Hurl) as Hcall.
  unfold canonicalize_url.
  destruct (urlparse url) as [parsed |] eqn:Hp; [| done].
  destruct Hcall as [_ ->]. do 2 f_equal.
  unfold assembled, canonical, canon_query, canon_params_text, canon_params.
  rewrite parse_qsl_text_ascii, filter_tracking_ascii; try done.
  by apply (urlparse_query_chars Utf8.is_ascii url).
Qed.

End CallFacts.

Module CanonClaims.
Import Str Urllib Canon CanonShape CanonFacts CanonSpec.

(** C4 (as amended). On a URL of ASCII characters the call of
    [canonicalize_url] returns. An input that [urlparse] rejects with an
    exception comes back unchanged; every other input, malformed or not,
    comes back as the URL assembled from the canonical components, which
    starts with a non-empty scheme and a colon. *)
Theorem canonicalize_url_returns_on_ascii (url : string) :
  Utf8.ascii_text url →
  match urlparse url with
  | None => canonicalize_url_call url = Some url
  | Some parsed =>
      ∃ query,
        urlencode_text (canon_params_text parsed) = Some query ∧
        canonicalize_url_call url = Some (urlunparse (assembled parsed query)) ∧
        canon_scheme parsed ≠ "" ∧
        ∃ rest, urlunparse (assembled parsed query) =
                  canon_scheme parsed +:+ String ":" rest
  end.
Proof.
  intros Hurl. pose proof (CallFacts.call_returns url Hurl) as Hcall.
  destruct (urlparse url) as [parsed |]; [| done].
  destruct Hcall as [Henc Hcall]. eexists. split_and!; [done | done | |].
  - apply canon_scheme_nonempty.
  - apply CallFacts.urlunparse_assembled.
Qed.

Lemma canonicalize_url_returns_on_ascii_witness :
  Utf8.ascii_text "https://WWW.Example.com/a/?utm_source=x&b=%FF&a=1" ∧
  match urlparse "https://WWW.Example.com/a/?utm_source=x&b=%FF&a=1" with
  | None =>
      canonicalize_url_call "https://WWW.Example.com/a/?utm_source=x&b=%FF&a=1" =
        Some "https://WWW.Example.com/a/?utm_source=x&b=%FF&a=1"
  | Some parsed =>
      ∃ query,
        urlencode_text (canon_params_text parsed) = Some query ∧
        canonicalize_url_call "https://WWW.Example.com/a/?utm_source=x&b=%FF&a=1" =
          Some (urlunparse (assembled parsed query)) ∧
        canon_scheme parsed ≠ "" ∧
        ∃ rest, urlunparse (assembled parsed query) =
                  canon_scheme parsed +:+ String ":" rest
  end.
Proof.
  split; [by vm_compute |].
  apply (canonicalize_url_returns_on_ascii
           "https://WWW.Example.com/a/?utm_source=x&b=%FF&a=1").
  by vm_compute.
Defined.

(** The escape [%FF] names a byte that is no UTF-8: [parse_qsl] reads
    U+FFFD, which [urlencode] writes as [%EF%BF%BD]. *)
Lemma call_replaces_ill_formed_escape :
  canonicalize_url_call "https://WWW.Example.com/a/?utm_source=x&b=%FF&a=1" =
    Some "https://example.com/a?a=1&b=%EF%BF%BD".
Proof. by vm_compute. Qed.

(** Beyond ASCII the call can raise: a surrogate in a parameter that is
    kept reaches [urlencode]. Written as an escape it is replaced. *)
Lemma call_raises_on_surrogate :
  canonicalize_url_call ("http://a.com/?x=" +:+ Samples.lone_surrogate) = None ∧
  canonicalize_url_call ("http://a.com/?utm_x=" +:+ Samples.lone_surrogate) =
    Some "http://a.com/" ∧
  canonicalize_url_call "http://a.com/?x=%ED%B2%80" =
    Some "http://a.com/?x=%EF%BF%BD%EF%BF%BD%EF%BF%BD".
Proof. by vm_compute. Qed.

(** An input that [urlparse] rejects: an unmatched bracket in the host. *)
Lemma urlparse_rejects_open_bracket :
  urlparse "http://[::1" = None ∧
  canonicalize_url_call "http://[::1" = Some "http://[::1".
Proof. by vm_compute. Qed.

(** C4 as stated fails: an input that is not URL-shaped (here, by the
    program's own test [is_http_url]) and that [urlparse] accepts is
    rewritten, not returned unchanged. *)
Lemma malformed_input_rewritten :
  ¬ returned_unchanged (λ url, is_http_url url = false).
Proof.
  intros H. specialize (H "not a url" eq_refl). vm_compute in H. discriminate.
Qed.


(** Likewise for a repeated [www.] label and a repeated default port. *)
Lemma canonicalize_url_second_pass_strips :
  canonicalize_url "http://www.www.a.com/" = "http://www.a.com/" ∧
  canonicalize_url "http://www.a.com/" = "http://a.com/" ∧
  canonicalize_url "http://a.com:80:80/" = "http://a.com:80/" ∧
  canonicalize_url "http://a.com:80/" = "http://a.com/".
Proof. by vm_compute. Qed.




(** The two URLs of the specification's equivalence example. *)
Lemma canonicalize_url_equivalence_example :
  canonicalize_url "https://WWW.Example.com/a/?utm_source=x&b=2&a=1" =
    canonicalize_url "https://example.com/a?b=2&a=1".
Proof. by vm_compute. Qed.

End CanonClaims.

(** *** The exact-match and fingerprint loops *)
Module DedupeFacts.
Import Str Dedupe DedupeSpec UF UFFacts LoopFacts.

Lemma truthy_true s : truthy s = true ↔ s ≠ "".
Proof. unfold truthy. rewrite negb_true_iff, bool_decide_eq_false. done. Qed.

Lemma truthy_false s : truthy s = false ↔ s = "".
Proof. unfold truthy. rewrite negb_false_iff, bool_decide_eq_true. done. Qed.

Lemma extends_refl p : extends p p.
Proof. by split. Qed.

Lemma extends_trans p1 p2 p3 : extends p1 p2 → extends p2 p3 → extends p1 p3.
Proof. intros [? H1] [? H2]. split; [congruence | eauto]. Qed.

Lemma dedupe_key_filled t : dedupe_key (filled t) = dedupe_key t.
Proof.
  unfold filled. destruct (truthy (dedupe_key t)) eqn:Hk; [| done].
  unfold dedupe_key at 1. simpl. by rewrite Hk.
Qed.

Lemma filled_canonical_url t :
  tab_canonical_url (filled t) =
    if truthy (dedupe_key t) then dedupe_key t else tab_canonical_url t.
Proof. unfold filled. by destruct (truthy (dedupe_key t)). Qed.

(** The invariant of the exact-match loop before index [k]. *)
Definition exact_inv (tabs : list Tab) (k : nat)
    (st : list Tab * list nat * gmap string nat) : Prop :=
  let '(tabs', parent, canonical_map) := st in
  length parent = length tabs ∧ forest parent ∧
  (∀ i, tabs' !! i = if decide (i < k) then filled <$> tabs !! i else tabs !! i) ∧
  (∀ c f, canonical_map !! c = Some f →
     f < k ∧ ∃ t, tabs !! f = Some t ∧ dedupe_key t = c) ∧
  (∀ i t, i < k → tabs !! i = Some t → truthy (dedupe_key t) = true →
     ∃ f, canonical_map !! dedupe_key t = Some f ∧ same parent i f).

Lemma exact_step_inv tabs k st :
  k < length tabs → exact_inv tabs k st →
  ∃ st', exact_step st k = Some st' ∧ exact_inv tabs (S k) st'.
Proof.
  destruct st as [[tabs' parent] cmap]. intros Hk (Hlen & Hf & Htabs & Hmap & Hsame).
  destruct (lookup_lt_is_Some_2 tabs k Hk) as [t Ht].
  assert (Ht' : tabs' !! k = Some t).
  { rewrite Htabs. by rewrite decide_False by lia. }
  unfold exact_step. rewrite Ht'. simpl.
  destruct (truthy (dedupe_key t)) eqn:Hkey; simpl.
  - assert (Hnew : ∀ i, <[k := set_canonical_url (dedupe_key t) t]> tabs' !! i =
               if decide (i < S k) then filled <$> tabs !! i else tabs !! i).
    { intros i. destruct (decide (i = k)) as [-> | Hne].
      - rewrite list_lookup_insert_eq by (by eapply lookup_lt_Some).
        rewrite decide_True by lia. rewrite Ht. simpl. unfold filled. by rewrite Hkey.
      - rewrite list_lookup_insert_ne by done. rewrite Htabs.
        repeat case_decide; done || lia. }
    destruct (cmap !! dedupe_key t) as [f |] eqn:Hc.
    + destruct (Hmap _ _ Hc) as (Hfk & tf & Htf & Hkf).
      destruct (union_partition parent k f Hf ltac:(lia) ltac:(lia))
        as (parent' & Hu & Hlen' & Hf' & Hmono & Hkf' & _).
      rewrite Hu. simpl. eexists. split; [done |].
      split_and!; [congruence | done | done | |].
      * intros c g Hg. destruct (Hmap _ _ Hg) as (? & ?). split; [lia | done].
      * intros i ti Hi Hti Hki. destruct (decide (i = k)) as [-> | Hne].
        -- assert (ti = t) by congruence. subst ti. by exists f.
        -- destruct (Hsame i ti ltac:(lia) Hti Hki) as (g & Hg & Hig).
           exists g. split; [done | by apply Hmono].
    + eexists. split; [done |].
      split_and!; [done | done | done | |].
      * intros c g Hg. destruct (decide (c = dedupe_key t)) as [-> | Hne].
        -- rewrite lookup_insert_eq in Hg. simplify_eq. split; [lia | by exists t].
        -- rewrite lookup_insert_ne in Hg by done.
           destruct (Hmap _ _ Hg) as (? & ?). split; [lia | done].
      * intros i ti Hi Hti Hki. destruct (decide (i = k)) as [-> | Hne].
        -- assert (ti = t) by congruence. subst ti. exists k.
           rewrite lookup_insert_eq. split; [done |]. apply same_refl; [done | lia].
        -- destruct (Hsame i ti ltac:(lia) Hti Hki) as (g & Hg & Hig).
           exists g. split; [| done]. rewrite lookup_insert_ne; [done |].
           intros Heq. rewrite <- Heq in Hg. congruence.
  - eexists. split; [done |].
    split_and!; [done | done | | |].
    + intros i. rewrite Htabs. destruct (decide (i = k)) as [-> | Hne].
      * rewrite decide_False by lia. rewrite decide_True by lia.
        rewrite Ht. simpl. unfold filled. by rewrite Hkey.
      * repeat case_decide; done || lia.
    + intros c g Hg. destruct (Hmap _ _ Hg) as (? & ?). split; [lia | done].
    + intros i ti Hi Hti Hki. destruct (decide (i = k)) as [-> | Hne].
      * assert (ti = t) by congruence. subst ti. congruence.
      * apply Hsame; [lia | done | done].
Qed.

Lemma exact_phase_spec tabs :
  ∃ parent canonical_map,
    exact_phase tabs (range 0 (length tabs)) = Some (filled <$> tabs, parent, canonical_map) ∧
    length parent = length tabs ∧ forest parent ∧
    ∀ a b, same_key tabs a b → same parent a b.
Proof.
  unfold exact_phase.
  destruct (for_each_range (exact_inv tabs) 0 (length tabs) exact_step
              (tabs, range 0 (length tabs), ∅)) as ([[tabs' parent] cmap] & Hrun & Hinv).
  - lia.
  - unfold exact_inv, range. split_and!.
    + rewrite length_seq. lia.
    + apply forest_seq.
    + intros i. by rewrite decide_False by lia.
    + intros c f Hc. by rewrite lookup_empty in Hc.
    + intros i t Hi. lia.
  - intros k st [_ Hk] Hst. by apply exact_step_inv.
  - destruct Hinv as (Hlen & Hf & Htabs & Hmap & Hsame).
    assert (tabs' = filled <$> tabs) as ->.
    { apply list_eq. intros i. rewrite Htabs, list_lookup_fmap.
      case_decide as Hi; [done |]. by rewrite lookup_ge_None_2 by lia. }
    exists parent, cmap. split_and!; [done | done | done |].
    intros a b (ta & tb & Ha & Hb & Hkey & Htr).
    destruct (Hsame a ta (lookup_lt_Some _ _ _ Ha) Ha Htr) as (f & Hfa & Hsa).
    destruct (Hsame b tb (lookup_lt_Some _ _ _ Hb) Hb ltac:(congruence)) as (g & Hgb & Hsb).
    assert (f = g) by congruence. subst g.
    eapply same_trans; [exact Hsa | by apply same_sym].
Qed.

Lemma near_step_inv tabs thr i ti sim_a p0 j q :
  tabs !! i = Some ti → tab_simhash ti = Some sim_a → i < j < length tabs →
  length p0 = length tabs →
  (forest q ∧ extends p0 q ∧ ∀ b, i < b < j → near tabs thr i b → same q i b) →
  ∃ q', near_step tabs thr i ti sim_a q j = Some q' ∧
    (forest q' ∧ extends p0 q' ∧ ∀ b, i < b < S j → near tabs thr i b → same q' i b).
Proof.
  intros Hti Hsa Hj Hlen0 (Hf & Hext & Hrow).
  destruct (lookup_lt_is_Some_2 tabs j ltac:(lia)) as [tj Htj].
  unfold near_step. rewrite Htj. simpl.
  assert (Hskip : ¬ near tabs thr i j →
            forest q ∧ extends p0 q ∧ ∀ b, i < b < S j → near tabs thr i b → same q i b).
  { intros Hn. split_and!; [done | done |]. intros b Hb Hnb.
    destruct (decide (b = j)) as [-> | ?]; [done | apply Hrow; [lia | done]]. }
  destruct (tab_simhash tj) as [sim_b |] eqn:Hsb.
  - destruct (near_duplicate thr ti tj sim_a sim_b) eqn:Hnd.
    + destruct Hext as [Hlenq Hmono].
      destruct (union_partition q i j Hf ltac:(lia) ltac:(lia))
        as (q' & Hu & Hlen' & Hf' & Hmono' & Hij & _).
      exists q'. split; [done |]. split_and!; [done | | ].
      * split; [congruence | eauto].
      * intros b Hb Hnb. destruct (decide (b = j)) as [-> | ?]; [done |].
        apply Hmono', Hrow; [lia | done].
    + exists q. split; [done |]. apply Hskip.
      intros (ta & tb & sa & sb & Ha & Hb & Hs1 & Hs2 & Hn). simplify_eq. congruence.
  - exists q. split; [done |]. apply Hskip.
    intros (ta & tb & sa & sb & Ha & Hb & Hs1 & Hs2 & Hn). simplify_eq.
Qed.

Lemma near_row_inv tabs thr p0 i q :
  i < length tabs → length p0 = length tabs →
  (forest q ∧ extends p0 q ∧ ∀ a b, a < i → a < b → near tabs thr a b → same q a b) →
  ∃ q', near_row tabs thr q i = Some q' ∧
    (forest q' ∧ extends p0 q' ∧
     ∀ a b, a < S i → a < b → near tabs thr a b → same q' a b).
Proof.
  intros Hi Hlen0 (Hf & Hext & Hdone).
  destruct (lookup_lt_is_Some_2 tabs i Hi) as [ti Hti].
  unfold near_row. rewrite Hti. simpl.
  destruct (tab_simhash ti) as [sim_a |] eqn:Hsa.
  - destruct (for_each_range
                (λ j q', forest q' ∧ extends p0 q' ∧
                   (∀ a b, a < i → a < b → near tabs thr a b → same q' a b) ∧
                   ∀ b, i < b < j → near tabs thr i b → same q' i b)
                (i + 1) (length tabs) (near_step tabs thr i ti sim_a) q)
      as (q' & Hrun & Hf' & Hext' & Hdone' & Hrow').
    + lia.
    + split_and!; [done | done | done |]. intros b Hb. lia.
    + intros j q1 Hj (Hf1 & Hext1 & Hdone1 & Hrow1).
      destruct (near_step_inv tabs thr i ti sim_a p0 j q1 Hti Hsa ltac:(lia) Hlen0)
        as (q2 & Hs & Hf2 & Hext2 & Hrow2); [by split_and! |].
      exists q2. split; [done |]. split_and!; [done | done | | done].
      intros a b Ha Hab Hn.
      assert (Hstep : ∀ x y, same q1 x y → same q2 x y).
      { unfold near_step in Hs.
        destruct (tabs !! j) as [tj |]; simpl in Hs; [| done].
        destruct (tab_simhash tj) as [sim_b |]; [| by simplify_eq].
        destruct (near_duplicate thr ti tj sim_a sim_b); [| by simplify_eq].
        destruct Hext1 as [Hl1 _].
        destruct (union_partition q1 i j Hf1 ltac:(lia) ltac:(lia))
          as (q3 & Hu & _ & _ & Hm & _). simplify_eq. done. }
      by apply Hstep, Hdone1.
    + exists q'. split; [done |]. split_and!; [done | done |].
      intros a b Ha Hab Hn. destruct (decide (a = i)) as [-> | ?].
      * apply Hrow'; [| done]. split; [done |].
        destruct Hn as (_ & tb & _ & _ & _ & Hb & _). by eapply lookup_lt_Some.
      * apply Hdone'; [lia | done | done].
  - exists q. split; [done |]. split_and!; [done | done |].
    intros a b Ha Hab Hn. destruct (decide (a = i)) as [-> | ?].
    + destruct Hn as (ta & tb & sa & sb & Ha' & _ & Hs1 & _). simplify_eq.
    + apply Hdone; [lia | done | done].
Qed.

Lemma near_phase_spec tabs thr p :
  length p = length tabs → forest p →
  ∃ p', near_phase tabs thr p = Some p' ∧ forest p' ∧ extends p p' ∧
    ∀ a b, a < b → near tabs thr a b → same p' a b.
Proof.
  intros Hlen Hf. unfold near_phase.
  destruct (for_each_range
              (λ i q, forest q ∧ extends p q ∧
                 ∀ a b, a < i → a < b → near tabs thr a b → same q a b)
              0 (length tabs) (near_row tabs thr) p)
    as (p' & Hrun & Hf' & Hext' & Hall).
  - lia.
  - split_and!; [done | apply extends_refl |]. intros a b Ha. lia.
  - intros i q [_ Hi] Hq. by apply near_row_inv.
  - exists p'. split_and!; [done | done | done |].
    intros a b Hab Hn. apply Hall; [| done | done].
    destruct Hn as (ta & _ & _ & _ & Ha & _). by eapply lookup_lt_Some.
Qed.

(** *** Collecting the clusters *)

Lemma setdefault_append_keys {K V : Type} `{EqDecision K} (k : K) (v : V) d :
  (setdefault_append k v d).*1 = if decide (k ∈ d.*1) then d.*1 else d.*1 ++ [k].
Proof.
  induction d as [| [k' vs] d IH]; csimpl.
  - done.
  - destruct (decide (k' = k)) as [-> | Hne]; csimpl.
    + rewrite decide_True; [done | by left].
    + rewrite IH. destruct (decide (k ∈ d.*1)) as [Hin | Hin].
      * rewrite decide_True; [done | by right].
      * rewrite decide_False; [done |]. by intros [? | ?]%elem_of_cons.
Qed.

Lemma setdefault_append_elem {K V : Type} `{EqDecision K} (k : K) (v : V) d k' l' :
  NoDup d.*1 → (k', l') ∈ setdefault_append k v d →
  (k' ≠ k ∧ (k', l') ∈ d) ∨
  (k' = k ∧ ((∃ l, (k, l) ∈ d ∧ l' = l ++ [v]) ∨ ((k ∉ d.*1) ∧ l' = [v]))).
Proof.
  induction d as [| [k0 vs] d IH]; simpl; intros Hnd Hin.
  - apply list_elem_of_singleton in Hin. simplify_eq. right. split; [done |].
    right. split; [by intros ?%elem_of_nil | done].
  - apply NoDup_cons in Hnd as [Hk0 Hnd].
    destruct (decide (k0 = k)) as [-> | Hne].
    + apply elem_of_cons in Hin as [Heq | Hin].
      * simplify_eq. right. split; [done |]. left. exists vs. split; [by left | done].
      * left. split; [| by right]. intros ->. apply Hk0.
        apply list_elem_of_fmap. by exists (k, l').
    + apply elem_of_cons in Hin as [Heq | Hin].
      * simplify_eq. left. split; [done | by left].
      * destruct (IH Hnd Hin) as [[? ?] | [-> [(l & Hl & ->) | [Hk ->]]]].
        -- left. split; [done | by right].
        -- right. split; [done |]. left. exists l. split; [by right | done].
        -- right. split; [done |]. right. split; [| done].
           by intros [? | ?]%elem_of_cons.
Qed.

Lemma clusters_ok_step p k r d groups :
  reach p k r d → clusters_ok p k groups →
  clusters_ok p (S k) (setdefault_append r k groups).
Proof.
  intros Hk (Hnd & Hent & Hkeys). split_and!.
  - rewrite setdefault_append_keys. case_decide as Hin; [done |].
    apply NoDup_app. split_and!; [done | | apply NoDup_singleton].
    intros x Hx ->%list_elem_of_singleton. done.
  - intros r' l' Hin.
    destruct (setdefault_append_elem _ _ _ _ _ Hnd Hin)
      as [[Hne Hold] | [-> [(l & Hl & ->) | [Hfresh ->]]]].
    + destruct (Hent _ _ Hold) as (Hndl & Hnil & Hmem). split_and!; [done | done |].
      intros idx. rewrite Hmem. split.
      * intros [? ?]. split; [lia | done].
      * intros [Hlt (d' & Hd')]. split; [| by exists d'].
        destruct (decide (idx = k)) as [-> | ?]; [| lia].
        destruct (reach_det _ _ _ _ Hk _ _ Hd'). congruence.
    + destruct (Hent _ _ Hl) as (Hndl & Hnil & Hmem). split_and!.
      * apply NoDup_app. split_and!; [done | | apply NoDup_singleton].
        intros x Hx ->%list_elem_of_singleton. apply Hmem in Hx. lia.
      * by destruct l.
      * intros idx. rewrite elem_of_app, list_elem_of_singleton, Hmem. split.
        -- intros [[? ?] | ->]; [split; [lia | done] | split; [lia | by exists d]].
        -- intros [Hlt Hr]. destruct (decide (idx = k)); [by right | left].
           split; [lia | done].
    + split_and!; [apply NoDup_singleton | done |].
      intros idx. rewrite list_elem_of_singleton. split.
      * intros ->. split; [lia | by exists d].
      * intros [Hlt (d' & Hd')]. destruct (decide (idx = k)) as [| Hne]; [done |].
        exfalso. apply Hfresh. eapply Hkeys; [| exact Hd']. lia.
  - intros idx r' d' Hlt Hr'. rewrite setdefault_append_keys.
    destruct (decide (idx = k)) as [-> | Hne].
    + destruct (reach_det _ _ _ _ Hk _ _ Hr') as [<- _].
      case_decide; [done |]. apply elem_of_app. right. by left.
    + assert (r' ∈ groups.*1) by (eapply Hkeys; [| exact Hr']; lia).
      case_decide; [done |]. apply elem_of_app. by left.
Qed.

Lemma collect_groups_spec p :
  forest p →
  ∃ p' groups, collect_groups (length p) p = Some (p', groups) ∧
    clusters_ok p (length p) groups.
Proof.
  intros Hf. unfold collect_groups.
  destruct (for_each_range
              (λ k (st : list nat * list (nat * list nat)),
                 keeps_roots p st.1 ∧ clusters_ok p k st.2)
              0 (length p) collect_step (p, []))
    as ([p' groups] & Hrun & _ & Hok).
  - lia.
  - simpl. split; [apply keeps_roots_refl |].
    split_and!; [constructor | by intros r l ?%elem_of_nil | intros; lia].
  - intros k [q groups] [_ Hk] [Hkeep Hok]. simpl in *.
    destruct (Hf k Hk) as (r & d & Hr).
    destruct Hkeep as [Hlen Hkeep']. destruct (Hkeep' _ _ _ Hr) as (d' & _ & Hr').
    destruct (find_spec _ _ _ _ Hr') as (q' & Hfind & Hk').
    rewrite Hfind. simpl. eexists. split; [done |]. simpl. split.
    + eapply keeps_roots_trans; [by split | done].
    + by eapply clusters_ok_step.
  - by exists p', groups.
Qed.

Lemma clusters_ok_same p groups a b :
  clusters_ok p (length p) groups → same p a b →
  ∃ r l, (r, l) ∈ groups ∧ a ∈ l ∧ b ∈ l.
Proof.
  intros (Hnd & Hent & Hkeys) (r & da & db & Ha & Hb).
  pose proof (reach_lt _ _ _ _ Ha) as Hla. pose proof (reach_lt _ _ _ _ Hb) as Hlb.
  pose proof (Hkeys _ _ _ Hla Ha) as Hin.
  apply list_elem_of_fmap in Hin as ([r' l] & Hr' & Hin). simpl in Hr'. subst r'.
  destruct (Hent _ _ Hin) as (_ & _ & Hmem).
  exists r, l. split_and!; [done | |]; apply Hmem; split; eauto.
Qed.

Lemma clusters_ok_class p groups a :
  clusters_ok p (length p) groups → forest p → a < length p →
  ∃ r l, (r, l) ∈ groups ∧ ∀ x, same p a x → x ∈ l.
Proof.
  intros (Hnd & Hent & Hkeys) Hf Ha. destruct (Hf a Ha) as (r & d & Hr).
  pose proof (Hkeys _ _ _ Ha Hr) as Hin.
  apply list_elem_of_fmap in Hin as ([r' l] & Hr' & Hin). simpl in Hr'. subst r'.
  destruct (Hent _ _ Hin) as (_ & _ & Hmem).
  exists r, l. split; [done |]. intros x (rx & da & dx & Hax & Hx).
  destruct (reach_det _ _ _ _ Hr _ _ Hax) as [<- _].
  apply Hmem. split; [by eapply reach_lt | by exists dx].
Qed.

Lemma clusters_ok_disjoint p k groups pre x post idx :
  clusters_ok p k groups → groups = pre ++ x :: post →
  idx ∈ x.2 → ∀ y, y ∈ pre ++ post → idx ∉ y.2.
Proof.
  intros (Hnd & Hent & _) -> Hx y Hy Hidx.
  destruct x as [rx lx], y as [ry ly]. simpl in *.
  assert (Hinx : (rx, lx) ∈ pre ++ (rx, lx) :: post).
  { apply elem_of_app. right. by left. }
  assert (Hiny : (ry, ly) ∈ pre ++ (rx, lx) :: post).
  { apply elem_of_app. apply elem_of_app in Hy as [? | ?]; [by left | right; by right]. }
  destruct (Hent _ _ Hinx) as (_ & _ & Hmx). destruct (Hent _ _ Hiny) as (_ & _ & Hmy).
  apply Hmx in Hx as [_ (dx & Hdx)]. apply Hmy in Hidx as [_ (dy & Hdy)].
  destruct (reach_det _ _ _ _ Hdx _ _ Hdy) as [-> _].
  rewrite fmap_app, fmap_cons in Hnd. simpl in Hnd.
  apply NoDup_app in Hnd as (_ & Hpre & Hpost). apply NoDup_cons in Hpost as [Hpost _].
  apply elem_of_app in Hy as [Hy | Hy].
  - apply (Hpre ry); [apply list_elem_of_fmap; by exists (ry, ly) | by left].
  - apply Hpost. apply list_elem_of_fmap. by exists (ry, ly).
Qed.

(** *** Resolving a cluster *)

#[local] Arguments add_aliases : simpl never.
#[local] Arguments sorted : simpl never.

Lemma foldl_min_spec l : ∀ x,
  foldl Nat.min x l ∈ x :: l ∧ ∀ y, y ∈ x :: l → foldl Nat.min x l ≤ y.
Proof.
  induction l as [| z l IH]; intros x; simpl.
  - split; [by left |]. intros y ->%list_elem_of_singleton. done.
  - destruct (IH (x `min` z)) as [Hin Hle]. split.
    + apply elem_of_cons in Hin as [Heq | Hin].
      * rewrite Heq. destruct (Nat.min_spec x z) as [[_ ->] | [_ ->]];
          [by left | right; by left].
      * right. by right.
    + intros y Hy.
      assert (Hm : foldl Nat.min (x `min` z) l ≤ x `min` z) by (apply Hle; by left).
      apply elem_of_cons in Hy as [-> | Hy]; [lia |].
      apply elem_of_cons in Hy as [-> | Hy]; [lia |].
      apply Hle. by right.
Qed.

Lemma list_min_spec l :
  l ≠ [] → ∃ p, list_min l = Some p ∧ p ∈ l ∧ ∀ y, y ∈ l → p ≤ y.
Proof.
  destruct l as [| x l]; [done |]. intros _.
  destruct (foldl_min_spec l x) as [Hin Hle]. by exists (foldl Nat.min x l).
Qed.

Lemma cluster_aliases_snoc tabs pre x p :
  cluster_aliases tabs (pre ++ [x]) p =
    cluster_aliases tabs pre p ++
      (if decide (x ≠ p) then from_option (λ t, [tab_url t]) [] (tabs !! x) else []).
Proof.
  unfold cluster_aliases. rewrite filter_app, omap_app, fmap_app. f_equal.
  rewrite filter_singleton by done. case_decide; [| done].
  simpl. by destruct (tabs !! x).
Qed.

Lemma cluster_aliases_ext tabs tabs' l p :
  (∀ idx, idx ∈ l → tabs !! idx = tabs' !! idx) →
  cluster_aliases tabs l p = cluster_aliases tabs' l p.
Proof.
  intros Hext. induction l as [| x l IH] using rev_ind; [done |].
  rewrite !cluster_aliases_snoc. rewrite IH.
  - rewrite (Hext x); [done |]. apply elem_of_app. right. by left.
  - intros idx Hidx. apply Hext. apply elem_of_app. by left.
Qed.

Lemma cluster_aliases_nil tabs l p :
  (∀ idx, idx ∈ l → idx < length tabs) →
  cluster_aliases tabs l p = [] → ∀ idx, idx ∈ l → idx = p.
Proof.
  intros Hlt. induction l as [| x l IH] using rev_ind; [by intros _ idx ?%elem_of_nil |].
  rewrite cluster_aliases_snoc. intros [Hnil Hx]%app_eq_nil idx Hin.
  apply elem_of_app in Hin as [Hin | ->%list_elem_of_singleton].
  - apply IH; [| done | done]. intros i Hi. apply Hlt, elem_of_app. by left.
  - destruct (decide (x ≠ p)) as [Hne | Heq]; [| by apply dec_stable].
    destruct (lookup_lt_is_Some_2 tabs x) as [t Ht].
    { apply Hlt, elem_of_app. right. by left. }
    by rewrite Ht in Hx.
Qed.

Lemma cluster_aliases_elem tabs l p u :
  u ∈ cluster_aliases tabs l p ↔
    ∃ idx t, idx ∈ l ∧ idx ≠ p ∧ tabs !! idx = Some t ∧ tab_url t = u.
Proof.
  unfold cluster_aliases. rewrite list_elem_of_fmap. split.
  - intros (t & -> & Ht). apply list_elem_of_omap in Ht as (idx & Hidx & Ht).
    apply list_elem_of_filter in Hidx as [? ?]. by exists idx, t.
  - intros (idx & t & Hin & Hne & Ht & <-). exists t. split; [done |].
    apply list_elem_of_omap. exists idx. split; [| done].
    by apply list_elem_of_filter.
Qed.

Lemma mark_loop_spec tabs p l pm d :
  (∀ idx, idx ∈ l → idx < length tabs) →
  ∃ pm' d', for_each l (mark_step tabs p) (pm, d, []) =
              Some (pm', d', cluster_aliases tabs l p) ∧
    ∀ idx, pm' !! idx = if decide (idx ∈ l) then Some p else pm !! idx.
Proof.
  intros Hlt.
  destruct (for_each_prefix
              (λ pre (st : gmap nat nat * nat * list string),
                 st.2 = cluster_aliases tabs pre p ∧
                 ∀ idx, st.1.1 !! idx = if decide (idx ∈ pre) then Some p else pm !! idx)
              l (mark_step tabs p) (pm, d, []))
    as ([[pm' d'] al] & Hrun & Hal & Hpm).
  - split; [done |]. intros idx. rewrite decide_False; [done | by intros ?%elem_of_nil].
  - intros pre x post [[pm1 d1] al1] Hl [Hal1 Hpm1]. simpl in *.
    assert (Hx : x < length tabs).
    { apply Hlt. rewrite Hl. apply elem_of_app. right. by left. }
    destruct (lookup_lt_is_Some_2 tabs x Hx) as [t Ht].
    assert (Hpm' : ∀ idx, <[x := p]> pm1 !! idx =
               if decide (idx ∈ pre ++ [x]) then Some p else pm !! idx).
    { intros idx. destruct (decide (idx = x)) as [-> | Hne].
      - rewrite lookup_insert_eq. rewrite decide_True; [done |].
        apply elem_of_app. right. by left.
      - rewrite lookup_insert_ne by done. rewrite Hpm1.
        destruct (decide (idx ∈ pre)) as [Hin | Hin].
        + rewrite decide_True; [done |]. apply elem_of_app. by left.
        + rewrite decide_False; [done |].
          intros [? | ?%list_elem_of_singleton]%elem_of_app; done. }
    unfold mark_step. rewrite cluster_aliases_snoc. case_decide.
    + rewrite Ht. simpl. eexists. split; [done |]. simpl. by rewrite Hal1.
    + eexists. split; [done |]. simpl. by rewrite Hal1, app_nil_r.
  - simpl in *. subst al. by exists pm', d'.
Qed.

Lemma link_loop_spec p l tabs tp :
  NoDup l → (∀ idx, idx ∈ l → idx < length tabs) → tabs !! p = Some tp →
  ∃ tabs', for_each l (link_step p) tabs = Some tabs' ∧
    length tabs' = length tabs ∧
    ∀ idx, tabs' !! idx =
      if decide (idx ∈ l ∧ idx ≠ p) then resolved_alias p tp <$> tabs !! idx
      else tabs !! idx.
Proof.
  intros Hnd Hlt Hp.
  destruct (for_each_prefix
              (λ pre tabs', length tabs' = length tabs ∧ ∀ idx, tabs' !! idx =
                 if decide (idx ∈ pre ∧ idx ≠ p) then resolved_alias p tp <$> tabs !! idx
                 else tabs !! idx)
              l (link_step p) tabs) as (tabs' & Hrun & Hinv).
  - split; [done |].
    intros idx. rewrite decide_False; [done |]. by intros [?%elem_of_nil _].
  - intros pre x post tabs1 Hl [Hlen1 Hinv].
    assert (Hx : x < length tabs).
    { apply Hlt. rewrite Hl. apply elem_of_app. right. by left. }
    assert (Hfresh : x ∉ pre).
    { rewrite Hl in Hnd. apply NoDup_app in Hnd as (_ & Hdis & _).
      intros Hin. apply (Hdis x Hin). by left. }
    destruct (lookup_lt_is_Some_2 tabs x Hx) as [t Ht].
    assert (Hx1 : tabs1 !! x = Some t).
    { rewrite Hinv. rewrite decide_False; [done |]. by intros [? _]. }
    assert (Hp1 : tabs1 !! p = Some tp).
    { rewrite Hinv. rewrite decide_False; [done |]. by intros [_ ?]. }
    unfold link_step. destruct (decide (x ≠ p)) as [Hne | Heq].
    + rewrite Hx1. simpl.
      assert (Hres : ∃ tabs2, (if negb (truthy (tab_canonical_url t))
                  then primary_tab ← tabs1 !! p;
                       Some (<[x := set_canonical_url (tab_canonical_url primary_tab)
                                      (set_duplicate_of (Some p) t)]> tabs1)
                  else Some (<[x := set_duplicate_of (Some p) t]> tabs1)) = Some tabs2 ∧
                tabs2 = <[x := resolved_alias p tp t]> tabs1).
      { unfold resolved_alias. destruct (truthy (tab_canonical_url t)); simpl.
        - eexists. by split.
        - rewrite Hp1. simpl. eexists. by split. }
      destruct Hres as (tabs2 & -> & ->). eexists. split; [done |].
      split; [by rewrite length_insert |].
      intros idx. destruct (decide (idx = x)) as [-> | Hidx].
      * rewrite list_lookup_insert_eq.
        -- rewrite decide_True; [by rewrite Ht |]. split; [| done].
           apply elem_of_app. right. by left.
        -- apply lookup_lt_Some in Hx1. done.
      * rewrite list_lookup_insert_ne by done. rewrite Hinv.
        destruct (decide (idx ∈ pre ∧ idx ≠ p)) as [[Hin ?] | Hnot].
        -- rewrite decide_True; [done |]. split; [| done]. apply elem_of_app. by left.
        -- rewrite decide_False; [done |].
           intros [[? | ?%list_elem_of_singleton]%elem_of_app ?]; [by apply Hnot | done].
    + apply dec_stable in Heq. subst x. exists tabs1. split; [done |].
      split; [done |].
      intros idx. rewrite Hinv.
      destruct (decide (idx ∈ pre ∧ idx ≠ p)) as [[Hin ?] | Hnot].
      * rewrite decide_True; [done |]. split; [| done]. apply elem_of_app. by left.
      * rewrite decide_False; [done |].
        intros [[? | ?%list_elem_of_singleton]%elem_of_app ?]; [by apply Hnot | done].
  - by exists tabs'.
Qed.

Lemma resolved_ext tabs tabs' l p idx :
  (∀ i, i ∈ l → tabs !! i = tabs' !! i) → p ∈ l → idx ∈ l →
  resolved tabs l p idx = resolved tabs' l p idx.
Proof.
  intros Hext Hp Hidx. unfold resolved, resolved_primary.
  rewrite (Hext idx Hidx), (Hext p Hp), (cluster_aliases_ext tabs tabs' l p Hext). done.
Qed.

Lemma resolve_step_spec tabs pm d r l :
  NoDup l → l ≠ [] → (∀ idx, idx ∈ l → idx < length tabs) →
  ∃ p tabs' pm' d',
    list_min l = Some p ∧ p ∈ l ∧ (∀ y, y ∈ l → p ≤ y) ∧
    resolve_step (tabs, pm, d) (r, l) = Some (tabs', pm', d') ∧
    length tabs' = length tabs ∧
    (∀ idx, pm' !! idx = if decide (idx ∈ l) then Some p else pm !! idx) ∧
    (∀ idx, tabs' !! idx = if decide (idx ∈ l) then resolved tabs l p idx
                           else tabs !! idx).
Proof.
  intros Hnd Hnil Hlt.
  destruct (list_min_spec l Hnil) as (p & Hmin & Hp & Hle).
  destruct (mark_loop_spec tabs p l pm d Hlt) as (pm' & d' & Hmark & Hpm').
  destruct (lookup_lt_is_Some_2 tabs p (Hlt p Hp)) as [tp Htp].
  unfold resolve_step. simpl. rewrite Hmin. simpl. rewrite Hmark. simpl.
  destruct (cluster_aliases tabs l p) as [| u al] eqn:Hal.
  - exists p, tabs, pm', d'. split_and!; [done | done | done | done | done | done |].
    intros idx. case_decide as Hin; [| done].
    rewrite (cluster_aliases_nil tabs l p Hlt Hal idx Hin).
    unfold resolved, resolved_primary. rewrite Htp, Hal. simpl.
    by rewrite decide_True by done.
  - rewrite Htp. simpl.
    set (tp' := set_aliases (sorted (add_aliases (list_to_set (tab_aliases tp)) (u :: al))) tp).
    destruct (link_loop_spec p l (<[p := tp']> tabs) tp' Hnd)
      as (tabs' & Hlink & Hlen' & Htabs').
    { intros idx Hin. rewrite length_insert. by apply Hlt. }
    { apply list_lookup_insert_eq. by apply Hlt. }
    rewrite length_insert in Hlen'. rewrite Hlink. simpl.
    exists p, tabs', pm', d'. split_and!; [done | done | done | done | done | done |].
    intros idx. rewrite Htabs'. destruct (decide (idx = p)) as [-> | Hne].
    + rewrite decide_False by (by intros [_ ?]). rewrite decide_True by done.
      rewrite list_lookup_insert_eq by (by apply Hlt).
      unfold resolved, resolved_primary. rewrite Htp, Hal. simpl.
      by rewrite decide_True by done.
    + rewrite list_lookup_insert_ne by done.
      destruct (decide (idx ∈ l)) as [Hin | Hin].
      * rewrite decide_True by done. unfold resolved. rewrite Htp.
        destruct (tabs !! idx) as [t |]; [| done]. simpl.
        by rewrite decide_False by done.
      * rewrite decide_False; [done |]. by intros [? _].
Qed.

Lemma resolve_spec p0 tabs groups :
  length p0 = length tabs → clusters_ok p0 (length p0) groups →
  ∃ tabs' pm dups,
    resolve groups tabs = Some (tabs', pm, dups) ∧
    length tabs' = length tabs ∧
    ∀ r l, (r, l) ∈ groups →
      ∃ p, list_min l = Some p ∧ p ∈ l ∧ (∀ y, y ∈ l → p ≤ y) ∧
        ∀ idx, idx ∈ l → pm !! idx = Some p ∧ tabs' !! idx = resolved tabs l p idx.
Proof.
  intros Hlen Hok. unfold resolve.
  destruct (for_each_prefix
              (λ pre (st : list Tab * gmap nat nat * nat),
                 length st.1.1 = length tabs ∧
                 (∀ idx, (∀ e, e ∈ pre → idx ∉ e.2) → st.1.1 !! idx = tabs !! idx) ∧
                 ∀ r l, (r, l) ∈ pre →
                   ∃ p, list_min l = Some p ∧ p ∈ l ∧ (∀ y, y ∈ l → p ≤ y) ∧
                     ∀ idx, idx ∈ l →
                       st.1.2 !! idx = Some p ∧ st.1.1 !! idx = resolved tabs l p idx)
              groups resolve_step (tabs, ∅, 0))
    as ([[tabs' pm] dups] & Hrun & Hlen' & Hfree & Hdone).
  - split_and!; [done | done |]. by intros r l ?%elem_of_nil.
  - intros pre [r l] post [[tabs1 pm1] d1] Hg (Hlen1 & Hfree & Hdone). simpl in *.
    destruct Hok as (Hndk & Hent & Hkeys).
    assert (Hin : (r, l) ∈ groups) by (rewrite Hg; apply elem_of_app; right; by left).
    destruct (Hent _ _ Hin) as (Hndl & Hnil & Hmem).
    assert (Hdis : ∀ idx, idx ∈ l → ∀ y, y ∈ pre ++ post → idx ∉ y.2).
    { intros idx Hidx.
      by eapply (clusters_ok_disjoint p0 (length p0) groups pre (r, l) post). }
    assert (Hsame : ∀ idx, idx ∈ l → tabs1 !! idx = tabs !! idx).
    { intros idx Hidx. apply Hfree. intros e He. apply (Hdis idx Hidx).
      apply elem_of_app. by left. }
    destruct (resolve_step_spec tabs1 pm1 d1 r l Hndl Hnil)
      as (p & tabs2 & pm2 & d2 & Hmin & Hp & Hle & Hstep & Hlen2 & Hpm2 & Htabs2).
    { intros idx Hidx. apply Hmem in Hidx as [? _]. lia. }
    exists (tabs2, pm2, d2). split; [done |]. simpl. split_and!.
    + congruence.
    + intros idx Hidx. rewrite Htabs2. rewrite decide_False.
      * apply Hfree. intros e He. apply Hidx, elem_of_app. by left.
      * intros Hl. apply (Hidx (r, l)); [| done]. apply elem_of_app. right. by left.
    + intros r' l' [Hpre | Hx%list_elem_of_singleton]%elem_of_app.
      * destruct (Hdone _ _ Hpre) as (p' & Hmin' & Hp' & Hle' & Hall).
        exists p'. split_and!; [done | done | done |].
        intros idx Hidx. destruct (Hall idx Hidx) as [Hpm Htab].
        assert (Hnot : idx ∉ l).
        { intros Hl. apply (Hdis idx Hl (r', l')); [| done]. apply elem_of_app. by left. }
        rewrite Hpm2, Htabs2. by rewrite !decide_False by done.
      * simplify_eq. exists p. split_and!; [done | done | done |].
        intros idx Hidx. rewrite Hpm2, Htabs2. rewrite !decide_True by done.
        split; [done |]. by apply resolved_ext.
  - exists tabs', pm, dups. simpl in *. split_and!; [done | done | done].
Qed.

(** *** The resolver as a whole *)

Lemma filled_simhash t : tab_simhash (filled t) = tab_simhash t.
Proof. unfold filled. by destruct (truthy (dedupe_key t)). Qed.

Lemma filled_domain t : tab_domain (filled t) = tab_domain t.
Proof. unfold filled. by destruct (truthy (dedupe_key t)). Qed.

Lemma filled_url t : tab_url (filled t) = tab_url t.
Proof. unfold filled. by destruct (truthy (dedupe_key t)). Qed.

Lemma filled_id t : tab_id (filled t) = tab_id t.
Proof. unfold filled. by destruct (truthy (dedupe_key t)). Qed.

Lemma filled_aliases t : tab_aliases (filled t) = tab_aliases t.
Proof. unfold filled. by destruct (truthy (dedupe_key t)). Qed.

Lemma filled_duplicate_of t : tab_duplicate_of (filled t) = tab_duplicate_of t.
Proof. unfold filled. by destruct (truthy (dedupe_key t)). Qed.

Lemma near_filled tabs thr a b :
  near tabs thr a b → near (filled <$> tabs) thr a b.
Proof.
  intros (ta & tb & sa & sb & Ha & Hb & Hsa & Hsb & Hn).
  exists (filled ta), (filled tb), sa, sb.
  rewrite !list_lookup_fmap, Ha, Hb, !filled_simhash.
  split_and!; [done | done | done | done |].
  unfold near_duplicate in *. by rewrite !filled_domain.
Qed.

Lemma hamming_distance_comm a b : hamming_distance a b = hamming_distance b a.
Proof. unfold hamming_distance. by rewrite Z.lxor_comm. Qed.

Lemma near_sym tabs thr a b : near tabs thr a b → near tabs thr b a.
Proof.
  intros (ta & tb & sa & sb & Ha & Hb & Hsa & Hsb & Hn).
  exists tb, ta, sb, sa. split_and!; [done | done | done | done |].
  unfold near_duplicate in *.
  apply andb_true_iff in Hn as [Hn Hh]. apply andb_true_iff in Hn as [Ht Hd].
  apply bool_decide_eq_true in Hd. apply bool_decide_eq_true in Hh.
  rewrite <- Hd, Ht. rewrite hamming_distance_comm.
  rewrite !bool_decide_eq_true_2; done.
Qed.

(** What [dedupe_tabs] computes: it returns; its clusters are the sets of a
    forest [p0] in which every pair the two loops test positively is
    joined; and every tab of a cluster is resolved against the cluster's
    smallest index. *)
Lemma dedupe_spec tabs thr :
  ∃ p0 groups tabs' pm dups,
    dedupe_clusters tabs thr = Some (filled <$> tabs, groups) ∧
    dedupe_tabs tabs thr = Some (tabs', pm, dups) ∧
    length p0 = length tabs ∧ forest p0 ∧ clusters_ok p0 (length p0) groups ∧
    (∀ a b, same_key tabs a b → same p0 a b) ∧
    (∀ a b, near tabs thr a b → same p0 a b) ∧
    length tabs' = length tabs ∧
    ∀ r l, (r, l) ∈ groups →
      ∃ p, list_min l = Some p ∧ p ∈ l ∧ (∀ y, y ∈ l → p ≤ y) ∧
        ∀ idx, idx ∈ l →
          pm !! idx = Some p ∧ tabs' !! idx = resolved (filled <$> tabs) l p idx.
Proof.
  destruct (exact_phase_spec tabs) as (p1 & cmap & Hexact & Hlen1 & Hf1 & Hkey).
  destruct (near_phase_spec (filled <$> tabs) thr p1) as (p0 & Hnear & Hf0 & [Hlen0 Hmono] & Hn).
  { by rewrite length_fmap. }
  { done. }
  destruct (collect_groups_spec p0 Hf0) as (p2 & groups & Hcollect & Hok).
  destruct (resolve_spec p0 (filled <$> tabs) groups) as (tabs' & pm & dups & Hres & Hlen' & Hall).
  { rewrite length_fmap. congruence. }
  { done. }
  assert (Hclusters : dedupe_clusters tabs thr = Some (filled <$> tabs, groups)).
  { unfold dedupe_clusters. rewrite Hexact. simpl. rewrite Hnear. simpl.
    rewrite length_fmap. replace (length tabs) with (length p0) by congruence.
    rewrite Hcollect. done. }
  exists p0, groups, tabs', pm, dups. split_and!.
  - done.
  - unfold dedupe_tabs. rewrite Hclusters. simpl. done.
  - congruence.
  - done.
  - done.
  - intros a b Hab. by apply Hmono, Hkey.
  - intros a b Hab.
    assert (Ha : a < length p0).
    { destruct Hab as (ta & _ & _ & _ & Ha & _). apply lookup_lt_Some in Ha. lia. }
    destruct (Nat.lt_trichotomy a b) as [Hlt | [-> | Hgt]].
    + by apply Hn, near_filled.
    + by apply same_refl.
    + apply same_sym, Hn; [done |]. by apply near_filled, near_sym.
  - by rewrite Hlen', length_fmap.
  - done.
Qed.

Lemma unioned_same tabs thr p0 a b :
  (∀ a b, same_key tabs a b → same p0 a b) →
  (∀ a b, near tabs thr a b → same p0 a b) →
  unioned tabs thr a b → same p0 a b.
Proof.
  intros Hkey Hnear (ta & tb & Ha & Hb & [[Hc Hne] | (Hd & Hdd & sa & sb & Hsa & Hsb & Hh)]).
  - apply Hkey. exists ta, tb. unfold dedupe_key.
    rewrite <- Hc. rewrite (proj2 (truthy_true _) Hne).
    split_and!; [done | done | done | by apply truthy_true].
  - apply Hnear. exists ta, tb, sa, sb. split_and!; [done | done | done | done |].
    unfold near_duplicate. rewrite (proj2 (truthy_true _) Hd).
    rewrite !bool_decide_eq_true_2; done.
Qed.

Lemma resolved_Some tabs l p idx t' :
  resolved tabs l p idx = Some t' →
  ∃ t tp, tabs !! idx = Some t ∧ tabs !! p = Some tp ∧
    t' = if decide (idx = p) then resolved_primary tabs l p tp
         else resolved_alias p tp t.
Proof.
  unfold resolved. intros H.
  destruct (tabs !! idx) as [t |]; [| done]. simpl in H.
  destruct (tabs !! p) as [tp |]; [| done]. simpl in H.
  exists t, tp. by simplify_eq.
Qed.

Lemma resolved_primary_id tabs l p tp : tab_id (resolved_primary tabs l p tp) = tab_id tp.
Proof. unfold resolved_primary. by destruct (cluster_aliases tabs l p). Qed.

Lemma resolved_alias_id p tp t : tab_id (resolved_alias p tp t) = tab_id t.
Proof. unfold resolved_alias. by destruct (truthy (tab_canonical_url t)). Qed.

Lemma resolved_id tabs l p idx t' :
  ids_positional tabs → resolved tabs l p idx = Some t' → tab_id t' = idx.
Proof.
  intros Hids (t & tp & Ht & Htp & ->)%resolved_Some.
  case_decide as Hc.
  - subst idx. rewrite resolved_primary_id. by apply Hids.
  - rewrite resolved_alias_id. by apply Hids.
Qed.

Lemma ids_positional_filled tabs : ids_positional tabs → ids_positional (filled <$> tabs).
Proof.
  intros Hids i t Ht. rewrite list_lookup_fmap in Ht.
  destruct (tabs !! i) as [t0 |] eqn:Ht0; [| done]. simpl in Ht. simplify_eq.
  rewrite filled_id. by apply Hids.
Qed.

End DedupeFacts.

(** *** Claims about the near-duplicate resolver *)
Module DedupeClaims.
Import Str Dedupe DedupeSpec UF UFFacts DedupeFacts.

(** C1. [dedupe_tabs] partitions the tabs transitively: when tabs [a] and [b]
    are unioned (an equal non-empty [canonical_url], or the same non-empty
    domain with fingerprints at Hamming distance at most the threshold) and
    [b] and [c] are unioned likewise, the three lie in one cluster of the
    dictionary [groups]. The primary of that cluster is [min(indices)], a
    member of the cluster; every member is mapped to it by [primary_map],
    and it is the member with the smallest id. *)
Theorem dedupe_tabs_transitive (tabs : list Tab) (hamming_threshold : Z) (a b c : nat) :
  ids_positional tabs →
  unioned tabs hamming_threshold a b →
  unioned tabs hamming_threshold b c →
  ∃ tabs1 groups tabs' primary_map duplicates root indices primary tp,
    dedupe_clusters tabs hamming_threshold = Some (tabs1, groups) ∧
    dedupe_tabs tabs hamming_threshold = Some (tabs', primary_map, duplicates) ∧
    (root, indices) ∈ groups ∧
    a ∈ indices ∧ b ∈ indices ∧ c ∈ indices ∧
    list_min indices = Some primary ∧ primary ∈ indices ∧
    tabs' !! primary = Some tp ∧ tab_id tp = primary ∧
    ∀ k, k ∈ indices →
      primary_map !! k = Some primary ∧
      ∃ tk, tabs' !! k = Some tk ∧ tab_id tk = k ∧ tab_id tp ≤ tab_id tk.
Proof.
  intros Hids Hab Hbc.
  destruct (dedupe_spec tabs hamming_threshold)
    as (p0 & groups & tabs' & pm & dups & Hcl & Hrun & Hlen & Hf & Hok & Hkey & Hnear & Hlen' & Hall).
  pose proof (unioned_same _ _ _ _ _ Hkey Hnear Hab) as Sab.
  pose proof (unioned_same _ _ _ _ _ Hkey Hnear Hbc) as Sbc.
  pose proof (same_lt _ _ _ Sab) as [Hla _].
  destruct (clusters_ok_class p0 groups a Hok Hf Hla) as (r & l & Hin & Hclass).
  destruct (Hall _ _ Hin) as (p & Hmin & Hp & Hle & Hres).
  assert (Hmember : ∀ k, k ∈ l → ∃ tk, tabs' !! k = Some tk ∧ tab_id tk = k).
  { intros k Hk. destruct (Hres k Hk) as [_ Htk].
    destruct (lookup_lt_is_Some_2 tabs' k) as [tk Hk'].
    { destruct Hok as (_ & Hent & _). destruct (Hent _ _ Hin) as (_ & _ & Hm).
      apply Hm in Hk as [? _]. lia. }
    exists tk. split; [done |]. rewrite Hk' in Htk.
    eapply resolved_id; [by apply ids_positional_filled | done]. }
  destruct (Hmember p Hp) as (tp & Htp & Hidp).
  exists (filled <$> tabs), groups, tabs', pm, dups, r, l, p, tp.
  split_and!; [done | done | done | | | | done | done | done | done |].
  - by apply Hclass, same_refl.
  - by apply Hclass.
  - apply Hclass. by eapply same_trans.
  - intros k Hk. destruct (Hres k Hk) as [Hpm _]. split; [done |].
    destruct (Hmember k Hk) as (tk & Htk & Hidk). exists tk.
    split_and!; [done | done |]. rewrite Hidp, Hidk. by apply Hle.
Qed.

Lemma chain_tabs_positional : ids_positional Samples.chain_tabs.
Proof. intros [| [| [| i]]] t Ht; by simplify_eq/=. Defined.

Lemma dedupe_tabs_transitive_witness :
  ids_positional Samples.chain_tabs ∧
  unioned Samples.chain_tabs 3 0 1 ∧ unioned Samples.chain_tabs 3 1 2 ∧
  ∃ tabs1 groups tabs' primary_map duplicates root indices primary tp,
    dedupe_clusters Samples.chain_tabs 3 = Some (tabs1, groups) ∧
    dedupe_tabs Samples.chain_tabs 3 = Some (tabs', primary_map, duplicates) ∧
    (root, indices) ∈ groups ∧
    0 ∈ indices ∧ 1 ∈ indices ∧ 2 ∈ indices ∧
    list_min indices = Some primary ∧ primary ∈ indices ∧
    tabs' !! primary = Some tp ∧ tab_id tp = primary ∧
    ∀ k, k ∈ indices →
      primary_map !! k = Some primary ∧
      ∃ tk, tabs' !! k = Some tk ∧ tab_id tk = k ∧ tab_id tp ≤ tab_id tk.
Proof.
  assert (H01 : unioned Samples.chain_tabs 3 0 1).
  { eexists _, _. split_and!; [done | done |]. left. by split. }
  assert (H12 : unioned Samples.chain_tabs 3 1 2).
  { eexists _, _. split_and!; [done | done |]. right. split_and!; [done | done |].
    eexists _, _. split_and!; [done | done |]. vm_compute. discriminate. }
  split_and!; [exact chain_tabs_positional | exact H01 | exact H12 |].
  exact (dedupe_tabs_transitive Samples.chain_tabs 3 0 1 2
           chain_tabs_positional H01 H12).
Defined.

(** *** Aliases *)

#[local] Arguments add_aliases : simpl never.
#[local] Arguments sorted : simpl never.

Lemma elem_of_add_aliases al : ∀ (existing : gset string) u,
  u ∈ add_aliases existing al ↔ u ∈ existing ∨ (u ∈ al ∧ u ≠ "").
Proof.
  unfold add_aliases. induction al as [| x al IH]; intros existing u; simpl.
  - split; [by left | intros [? | [?%elem_of_nil _]]; done].
  - rewrite IH. rewrite elem_of_cons.
    destruct (truthy x) eqn:Hx.
    + apply truthy_true in Hx. rewrite elem_of_union, elem_of_singleton.
      split; [intros [[-> | ?] | [? ?]] | intros [? | [[-> | ?] ?]]]; eauto.
    + apply truthy_false in Hx. subst x.
      split; [intros [? | [? ?]] | intros [? | [[-> | ?] ?]]]; eauto. done.
Qed.

Lemma sorted_spec (existing : gset string) :
  StronglySorted String.le (sorted existing) ∧ NoDup (sorted existing) ∧
  ∀ u, u ∈ sorted existing ↔ u ∈ existing.
Proof.
  unfold sorted. split_and!.
  - apply StronglySorted_merge_sort; apply _.
  - rewrite merge_sort_Permutation. apply NoDup_elements.
  - intros u. rewrite merge_sort_Permutation. apply elem_of_elements.
Qed.

Lemma resolved_alias_duplicate_of p tp t :
  tab_duplicate_of (resolved_alias p tp t) = Some p.
Proof. unfold resolved_alias. by destruct (truthy (tab_canonical_url t)). Qed.

(** The aliases of the primary of a cluster that has a non-primary member. *)
Lemma resolved_primary_aliases tabs l p tp idx :
  (∀ i, i ∈ l → i < length tabs) → idx ∈ l → idx ≠ p →
  StronglySorted String.le (tab_aliases (resolved_primary tabs l p tp)) ∧
  NoDup (tab_aliases (resolved_primary tabs l p tp)) ∧
  ∀ u, u ∈ tab_aliases (resolved_primary tabs l p tp) ↔
       u ∈ tab_aliases tp ∨
       (u ≠ "" ∧ ∃ i t, i ∈ l ∧ i ≠ p ∧ tabs !! i = Some t ∧ tab_url t = u).
Proof.
  intros Hlt Hidx Hne. unfold resolved_primary.
  destruct (cluster_aliases tabs l p) as [| u0 al] eqn:Hal.
  { by pose proof (cluster_aliases_nil tabs l p Hlt Hal idx Hidx). }
  simpl. rewrite <- Hal.
  destruct (sorted_spec (add_aliases (list_to_set (tab_aliases tp)) (cluster_aliases tabs l p)))
    as (Hs & Hnd & Hmem).
  split_and!; [done | done |].
  intros u. rewrite Hmem, elem_of_add_aliases, elem_of_list_to_set, cluster_aliases_elem.
  split; intros [? | [? ?]]; [by left | right; by split | by left | right; by split].
Qed.

(** What [dedupe_tabs] records on any list with positional ids: the guard
    [if url:] of line 544 keeps an empty raw URL out of the aliases. *)
Lemma records_truthy_urls (tabs : list Tab) (hamming_threshold : Z) :
  ids_positional tabs →
  (∃ result, dedupe_tabs tabs hamming_threshold = Some result) ∧
  duplicates_recorded (λ url, url ≠ "") tabs hamming_threshold.
Proof.
  intros Hids.
  destruct (dedupe_spec tabs hamming_threshold)
    as (p0 & groups & tabs' & pm & dups & Hcl & Hrun & Hlen & Hf & Hok & _ & _ & Hlen' & Hall).
  split; [by eexists |].
  intros tabs1 groups1 tabs1' pm1 dups1 Hcl1 Hrun1 root indices primary idx t0
    Hin Hmin Hidx Hne Ht0.
  rewrite Hcl in Hcl1. rewrite Hrun in Hrun1. simplify_eq.
  destruct (Hall _ _ Hin) as (p & Hmin' & Hp & Hle & Hres).
  rewrite Hmin in Hmin'. simplify_eq.
  assert (Hlt : ∀ i, i ∈ indices → i < length (filled <$> tabs)).
  { intros i Hi. rewrite length_fmap. destruct Hok as (_ & Hent & _).
    destruct (Hent _ _ Hin) as (_ & _ & Hm). apply Hm in Hi as [? _]. lia. }
  destruct (Hres idx Hidx) as [_ Hti]. destruct (Hres p Hp) as [_ Htp].
  destruct (lookup_lt_is_Some_2 tabs p) as [tp0 Htp0].
  { specialize (Hlt p Hp). by rewrite length_fmap in Hlt. }
  unfold resolved in Hti, Htp.
  rewrite (list_lookup_fmap filled tabs idx), (list_lookup_fmap filled tabs p) in Hti.
  rewrite (list_lookup_fmap filled tabs p) in Htp.
  rewrite Ht0, Htp0 in Hti. rewrite Htp0 in Htp. simpl in Hti, Htp.
  rewrite decide_False in Hti by done. rewrite decide_True in Htp by done.
  eexists _, _. split; [exact Hti |]. split; [exact Htp |].
  destruct (resolved_primary_aliases (filled <$> tabs) indices p (filled tp0) idx Hlt Hidx Hne)
    as (Hs & Hnd & Hmem).
  split_and!; [| | done | done].
  - rewrite resolved_alias_duplicate_of, resolved_primary_id, filled_id.
    f_equal. symmetry. by apply Hids.
  - intros Hurl. apply Hmem. right. split; [done |].
    exists idx, (filled t0). split_and!; [done | done | | apply filled_url].
    by rewrite list_lookup_fmap, Ht0.
Qed.

(** C2. On the tabs [dedupe_tabs] receives, with ids that are positions and
    raw URLs that are not empty (what [load_tabs] builds, lines 136-151),
    [dedupe_tabs] returns, and in every cluster each non-primary member has
    [duplicate_of] set to the primary's id while the primary's [aliases]
    hold the raw URL of every non-primary member, without repetition and in
    sorted order. *)
Theorem dedupe_tabs_records_duplicates (tabs : list Tab) (hamming_threshold : Z) :
  ids_positional tabs →
  Forall (λ t, tab_url t ≠ "") tabs →
  (∃ result, dedupe_tabs tabs hamming_threshold = Some result) ∧
  duplicates_recorded (λ _, True) tabs hamming_threshold.
Proof.
  intros Hids Hurls.
  destruct (records_truthy_urls tabs hamming_threshold Hids) as [Hret Hrec].
  split; [done |].
  intros tabs1 groups tabs' pm dups Hcl Hrun root indices primary idx t0
    Hin Hmin Hidx Hne Ht0.
  destruct (Hrec _ _ _ _ _ Hcl Hrun _ _ _ _ _ Hin Hmin Hidx Hne Ht0)
    as (t & tp & Ht & Htp & Hdup & Hurl & Hnd & Hsorted).
  exists t, tp. split_and!; [done | done | done | | done | done].
  intros _. apply Hurl.
  rewrite Forall_forall in Hurls. apply Hurls. by eapply list_elem_of_lookup_2.
Qed.

Lemma chain_tabs_urls : Forall (λ t, tab_url t ≠ "") Samples.chain_tabs.
Proof. by repeat constructor. Defined.

Lemma dedupe_tabs_records_duplicates_witness :
  ids_positional Samples.chain_tabs ∧
  Forall (λ t, tab_url t ≠ "") Samples.chain_tabs ∧
  (∃ result, dedupe_tabs Samples.chain_tabs 3 = Some result) ∧
  duplicates_recorded (λ _, True) Samples.chain_tabs 3.
Proof.
  split; [exact chain_tabs_positional |]. split; [exact chain_tabs_urls |].
  exact (dedupe_tabs_records_duplicates Samples.chain_tabs 3
           chain_tabs_positional chain_tabs_urls).
Defined.

(** The hypothesis on the raw URLs is needed: on a list that [load_tabs]
    cannot build, a non-primary member with an empty raw URL is not added
    to the aliases ([if url: existing.add(url)]). *)
Lemma empty_url_not_recorded :
  ¬ duplicates_recorded (λ _, True) Samples.empty_url_tabs 3.
Proof.
  intros H.
  pose (c := dedupe_clusters Samples.empty_url_tabs 3).
  assert (Hc : dedupe_clusters Samples.empty_url_tabs 3 = c) by done.
  pose (r := dedupe_tabs Samples.empty_url_tabs 3).
  assert (Hr : dedupe_tabs Samples.empty_url_tabs 3 = r) by done.
  vm_compute in c, r. subst c r.
  destruct (H _ _ _ _ _ Hc Hr 1 [0; 1] 0 1 _ ltac:(by left) eq_refl ltac:(by right; left)
              ltac:(done) eq_refl) as (t & tp & _ & Htp & _ & Hu & _).
  clear H Hc Hr. cbn in Htp. simplify_eq. specialize (Hu I). cbn in Hu.
  by apply elem_of_nil in Hu.
Qed.

(** *** Canonical URLs after resolution *)

Lemma dedupe_key_nonempty t : dedupe_key t ≠ "".
Proof.
  unfold dedupe_key. destruct (truthy (tab_canonical_url t)) eqn:Ht.
  - by apply truthy_true.
  - apply CanonShape.canonicalize_url_nonempty.
Qed.

Lemma filled_canonical_url_key t : tab_canonical_url (filled t) = dedupe_key t.
Proof.
  rewrite filled_canonical_url.
  by rewrite (proj2 (truthy_true _) (dedupe_key_nonempty t)).
Qed.

Lemma resolved_primary_canonical_url tabs l p tp :
  tab_canonical_url (resolved_primary tabs l p tp) = tab_canonical_url tp.
Proof. unfold resolved_primary. by destruct (cluster_aliases tabs l p). Qed.

Lemma resolved_alias_canonical_url p tp t :
  tab_canonical_url (resolved_alias p tp t) =
    if truthy (tab_canonical_url t) then tab_canonical_url t else tab_canonical_url tp.
Proof. unfold resolved_alias. by destruct (truthy (tab_canonical_url t)). Qed.

(** C3 (as amended). After [dedupe_tabs], every member of every cluster,
    the primary included, has a non-empty [canonical_url]: the one it came
    with or, when it came with none, [canonicalize_url] of its own raw URL.
    Nothing is taken from another member of the cluster. *)
Theorem dedupe_tabs_fills_canonical_url (tabs : list Tab) (hamming_threshold : Z) :
  ∃ tabs1 groups tabs' primary_map duplicates,
    dedupe_clusters tabs hamming_threshold = Some (tabs1, groups) ∧
    dedupe_tabs tabs hamming_threshold = Some (tabs', primary_map, duplicates) ∧
    (∀ idx, idx < length tabs → ∃ root indices, (root, indices) ∈ groups ∧ idx ∈ indices) ∧
    ∀ root indices idx,
      (root, indices) ∈ groups → idx ∈ indices →
      ∃ t0 t, tabs !! idx = Some t0 ∧ tabs' !! idx = Some t ∧
        tab_canonical_url t ≠ "" ∧
        tab_canonical_url t =
          if Str.truthy (tab_canonical_url t0) then tab_canonical_url t0
          else canonicalize_url (tab_url t0).
Proof.
  destruct (dedupe_spec tabs hamming_threshold)
    as (p0 & groups & tabs' & pm & dups & Hcl & Hrun & Hlen & Hf & Hok & _ & _ & Hlen' & Hall).
  exists (filled <$> tabs), groups, tabs', pm, dups. split_and!; [done | done | |].
  - intros idx Hidx.
    destruct (clusters_ok_class p0 groups idx Hok Hf ltac:(lia)) as (r & l & Hin & Hclass).
    exists r, l. split; [done |]. apply Hclass, same_refl; [done | lia].
  - intros root indices idx Hin Hidx.
    destruct (Hall _ _ Hin) as (p & Hmin & Hp & Hle & Hres).
    destruct (Hres idx Hidx) as [_ Ht].
    assert (Hlt : ∀ i, i ∈ indices → i < length tabs).
    { intros i Hi. destruct Hok as (_ & Hent & _).
      destruct (Hent _ _ Hin) as (_ & _ & Hm). apply Hm in Hi as [? _]. lia. }
    destruct (lookup_lt_is_Some_2 tabs idx (Hlt idx Hidx)) as [t0 Ht0].
    destruct (lookup_lt_is_Some_2 tabs p (Hlt p Hp)) as [tp0 Htp0].
    unfold resolved in Ht.
    rewrite (list_lookup_fmap filled tabs idx), (list_lookup_fmap filled tabs p) in Ht.
    rewrite Ht0, Htp0 in Ht. simpl in Ht.
    eexists t0, _. split; [done |]. split; [exact Ht |].
    assert (Hc : tab_canonical_url
                   (if decide (idx = p)
                    then resolved_primary (filled <$> tabs) indices p (filled tp0)
                    else resolved_alias p (filled tp0) (filled t0)) = dedupe_key t0).
    { case_decide as Hd.
      - subst idx. assert (tp0 = t0) by congruence. subst tp0.
        by rewrite resolved_primary_canonical_url, filled_canonical_url_key.
      - rewrite resolved_alias_canonical_url, filled_canonical_url_key.
        by rewrite (proj2 (truthy_true _) (dedupe_key_nonempty t0)). }
    rewrite Hc. split; [apply dedupe_key_nonempty | done].
Qed.

(** C3 as stated fails: the primary of a cluster that came without a
    [canonical_url] gets the canonical form of its own URL, which no other
    member of the cluster carries. *)
Lemma primary_keeps_own_canonical :
  ¬ primary_inherits_canonical Samples.uncanonical_tabs 3.
Proof.
  intros H.
  pose (c := dedupe_clusters Samples.uncanonical_tabs 3).
  assert (Hc : dedupe_clusters Samples.uncanonical_tabs 3 = c) by done.
  pose (r := dedupe_tabs Samples.uncanonical_tabs 3).
  assert (Hr : dedupe_tabs Samples.uncanonical_tabs 3 = r) by done.
  vm_compute in c, r. subst c r.
  destruct (H _ _ _ _ _ Hc Hr 0 [0; 1] 0 _ ltac:(by left) eq_refl eq_refl eq_refl)
    as (tp & idx & t & Htp & Hidx & Hne & Ht & Hcan).
  { exists 1. split; [by right; left | done]. }
  clear H Hc Hr. cbn in Htp. simplify_eq.
  apply elem_of_cons in Hidx as [-> | Hidx]; [done |].
  apply list_elem_of_singleton in Hidx as ->.
  destruct Ht as [Ht | Ht]; cbn in Ht; simplify_eq; cbn in Hcan; discriminate.
Qed.

End DedupeClaims.

(** *** The fingerprint *)
Module FingerprintFacts.

Section Votes.
Variable token_hash : string → Z.

Definition delta (h : Z) (i : nat) : Z := if Z.testbit h (Z.of_nat i) then 1%Z else (-1)%Z.

Lemma vote_bit_lookup h v i j :
  vote_bit h v i !! j =
    if decide (j = i) then (λ s, s + delta h i)%Z <$> v !! j else v !! j.
Proof.
  unfold vote_bit, delta. destruct (decide (j = i)) as [-> | Hne].
  - destruct (v !! i) as [s |] eqn:Hs.
    + rewrite list_lookup_insert_eq by (by eapply lookup_lt_Some). simpl.
      by destruct (Z.testbit h (Z.of_nat i)).
    + by rewrite Hs.
  - destruct (v !! i) as [s |]; [| done]. by rewrite list_lookup_insert_ne.
Qed.

Lemma vote_bits_lookup h n : ∀ v j,
  foldl (vote_bit h) v (seq 0 n) !! j =
    if decide (j < n) then (λ s, s + delta h j)%Z <$> v !! j else v !! j.
Proof.
  induction n as [| n IH]; intros v j.
  - destruct (decide (j < 0)); [lia | done].
  - rewrite seq_S, foldl_snoc. change (0 + n) with n. rewrite vote_bit_lookup, IH.
    repeat case_decide; subst; first [done | exfalso; lia].
Qed.

Lemma vote_token_lookup v token j :
  vote_token token_hash v token !! j =
    if decide (j < 64) then (λ s, s + delta (token_hash token) j)%Z <$> v !! j
    else v !! j.
Proof. unfold vote_token, range. apply vote_bits_lookup. Qed.

(** Two tokens vote in either order to the same effect. *)
Lemma vote_token_comm v t1 t2 :
  vote_token token_hash (vote_token token_hash v t1) t2 =
  vote_token token_hash (vote_token token_hash v t2) t1.
Proof.
  apply list_eq. intros j. rewrite !vote_token_lookup.
  case_decide; [| done]. destruct (v !! j) as [s |]; [| done]. simpl.
  f_equal. lia.
Qed.

Lemma votes_permutation tokens tokens' :
  tokens ≡ₚ tokens' →
  ∀ v, foldl (vote_token token_hash) v tokens = foldl (vote_token token_hash) v tokens'.
Proof.
  induction 1 as [| t l l' _ IH | t1 t2 l | l1 l2 l3 _ IH1 _ IH2]; intros v; simpl.
  - done.
  - apply IH.
  - by rewrite vote_token_comm.
  - by rewrite IH1, IH2.
Qed.

(** The value has no bit outside the positions of the vector. *)
Lemma set_bits_range (entries : list (nat * Z)) n :
  (∀ e, e ∈ entries → e.1 < n) →
  ∀ value, (0 ≤ value < 2 ^ Z.of_nat n)%Z →
    (0 ≤ foldl set_bit value entries < 2 ^ Z.of_nat n)%Z.
Proof.
  induction entries as [| e entries IH]; intros Hlt value Hv; simpl; [done |].
  apply IH; [intros e' He'; apply Hlt; by right |].
  unfold set_bit. destruct (0 <? e.2)%Z; [| done].
  assert (He : e.1 < n) by (apply Hlt; by left).
  assert (Hbit : (0 < Z.shiftl 1 (Z.of_nat e.1) < 2 ^ Z.of_nat n)%Z).
  { rewrite Z.shiftl_1_l. split; [apply Z.pow_pos_nonneg; lia |].
    apply Z.pow_lt_mono_r; lia. }
  split; [apply Z.lor_nonneg; lia |].
  destruct (decide (value = 0%Z)) as [-> | Hnz]; [rewrite Z.lor_0_l; lia |].
  apply Z.log2_lt_pow2; [| rewrite Z.log2_lor by lia; apply Z.max_lub_lt;
                            apply Z.log2_lt_pow2; lia].
  assert (0 ≤ Z.lor value (Z.shiftl 1 (Z.of_nat e.1)))%Z by (apply Z.lor_nonneg; lia).
  assert (Z.lor value (Z.shiftl 1 (Z.of_nat e.1)) ≠ 0)%Z; [| lia].
  intros [-> _]%Z.lor_eq_0_iff. done.
Qed.

Lemma votes_length tokens : ∀ v,
  length (foldl (vote_token token_hash) v tokens) = length v.
Proof.
  induction tokens as [| t tokens IH]; intros v; simpl; [done |].
  rewrite IH. unfold vote_token.
  generalize (range 0 64). intros l. revert v.
  induction l as [| i l IHl]; intros v; simpl; [done |].
  rewrite IHl. unfold vote_bit. destruct (v !! i); [by rewrite length_insert | done].
Qed.

Lemma vector_value_range v :
  length v ≤ 64 → (0 ≤ vector_value v < 2 ^ 64)%Z.
Proof.
  intros Hlen. unfold vector_value.
  apply (set_bits_range (imap pair v) 64); [| lia].
  intros [i s] Hin. apply elem_of_lookup_imap in Hin as (i' & s' & Heq & Hs').
  simplify_eq. simpl. apply lookup_lt_Some in Hs'. lia.
Qed.

(** C6. The fingerprint is order-independent: [simhash_from_tokens] gives
    the same result on any permutation of the token list (it depends on the
    token multiset only), and that result is a 64-bit value. *)
Theorem simhash_from_tokens_permutation (tokens tokens' : list string) :
  tokens ≡ₚ tokens' →
  simhash_from_tokens token_hash tokens = simhash_from_tokens token_hash tokens' ∧
  ∀ value, simhash_from_tokens token_hash tokens = Some value →
    (0 ≤ value < 2 ^ 64)%Z.
Proof.
  intros Hperm. split.
  - destruct tokens as [| t l], tokens' as [| t' l'].
    + done.
    + by apply Permutation_nil_cons in Hperm.
    + symmetry in Hperm. by apply Permutation_nil_cons in Hperm.
    + unfold simhash_from_tokens. do 2 f_equal. by apply votes_permutation.
  - intros value Hv. destruct tokens as [| t l]; [done |].
    unfold simhash_from_tokens in Hv. simplify_eq.
    apply vector_value_range. by rewrite votes_length, length_replicate.
Qed.

End Votes.

(** A stand-in hash for running the fingerprint on sample tokens. *)
Definition sample_hash (token : string) : Z :=
  (Z.of_nat (String.length token) * 2654435761)%Z.

Lemma simhash_from_tokens_permutation_witness :
  ["rust"; "borrow"; "checker"] ≡ₚ ["checker"; "rust"; "borrow"] ∧
  simhash_from_tokens sample_hash ["rust"; "borrow"; "checker"] =
    simhash_from_tokens sample_hash ["checker"; "rust"; "borrow"] ∧
  ∀ value, simhash_from_tokens sample_hash ["rust"; "borrow"; "checker"] = Some value →
    (0 ≤ value < 2 ^ 64)%Z.
Proof.
  assert (Hperm : ["rust"; "borrow"; "checker"] ≡ₚ ["checker"; "rust"; "borrow"]).
  { etrans; [apply perm_skip, perm_swap | apply perm_swap]. }
  split; [exact Hperm |].
  exact (simhash_from_tokens_permutation sample_hash _ _ Hperm).
Defined.

End FingerprintFacts.

(** *** The cluster builder *)
Module GroupsFacts.
Import Groups GroupsSpec DedupeSpec UF UFFacts LoopFacts DedupeFacts.

Lemma build_domain_map_snoc tabs t :
  build_domain_map (tabs ++ [t]) = domain_step (build_domain_map tabs) (length tabs, t).
Proof.
  unfold build_domain_map. rewrite imap_app, foldl_app. simpl.
  by rewrite Nat.add_0_r.
Qed.

Lemma filter_domain_snoc (d : string) tabs t :
  length (filter (λ t', tab_domain t' = d) (tabs ++ [t])) =
    length (filter (λ t', tab_domain t' = d) tabs) +
      (if decide (tab_domain t = d) then 1 else 0).
Proof.
  rewrite filter_app, length_app. f_equal.
  rewrite filter_cons, filter_nil. by case_decide.
Qed.

Lemma build_domain_map_ok tabs : domain_map_ok tabs (build_domain_map tabs).
Proof.
  induction tabs as [| t tabs IH] using rev_ind.
  { split_and!; [constructor | by intros d l ?%elem_of_nil | done]. }
  rewrite build_domain_map_snoc. destruct IH as (Hnd & Hent & Hkeys).
  set (dm := build_domain_map tabs) in *.
  assert (Hold : ∀ idx t', idx < length tabs →
            (tabs ++ [t]) !! idx = Some t' ↔ tabs !! idx = Some t').
  { intros idx t' Hlt. by rewrite lookup_app_l. }
  assert (Hnew : (tabs ++ [t]) !! length tabs = Some t).
  { by rewrite list_lookup_middle. }
  assert (Hlook : ∀ idx t', (tabs ++ [t]) !! idx = Some t' →
            (idx < length tabs ∧ tabs !! idx = Some t') ∨ (idx = length tabs ∧ t' = t)).
  { intros idx t' Hl. destruct (decide (idx < length tabs)) as [Hlt | Hge].
    - left. split; [done | by apply Hold].
    - right. pose proof (lookup_lt_Some _ _ _ Hl) as Hb.
      rewrite length_app in Hb. simpl in Hb.
      assert (idx = length tabs) by lia. subst idx. split; [done | congruence]. }
  unfold domain_step. cbn [fst snd].
  destruct (Str.truthy (tab_domain t)) eqn:Ht.
  - apply truthy_true in Ht. split_and!.
    + rewrite setdefault_append_keys. case_decide; [done |].
      apply NoDup_app. split_and!; [done | | apply NoDup_singleton].
      by intros x Hx ->%list_elem_of_singleton.
    + intros d l Hin.
      destruct (setdefault_append_elem _ _ _ _ _ Hnd Hin)
        as [[Hne Hin'] | [-> [(l0 & Hl0 & ->) | [Hfresh ->]]]].
      * destruct (Hent _ _ Hin') as (Hd & Hndl & Hmem & Hlen).
        split_and!; [done | done | |].
        -- intros idx. rewrite Hmem. split.
           ++ intros (t' & Ht' & Hd'). exists t'. split; [| done].
              apply Hold; [by eapply lookup_lt_Some | done].
           ++ intros (t' & Ht' & Hd').
              destruct (Hlook _ _ Ht') as [[_ ?] | [_ ->]]; [by exists t' | done].
        -- rewrite filter_domain_snoc, Hlen. rewrite decide_False by done. lia.
      * destruct (Hent _ _ Hl0) as (Hd & Hndl & Hmem & Hlen).
        split_and!; [done | | |].
        -- apply NoDup_app. split_and!; [done | | apply NoDup_singleton].
           intros x Hx ->%list_elem_of_singleton.
           apply Hmem in Hx as (t' & Ht' & _). apply lookup_lt_Some in Ht'. lia.
        -- intros idx. rewrite elem_of_app, list_elem_of_singleton, Hmem. split.
           ++ intros [(t' & Ht' & Hd') | ->].
              ** exists t'. split; [| done].
                 apply Hold; [by eapply lookup_lt_Some | done].
              ** by exists t.
           ++ intros (t' & Ht' & Hd').
              destruct (Hlook _ _ Ht') as [[_ ?] | [-> ->]]; [left; by exists t' | by right].
        -- rewrite filter_domain_snoc, length_app, Hlen. by rewrite decide_True by done.
      * split_and!; [done | apply NoDup_singleton | |].
        -- intros idx. rewrite list_elem_of_singleton. split.
           ++ intros ->. by exists t.
           ++ intros (t' & Ht' & Hd').
              destruct (Hlook _ _ Ht') as [[_ Hin'] | [-> _]]; [| done].
              exfalso. apply Hfresh. rewrite <- Hd'. eapply Hkeys; [done |].
              by rewrite Hd'.
        -- rewrite filter_domain_snoc. rewrite decide_True by done.
           destruct (filter (λ t', tab_domain t' = tab_domain t) tabs) as [| x f] eqn:Hf;
             [done |].
           assert (Hx : x ∈ filter (λ t', tab_domain t' = tab_domain t) tabs)
             by (rewrite Hf; by left).
           apply list_elem_of_filter in Hx as [Hd Hx].
           apply list_elem_of_lookup in Hx as [idx Hidx].
           exfalso. apply Hfresh. rewrite <- Hd. eapply Hkeys; [done |]. by rewrite Hd.
    + intros idx t' Ht' Hd'. rewrite setdefault_append_keys.
      destruct (Hlook _ _ Ht') as [[_ Hin] | [_ ->]].
      * pose proof (Hkeys _ _ Hin Hd'). case_decide; [done |].
        apply elem_of_app. by left.
      * case_decide; [done |]. apply elem_of_app. right. by left.
  - apply truthy_false in Ht. split_and!; [done | |].
    + intros d l Hin. destruct (Hent _ _ Hin) as (Hd & Hndl & Hmem & Hlen).
      split_and!; [done | done | |].
      * intros idx. rewrite Hmem. split.
        -- intros (t' & Ht' & Hd'). exists t'. split; [| done].
           apply Hold; [by eapply lookup_lt_Some | done].
        -- intros (t' & Ht' & Hd').
           destruct (Hlook _ _ Ht') as [[_ ?] | [_ ->]]; [by exists t' | congruence].
      * rewrite filter_domain_snoc, Hlen. rewrite decide_False by congruence. lia.
    + intros idx t' Ht' Hd'. destruct (Hlook _ _ Ht') as [[_ Hin] | [_ ->]]; [| done].
      by eapply Hkeys.
Qed.

Lemma union_domain_spec dgm p d l :
  forest p → (∀ idx, idx ∈ l → idx < length p) →
  ∃ p', union_domain dgm p (d, l) = Some p' ∧ forest p' ∧ extends p p' ∧
    ((Z.max 2 dgm ≤ Z.of_nat (length l))%Z → ∀ a b, a ∈ l → b ∈ l → same p' a b).
Proof.
  intros Hf Hlt. unfold union_domain. cbn [snd].
  destruct (Z.max 2 dgm <=? Z.of_nat (length l))%Z eqn:Hc.
  - apply Z.leb_le in Hc. destruct l as [| root rest]; [simpl in Hc; lia |]. simpl.
    assert (Hroot : root < length p) by (apply Hlt; by left).
    destruct (for_each_prefix
                (λ pre q, forest q ∧ extends p q ∧ ∀ x, x ∈ pre → same q root x)
                rest (λ parent idx, union parent root idx) p)
      as (p' & Hrun & Hf' & Hext & Hall).
    + split_and!; [done | apply extends_refl | by intros x ?%elem_of_nil].
    + intros pre x post q Hrest (Hfq & [Hlenq Hmono] & Hpre).
      assert (Hx : x < length p).
      { apply Hlt. right. rewrite Hrest. apply elem_of_app. right. by left. }
      destruct (union_partition q root x Hfq ltac:(lia) ltac:(lia))
        as (q' & Hu & Hlen' & Hf' & Hmono' & Hrx & _).
      exists q'. split_and!; [done | done | | ].
      * split; [congruence | eauto].
      * intros y [Hy | ->%list_elem_of_singleton]%elem_of_app; [| done].
        by apply Hmono', Hpre.
    + exists p'. split_and!; [done | done | done |].
      intros _ a b Ha Hb.
      assert (Hr : same p' root root).
      { apply same_refl; [done |]. destruct Hext as [-> _]. done. }
      assert (Hany : ∀ x, x ∈ root :: rest → same p' root x).
      { intros x [-> | Hx]%elem_of_cons; [done | by apply Hall]. }
      eapply same_trans; [apply same_sym, Hany, Ha | apply Hany, Hb].
  - exists p. split_and!; [done | done | apply extends_refl |].
    intros Hle. apply Z.leb_gt in Hc. lia.
Qed.

Lemma NoDup_two {A : Type} (l : list A) a b :
  NoDup l → a ∈ l → b ∈ l → a ≠ b → 2 ≤ length l.
Proof.
  intros Hnd Ha Hb Hne. destruct l as [| x [| y l]]; simpl; [| | lia].
  - by apply elem_of_nil in Ha.
  - apply list_elem_of_singleton in Ha, Hb. congruence.
Qed.

Lemma domain_phase_spec tabs dgm p :
  length p = length tabs → forest p →
  ∃ p', domain_phase tabs dgm p = Some p' ∧ forest p' ∧ extends p p' ∧
    ∀ i j, same_domain tabs dgm i j → same p' i j.
Proof.
  intros Hlen Hf. unfold domain_phase.
  destruct (build_domain_map_ok tabs) as (Hnd & Hent & Hkeys).
  destruct (for_each_prefix
              (λ pre q, forest q ∧ extends p q ∧
                 ∀ d l, (d, l) ∈ pre → (Z.max 2 dgm ≤ Z.of_nat (length l))%Z →
                   ∀ a b, a ∈ l → b ∈ l → same q a b)
              (build_domain_map tabs) (union_domain dgm) p)
    as (p' & Hrun & Hf' & Hext & Hall).
  - split_and!; [done | apply extends_refl | by intros d l ?%elem_of_nil].
  - intros pre [d l] post q Hdm (Hfq & [Hlenq Hmono] & Hpre).
    assert (Hin : (d, l) ∈ build_domain_map tabs).
    { rewrite Hdm. apply elem_of_app. right. by left. }
    destruct (Hent _ _ Hin) as (_ & _ & Hmem & _).
    destruct (union_domain_spec dgm q d l Hfq) as (q' & Hu & Hf' & [Hlen' Hmono'] & Hjoin).
    { intros idx (t & Ht & _)%Hmem. apply lookup_lt_Some in Ht. lia. }
    exists q'. split_and!; [done | done | |].
    + split; [congruence | eauto].
    + intros d' l' [Hold | Heq%list_elem_of_singleton]%elem_of_app Hle a b Ha Hb.
      * by apply Hmono', (Hpre d' l').
      * simplify_eq. by apply Hjoin.
  - exists p'. split_and!; [done | done | done |].
    intros i j (ti & tj & Hi & Hj & Hd & Hne & Hcount).
    pose proof (Hkeys _ _ Hi Hne) as Hkey.
    apply list_elem_of_fmap in Hkey as ([d l] & Hdl & Hin). simpl in Hdl. subst d.
    destruct (Hent _ _ Hin) as (_ & Hndl & Hmem & Hlenl).
    assert (Hil : i ∈ l) by (apply Hmem; by exists ti).
    assert (Hjl : j ∈ l) by (apply Hmem; by exists tj).
    destruct (decide (i = j)) as [-> | Hij].
    + apply same_refl; [done |]. destruct Hext as [-> _].
      apply lookup_lt_Some in Hj. lia.
    + apply (Hall _ _ Hin); [| done | done].
      pose proof (NoDup_two l i j Hndl Hil Hjl Hij). lia.
Qed.

(** **** The threshold-only fallback *)

Lemma threshold_row_spec m thr n i q :
  square n m → i < n → length q = n → forest q →
  ∃ q', threshold_row m thr n q i = Some q' ∧ forest q' ∧ extends q q' ∧
    ∀ b w, i < b < n → cell m i b = Some w → Qle_bool thr w = true → same q' i b.
Proof.
  intros Hsq Hi Hlen Hf. unfold threshold_row.
  destruct (for_each_range
              (λ j q', forest q' ∧ extends q q' ∧
                 ∀ b w, i < b < j → cell m i b = Some w → Qle_bool thr w = true →
                   same q' i b)
              (i + 1) n (threshold_step m thr i) q) as (q' & Hrun & Hf' & Hext & Hrow).
  - lia.
  - split_and!; [done | apply extends_refl | intros; lia].
  - intros j q1 Hj (Hf1 & [Hlen1 Hmono] & Hrow1).
    destruct (Hsq i j Hi ltac:(lia)) as [w Hw].
    unfold threshold_step. rewrite Hw. simpl.
    destruct (Qle_bool thr w) eqn:Hc.
    + destruct (union_partition q1 i j Hf1 ltac:(lia) ltac:(lia))
        as (q2 & Hu & Hlen2 & Hf2 & Hmono2 & Hij & _).
      exists q2. split_and!; [done | done | |].
      * split; [congruence | eauto].
      * intros b w' Hb Hw' Hc'. destruct (decide (b = j)) as [-> | ?]; [done |].
        eapply Hmono2, Hrow1; [| done | done]. lia.
    + exists q1. split_and!; [done | done | by split |].
      intros b w' Hb Hw' Hc'. destruct (decide (b = j)) as [-> | ?].
      * congruence.
      * eapply Hrow1; [| done | done]. lia.
  - exists q'. split_and!; [done | done | done |].
    intros b w Hb. by apply Hrow.
Qed.

Lemma threshold_phase_spec m thr n p :
  square n m → length p = n → forest p →
  ∃ p', threshold_phase m thr n p = Some p' ∧ forest p' ∧ extends p p' ∧
    ∀ i j w, i < j < n → cell m i j = Some w → Qle_bool thr w = true → same p' i j.
Proof.
  intros Hsq Hlen Hf. unfold threshold_phase.
  destruct (for_each_range
              (λ i q, forest q ∧ extends p q ∧
                 ∀ a b w, a < i → a < b < n → cell m a b = Some w →
                   Qle_bool thr w = true → same q a b)
              0 n (threshold_row m thr n) p) as (p' & Hrun & Hf' & Hext & Hall).
  - lia.
  - split_and!; [done | apply extends_refl | intros; lia].
  - intros i q [_ Hi] (Hfq & [Hlenq Hmono] & Hdone).
    destruct (threshold_row_spec m thr n i q Hsq Hi ltac:(lia) Hfq)
      as (q' & Hrow & Hf' & [Hlen' Hmono'] & Hnew).
    exists q'. split_and!; [done | done | |].
    + split; [congruence | eauto].
    + intros a b w Ha Hb Hw Hc. destruct (decide (a = i)) as [-> | ?].
      * by eapply Hnew.
      * eapply Hmono', Hdone; [| done | done | done]. lia.
  - exists p'. split_and!; [done | done | done |].
    intros i j w Hij. apply Hall; lia.
Qed.

(** **** Mutual nearest neighbours *)

Lemma elem_of_insert_by_score x y l : y ∈ insert_by_score x l ↔ y = x ∨ y ∈ l.
Proof.
  induction l as [| z l IH]; simpl.
  - rewrite list_elem_of_singleton. split; [by left | intros [? | ?%elem_of_nil]; done].
  - destruct (Qle_bool x.2 z.2).
    + rewrite !elem_of_cons, IH. tauto.
    + rewrite !elem_of_cons. tauto.
Qed.

Lemma elem_of_sort_by_score y l : y ∈ sort_by_score l ↔ y ∈ l.
Proof.
  unfold sort_by_score.
  assert (Hgen : ∀ acc, y ∈ foldl (λ sorted x, insert_by_score x sorted) acc l ↔
                        y ∈ acc ∨ y ∈ l).
  { induction l as [| x l IH]; intros acc; simpl.
    - split; [by left | intros [? | ?%elem_of_nil]; done].
    - rewrite IH, elem_of_insert_by_score, elem_of_cons. tauto. }
  rewrite Hgen. split; [intros [?%elem_of_nil | ?]; done | by right].
Qed.

Lemma scored_row_spec m n i :
  square n m → i < n →
  ∃ scored, scored_row m n i = Some scored ∧
    ∀ j w, (j, w) ∈ scored → j < n ∧ j ≠ i ∧ cell m i j = Some w.
Proof.
  intros Hsq Hi. unfold scored_row.
  set (f := λ j, score ← cell m i j; Some (j, score)).
  destruct (mapM_is_Some_2 f (filter (λ j, j ≠ i) (range 0 n))) as [scored Hs].
  { apply Forall_forall. intros j [_ Hj]%list_elem_of_filter.
    apply elem_of_seq in Hj. destruct (Hsq i j Hi ltac:(lia)) as [w Hw].
    unfold f. simpl. rewrite Hw. by eexists. }
  exists scored. split; [done |]. intros j w Hin.
  apply mapM_Some_1 in Hs. apply list_elem_of_lookup in Hin as [k Hk].
  destruct (Forall2_lookup_r _ _ _ _ _ Hs Hk) as (j' & Hj' & Hf).
  apply list_elem_of_lookup_2 in Hj'. apply list_elem_of_filter in Hj' as [Hne Hj'].
  apply elem_of_seq in Hj'. unfold f in Hf.
  destruct (cell m i j') as [w' |] eqn:Hc; simplify_eq/=.
  split_and!; [lia | done | done].
Qed.

Lemma neighbor_set_spec m n thr k i :
  square n m → i < n →
  ∃ ni, neighbor_set m n thr k i = Some ni ∧
    ∀ j, j ∈ ni → j < n ∧ j ≠ i ∧ ∃ w, cell m i j = Some w ∧ Qle_bool thr w = true.
Proof.
  intros Hsq Hi. destruct (scored_row_spec m n i Hsq Hi) as (scored & Hs & Hall).
  unfold neighbor_set. rewrite Hs. simpl. eexists. split; [done |].
  intros j Hj. apply elem_of_list_to_set in Hj.
  assert (Hin : j ∈ (filter (λ js, Qle_bool thr js.2 = true) (sort_by_score scored)).*1).
  { destruct (0 <? k)%Z; [| done].
    apply elem_of_take in Hj as (idx & Hidx & _). by eapply list_elem_of_lookup_2. }
  apply list_elem_of_fmap in Hin as ([j' w] & -> & Hin).
  apply list_elem_of_filter in Hin as [Hc Hin]. rewrite elem_of_sort_by_score in Hin.
  destruct (Hall _ _ Hin) as (? & ? & ?). simpl in *. split_and!; [done | done |].
  by exists w.
Qed.

Lemma build_neighbors_spec m n thr k :
  square n m →
  ∃ neighbors, build_neighbors m n thr k = Some neighbors ∧ length neighbors = n ∧
    ∀ i ni j, neighbors !! i = Some ni → j ∈ ni →
      j < n ∧ j ≠ i ∧ ∃ w, cell m i j = Some w ∧ Qle_bool thr w = true.
Proof.
  intros Hsq. unfold build_neighbors.
  destruct (mapM_is_Some_2 (neighbor_set m n thr k) (range 0 n)) as [nb Hnb].
  { apply Forall_forall. intros i Hi%elem_of_seq.
    destruct (neighbor_set_spec m n thr k i Hsq ltac:(lia)) as (ni & Hn & _).
    unfold compose. rewrite Hn. by eexists. }
  exists nb. split; [done |]. apply mapM_Some_1 in Hnb.
  split.
  - apply Forall2_length in Hnb. unfold range in Hnb. rewrite length_seq in Hnb. lia.
  - intros i ni j Hni Hj.
    destruct (Forall2_lookup_r _ _ _ _ _ Hnb Hni) as (i' & Hi' & Hset).
    apply lookup_seq in Hi' as [-> Hlt]. simpl in Hset.
    destruct (neighbor_set_spec m n thr k i Hsq ltac:(lia)) as (ni' & Hset' & Hprop).
    assert (ni' = ni) by congruence. subst ni'. by apply Hprop.
Qed.

(** The mutual-KNN loops only join, within a forest, pairs that are in each
    other's neighbor set: any equivalence that holds of the sets before and
    of those pairs holds of the sets after. *)
Lemma mutual_phase_spec (E : relation nat) `{!Equivalence E} neighbors n p :
  length neighbors = n →
  (∀ i ni j, neighbors !! i = Some ni → j ∈ ni → j < n) →
  length p = n → forest p →
  (∀ a b, same p a b → E a b) →
  (∀ i j ni nj, neighbors !! i = Some ni → neighbors !! j = Some nj →
     j ∈ ni → i ∈ nj → E i j) →
  ∃ p', mutual_phase neighbors n p = Some p' ∧ forest p' ∧ extends p p' ∧
    ∀ a b, same p' a b → E a b.
Proof.
  intros Hlenn Hrange Hlen Hf HE Hedge. unfold mutual_phase.
  destruct (for_each_range
              (λ (_ : nat) q, forest q ∧ extends p q ∧ ∀ a b, same q a b → E a b)
              0 n (mutual_row neighbors) p) as (p' & Hrun & Hinv).
  - lia.
  - split_and!; [done | apply extends_refl | done].
  - intros i q [_ Hi] (Hfq & Hextq & HEq).
    destruct (lookup_lt_is_Some_2 neighbors i ltac:(lia)) as [ni Hni].
    unfold mutual_row. rewrite Hni. simpl.
    apply (for_each_prefix
             (λ (_ : list nat) q', forest q' ∧ extends p q' ∧ ∀ a b, same q' a b → E a b)).
    + by split_and!.
    + intros pre j post q1 Hel (Hf1 & [Hlen1 Hmono1] & HE1).
      assert (Hj : j ∈ ni).
      { apply elem_of_elements. rewrite Hel. apply elem_of_app. right. by left. }
      pose proof (Hrange _ _ _ Hni Hj) as Hjn.
      destruct (lookup_lt_is_Some_2 neighbors j ltac:(lia)) as [nj Hnj].
      unfold mutual_step. rewrite Hnj. simpl. case_decide as Hmut.
      * destruct (union_partition q1 i j Hf1 ltac:(lia) ltac:(lia))
          as (q2 & Hu & Hlen2 & Hf2 & Hmono2 & _ & Hup).
        exists q2. split_and!; [done | done | |].
        -- split; [congruence | eauto].
        -- apply (Hup E _ HE1). by eapply Hedge.
      * exists q1. by split_and!.
  - by exists p'.
Qed.

(** **** Numbering the groups *)

Lemma number_groups_spec tabs gm :
  (∀ r l idx, (r, l) ∈ gm → idx ∈ l → idx < length tabs) →
  ∃ groups t2g, number_groups tabs gm = Some (groups, t2g) ∧
    Forall2 (group_of tabs) (imap pair gm) groups.
Proof.
  intros Hlt. unfold number_groups.
  destruct (for_each_prefix
              (λ pre (st : list Group * gmap nat nat), Forall2 (group_of tabs) pre st.1)
              (imap pair gm) (number_step tabs) ([], ∅))
    as ([groups t2g] & Hrun & Hinv).
  - constructor.
  - intros pre [gid [r l]] post [groups t2g] Hgm Hpre. simpl in Hpre.
    assert (Hin : (r, l) ∈ gm).
    { assert (Hx : (gid, (r, l)) ∈ imap pair gm).
      { rewrite Hgm. apply elem_of_app. right. by left. }
      apply elem_of_lookup_imap in Hx as (i & y & Heq & Hy). simplify_eq.
      by eapply list_elem_of_lookup_2. }
    destruct (mapM_is_Some_2 (λ i, tabs !! i) l) as [group_tabs Hmap].
    { apply Forall_forall. intros idx Hidx. apply lookup_lt_is_Some_2. by eapply Hlt. }
    unfold number_step. cbn [fst snd]. rewrite Hmap. simpl.
    eexists. split; [done |]. simpl. apply Forall2_app; [done |].
    constructor; [| constructor]. split; [done |]. cbn [snd group_tab_ids].
    apply mapM_Some_1 in Hmap. apply Forall2_fmap_r.
    eapply Forall2_impl; [exact Hmap |]. intros i t Ht. by exists t.
  - by exists groups, t2g.
Qed.

(** A pair of indices of one entry of [groups_map] gives a pair of ids of
    one group, and conversely. *)
Lemma group_of_merged tabs gm groups r l i j ti tj :
  Forall2 (group_of tabs) (imap pair gm) groups →
  (r, l) ∈ gm → i ∈ l → j ∈ l → tabs !! i = Some ti → tabs !! j = Some tj →
  merged groups (tab_id ti) (tab_id tj).
Proof.
  intros Hall Hin Hi Hj Hti Htj.
  apply list_elem_of_lookup in Hin as [k Hk].
  assert (Hk' : imap pair gm !! k = Some (k, (r, l))).
  { by rewrite list_lookup_imap, Hk. }
  destruct (Forall2_lookup_l _ _ _ _ _ Hall Hk') as (g & Hg & _ & Hids).
  simpl in Hids. exists g. split; [by eapply list_elem_of_lookup_2 |].
  assert (Hany : ∀ x tx, x ∈ l → tabs !! x = Some tx → tab_id tx ∈ group_tab_ids g).
  { intros x tx Hx Htx. apply list_elem_of_lookup in Hx as [n Hn].
    destruct (Forall2_lookup_l _ _ _ _ _ Hids Hn) as (tid & Htid & t & Ht & <-).
    assert (t = tx) by congruence. subst t. by eapply list_elem_of_lookup_2. }
  split; eauto.
Qed.

Lemma merged_group_of tabs gm groups a b :
  Forall2 (group_of tabs) (imap pair gm) groups → merged groups a b →
  ∃ r l i j ti tj, (r, l) ∈ gm ∧ i ∈ l ∧ j ∈ l ∧
    tabs !! i = Some ti ∧ tabs !! j = Some tj ∧ tab_id ti = a ∧ tab_id tj = b.
Proof.
  intros Hall (g & Hg & Ha & Hb).
  apply list_elem_of_lookup in Hg as [k Hk].
  destruct (Forall2_lookup_r _ _ _ _ _ Hall Hk) as ([gid [r l]] & He & _ & Hids).
  simpl in Hids. rewrite list_lookup_imap in He.
  destruct (gm !! k) as [[r' l'] |] eqn:Hgm; simplify_eq/=.
  assert (Hany : ∀ x, x ∈ group_tab_ids g →
            ∃ i t, i ∈ l ∧ tabs !! i = Some t ∧ tab_id t = x).
  { intros x Hx. apply list_elem_of_lookup in Hx as [n Hn].
    destruct (Forall2_lookup_r _ _ _ _ _ Hids Hn) as (i & Hi & t & Ht & Hid).
    exists i, t. split_and!; [by eapply list_elem_of_lookup_2 | done | done]. }
  destruct (Hany a Ha) as (i & ti & ? & ? & ?). destruct (Hany b Hb) as (j & tj & ? & ? & ?).
  exists r, l, i, j, ti, tj. split_and!; try done. by eapply list_elem_of_lookup_2.
Qed.

(** **** The union-find part as a whole *)

Lemma build_group_map_spec tabs m thr dg dgm mk k :
  square (length tabs) m →
  ∃ pd p gm,
    domain_parent tabs dg dgm = Some pd ∧
    build_group_map tabs m thr dg dgm mk k = Some gm ∧
    length pd = length tabs ∧ forest pd ∧
    length p = length tabs ∧ forest p ∧ extends pd p ∧
    clusters_ok p (length p) gm ∧
    (dg = true → ∀ i j, same_domain tabs dgm i j → same pd i j) ∧
    (mk = false → ∀ i j w, i < j < length tabs → cell m i j = Some w →
       Qle_bool thr w = true → same p i j) ∧
    (mk = true → ∀ E : relation nat, Equivalence E →
       (∀ a b, same pd a b → E a b) →
       (∀ i j, mutually_similar (length tabs) m thr i j → E i j) →
       ∀ a b, same p a b → E a b).
Proof.
  intros Hsq.
  assert (Hd : ∃ pd, domain_parent tabs dg dgm = Some pd ∧
             length pd = length tabs ∧ forest pd ∧
             (dg = true → ∀ i j, same_domain tabs dgm i j → same pd i j)).
  { unfold domain_parent. destruct dg.
    - destruct (domain_phase_spec tabs dgm (range 0 (length tabs)))
        as (pd & Hrun & Hf & [Hlen _] & Hdom).
      { unfold range. rewrite length_seq. lia. }
      { apply forest_seq. }
      exists pd. split_and!; [done | | done | done].
      rewrite Hlen. unfold range. rewrite length_seq. lia.
    - exists (range 0 (length tabs)). split_and!; [done | | apply forest_seq | done].
      unfold range. rewrite length_seq. lia. }
  destruct Hd as (pd & Hpd & Hlend & Hfd & Hdom).
  assert (Hm : ∃ p,
             (if mk then
                neighbors ← build_neighbors m (length tabs) thr k;
                mutual_phase neighbors (length tabs) pd
              else threshold_phase m thr (length tabs) pd) = Some p ∧
             forest p ∧ extends pd p ∧
             (mk = false → ∀ i j w, i < j < length tabs → cell m i j = Some w →
                Qle_bool thr w = true → same p i j) ∧
             (mk = true → ∀ E : relation nat, Equivalence E →
                (∀ a b, same pd a b → E a b) →
                (∀ i j, mutually_similar (length tabs) m thr i j → E i j) →
                ∀ a b, same p a b → E a b)).
  { destruct mk.
    - destruct (build_neighbors_spec m (length tabs) thr k Hsq) as (nb & Hnb & Hlenn & Hprop).
      assert (Hrange : ∀ i ni j, nb !! i = Some ni → j ∈ ni → j < length tabs).
      { intros i ni j Hni Hj. by destruct (Hprop _ _ _ Hni Hj) as [? _]. }
      assert (Hedge : ∀ E : relation nat,
                (∀ i j, mutually_similar (length tabs) m thr i j → E i j) →
                ∀ i j ni nj, nb !! i = Some ni → nb !! j = Some nj →
                  j ∈ ni → i ∈ nj → E i j).
      { intros E HE i j ni nj Hni Hnj Hj Hi. apply HE.
        destruct (Hprop _ _ _ Hni Hj) as (Hjn & Hji & w & Hw & Hc).
        destruct (Hprop _ _ _ Hnj Hi) as (Hin & _ & w' & Hw' & Hc').
        split_and!; [done | done | done |]. by exists w, w'. }
      assert (Htriv : Equivalence (λ _ _ : nat, True)) by (by split).
      destruct (mutual_phase_spec (λ _ _, True) nb (length tabs) pd Hlenn Hrange Hlend Hfd)
        as (p & Hrun & Hf & Hext & _); [done | done |].
      exists p. rewrite Hnb. simpl. split_and!; [done | done | done | done |].
      intros _ E HE Hin Hsim a b Hab.
      destruct (mutual_phase_spec E nb (length tabs) pd Hlenn Hrange Hlend Hfd Hin
                  (Hedge E Hsim)) as (p' & Hrun' & _ & _ & Hup).
      rewrite Hrun in Hrun'. simplify_eq. by apply Hup.
    - destruct (threshold_phase_spec m thr (length tabs) pd Hsq Hlend Hfd)
        as (p & Hrun & Hf & Hext & Hthr).
      exists p. split_and!; [done | done | done | | done].
      intros _ i j w. apply Hthr. }
  destruct Hm as (p & Hp & Hf & Hext & Hthr & Hmut).
  destruct (collect_groups_spec p Hf) as (p2 & gm & Hcollect & Hok).
  assert (Hlenp : length p = length tabs) by (destruct Hext as [-> _]; done).
  exists pd, p, gm. split_and!; try done.
  unfold build_group_map. unfold domain_parent in Hpd. rewrite Hpd. simpl.
  rewrite Hp. simpl. rewrite <- Hlenp, Hcollect. done.
Qed.

Lemma clusters_ok_bound p gm r l idx :
  clusters_ok p (length p) gm → (r, l) ∈ gm → idx ∈ l → idx < length p.
Proof.
  intros (_ & Hent & _) Hin Hidx. destruct (Hent _ _ Hin) as (_ & _ & Hm).
  by apply Hm in Hidx as [? _].
Qed.

Lemma clusters_ok_entry_same p gm r l i j :
  clusters_ok p (length p) gm → (r, l) ∈ gm → i ∈ l → j ∈ l → same p i j.
Proof.
  intros (_ & Hent & _) Hin Hi Hj. destruct (Hent _ _ Hin) as (_ & _ & Hm).
  apply Hm in Hi as [_ (di & Hi)]. apply Hm in Hj as [_ (dj & Hj)].
  by exists r, di, dj.
Qed.

(** [build_groups] returns, and its groups are the sets of the forest. *)
Lemma build_groups_spec tabs m thr dg dgm mk k :
  square (length tabs) m →
  ∃ gm groups t2g,
    build_group_map tabs m thr dg dgm mk k = Some gm ∧
    build_groups tabs m thr dg dgm mk k = Some (groups, t2g) ∧
    Forall2 (group_of tabs) (imap pair gm) groups.
Proof.
  intros Hsq.
  destruct (build_group_map_spec tabs m thr dg dgm mk k Hsq)
    as (pd & p & gm & _ & Hgm & _ & _ & Hlenp & _ & _ & Hok & _).
  destruct (number_groups_spec tabs gm) as (groups & t2g & Hnum & Hall).
  { intros r l idx Hin Hidx. rewrite <- Hlenp. by eapply clusters_ok_bound. }
  exists gm, groups, t2g. split_and!; [done | | done].
  unfold build_groups. rewrite Hgm. done.
Qed.

End GroupsFacts.

(** *** Claims about the cluster builder *)
Module GroupsClaims.
Import Groups GroupsSpec DedupeSpec UF UFFacts DedupeFacts GroupsFacts.

(** C7. On a fixed tab list and similarity matrix, the partition that
    [build_groups] produces with mutual-KNN refines the one it produces with
    the threshold-only fallback: both calls return, and every pair of tabs
    that share a group under mutual-KNN share a group under the fallback. *)
Theorem mutual_knn_refines_fallback (tabs : list Tab) (similarity_matrix : list (list Q))
    (threshold : Q) (domain_group : bool) (domain_group_min knn_k : Z) :
  square (length tabs) similarity_matrix →
  ∃ groups_knn map_knn groups_all map_all,
    build_groups tabs similarity_matrix threshold domain_group domain_group_min
      true knn_k = Some (groups_knn, map_knn) ∧
    build_groups tabs similarity_matrix threshold domain_group domain_group_min
      false knn_k = Some (groups_all, map_all) ∧
    ∀ a b, merged groups_knn a b → merged groups_all a b.
Proof.
  intros Hsq.
  destruct (build_group_map_spec tabs similarity_matrix threshold domain_group
              domain_group_min true knn_k Hsq)
    as (pd & p1 & gm1 & Hpd & Hgm1 & _ & _ & Hlen1 & Hf1 & _ & Hok1 & _ & _ & Hup).
  destruct (build_group_map_spec tabs similarity_matrix threshold domain_group
              domain_group_min false knn_k Hsq)
    as (pd' & p2 & gm2 & Hpd' & Hgm2 & _ & _ & Hlen2 & Hf2 & [_ Hext2] & Hok2 & _ & Hthr & _).
  assert (pd' = pd) by congruence. subst pd'.
  destruct (build_groups_spec tabs similarity_matrix threshold domain_group
              domain_group_min true knn_k Hsq) as (gm1' & g1 & t1 & Hgm1' & Hrun1 & Hall1).
  destruct (build_groups_spec tabs similarity_matrix threshold domain_group
              domain_group_min false knn_k Hsq) as (gm2' & g2 & t2 & Hgm2' & Hrun2 & Hall2).
  assert (gm1' = gm1) by congruence. assert (gm2' = gm2) by congruence. subst gm1' gm2'.
  exists g1, t1, g2, t2. split_and!; [done | done |].
  set (E := λ a b : nat, a = b ∨ same p2 a b).
  assert (HE : Equivalence E).
  { split.
    - intros a. by left.
    - intros a b [-> | H]; [by left | right; by apply same_sym].
    - intros a b c [-> | H1] [-> | H2]; [by left | by right | by right |].
      right. by eapply same_trans. }
  assert (Hrefine : ∀ i j, same p1 i j → same p2 i j).
  { intros i j Hij.
    assert (HEij : E i j).
    { apply (Hup eq_refl E HE); [| | done].
      - intros a b Hab. right. by apply Hext2.
      - intros a b (Ha & Hb & Hne & w & w' & Hw & Hw' & Hc & Hc'). right.
        destruct (Nat.lt_trichotomy a b) as [Hlt | [-> | Hgt]]; [| done |].
        + by apply (Hthr eq_refl a b w).
        + apply same_sym. by apply (Hthr eq_refl b a w'). }
    destruct HEij as [-> | H]; [| done].
    apply same_refl; [done |]. apply same_lt in Hij as [? _]. lia. }
  intros a b Hab.
  destruct (merged_group_of tabs gm1 g1 a b Hall1 Hab)
    as (r & l & i & j & ti & tj & Hin & Hi & Hj & Hti & Htj & <- & <-).
  pose proof (clusters_ok_entry_same _ _ _ _ _ _ Hok1 Hin Hi Hj) as Hsame1.
  destruct (clusters_ok_same _ _ _ _ Hok2 (Hrefine _ _ Hsame1)) as (r2 & l2 & Hin2 & Hi2 & Hj2).
  exact (group_of_merged tabs gm2 g2 r2 l2 i j ti tj Hall2 Hin2 Hi2 Hj2 Hti Htj).
Qed.

Lemma NoDup_constant {A : Type} (l : list A) x :
  NoDup l → (∀ y, y ∈ l → y = x) → length l ≤ 1.
Proof.
  intros Hnd Hall. destruct l as [| a [| b l]]; simpl; [lia | lia |]. exfalso.
  apply NoDup_cons in Hnd as [Hnot _]. apply Hnot.
  rewrite (Hall a) by (by left). rewrite <- (Hall b) at 1 by (right; by left). by left.
Qed.

Lemma clusters_ok_single p gm :
  clusters_ok p (length p) gm → 0 < length p →
  (∀ i j, i < length p → j < length p → same p i j) → length gm = 1.
Proof.
  intros (Hnd & Hent & Hkeys) Hpos Hall.
  destruct (Hall 0 0 Hpos Hpos) as (r0 & d0 & _ & H0 & _).
  assert (Hconst : ∀ r, r ∈ gm.*1 → r = r0).
  { intros r ([r' l] & -> & Hin)%list_elem_of_fmap. simpl.
    destruct (Hent _ _ Hin) as (_ & Hnil & Hm).
    destruct l as [| idx l]; [done |].
    destruct (proj1 (Hm idx) ltac:(by left)) as [Hlt (d & Hd)].
    destruct (Hall 0 idx Hpos Hlt) as (r1 & e0 & e1 & Hr0 & Hr1).
    destruct (reach_det _ _ _ _ H0 _ _ Hr0) as [<- _].
    by destruct (reach_det _ _ _ _ Hd _ _ Hr1) as [-> _]. }
  pose proof (NoDup_constant gm.*1 r0 Hnd Hconst) as Hle.
  pose proof (Hkeys 0 r0 d0 Hpos H0) as Hin.
  rewrite length_fmap in Hle. destruct gm; [by apply elem_of_nil in Hin | simpl in *; lia].
Qed.

(** C9. With domain grouping enabled and any [domain_group_min], the tabs
    of every non-empty domain that at least [domain_group_min] tabs share
    are all in one group, whatever the similarity matrix, the threshold and
    the mutual-KNN settings; when all tabs share such a domain (as three
    same-domain tabs do with [domain_group_min = 2]) there is exactly one
    group. *)
Theorem domain_grouping_unions (tabs : list Tab) (similarity_matrix : list (list Q))
    (threshold : Q) (domain_group_min : Z) (mutual_knn : bool) (knn_k : Z) :
  square (length tabs) similarity_matrix →
  ∃ groups tab_to_group,
    build_groups tabs similarity_matrix threshold true domain_group_min
      mutual_knn knn_k = Some (groups, tab_to_group) ∧
    (∀ i j ti tj, tabs !! i = Some ti → tabs !! j = Some tj →
       same_domain tabs domain_group_min i j →
       merged groups (tab_id ti) (tab_id tj)) ∧
    (0 < length tabs →
     (∀ i j, i < length tabs → j < length tabs → same_domain tabs domain_group_min i j) →
     length groups = 1).
Proof.
  intros Hsq.
  destruct (build_group_map_spec tabs similarity_matrix threshold true
              domain_group_min mutual_knn knn_k Hsq)
    as (pd & p & gm & _ & Hgm & _ & _ & Hlen & Hf & [_ Hext] & Hok & Hdom & _).
  destruct (build_groups_spec tabs similarity_matrix threshold true
              domain_group_min mutual_knn knn_k Hsq) as (gm' & groups & t2g & Hgm' & Hrun & Hall).
  assert (gm' = gm) by congruence. subst gm'.
  exists groups, t2g. split_and!; [done | |].
  - intros i j ti tj Hti Htj Hsame.
    destruct (clusters_ok_same _ _ _ _ Hok (Hext _ _ (Hdom eq_refl _ _ Hsame)))
      as (r & l & Hin & Hi & Hj).
    exact (group_of_merged tabs gm groups r l i j ti tj Hall Hin Hi Hj Hti Htj).
  - intros Hpos Hevery.
    apply Forall2_length in Hall. rewrite length_imap in Hall. rewrite <- Hall.
    apply (clusters_ok_single p); [done | lia |].
    intros i j Hi Hj. apply Hext, (Hdom eq_refl). apply Hevery; lia.
Qed.

Lemma bridge_matrix_square :
  square (length Samples.bridge_tabs) Samples.bridge_matrix.
Proof.
  intros [| [| [| i]]] [| [| [| j]]] Hi Hj; simpl in Hi, Hj;
    first [lia | by eexists].
Defined.

Lemma mutual_knn_refines_fallback_witness :
  square (length Samples.bridge_tabs) Samples.bridge_matrix ∧
  ∃ groups_knn map_knn groups_all map_all,
    build_groups Samples.bridge_tabs Samples.bridge_matrix (25 # 100) true 2 true 1
      = Some (groups_knn, map_knn) ∧
    build_groups Samples.bridge_tabs Samples.bridge_matrix (25 # 100) true 2 false 1
      = Some (groups_all, map_all) ∧
    ∀ a b, merged groups_knn a b → merged groups_all a b.
Proof.
  split; [exact bridge_matrix_square |].
  exact (mutual_knn_refines_fallback Samples.bridge_tabs Samples.bridge_matrix
           (25 # 100) true 2 1 bridge_matrix_square).
Defined.

(** On the bridge sample with [knn_k = 1] the refinement is strict: tab 1
    keeps tab 0 only, so mutual-KNN leaves tab 2 alone, and the fallback
    chains the three tabs into one group. *)
Example bridge_groups :
  fst <$> build_groups Samples.bridge_tabs Samples.bridge_matrix (25 # 100) true 2 true 1
    = Some [ {| group_id := 0; group_tab_ids := [0; 1]; group_size := 2 |};
             {| group_id := 1; group_tab_ids := [2]; group_size := 1 |} ] ∧
  fst <$> build_groups Samples.bridge_tabs Samples.bridge_matrix (25 # 100) true 2 false 1
    = Some [ {| group_id := 0; group_tab_ids := [0; 1; 2]; group_size := 3 |} ].
Proof. split; vm_compute; reflexivity. Qed.

Lemma dissimilar_matrix_square :
  square (length Samples.same_domain_tabs) Samples.dissimilar_matrix.
Proof.
  intros [| [| [| i]]] [| [| [| j]]] Hi Hj; simpl in Hi, Hj;
    first [lia | by eexists].
Defined.

Lemma same_domain_tabs_same (i j : nat) :
  i < length Samples.same_domain_tabs → j < length Samples.same_domain_tabs →
  same_domain Samples.same_domain_tabs 2 i j.
Proof.
  intros Hi Hj. simpl in Hi, Hj.
  destruct i as [| [| [| i]]]; [| | | lia];
    (destruct j as [| [| [| j]]]; [| | | lia]);
    (eexists _, _; split_and!;
       [reflexivity | reflexivity | reflexivity | done | vm_compute; discriminate]).
Defined.

Lemma domain_grouping_unions_witness :
  square (length Samples.same_domain_tabs) Samples.dissimilar_matrix ∧
  ∃ groups tab_to_group,
    build_groups Samples.same_domain_tabs Samples.dissimilar_matrix (25 # 100)
      true 2 true 6 = Some (groups, tab_to_group) ∧
    merged groups 0 2 ∧ length groups = 1.
Proof.
  split; [exact dissimilar_matrix_square |].
  destruct (domain_grouping_unions Samples.same_domain_tabs Samples.dissimilar_matrix
              (25 # 100) 2 true 6 dissimilar_matrix_square)
    as (groups & tab_to_group & Hrun & Hmerged & Hone).
  exists groups, tab_to_group. split_and!; [exact Hrun | |].
  - apply (Hmerged 0 2 _ _ eq_refl eq_refl).
    apply same_domain_tabs_same; simpl; lia.
  - apply Hone; [simpl; lia |]. apply same_domain_tabs_same.
Defined.

End GroupsClaims.

(** ** Facts about the scorer, the edge builder and the assembly *)
Module GraphFacts.
Import Groups DedupeSpec GroupsSpec GraphSpec.
Import UFFacts LoopFacts DedupeFacts GroupsFacts.

Lemma set_cell_dims n matrix i j score :
  dims n matrix → i < n → j < n →
  ∃ matrix', set_cell matrix i j score = Some matrix' ∧ dims n matrix'.
Proof.
  intros [Hl Hr] Hi Hj. unfold set_cell.
  destruct (lookup_lt_is_Some_2 matrix i) as [row Hrow]; [lia |].
  rewrite Hrow. csimpl. pose proof (Hr _ _ Hrow) as Hlr.
  destruct (lookup_lt_is_Some_2 row j) as [c Hc]; [lia |].
  rewrite Hc. csimpl. eexists. split; [done |]. split.
  - by rewrite length_insert.
  - intros k row' Hk. destruct (decide (k = i)) as [-> | Hne].
    + rewrite list_lookup_insert_eq in Hk by lia. simplify_eq.
      by rewrite length_insert.
    + rewrite list_lookup_insert_ne in Hk by done. eauto.
Qed.

Lemma dims_square n matrix : dims n matrix → square n matrix.
Proof.
  intros [Hl Hr] i j Hi Hj. unfold cell.
  destruct (lookup_lt_is_Some_2 matrix i) as [row Hrow]; [lia |].
  rewrite Hrow. csimpl. apply lookup_lt_is_Some_2. rewrite (Hr _ _ Hrow). lia.
Qed.

Lemma dims_zero n : dims n (replicate n (replicate n 0%Q)).
Proof.
  split; [by rewrite length_replicate |].
  intros i row [-> _]%lookup_replicate. by rewrite length_replicate.
Qed.

(** [build_similarity_matrix] returns, and returns a matrix with a cell
    for every pair of tabs. *)
Lemma build_similarity_matrix_square sqrt tabs domain_bonus :
  ∃ matrix, build_similarity_matrix sqrt tabs domain_bonus = Some matrix ∧
    square (length tabs) matrix.
Proof.
  unfold build_similarity_matrix.
  destruct (for_each_range (λ _ matrix, dims (length tabs) matrix) 0 (length tabs)
              (λ matrix i, for_each (range (i + 1) (length tabs))
                             (score_step sqrt tabs domain_bonus i) matrix)
              (replicate (length tabs) (replicate (length tabs) 0%Q)))
    as (matrix & Hrun & Hd).
  - lia.
  - apply dims_zero.
  - intros i matrix Hi Hd.
    apply (for_each_range (λ _ matrix, dims (length tabs) matrix));
      [lia | done |].
    intros j matrix' Hj Hd'. unfold score_step.
    destruct (lookup_lt_is_Some_2 tabs i) as [ta Hta]; [lia |].
    destruct (lookup_lt_is_Some_2 tabs j) as [tb Htb]; [lia |].
    rewrite Hta, Htb. csimpl.
    destruct (set_cell_dims _ _ i j (similarity_score sqrt ta tb domain_bonus) Hd')
      as (m1 & -> & Hd1); [lia | lia |].
    csimpl. apply set_cell_dims; [done | lia | lia].
  - exists matrix. split; [done |]. by apply dims_square.
Qed.

(** [build_edges] returns on a matrix with a cell for every pair, and every
    edge it returns is the edge of a pair that passes the threshold. *)
Lemma build_edges_spec tabs similarity_matrix threshold :
  square (length tabs) similarity_matrix →
  ∃ edges, build_edges tabs similarity_matrix threshold = Some edges ∧
    ∀ e, e ∈ edges → edge_of tabs similarity_matrix threshold e.
Proof.
  intros Hsq. unfold build_edges.
  pose (I := λ edges : list Edge,
               ∀ e, e ∈ edges → edge_of tabs similarity_matrix threshold e).
  apply (for_each_range (λ _, I)); [lia | by intros e ?%elem_of_nil |].
  intros i edges Hi HI.
  apply (for_each_range (λ _, I)); [lia | done |].
  intros j edges' Hj HI'. unfold edge_step.
  destruct (Hsq i j) as [w Hw]; [lia | lia |]. rewrite Hw. csimpl.
  destruct (Qle_bool threshold w) eqn:Hle; [| by eexists].
  destruct (lookup_lt_is_Some_2 tabs i) as [ti Hti]; [lia |].
  destruct (lookup_lt_is_Some_2 tabs j) as [tj Htj]; [lia |].
  rewrite Hti, Htj. csimpl. eexists. split; [done |].
  intros e [He | ->%list_elem_of_singleton]%elem_of_app; [by apply HI' |].
  exists i, j, ti, tj, w. apply Qle_bool_iff in Hle.
  split_and!; [lia | done..].
Qed.

(** *** Order of a filtered list *)

Lemma filter_lookup_order {A : Type} (P : A → Prop) `{!∀ x, Decision (P x)}
    (l : list A) (i j : nat) (x y : A) :
  i < j → filter P l !! i = Some x → filter P l !! j = Some y →
  ∃ i' j', i' < j' ∧ l !! i' = Some x ∧ l !! j' = Some y ∧ P x ∧ P y.
Proof.
  revert i j. induction l as [| a l IH]; intros i j Hij Hi Hj; [done |].
  rewrite filter_cons in Hi, Hj. destruct (decide (P a)) as [Ha | Ha].
  - destruct i as [| i]; destruct j as [| j]; try lia.
    + simpl in Hi, Hj. simplify_eq.
      apply list_elem_of_lookup_2, list_elem_of_filter in Hj as [Hy Hin].
      apply list_elem_of_lookup in Hin as [k Hk].
      exists 0, (S k). split_and!; [lia | done..].
    + simpl in Hi, Hj.
      destruct (IH i j) as (i' & j' & ? & ? & ? & ? & ?); [lia | done | done |].
      exists (S i'), (S j'). split_and!; [lia | done..].
  - destruct (IH i j) as (i' & j' & ? & ? & ? & ? & ?); [lia | done | done |].
    exists (S i'), (S j'). split_and!; [lia | done..].
Qed.

(** *** The assembly *)

(** The resolver keeps every tab's id. *)
Lemma dedupe_tabs_ids tabs hamming_threshold tabs' primary_map dups :
  ids_positional tabs →
  dedupe_tabs tabs hamming_threshold = Some (tabs', primary_map, dups) →
  ids_positional tabs'.
Proof.
  intros Hids Hrun.
  destruct (dedupe_spec tabs hamming_threshold)
    as (p0 & groups & tabs2 & pm2 & dups2 & _ & Hrun2 & Hlen & Hf & Hok & _ & _ & Hlen' & Hall).
  rewrite Hrun in Hrun2. injection Hrun2 as <- <- <-.
  intros i t Hi.
  assert (Hlt : i < length p0) by (apply lookup_lt_Some in Hi; lia).
  destruct (clusters_ok_class p0 groups i Hok Hf Hlt) as (r & l & Hin & Hclass).
  destruct (Hall _ _ Hin) as (p & _ & _ & _ & Hres).
  destruct (Hres i) as [_ Ht]; [by apply Hclass, same_refl |].
  rewrite Hi in Ht. symmetry in Ht.
  eapply resolved_id; [by apply ids_positional_filled | done].
Qed.

(** The assignment loop changes the [group_id] of each tab and nothing
    else. *)
Lemma assign_tabs primary_map tab_to_group tabs updated groups_map :
  (foldl (assign_step primary_map tab_to_group) (updated, groups_map) tabs).1 =
  updated ++ (assigned primary_map tab_to_group <$> tabs).
Proof.
  revert updated groups_map.
  induction tabs as [| t tabs IH]; intros updated groups_map; csimpl.
  - by rewrite app_nil_r.
  - rewrite IH. by rewrite <- app_assoc.
Qed.

Section Assembled.
Variable sqrt : Q → Q.
Variable label_group : list Tab → list (list string) → string.

(** [main] returns on every list of tabs, and its graph is made of the
    results of the resolver, the edge builder and the cluster builder on the
    primary tabs. *)
Lemma main_spec tabs args :
  ∃ tabs' primary_map dups similarity_matrix edges groups tab_to_group graph,
    dedupe_tabs tabs (args_dedupe_hamming args) = Some (tabs', primary_map, dups) ∧
    length tabs' = length tabs ∧
    square (length (filter (λ t, tab_duplicate_of t = None) tabs')) similarity_matrix ∧
    build_edges (filter (λ t, tab_duplicate_of t = None) tabs') similarity_matrix
      (args_edge_threshold args) = Some edges ∧
    (∀ e, e ∈ edges →
       edge_of (filter (λ t, tab_duplicate_of t = None) tabs') similarity_matrix
         (args_edge_threshold args) e) ∧
    build_groups (filter (λ t, tab_duplicate_of t = None) tabs') similarity_matrix
      (args_group_threshold args) (negb (args_no_domain_group args))
      (args_domain_group_min args) (negb (args_no_mutual_knn args))
      (args_knn_k args) = Some (groups, tab_to_group) ∧
    main sqrt label_group tabs args = Some graph ∧
    graph_tabs graph =
      pop_fields (args_store_embeddings args) <$>
        (assigned primary_map tab_to_group <$> tabs') ∧
    graph_edges graph = edges ∧
    graph_stats graph = {| tab_count := length tabs; group_count := length groups;
                           edge_count := length edges; duplicates := dups |}.
Proof.
  destruct (dedupe_spec tabs (args_dedupe_hamming args))
    as (p0 & cl & tabs' & pm & dups & _ & Hrun & _ & _ & _ & _ & _ & Hlen' & _).
  set (primary_tabs := filter (λ t, tab_duplicate_of t = None) tabs').
  destruct (build_similarity_matrix_square sqrt primary_tabs (args_domain_bonus args))
    as (m & Hm & Hsq).
  destruct (build_edges_spec primary_tabs m (args_edge_threshold args) Hsq)
    as (edges & He & Hedges).
  destruct (build_groups_spec primary_tabs m (args_group_threshold args)
              (negb (args_no_domain_group args)) (args_domain_group_min args)
              (negb (args_no_mutual_knn args)) (args_knn_k args) Hsq)
    as (gm & groups & t2g & _ & Hg & _).
  pose proof (assign_tabs pm t2g tabs' [] (empty_groups_map groups)) as Ha.
  destruct (foldl (assign_step pm t2g) ([], empty_groups_map groups) tabs')
    as [tabs2 groups_map] eqn:Hfold.
  simpl in Ha. subst tabs2.
  eexists tabs', pm, dups, m, edges, groups, t2g, _.
  split_and!; [done | done | done | done | done | done | | | |].
  - unfold main. rewrite Hrun. cbn [mbind option_bind].
    fold primary_tabs. rewrite Hm. cbn [mbind option_bind].
    rewrite He. cbn [mbind option_bind]. rewrite Hg. cbn [mbind option_bind].
    rewrite Hfold. reflexivity.
  - reflexivity.
  - reflexivity.
  - cbn [graph_stats]. by rewrite !length_fmap, Hlen'.
Qed.

End Assembled.

End GraphFacts.

(** ** Claims about the edges and the graph *)
Module GraphClaims.
Import DedupeSpec GroupsSpec GraphSpec GraphFacts.

(** C8 as stated does not hold: the weight field of an edge can be below
    the edge threshold. The two sample tabs score [1/3], which passes the
    threshold [0.3332]; the edge stores [round(1/3, 3) = 0.333]. *)
Theorem rounded_weight_below_threshold :
  ¬ edges_well_formed Samples.unused_sqrt Samples.first_title
      (λ threshold weight, (threshold <= weight)%Q)
      Samples.third_tabs (Samples.sample_args (3332 # 10000)).
Proof.
  intros Hall.
  assert (∃ graph e,
            main Samples.unused_sqrt Samples.first_title Samples.third_tabs
              (Samples.sample_args (3332 # 10000)) = Some graph ∧
            e ∈ graph_edges graph ∧
            (edge_weight e < 3332 # 10000)%Q) as (graph & e & Hrun & Hin & Hlt).
  { eexists _, _. split_and!;
      [vm_compute; reflexivity | apply list_elem_of_here | vm_compute; reflexivity]. }
  destruct (Hall graph Hrun e Hin) as (_ & _ & _ & Hle).
  simpl in Hle. lra.
Qed.

Lemma third_tabs_positional : ids_positional Samples.third_tabs.
Proof. intros [| [| i]] t Ht; by simplify_eq/=. Defined.

(** The graph of the two sample tabs at the default threshold: one edge of
    weight [0.333] between tabs 0 and 1. *)
Example third_tabs_edges :
  graph_edges <$> main Samples.unused_sqrt Samples.first_title Samples.third_tabs
                    (Samples.sample_args (2 # 10))
  = Some [ {| edge_source := 0; edge_target := 1; edge_weight := 333 # 1000;
              edge_reason := "similarity" |} ].
Proof. vm_compute. reflexivity. Qed.

(** C10. On the empty tab list every stage returns an empty result:
    [dedupe_tabs] an empty primary map and no duplicates, [build_edges] no
    edges, [build_groups] no groups; and [main] returns a graph without
    tabs, groups or edges whose four counters are zero. *)
Theorem empty_tab_list (sqrt : Q → Q)
    (label_group : list Tab → list (list string) → string) (args : Args)
    (hamming_threshold : Z) (similarity_matrix : list (list Q))
    (threshold : Q) (domain_group : bool) (domain_group_min : Z)
    (mutual_knn : bool) (knn_k : Z) :
  dedupe_tabs [] hamming_threshold = Some ([], ∅, 0) ∧
  build_edges [] similarity_matrix threshold = Some [] ∧
  build_groups [] similarity_matrix threshold domain_group domain_group_min
    mutual_knn knn_k = Some ([], ∅) ∧
  main sqrt label_group [] args =
    Some {| graph_stats := {| tab_count := 0; group_count := 0;
                              edge_count := 0; duplicates := 0 |};
            graph_tabs := []; graph_groups := []; graph_edges := [] |}.
Proof.
  split_and!.
  - reflexivity.
  - reflexivity.
  - by destruct domain_group, mutual_knn.
  - destruct args as [? ? ? ? [] ? [] ? ?]; reflexivity.
Qed.

End GraphClaims.

(** ** Properties of the union-find closures *)
Module UFProps.
Import UF UFFacts.

(** [find] (lines 382-386 and 486-490). On a forest, [find(x)] leaves the
    loop, returns the root of the set of [x], and the path halving it does on
    the way changes no set. *)
Theorem find_returns_root (parent : list nat) (x : nat) :
  forest parent → x < length parent →
  ∃ parent' r, find parent x = Some (parent', r) ∧
    length parent' = length parent ∧ forest parent' ∧
    parent' !! r = Some r ∧ same parent x r ∧
    ∀ i j, same parent' i j ↔ same parent i j.
Proof.
  intros Hf Hx. destruct (Hf x Hx) as (r & d & Hr).
  destruct (find_spec _ _ _ _ Hr) as (p' & Hrun & Hk).
  exists p', r. split_and!; [done | by destruct Hk | by eapply keeps_roots_forest | | |].
  - destruct Hk as [_ Hk]. destruct (Hk _ _ _ Hr) as (d' & _ & Hr').
    by eapply reach_is_root.
  - exists r, d, 0. split; [done |]. constructor. by eapply reach_is_root.
  - intros i j. split.
    + by apply keeps_roots_same_inv.
    + by apply keeps_roots_same.
Qed.

Lemma sample_forest : forest [0; 0; 1].
Proof.
  intros [| [| [| x]]] Hx; simpl in Hx; [| | | lia].
  - exists 0, 0. by constructor.
  - exists 0, 1. eapply reach_step; [done | done |]. by constructor.
  - exists 0, 2. eapply reach_step; [done | done |].
    eapply reach_step; [done | done |]. by constructor.
Defined.

Lemma find_returns_root_witness :
  forest [0; 0; 1] ∧ 2 < length [0; 0; 1] ∧
  ∃ parent' r, find [0; 0; 1] 2 = Some (parent', r) ∧
    length parent' = length [0; 0; 1] ∧ forest parent' ∧
    parent' !! r = Some r ∧ same [0; 0; 1] 2 r ∧
    ∀ i j, same parent' i j ↔ same [0; 0; 1] i j.
Proof.
  split; [exact sample_forest |]. split; [simpl; lia |].
  apply (find_returns_root [0; 0; 1] 2 sample_forest). simpl. lia.
Defined.

(** The relation that [union(a, b)] is meant to produce from the sets of
    [parent]. *)
Definition joined (parent : list nat) (a b i j : nat) : Prop :=
  same parent i j ∨ (same parent i a ∧ same parent b j)
  ∨ (same parent i b ∧ same parent a j).

Lemma joined_equivalence parent a b :
  Equivalence (λ i j, i = j ∨ joined parent a b i j).
Proof.
  split.
  - intros i. by left.
  - intros i j [-> | H]; [by left |]. right.
    destruct H as [H | [[H1 H2] | [H1 H2]]].
    + left. by apply same_sym.
    + right. right. split; by apply same_sym.
    + right. left. split; by apply same_sym.
  - intros i j k [-> | H1] [<- | H2]; [by left | by right | by right |]. right.
    unfold joined in *.
    destruct H1 as [H1 | [[H1 H1'] | [H1 H1']]];
      destruct H2 as [H2 | [[H2 H2'] | [H2 H2']]];
      eauto 6 using same_trans, same_sym.
Qed.

(** [union] (lines 388-391 and 492-495). On a forest, [union(a, b)] returns
    a forest in which two indices share a set exactly when they did before,
    or one was with [a] and the other with [b]. *)
Theorem union_joins_two_sets (parent : list nat) (a b : nat) :
  forest parent → a < length parent → b < length parent →
  ∃ parent', union parent a b = Some parent' ∧
    length parent' = length parent ∧ forest parent' ∧
    ∀ i j, same parent' i j ↔ joined parent a b i j.
Proof.
  intros Hf Ha Hb.
  destruct (union_partition parent a b Hf Ha Hb)
    as (p' & Hrun & Hlen & Hf' & Hold & Hab & Hleast).
  exists p'. split_and!; [done | done | done |]. intros i j. split.
  - intros Hs.
    destruct (Hleast _ (joined_equivalence parent a b)) with (i := i) (j := j)
      as [-> | H]; [| | done | | done].
    + intros x y Hxy. right. by left.
    + right. right. left. split; by apply same_refl.
    + left. apply same_lt in Hs as [Hi _]. rewrite Hlen in Hi. by apply same_refl.
  - intros [H | [[H1 H2] | [H1 H2]]].
    + by apply Hold.
    + eapply same_trans; [by apply Hold |]. eapply same_trans; [done |]. by apply Hold.
    + eapply same_trans; [by apply Hold |].
      eapply same_trans; [by apply same_sym |]. by apply Hold.
Qed.

Lemma sample_forest_two : forest [0; 1; 1].
Proof.
  intros [| [| [| x]]] Hx; simpl in Hx; [| | | lia].
  - exists 0, 0. by constructor.
  - exists 1, 0. by constructor.
  - exists 1, 1. eapply reach_step; [done | done |]. by constructor.
Defined.

Lemma union_joins_two_sets_witness :
  forest [0; 1; 1] ∧ 0 < length [0; 1; 1] ∧ 2 < length [0; 1; 1] ∧
  ∃ parent', union [0; 1; 1] 0 2 = Some parent' ∧
    length parent' = length [0; 1; 1] ∧ forest parent' ∧
    ∀ i j, same parent' i j ↔ joined [0; 1; 1] 0 2 i j.
Proof.
  split; [exact sample_forest_two |]. split; [simpl; lia |]. split; [simpl; lia |].
  apply (union_joins_two_sets [0; 1; 1] 0 2 sample_forest_two); simpl; lia.
Defined.

End UFProps.

(** ** Properties of the cluster builder *)
Module GroupsProps.
Import UF Groups DedupeSpec GroupsSpec UFFacts LoopFacts DedupeFacts GroupsFacts.

(** The id of the tab at an index. *)
Definition id_at (tabs : list Tab) (i : nat) : nat :=
  from_option tab_id 0 (tabs !! i).

(** What [number_step] appends for an entry of [groups_map]. *)
Definition numbered (tabs : list Tab) (entry : nat * (nat * list nat)) (g : Group)
  : Prop :=
  group_id g = entry.1 ∧ group_tab_ids g = id_at tabs <$> entry.2.2 ∧
  group_size g = length (group_tab_ids g).

Lemma foldl_insert_lookup (gid : nat) (ids : list nat) (m : gmap nat nat) (x : nat) :
  foldl (λ m tid, <[tid := gid]> m) m ids !! x =
    if decide (x ∈ ids) then Some gid else m !! x.
Proof.
  revert m. induction ids as [| tid ids IH]; intros m; simpl; [done |].
  - rewrite IH. destruct (decide (x ∈ ids)) as [Hin | Hin].
    + rewrite decide_True; [done | by right].
    + destruct (decide (x = tid)) as [-> | Hne].
      * rewrite lookup_insert_eq. rewrite decide_True; [done | by left].
      * rewrite lookup_insert_ne by done.
        rewrite decide_False; [done |]. by intros [? | ?]%elem_of_cons.
Qed.

Lemma mapM_lookup_id_at tabs l group_tabs :
  mapM (λ i, tabs !! i) l = Some group_tabs → tab_id <$> group_tabs = id_at tabs <$> l.
Proof.
  intros H%mapM_Some_1. induction H as [| i t l ts Hi _ IH]; [done |].
  rewrite !fmap_cons, IH. f_equal. unfold id_at. by rewrite Hi.
Qed.

Lemma number_groups_full tabs gm :
  (∀ r l idx, (r, l) ∈ gm → idx ∈ l → idx < length tabs) →
  ∃ groups t2g, number_groups tabs gm = Some (groups, t2g) ∧
    Forall2 (numbered tabs) (imap pair gm) groups ∧
    (∀ tid gid, t2g !! tid = Some gid →
       ∃ g, g ∈ groups ∧ group_id g = gid ∧ tid ∈ group_tab_ids g) ∧
    (∀ g tid, g ∈ groups → tid ∈ group_tab_ids g → is_Some (t2g !! tid)).
Proof.
  intros Hlt. unfold number_groups.
  destruct (for_each_prefix
              (λ pre (st : list Group * gmap nat nat),
                 Forall2 (numbered tabs) pre st.1 ∧
                 (∀ tid gid, st.2 !! tid = Some gid →
                    ∃ g, g ∈ st.1 ∧ group_id g = gid ∧ tid ∈ group_tab_ids g) ∧
                 (∀ g tid, g ∈ st.1 → tid ∈ group_tab_ids g → is_Some (st.2 !! tid)))
              (imap pair gm) (number_step tabs) ([], ∅))
    as ([groups t2g] & Hrun & Hinv).
  - split_and!; [constructor | |].
    + intros tid gid H. simpl in H. by rewrite lookup_empty in H.
    + intros g tid H. simpl in H. by apply elem_of_nil in H.
  - intros pre [gid [r l]] post [groups t2g] Hgm (Hpre & Hsome & Hall). simpl in *.
    assert (Hin : (r, l) ∈ gm).
    { assert (Hx : (gid, (r, l)) ∈ imap pair gm).
      { rewrite Hgm. apply elem_of_app. right. by left. }
      apply elem_of_lookup_imap in Hx as (i & y & Heq & Hy). simplify_eq.
      by eapply list_elem_of_lookup_2. }
    destruct (mapM_is_Some_2 (λ i, tabs !! i) l) as [group_tabs Hmap].
    { apply Forall_forall. intros idx Hidx. apply lookup_lt_is_Some_2. by eapply Hlt. }
    unfold number_step. cbn [fst snd]. rewrite Hmap. csimpl.
    pose proof (mapM_lookup_id_at _ _ _ Hmap) as Hids.
    eexists. split; [done |]. cbn [fst snd]. split_and!.
    + apply Forall2_app; [done |]. constructor; [| constructor].
      split_and!; [done | done | done].
    + intros tid gid' Hl. rewrite foldl_insert_lookup in Hl.
      destruct (decide (tid ∈ tab_id <$> group_tabs)) as [Ht | Ht].
      * simplify_eq. eexists. split; [apply elem_of_app; right; by left |]. done.
      * destruct (Hsome _ _ Hl) as (g & Hg & ? & ?). exists g.
        split_and!; [apply elem_of_app; by left | done | done].
    + intros g tid [Hg | ->%list_elem_of_singleton]%elem_of_app Ht;
        rewrite foldl_insert_lookup; case_decide; eauto.
      cbn [group_tab_ids] in Ht. done.
  - exists groups, t2g. by destruct Hinv as (? & ? & ?).
Qed.

Lemma NoDup_mjoin_disjoint {A : Type} (ls : list (list A)) :
  (∀ l, l ∈ ls → NoDup l) →
  (∀ pre l post x, ls = pre ++ l :: post → x ∈ l → ∀ l', l' ∈ pre ++ post → x ∉ l') →
  NoDup (mjoin ls).
Proof.
  induction ls as [| l ls IH]; intros Hnd Hdis; [constructor |].
  simpl. apply NoDup_app. split_and!.
  - apply Hnd. by left.
  - intros x Hx [l' [Hin Hl']]%list_elem_of_join.
    by apply (Hdis [] l ls x eq_refl Hx l').
  - apply IH.
    + intros l' Hl'. apply Hnd. by right.
    + intros pre l' post x -> Hx l'' Hl''.
      apply (Hdis (l :: pre) l' post x eq_refl Hx). simpl.
      by right.
Qed.

(** The lists of [groups_map] hold every index once. *)
Lemma clusters_ok_partition p gm :
  forest p → clusters_ok p (length p) gm → mjoin gm.*2 ≡ₚ seq 0 (length p).
Proof.
  intros Hf Hok. apply NoDup_Permutation.
  - apply NoDup_mjoin_disjoint.
    + intros l [[r l'] [-> Hin]]%list_elem_of_fmap.
      destruct Hok as (_ & Hent & _). by destruct (Hent _ _ Hin).
    + intros pre l post x Heq Hx l' Hl'.
      apply fmap_app_inv in Heq as (gpre & gpost' & -> & Hcons & ->).
      symmetry in Hcons. apply fmap_cons_inv in Hcons as (e & gpost & -> & -> & ->).
      rewrite <- fmap_app in Hl'. apply list_elem_of_fmap in Hl' as (e' & -> & He').
      by eapply clusters_ok_disjoint.
  - apply NoDup_seq.
  - intros x. rewrite elem_of_seq. split.
    + intros [l [Hx [[r l'] [-> Hin]]%list_elem_of_fmap]]%list_elem_of_join.
      pose proof (clusters_ok_bound _ _ _ _ _ Hok Hin Hx). simpl. lia.
    + intros [_ Hx]. simpl in Hx.
      destruct (clusters_ok_class p gm x Hok Hf Hx) as (r & l & Hin & Hclass).
      apply list_elem_of_join. exists l. split; [by apply Hclass, same_refl |].
      apply list_elem_of_fmap. by exists (r, l).
Qed.

Lemma numbered_tab_ids tabs entries groups :
  Forall2 (numbered tabs) entries groups →
  mjoin (group_tab_ids <$> groups) =
    id_at tabs <$> mjoin ((λ e, e.2.2) <$> entries).
Proof.
  induction 1 as [| e g es gs (_ & Hids & _) _ IH]; [done |].
  rewrite !fmap_cons. simpl. by rewrite fmap_app, IH, Hids.
Qed.

Lemma imap_pair_values (gm : list (nat * list nat)) :
  (λ e : nat * (nat * list nat), e.2.2) <$> imap pair gm = gm.*2.
Proof. rewrite fmap_imap. rewrite <- imap_const. by apply imap_ext. Qed.

Lemma id_at_seq tabs : id_at tabs <$> seq 0 (length tabs) = tab_id <$> tabs.
Proof.
  apply list_eq. intros i. rewrite !list_lookup_fmap.
  destruct (tabs !! i) as [t |] eqn:Ht.
  - rewrite lookup_seq_lt by (by eapply lookup_lt_Some). simpl.
    unfold id_at. by rewrite Ht.
  - rewrite lookup_seq_ge; [done |]. by apply lookup_ge_None.
Qed.

(** What [build_groups] returns, with the dictionary [groups_map] and the
    forest it was read from. *)
Lemma build_groups_full tabs m thr dg dgm mk k :
  square (length tabs) m →
  ∃ p gm groups t2g,
    build_groups tabs m thr dg dgm mk k = Some (groups, t2g) ∧
    length p = length tabs ∧ forest p ∧ clusters_ok p (length p) gm ∧
    Forall2 (numbered tabs) (imap pair gm) groups ∧
    (∀ tid gid, t2g !! tid = Some gid →
       ∃ g, g ∈ groups ∧ group_id g = gid ∧ tid ∈ group_tab_ids g) ∧
    (∀ g tid, g ∈ groups → tid ∈ group_tab_ids g → is_Some (t2g !! tid)).
Proof.
  intros Hsq.
  destruct (build_group_map_spec tabs m thr dg dgm mk k Hsq)
    as (pd & p & gm & _ & Hgm & _ & _ & Hlenp & Hf & _ & Hok & _).
  destruct (number_groups_full tabs gm) as (groups & t2g & Hnum & Hall & H1 & H2).
  { intros r l idx Hin Hidx. rewrite <- Hlenp. by eapply clusters_ok_bound. }
  exists p, gm, groups, t2g. split_and!; try done.
  unfold build_groups. rewrite Hgm. done.
Qed.

(** [build_groups] (lines 371-443). On a matrix with a cell for every pair
    of tabs, [build_groups] returns; its groups list every tab exactly once
    (the ids of all groups together are a rearrangement of the ids of the
    tabs), no group is empty, group [i] of the list has id [i], and the
    [size] of a group is the number of its ids. *)
Theorem build_groups_partition (tabs : list Tab) (similarity_matrix : list (list Q))
    (threshold : Q) (domain_group : bool) (domain_group_min : Z)
    (mutual_knn : bool) (knn_k : Z) :
  square (length tabs) similarity_matrix →
  ∃ groups tab_to_group,
    build_groups tabs similarity_matrix threshold domain_group domain_group_min
      mutual_knn knn_k = Some (groups, tab_to_group) ∧
    mjoin (group_tab_ids <$> groups) ≡ₚ tab_id <$> tabs ∧
    ∀ i g, groups !! i = Some g →
      group_id g = i ∧ group_tab_ids g ≠ [] ∧
      group_size g = length (group_tab_ids g).
Proof.
  intros Hsq.
  destruct (build_groups_full tabs similarity_matrix threshold domain_group
              domain_group_min mutual_knn knn_k Hsq)
    as (p & gm & groups & t2g & Hrun & Hlen & Hf & Hok & Hnum & _).
  exists groups, t2g. split_and!; [done | |].
  - rewrite (numbered_tab_ids _ _ _ Hnum), imap_pair_values.
    rewrite (clusters_ok_partition _ _ Hf Hok), Hlen. by rewrite id_at_seq.
  - intros i g Hg.
    destruct (Forall2_lookup_r _ _ _ _ _ Hnum Hg) as (e & He & Hid & Hids & Hsize).
    apply list_lookup_imap_Some in He as ([r l] & Hrl & ->).
    split_and!; [done | | done].
    rewrite Hids. simpl. destruct Hok as (_ & Hent & _).
    destruct (Hent r l) as (_ & Hne & _); [by eapply list_elem_of_lookup_2 |].
    by destruct l.
Qed.

Lemma build_groups_partition_witness :
  square (length Samples.bridge_tabs) Samples.bridge_matrix ∧
  ∃ groups tab_to_group,
    build_groups Samples.bridge_tabs Samples.bridge_matrix (25 # 100) true 2 true 1
      = Some (groups, tab_to_group) ∧
    mjoin (group_tab_ids <$> groups) ≡ₚ tab_id <$> Samples.bridge_tabs ∧
    ∀ i g, groups !! i = Some g →
      group_id g = i ∧ group_tab_ids g ≠ [] ∧
      group_size g = length (group_tab_ids g).
Proof.
  assert (Hsq : square (length Samples.bridge_tabs) Samples.bridge_matrix).
  { intros [| [| [| i]]] [| [| [| j]]] Hi Hj; simpl in Hi, Hj;
      first [lia | by eexists]. }
  split; [exact Hsq |].
  exact (build_groups_partition Samples.bridge_tabs Samples.bridge_matrix
           (25 # 100) true 2 true 1 Hsq).
Defined.

Lemma build_groups_keys (tabs : list Tab) (similarity_matrix : list (list Q))
    (threshold : Q) (domain_group : bool) (domain_group_min : Z)
    (mutual_knn : bool) (knn_k : Z) :
  square (length tabs) similarity_matrix → NoDup (tab_id <$> tabs) →
  ∃ groups tab_to_group,
    build_groups tabs similarity_matrix threshold domain_group domain_group_min
      mutual_knn knn_k = Some (groups, tab_to_group) ∧
    (∀ t, t ∈ tabs → is_Some (tab_to_group !! tab_id t)) ∧
    ∀ tid gid, tab_to_group !! tid = Some gid ↔
      ∃ g, groups !! gid = Some g ∧ tid ∈ group_tab_ids g.
Proof.
  intros Hsq Hnd.
  destruct (build_groups_full tabs similarity_matrix threshold domain_group
              domain_group_min mutual_knn knn_k Hsq)
    as (p & gm & groups & t2g & Hrun & Hlen & Hf & Hok & Hnum & Hsome & Hall).
  assert (Hperm : mjoin (group_tab_ids <$> groups) ≡ₚ tab_id <$> tabs).
  { rewrite (numbered_tab_ids _ _ _ Hnum), imap_pair_values.
    rewrite (clusters_ok_partition _ _ Hf Hok), Hlen. by rewrite id_at_seq. }
  assert (Hid : ∀ i g, groups !! i = Some g → group_id g = i).
  { intros i g Hg.
    destruct (Forall2_lookup_r _ _ _ _ _ Hnum Hg) as (e & He & Hid & _).
    by apply list_lookup_imap_Some in He as (? & _ & ->). }
  assert (Huniq : ∀ i j g g' tid, groups !! i = Some g → groups !! j = Some g' →
            tid ∈ group_tab_ids g → tid ∈ group_tab_ids g' → i = j).
  { rewrite <- Hperm in Hnd. clear -Hnd. revert Hnd.
    induction groups as [| g0 gs IH]; intros Hnd i j g g' tid Hi Hj Ht Ht'; [done |].
    rewrite fmap_cons in Hnd. simpl in Hnd.
    apply NoDup_app in Hnd as (_ & Hdis & Hnd).
    destruct i as [| i], j as [| j]; simpl in Hi, Hj; simplify_eq; [done | | |].
    - exfalso. apply (Hdis tid Ht). apply list_elem_of_join. exists (group_tab_ids g').
      split; [done |]. apply list_elem_of_fmap. exists g'.
      split; [done |]. by eapply list_elem_of_lookup_2.
    - exfalso. apply (Hdis tid Ht'). apply list_elem_of_join. exists (group_tab_ids g).
      split; [done |]. apply list_elem_of_fmap. exists g.
      split; [done |]. by eapply list_elem_of_lookup_2.
    - f_equal. by eapply IH. }
  exists groups, t2g. split_and!; [done | |].
  - intros t Ht.
    assert (Hin : tab_id t ∈ mjoin (group_tab_ids <$> groups)).
    { rewrite Hperm. by apply list_elem_of_fmap_2. }
    apply list_elem_of_join in Hin as (ids & Hin & (g & -> & Hg)%list_elem_of_fmap).
    by eapply Hall.
  - intros tid gid. split.
    + intros Hl. destruct (Hsome _ _ Hl) as (g & Hg & Hgid & Ht).
      apply list_elem_of_lookup in Hg as (i & Hi). exists g. split; [| done].
      by rewrite <- Hgid, (Hid _ _ Hi).
    + intros (g & Hg & Ht).
      destruct (Hall g tid) as [gid' Hl]; [by eapply list_elem_of_lookup_2 | done |].
      destruct (Hsome _ _ Hl) as (g' & Hg' & Hgid' & Ht').
      apply list_elem_of_lookup in Hg' as (j & Hj).
      rewrite Hl. f_equal. rewrite <- Hgid', (Hid _ _ Hj). symmetry.
      by eapply Huniq.
Qed.

(** [build_groups], the dictionary [tab_to_group] (lines 430-443). When no
    two tabs share an id, [tab_to_group] sends an id to [gid] exactly when
    group [gid] lists that id: every tab id is a key, and its value is the
    id of the one group that holds it. *)
Theorem build_groups_lookup (tabs : list Tab) (similarity_matrix : list (list Q))
    (threshold : Q) (domain_group : bool) (domain_group_min : Z)
    (mutual_knn : bool) (knn_k : Z) :
  square (length tabs) similarity_matrix → NoDup (tab_id <$> tabs) →
  ∃ groups tab_to_group,
    build_groups tabs similarity_matrix threshold domain_group domain_group_min
      mutual_knn knn_k = Some (groups, tab_to_group) ∧
    (∀ t, t ∈ tabs → is_Some (tab_to_group !! tab_id t)) ∧
    ∀ tid gid, tab_to_group !! tid = Some gid ↔
      ∃ g, groups !! gid = Some g ∧ tid ∈ group_tab_ids g.
Proof. apply build_groups_keys. Qed.

Lemma build_groups_lookup_witness :
  square (length Samples.bridge_tabs) Samples.bridge_matrix ∧
  NoDup (tab_id <$> Samples.bridge_tabs) ∧
  ∃ groups tab_to_group,
    build_groups Samples.bridge_tabs Samples.bridge_matrix (25 # 100) true 2 false 1
      = Some (groups, tab_to_group) ∧
    (∀ t, t ∈ Samples.bridge_tabs → is_Some (tab_to_group !! tab_id t)) ∧
    ∀ tid gid, tab_to_group !! tid = Some gid ↔
      ∃ g, groups !! gid = Some g ∧ tid ∈ group_tab_ids g.
Proof.
  assert (Hsq : square (length Samples.bridge_tabs) Samples.bridge_matrix).
  { intros [| [| [| i]]] [| [| [| j]]] Hi Hj; simpl in Hi, Hj;
      first [lia | by eexists]. }
  assert (Hnd : NoDup (tab_id <$> Samples.bridge_tabs)).
  { apply (bool_decide_unpack _). vm_compute. exact I. }
  split; [exact Hsq |]. split; [exact Hnd |].
  exact (build_groups_lookup Samples.bridge_tabs Samples.bridge_matrix
           (25 # 100) true 2 false 1 Hsq Hnd).
Defined.

(** *** No merge without a link *)

(** The test of the mutual-KNN loop (lines 414-417): each of two tabs is
    in the neighbor set of the other, the set of the first [knn_k] tabs
    (of all of them for [knn_k <= 0]) that score at or above the threshold
    against it, by descending score. *)
Definition mutual_neighbors (similarity_matrix : list (list Q)) (n : nat)
    (threshold : Q) (knn_k : Z) (i j : nat) : Prop :=
  i < n ∧ j < n ∧
  ∃ ni nj, neighbor_set similarity_matrix n threshold knn_k i = Some ni ∧
           neighbor_set similarity_matrix n threshold knn_k j = Some nj ∧
           j ∈ ni ∧ i ∈ nj.

Section Upper.
Context (E : relation nat) `{!Equivalence E}.

Lemma union_domain_upper dgm p d l :
  forest p → (∀ idx, idx ∈ l → idx < length p) →
  (∀ a b, same p a b → E a b) →
  ((Z.max 2 dgm ≤ Z.of_nat (length l))%Z → ∀ a b, a ∈ l → b ∈ l → E a b) →
  ∃ p', union_domain dgm p (d, l) = Some p' ∧ forest p' ∧
    length p' = length p ∧ ∀ a b, same p' a b → E a b.
Proof.
  intros Hf Hlt HE Hl. unfold union_domain. cbn [snd].
  destruct (Z.max 2 dgm <=? Z.of_nat (length l))%Z eqn:Hc; [| by exists p].
  apply Z.leb_le in Hc. destruct l as [| root rest]; [simpl in Hc; lia |]. simpl.
  assert (Hroot : root < length p) by (apply Hlt; by left).
  apply (for_each_prefix
           (λ (_ : list nat) q, forest q ∧ length q = length p ∧
              ∀ a b, same q a b → E a b)); [done |].
  intros pre x post q Hrest (Hfq & Hlenq & HEq). rewrite drop_0 in Hrest.
  assert (Hin : x ∈ root :: rest).
  { right. rewrite Hrest. apply elem_of_app. right. by left. }
  destruct (union_partition q root x Hfq) as (q' & Hu & Hlen' & Hf' & _ & _ & Hup).
  { lia. } { rewrite Hlenq. by apply Hlt. }
  exists q'. split_and!; [done | done | congruence |].
  apply (Hup E _ HEq). apply Hl; [done | by left | done].
Qed.

Lemma domain_phase_upper tabs dgm p :
  length p = length tabs → forest p →
  (∀ a b, same p a b → E a b) →
  (∀ i j, same_domain tabs dgm i j → E i j) →
  ∃ p', domain_phase tabs dgm p = Some p' ∧ forest p' ∧
    length p' = length p ∧ ∀ a b, same p' a b → E a b.
Proof.
  intros Hlen Hf HE Hdom. unfold domain_phase.
  destruct (build_domain_map_ok tabs) as (Hnd & Hent & Hkeys).
  apply (for_each_prefix
           (λ (_ : list (string * list nat)) q, forest q ∧ length q = length p ∧
              ∀ a b, same q a b → E a b)); [done |].
  intros pre [d l] post q Hdm (Hfq & Hlenq & HEq).
  assert (Hin : (d, l) ∈ build_domain_map tabs).
  { rewrite Hdm. apply elem_of_app. right. by left. }
  destruct (Hent _ _ Hin) as (Hd & _ & Hmem & Hcount).
  destruct (union_domain_upper dgm q d l Hfq) as (q' & Hu & Hf' & Hlen' & HE');
    [| done | | by exists q'; split_and!; [| | congruence |]].
  - intros idx (t & Ht & _)%Hmem. apply lookup_lt_Some in Ht. lia.
  - intros Hle a b (ta & Hta & Hda)%Hmem (tb & Htb & Hdb)%Hmem.
    apply Hdom. exists ta, tb. split_and!; [done | done | congruence | congruence |].
    rewrite Hda, <- Hcount. lia.
Qed.

Lemma threshold_phase_upper m thr n p :
  square n m → length p = n → forest p →
  (∀ a b, same p a b → E a b) →
  (∀ i j w, i < j < n → cell m i j = Some w → Qle_bool thr w = true → E i j) →
  ∃ p', threshold_phase m thr n p = Some p' ∧ forest p' ∧
    length p' = n ∧ ∀ a b, same p' a b → E a b.
Proof.
  intros Hsq Hlen Hf HE Hlink. unfold threshold_phase.
  apply (for_each_range
           (λ (_ : nat) q, forest q ∧ length q = n ∧ ∀ a b, same q a b → E a b));
    [lia | done |].
  intros i q [_ Hi] Hq. unfold threshold_row.
  apply (for_each_range
           (λ (_ : nat) q, forest q ∧ length q = n ∧ ∀ a b, same q a b → E a b));
    [lia | done |].
  intros j q1 Hj (Hf1 & Hlen1 & HE1).
  destruct (Hsq i j Hi ltac:(lia)) as [w Hw].
  unfold threshold_step. rewrite Hw. simpl.
  destruct (Qle_bool thr w) eqn:Hc; [| by exists q1].
  destruct (union_partition q1 i j Hf1 ltac:(lia) ltac:(lia))
    as (q2 & Hu & Hlen2 & Hf2 & _ & _ & Hup).
  exists q2. split_and!; [done | done | congruence |].
  apply (Hup E _ HE1). eapply Hlink; [| done | done]. lia.
Qed.

(** The entries of [neighbors] are the neighbor sets. *)
Lemma build_neighbors_lookup m n thr k neighbors i ni :
  build_neighbors m n thr k = Some neighbors → neighbors !! i = Some ni →
  i < n ∧ neighbor_set m n thr k i = Some ni.
Proof.
  unfold build_neighbors. intros Hnb%mapM_Some_1 Hni.
  destruct (Forall2_lookup_r _ _ _ _ _ Hnb Hni) as (i' & Hi' & Hset).
  apply lookup_seq in Hi' as [-> Hlt]. simpl in Hset. split; [lia | done].
Qed.

Lemma mutual_neighbors_upper m n thr k p :
  square n m → length p = n → forest p →
  (∀ a b, same p a b → E a b) →
  (∀ i j, mutual_neighbors m n thr k i j → E i j) →
  ∃ neighbors p', build_neighbors m n thr k = Some neighbors ∧
    mutual_phase neighbors n p = Some p' ∧ forest p' ∧ length p' = n ∧
    ∀ a b, same p' a b → E a b.
Proof.
  intros Hsq Hlen Hf HE Hlink.
  destruct (build_neighbors_spec m n thr k Hsq) as (nb & Hnb & Hlenn & Hprop).
  destruct (mutual_phase_spec E nb n p Hlenn) as (p' & Hrun & Hf' & [Hlen' _] & HE');
    [| done | done | done | |].
  - intros i ni j Hni Hj. by destruct (Hprop i ni j Hni Hj).
  - intros i j ni nj Hni Hnj Hj Hi. apply Hlink.
    destruct (build_neighbors_lookup _ _ _ _ _ _ _ Hnb Hni) as [Hin Hsi].
    destruct (build_neighbors_lookup _ _ _ _ _ _ _ Hnb Hnj) as [Hjn Hsj].
    split_and!; [done | done |]. by exists ni, nj.
  - exists nb, p'. split_and!; [done | done | done | congruence | done].
Qed.

(** The sets of [groups_map] lie within every equivalence that holds the
    links [build_groups] acts on. *)
Lemma build_group_map_upper tabs m thr dg dgm mk k gm :
  square (length tabs) m →
  build_group_map tabs m thr dg dgm mk k = Some gm →
  (dg = true → ∀ i j, same_domain tabs dgm i j → E i j) →
  (mk = false → ∀ i j w, i < j < length tabs → cell m i j = Some w →
     Qle_bool thr w = true → E i j) →
  (mk = true → ∀ i j, mutual_neighbors m (length tabs) thr k i j → E i j) →
  ∀ r l a b, (r, l) ∈ gm → a ∈ l → b ∈ l → E a b.
Proof.
  intros Hsq Hgm Hdom Hthr Hmut.
  assert (Hseq : ∀ a b, same (range 0 (length tabs)) a b → E a b).
  { intros a b ->%same_seq. reflexivity. }
  assert (Hlen0 : length (range 0 (length tabs)) = length tabs).
  { unfold range. rewrite length_seq. lia. }
  assert (Hd : ∃ pd, domain_parent tabs dg dgm = Some pd ∧ forest pd ∧
             length pd = length tabs ∧ ∀ a b, same pd a b → E a b).
  { unfold domain_parent. destruct dg.
    - destruct (domain_phase_upper tabs dgm (range 0 (length tabs)))
        as (pd & Hrun & Hf & Hlen & HE); [done | apply forest_seq | done | by apply Hdom |].
      exists pd. split_and!; [done | done | congruence | done].
    - exists (range 0 (length tabs)). split_and!; [done | apply forest_seq | done | done]. }
  destruct Hd as (pd & Hpd & Hfd & Hlend & HEd).
  destruct (build_group_map_spec tabs m thr dg dgm mk k Hsq)
    as (pd' & p & gm' & Hpd' & Hgm' & _ & _ & Hlenp & Hf & _ & Hok & _ & _ & Hup).
  rewrite Hpd in Hpd'. rewrite Hgm in Hgm'. simplify_eq.
  destruct mk.
  - destruct (mutual_neighbors_upper m (length tabs) thr k pd' Hsq Hlend Hfd HEd
                (Hmut eq_refl)) as (nb & p' & Hnb & Hrun & Hf' & Hlen' & HE').
    destruct (collect_groups_spec p' Hf') as (p2 & gm2 & Hcollect & Hok').
    assert (gm2 = gm') as ->.
    { unfold build_group_map in Hgm. unfold domain_parent in Hpd.
      rewrite Hpd in Hgm. cbn [mbind option_bind] in Hgm.
      rewrite Hnb in Hgm. cbn [mbind option_bind] in Hgm.
      rewrite Hrun in Hgm. cbn [mbind option_bind] in Hgm.
      rewrite <- Hlen', Hcollect in Hgm. by simplify_eq/=. }
    intros r l a b Hin Ha Hb. apply HE'. by eapply clusters_ok_entry_same.
  - destruct (threshold_phase_upper m thr (length tabs) pd' Hsq Hlend Hfd HEd (Hthr eq_refl))
      as (p' & Hrun & Hf' & Hlen' & HE').
    destruct (collect_groups_spec p' Hf') as (p2 & gm2 & Hcollect & Hok').
    assert (gm2 = gm') as ->.
    { unfold build_group_map in Hgm. unfold domain_parent in Hpd.
      rewrite Hpd in Hgm. cbn [mbind option_bind] in Hgm.
      rewrite Hrun in Hgm. cbn [mbind option_bind] in Hgm.
      rewrite <- Hlen', Hcollect in Hgm. by simplify_eq/=. }
    intros r l a b Hin Ha Hb. apply HE'. by eapply clusters_ok_entry_same.
Qed.

End Upper.

(** The pairs of indices on which [build_groups] calls [union]: two tabs
    of a domain that is grouped, and, by the mode, a pair [i < j] whose
    score passes the threshold, or a pair of mutual neighbors. *)
Definition linked (tabs : list Tab) (similarity_matrix : list (list Q))
    (threshold : Q) (domain_group : bool) (domain_group_min : Z)
    (mutual_knn : bool) (knn_k : Z) (i j : nat) : Prop :=
  (domain_group = true ∧ same_domain tabs domain_group_min i j) ∨
  (mutual_knn = false ∧ i < j < length tabs ∧
   ∃ w, cell similarity_matrix i j = Some w ∧ Qle_bool threshold w = true) ∨
  (mutual_knn = true ∧
   mutual_neighbors similarity_matrix (length tabs) threshold knn_k i j).

(** [build_groups] (lines 393-427) merges nothing without a link. When ids
    are positions, two tabs share a group only if a chain of linked pairs
    joins them, a linked pair being one on which [union] is called: every
    equivalence on the tabs that holds all linked pairs holds every pair of
    tabs of one group. In the mutual-KNN mode a pair that scores above the
    threshold both ways but lies outside the first [knn_k] neighbors of one
    of its tabs is no link. *)
Theorem build_groups_merges_only_linked (E : relation nat)
    (tabs : list Tab) (similarity_matrix : list (list Q))
    (threshold : Q) (domain_group : bool) (domain_group_min : Z)
    (mutual_knn : bool) (knn_k : Z) :
  Equivalence E →
  square (length tabs) similarity_matrix → ids_positional tabs →
  (∀ i j, linked tabs similarity_matrix threshold domain_group domain_group_min
            mutual_knn knn_k i j → E i j) →
  ∃ groups tab_to_group,
    build_groups tabs similarity_matrix threshold domain_group domain_group_min
      mutual_knn knn_k = Some (groups, tab_to_group) ∧
    ∀ a b, merged groups a b → E a b.
Proof.
  intros HE Hsq Hids Hlink.
  destruct (build_groups_spec tabs similarity_matrix threshold domain_group
              domain_group_min mutual_knn knn_k Hsq)
    as (gm & groups & t2g & Hgm & Hrun & Hall).
  exists groups, t2g. split; [done |]. intros a b Hm.
  destruct (merged_group_of _ _ _ _ _ Hall Hm)
    as (r & l & i & j & ti & tj & Hin & Hi & Hj & Hti & Htj & <- & <-).
  rewrite (Hids _ _ Hti), (Hids _ _ Htj).
  eapply (build_group_map_upper E); [done | done | | | | done | done | done].
  - intros -> x y Hd. apply Hlink. left. by split.
  - intros -> x y w Hxy Hw Hc. apply Hlink. right. left.
    split_and!; [done | lia | lia |]. by exists w.
  - intros -> x y Hs. apply Hlink. right. right. by split.
Qed.

Lemma bridge_tabs_positional : ids_positional Samples.bridge_tabs.
Proof. intros [| [| [| i]]] t Ht; by simplify_eq/=. Defined.

Lemma sample_square (tabs : list Tab) (m : list (list Q)) :
  length tabs = 3 → length m = 3 → Forall (λ row, length row = 3) m →
  square (length tabs) m.
Proof.
  intros -> Hm Hrows i j Hi Hj. unfold cell.
  destruct (lookup_lt_is_Some_2 m i) as [row Hrow]; [lia |].
  rewrite Hrow. simpl. apply lookup_lt_is_Some_2.
  rewrite Forall_forall in Hrows. rewrite (Hrows row); [done |].
  by eapply list_elem_of_lookup_2.
Defined.

(** Tabs 0 and 1 of the bridge, and tab 2 alone. *)
Definition bridge_classes (i j : nat) : Prop := i = j ∨ (i < 2 ∧ j < 2).

Lemma bridge_classes_equivalence : Equivalence bridge_classes.
Proof.
  unfold bridge_classes. split.
  - intros i. by left.
  - intros i j [-> | [? ?]]; [by left | right; lia].
  - intros i j k [-> | [? ?]] [<- | [? ?]];
      [by left | right; lia | right; lia | right; lia].
Defined.

Lemma bridge_top1_neighbors :
  neighbor_set Samples.bridge_matrix 3 (25 # 100) 1 0 = Some {[1]} ∧
  neighbor_set Samples.bridge_matrix 3 (25 # 100) 1 1 = Some {[0]} ∧
  neighbor_set Samples.bridge_matrix 3 (25 # 100) 1 2 = Some {[1]}.
Proof. split_and!; by vm_compute. Defined.

(** With one neighbor kept per tab, tab 1 keeps tab 0 and not tab 2, which
    it scores [0.8]: the only link of the bridge is the pair of tabs 0 and
    1. *)
Lemma bridge_top1_links i j :
  linked Samples.bridge_tabs Samples.bridge_matrix (25 # 100) true 2 true 1 i j →
  bridge_classes i j.
Proof.
  unfold bridge_classes.
  intros [[_ (ti & tj & Hi & Hj & Hd & _ & Hc)] | [[? _] | [_ (Hi & Hj & ni & nj & Hni & Hnj & Hin & Hjn)]]];
    [| done |].
  - destruct i as [| [| [| i]]], j as [| [| [| j]]]; simplify_eq/=;
      first [by left | done].
  - change (length Samples.bridge_tabs) with 3 in *.
    destruct bridge_top1_neighbors as (H0 & H1 & H2).
    destruct i as [| [| [| i]]]; [| | | lia];
      destruct j as [| [| [| j]]]; try lia;
      first [by left | right; lia | idtac];
      rewrite ?H0, ?H1, ?H2 in Hni, Hnj; simplify_eq;
      first [ by apply elem_of_singleton in Hin
            | by apply elem_of_singleton in Hjn ].
Defined.

Lemma build_groups_merges_only_linked_witness :
  Equivalence bridge_classes ∧
  square (length Samples.bridge_tabs) Samples.bridge_matrix ∧
  ids_positional Samples.bridge_tabs ∧
  (∀ i j, linked Samples.bridge_tabs Samples.bridge_matrix (25 # 100) true 2
            true 1 i j → bridge_classes i j) ∧
  ∃ groups tab_to_group,
    build_groups Samples.bridge_tabs Samples.bridge_matrix (25 # 100) true 2
      true 1 = Some (groups, tab_to_group) ∧
    ∀ a b, merged groups a b → bridge_classes a b.
Proof.
  assert (Hsq : square (length Samples.bridge_tabs) Samples.bridge_matrix).
  { apply sample_square; [done | done |]. by repeat constructor. }
  split_and!; [exact bridge_classes_equivalence | exact Hsq
               | exact bridge_tabs_positional | exact bridge_top1_links |].
  exact (build_groups_merges_only_linked bridge_classes Samples.bridge_tabs
           Samples.bridge_matrix (25 # 100) true 2 true 1
           bridge_classes_equivalence Hsq
           bridge_tabs_positional bridge_top1_links).
Defined.

End GroupsProps.

(** ** Properties of the similarity scorer *)
Module ScoreProps.
Import Groups GroupsSpec GraphSpec LoopFacts GraphFacts.

Lemma Qmult_comm_L (x y : Q) : (x * y)%Q = (y * x)%Q.
Proof. unfold Qmult. by rewrite Z.mul_comm, Pos.mul_comm. Qed.

Lemma dot_comm (a b : list Q) : dot a b = dot b a.
Proof.
  unfold dot. f_equal. revert b.
  induction a as [| x a IH]; intros [| y b]; [done.. |].
  simpl. by rewrite IH, Qmult_comm_L.
Qed.

Lemma cosine_similarity_comm sqrt a b :
  cosine_similarity sqrt a b = cosine_similarity sqrt b a.
Proof.
  destruct a as [[| x a] |], b as [[| y b] |]; try done.
  unfold cosine_similarity.
  destruct (decide (length (x :: a) = length (y :: b))) as [Hl | Hl].
  - rewrite decide_True by done.
    destruct (Qeq_bool (sqrt (dot (x :: a) (x :: a))) 0),
             (Qeq_bool (sqrt (dot (y :: b) (y :: b))) 0); try done.
    cbn [orb]. rewrite (dot_comm (x :: a) (y :: b)). f_equal. apply Qmult_comm_L.
  - by rewrite decide_False by done.
Qed.

Lemma jaccard_comm a b : jaccard a b = jaccard b a.
Proof.
  unfold jaccard.
  rewrite (comm_L (∩) (list_to_set b : gset string)),
          (comm_L (∪) (list_to_set b : gset string)).
  repeat case_decide; first [done | exfalso; tauto].
Qed.

Lemma similarity_score_comm (sqrt : Q → Q) (ta tb : Tab) (domain_bonus : Q) :
  similarity_score sqrt ta tb domain_bonus = similarity_score sqrt tb ta domain_bonus.
Proof.
  unfold similarity_score.
  rewrite (cosine_similarity_comm sqrt (tab_embedding tb)),
          (jaccard_comm (tab_keywords tb)).
  assert (Str.truthy (tab_domain ta) && bool_decide (tab_domain ta = tab_domain tb)
          = Str.truthy (tab_domain tb) && bool_decide (tab_domain tb = tab_domain ta))
    as ->; [| done].
  destruct (decide (tab_domain ta = tab_domain tb)) as [-> | Hne].
  - done.
  - rewrite !bool_decide_eq_false_2 by done. by rewrite !andb_false_r.
Qed.

(** [similarity_score] (lines 327-333) does not depend on the order of the
    two tabs: the cosine and the keyword overlap are symmetric, and the
    domain bonus is given when the two domains are the same non-empty
    string. *)
Theorem similarity_score_symmetric (sqrt : Q → Q) (ta tb : Tab) (domain_bonus : Q) :
  similarity_score sqrt ta tb domain_bonus = similarity_score sqrt tb ta domain_bonus.
Proof. apply similarity_score_comm. Qed.

Lemma ratio_range (s1 s2 : nat) :
  s1 ≤ s2 → 0 < s2 →
  (0 <= inject_Z (Z.of_nat s1) / inject_Z (Z.of_nat s2) <= 1)%Q.
Proof.
  intros Hle Hpos.
  assert (Hp : (0 < inject_Z (Z.of_nat s2))%Q).
  { change 0%Q with (inject_Z 0). rewrite <- Zlt_Qlt. lia. }
  split.
  - apply Qle_shift_div_l; [done |]. rewrite Qmult_0_l.
    change 0%Q with (inject_Z 0). rewrite <- Zle_Qle. lia.
  - apply Qle_shift_div_r; [done |]. rewrite Qmult_1_l. rewrite <- Zle_Qle. lia.
Qed.

Lemma ratio_zero (s1 s2 : nat) :
  0 < s2 → (inject_Z (Z.of_nat s1) / inject_Z (Z.of_nat s2) == 0)%Q ↔ s1 = 0.
Proof.
  intros Hpos. destruct s2 as [| n]; [lia |].
  unfold Qdiv, Qeq, Qmult, Qinv. simpl. lia.
Qed.

Lemma ratio_one (s : nat) :
  0 < s → (inject_Z (Z.of_nat s) / inject_Z (Z.of_nat s) == 1)%Q.
Proof.
  intros Hpos. destruct s as [| n]; [lia |].
  unfold Qdiv, Qeq, Qmult, Qinv. simpl. lia.
Qed.

(** [jaccard] (lines 320-324). The keyword overlap lies between 0 and 1;
    it is 0 exactly when the two lists share no keyword (an empty list shares
    none), and 1 exactly when the lists are not empty and hold the same
    keywords, whatever their order and repetitions. *)
Theorem jaccard_overlap (a b : list string) :
  (0 <= jaccard a b <= 1)%Q ∧
  ((jaccard a b == 0)%Q ↔ ∀ x, x ∈ a → x ∉ b) ∧
  ((jaccard a b == 1)%Q ↔ a ≠ [] ∧ ∀ x, x ∈ a ↔ x ∈ b).
Proof.
  unfold jaccard.
  set (A := list_to_set a : gset string). set (B := list_to_set b : gset string).
  assert (HA : ∀ x, x ∈ A ↔ x ∈ a) by (intros x; apply elem_of_list_to_set).
  assert (HB : ∀ x, x ∈ B ↔ x ∈ b) by (intros x; apply elem_of_list_to_set).
  destruct (decide (A = ∅ ∨ B = ∅)) as [Hempty | Hfull].
  - split_and!; [done | done | |].
    + split; [| done]. intros _ x Hx Hx'. apply HA in Hx. apply HB in Hx'.
      destruct Hempty as [He | He];
        [rewrite He in Hx; exact (not_elem_of_empty (C := gset string) x Hx)
        | rewrite He in Hx'; exact (not_elem_of_empty (C := gset string) x Hx')].
    + split; [done |]. intros [Hne Hsame]. exfalso.
      destruct a as [| x a']; [done |].
      assert (Hx : x ∈ A) by (apply HA; by left).
      assert (Hx' : x ∈ B) by (apply HB, Hsame; by left).
      destruct Hempty as [He | He];
        [rewrite He in Hx; exact (not_elem_of_empty (C := gset string) x Hx)
        | rewrite He in Hx'; exact (not_elem_of_empty (C := gset string) x Hx')].
  - assert (Hsub : A ∩ B ⊆ A ∪ B).
    { intros x [Hx _]%elem_of_intersection. apply elem_of_union. by left. }
    assert (Hpos : 0 < size (A ∪ B)).
    { destruct (decide (size (A ∪ B) = 0)) as [H0 | ?]; [| lia].
      apply size_empty_iff in H0. exfalso. apply Hfull. left.
      apply leibniz_equiv. intros x. split; [| by intros ?%not_elem_of_empty].
      intros Hx. apply H0. apply elem_of_union. by left. }
    pose proof (subseteq_size _ _ Hsub) as Hle.
    split_and!; [by apply ratio_range | by apply ratio_range | |].
    + rewrite ratio_zero by done. rewrite size_empty_iff. split.
      * intros He x Hx Hx'. apply (not_elem_of_empty (C := gset string) x).
        apply He. apply elem_of_intersection. split; [by apply HA | by apply HB].
      * intros Hdis x. split; [| by intros ?%not_elem_of_empty].
        intros [Hx Hx']%elem_of_intersection. exfalso.
        apply (Hdis x); [by apply HA | by apply HB].
    + split.
      * intros H1.
        assert (Hsz : size (A ∪ B) ≤ size (A ∩ B)).
        { destruct (size (A ∪ B)) as [| n] eqn:Hn; [lia |].
          revert H1. unfold Qdiv, Qeq, Qmult, Qinv. simpl. lia. }
        pose proof (set_subseteq_size_eq _ _ Hsub Hsz) as Heq.
        assert (Hsame : ∀ x, x ∈ a ↔ x ∈ b).
        { intros x. rewrite <- HA, <- HB. split; intros Hx.
          - assert (Hu : x ∈ A ∪ B) by (apply elem_of_union; by left).
            rewrite <- Heq in Hu. by apply elem_of_intersection in Hu as [_ ?].
          - assert (Hu : x ∈ A ∪ B) by (apply elem_of_union; by right).
            rewrite <- Heq in Hu. by apply elem_of_intersection in Hu as [? _]. }
        split; [| done]. intros ->. apply Hfull. left. done.
      * intros [_ Hsame].
        assert (A = B) as ->.
        { apply leibniz_equiv. intros x. by rewrite HA, HB. }
        assert (B ∩ B = B) as -> by (apply leibniz_equiv; intros x; rewrite elem_of_intersection; tauto).
        assert (Hu : B ∪ B = B) by (apply leibniz_equiv; intros x; rewrite elem_of_union; tauto).
        rewrite Hu in *. by apply ratio_one.
Qed.

(** *** The matrix *)

Lemma set_cell_cell n matrix i j score :
  dims n matrix → i < n → j < n →
  ∃ matrix', set_cell matrix i j score = Some matrix' ∧ dims n matrix' ∧
    ∀ a b, cell matrix' a b =
      if decide (a = i ∧ b = j) then Some score else cell matrix a b.
Proof.
  intros [Hl Hr] Hi Hj. unfold set_cell.
  destruct (lookup_lt_is_Some_2 matrix i) as [row Hrow]; [lia |].
  rewrite Hrow. csimpl. pose proof (Hr _ _ Hrow) as Hlr.
  destruct (lookup_lt_is_Some_2 row j) as [c Hc]; [lia |].
  rewrite Hc. csimpl. eexists. split; [done |].
  destruct (set_cell_dims n matrix i j score (conj Hl Hr) Hi Hj) as (m' & Hrun & Hd).
  unfold set_cell in Hrun. rewrite Hrow in Hrun. csimpl in Hrun.
  rewrite Hc in Hrun. csimpl in Hrun. simplify_eq. split; [done |].
  intros a b. unfold cell. destruct (decide (a = i)) as [-> | Hne].
  - rewrite list_lookup_insert_eq by lia. csimpl.
    destruct (decide (b = j)) as [-> | Hnb].
    + rewrite list_lookup_insert_eq by lia. by rewrite decide_True.
    + rewrite list_lookup_insert_ne by done. rewrite Hrow. csimpl.
      rewrite decide_False; [done | tauto].
  - rewrite list_lookup_insert_ne by done. rewrite decide_False; [done | tauto].
Qed.

Section Matrix.
Variable sqrt : Q → Q.
Variable tabs : list Tab.
Variable domain_bonus : Q.

(** The score of the tabs at two indices. *)
Definition score_at (a b : nat) : Q :=
  match tabs !! a, tabs !! b with
  | Some ta, Some tb => similarity_score sqrt ta tb domain_bonus
  | _, _ => 0%Q
  end.

(** The pairs [a < b] already scored when the loops reach [(i, j)]. *)
Definition scored (i j a b : nat) : Prop := a < b ∧ (a < i ∨ (a = i ∧ b < j)).

#[local] Instance scored_dec i j a b : Decision (scored i j a b).
Proof. unfold scored. apply _. Defined.

(** The cell [(a, b)] when the loops reach [(i, j)]. *)
Definition cell_at (i j a b : nat) : Q :=
  if decide (scored i j a b) then score_at a b
  else if decide (scored i j b a) then score_at b a else 0%Q.

Definition matrix_at (i j : nat) (matrix : list (list Q)) : Prop :=
  dims (length tabs) matrix ∧
  ∀ a b, a < length tabs → b < length tabs →
    cell matrix a b = Some (cell_at i j a b).

Lemma matrix_at_ext i j i' j' matrix :
  (∀ a b, a < length tabs → b < length tabs → (scored i j a b ↔ scored i' j' a b)) →
  matrix_at i j matrix → matrix_at i' j' matrix.
Proof.
  intros Hext [Hd Hcells]. split; [done |]. intros a b Ha Hb.
  rewrite (Hcells a b Ha Hb). f_equal. unfold cell_at.
  pose proof (Hext a b Ha Hb). pose proof (Hext b a Hb Ha).
  repeat case_decide; first [done | tauto].
Qed.

Lemma score_step_matrix_at i j matrix :
  i < j < length tabs → matrix_at i j matrix →
  ∃ matrix', score_step sqrt tabs domain_bonus i matrix j = Some matrix' ∧
    matrix_at i (S j) matrix'.
Proof.
  intros Hij [Hd Hcells]. unfold score_step.
  destruct (lookup_lt_is_Some_2 tabs i) as [ta Hta]; [lia |].
  destruct (lookup_lt_is_Some_2 tabs j) as [tb Htb]; [lia |].
  rewrite Hta, Htb. csimpl.
  destruct (set_cell_cell _ _ i j (similarity_score sqrt ta tb domain_bonus) Hd)
    as (m1 & -> & Hd1 & Hc1); [lia | lia |].
  csimpl.
  destruct (set_cell_cell _ _ j i (similarity_score sqrt ta tb domain_bonus) Hd1)
    as (m2 & -> & Hd2 & Hc2); [lia | lia |].
  eexists. split; [done |]. split; [done |]. intros a b Ha Hb.
  rewrite Hc2, Hc1, (Hcells a b Ha Hb).
  assert (Hs : score_at i j = similarity_score sqrt ta tb domain_bonus).
  { unfold score_at. by rewrite Hta, Htb. }
  unfold cell_at, scored.
  repeat case_decide; first [done | exfalso; lia | idtac].
  all: f_equal; destruct_and?; simplify_eq; first [done | exfalso; lia].
Qed.

Lemma build_similarity_matrix_cells :
  ∃ matrix, build_similarity_matrix sqrt tabs domain_bonus = Some matrix ∧
    length matrix = length tabs ∧
    Forall (λ row, length row = length tabs) matrix ∧
    ∀ i j ti tj, tabs !! i = Some ti → tabs !! j = Some tj →
      cell matrix i j =
        Some (if decide (i = j) then 0%Q
              else similarity_score sqrt ti tj domain_bonus).
Proof.
  unfold build_similarity_matrix.
  destruct (for_each_range (λ i matrix, matrix_at i (S i) matrix) 0 (length tabs)
              (λ matrix i, for_each (range (i + 1) (length tabs))
                             (score_step sqrt tabs domain_bonus i) matrix)
              (replicate (length tabs) (replicate (length tabs) 0%Q)))
    as (matrix & Hrun & [[Hlen Hrows] Hcells]).
  - lia.
  - split; [apply dims_zero |]. intros a b Ha Hb. unfold cell.
    rewrite lookup_replicate_2 by done. csimpl.
    rewrite lookup_replicate_2 by done. f_equal.
    unfold cell_at, scored. repeat case_decide; first [done | exfalso; lia].
  - intros i matrix Hi Hm.
    destruct (for_each_range (λ j matrix, matrix_at i j matrix) (i + 1) (length tabs)
                (score_step sqrt tabs domain_bonus i) matrix)
      as (matrix' & Hrow & Hm'); [lia | | | ].
    + replace (i + 1) with (S i) by lia. done.
    + intros j m1 Hj Hm1. apply score_step_matrix_at; [lia | done].
    + exists matrix'. split; [done |].
      eapply matrix_at_ext; [| exact Hm']. intros a b Ha Hb. unfold scored. lia.
  - exists matrix. split_and!; [done | done | |].
    + apply Forall_forall. intros row Hrow.
      apply list_elem_of_lookup in Hrow as [i Hi]. by eapply Hrows.
    + intros i j ti tj Hti Htj.
      pose proof (lookup_lt_Some _ _ _ Hti) as Hi.
      pose proof (lookup_lt_Some _ _ _ Htj) as Hj.
      rewrite (Hcells i j Hi Hj). f_equal. unfold cell_at, scored, score_at.
      rewrite Hti, Htj.
      repeat case_decide; first [done | exfalso; lia | idtac].
      apply similarity_score_comm.
Qed.

(** [build_similarity_matrix] (lines 336-344) returns a square matrix with
    one row and one column per tab, zero on the diagonal, and the score of
    the two tabs in every other cell: the matrix is symmetric. *)
Theorem build_similarity_matrix_scores :
  ∃ matrix, build_similarity_matrix sqrt tabs domain_bonus = Some matrix ∧
    length matrix = length tabs ∧
    Forall (λ row, length row = length tabs) matrix ∧
    ∀ i j ti tj, tabs !! i = Some ti → tabs !! j = Some tj →
      cell matrix i j =
        Some (if decide (i = j) then 0%Q
              else similarity_score sqrt ti tj domain_bonus).
Proof. apply build_similarity_matrix_cells. Qed.

End Matrix.

End ScoreProps.

(** ** Properties of the edge builder *)
Module EdgeProps.
Import Groups GroupsSpec GraphSpec LoopFacts GraphFacts.

(** The pair [(i, j)] of indices passes the threshold. *)
Definition passes (similarity_matrix : list (list Q)) (threshold : Q) (n : nat)
    (p : nat * nat) : Prop :=
  p.1 < p.2 < n ∧
  ∃ w, cell similarity_matrix p.1 p.2 = Some w ∧ Qle_bool threshold w = true.

(** The edge that [build_edges] appends for a pair of indices. *)
Definition edge_at (tabs : list Tab) (similarity_matrix : list (list Q))
    (p : nat * nat) (e : Edge) : Prop :=
  ∃ ti tj w, tabs !! p.1 = Some ti ∧ tabs !! p.2 = Some tj ∧
    cell similarity_matrix p.1 p.2 = Some w ∧
    e = {| edge_source := tab_id ti; edge_target := tab_id tj;
           edge_weight := round w 3;
           edge_reason := if decide (tab_domain ti = tab_domain tj)
                          then "similarity+domain" else "similarity" |}.

(** The order of the two loops: by the first index, then by the second. *)
Definition pair_lt (p q : nat * nat) : Prop :=
  p.1 < q.1 ∨ (p.1 = q.1 ∧ p.2 < q.2).

(** The pairs visited when the loops reach [(i, j)]. *)
Definition visited (i j : nat) (p : nat * nat) : Prop :=
  p.1 < p.2 ∧ (p.1 < i ∨ (p.1 = i ∧ p.2 < j)).

Definition edges_at (tabs : list Tab) (similarity_matrix : list (list Q))
    (threshold : Q) (i j : nat) (edges : list Edge) : Prop :=
  ∃ ps, Forall2 (edge_at tabs similarity_matrix) ps edges ∧
    StronglySorted pair_lt ps ∧
    ∀ p, p ∈ ps ↔ passes similarity_matrix threshold (length tabs) p ∧ visited i j p.

Lemma edges_at_ext tabs m thr i j i' j' edges :
  (∀ p, p.2 < length tabs → (visited i j p ↔ visited i' j' p)) →
  edges_at tabs m thr i j edges → edges_at tabs m thr i' j' edges.
Proof.
  intros Hext (ps & Hall & Hsort & Hmem). exists ps. split_and!; [done | done |].
  intros p. rewrite Hmem. split; intros [Hp Hv]; (split; [done |]);
    apply Hext; first [done | destruct Hp as [? _]; lia].
Qed.

Lemma edge_step_edges_at tabs m thr i j edges :
  square (length tabs) m → i < j < length tabs →
  edges_at tabs m thr i j edges →
  ∃ edges', edge_step tabs m thr i edges j = Some edges' ∧
    edges_at tabs m thr i (S j) edges'.
Proof.
  intros Hsq Hij (ps & Hall & Hsort & Hmem). unfold edge_step.
  destruct (Hsq i j) as [w Hw]; [lia | lia |]. rewrite Hw. csimpl.
  destruct (Qle_bool thr w) eqn:Hle.
  - destruct (lookup_lt_is_Some_2 tabs i) as [ti Hti]; [lia |].
    destruct (lookup_lt_is_Some_2 tabs j) as [tj Htj]; [lia |].
    rewrite Hti, Htj. csimpl. eexists. split; [done |].
    exists (ps ++ [(i, j)]). split_and!.
    + apply Forall2_app; [done |]. constructor; [| constructor].
      by exists ti, tj, w.
    + apply StronglySorted_app_2; [| done | by repeat constructor].
      intros p q Hp ->%list_elem_of_singleton.
      apply Hmem in Hp as [_ [_ Hv]]. unfold pair_lt. simpl. lia.
    + intros p. rewrite elem_of_app, list_elem_of_singleton, Hmem. split.
      * intros [[Hp [Hlt Hv]] | ->].
        -- split; [done |]. split; [done | lia].
        -- split; [| split; simpl; lia]. split; [simpl; lia |]. by exists w.
      * intros [Hp [Hlt Hv]].
        destruct (decide (p = (i, j))) as [-> | Hne]; [by right | left].
        split; [done |]. split; [done |].
        destruct p as [a b]. simpl in *.
        destruct Hv as [? | [-> Hb]]; [by left | right].
        split; [done |]. destruct (decide (b = j)) as [-> | ?]; [done | lia].
  - exists edges. split; [done |]. exists ps. split_and!; [done | done |].
    intros p. rewrite Hmem. split.
    + intros [Hp [Hlt Hv]]. split; [done |]. split; [done | lia].
    + intros [Hp [Hlt Hv]]. split; [done |]. split; [done |].
      destruct p as [a b]. simpl in *.
      destruct Hv as [? | [-> Hb]]; [by left | right]. split; [done |].
      destruct (decide (b = j)) as [-> | ?]; [| lia].
      destruct Hp as [_ (w' & Hw' & Hle')]. simpl in Hw'. congruence.
Qed.

(** [build_edges] (lines 347-368). On a matrix with a cell for every pair of
    tabs, [build_edges] returns one edge for each pair of indices [i < j]
    whose score is at or above the threshold, and nothing else; the edges
    come in the order of the pairs, by [i] and then by [j]. *)
Theorem build_edges_exact (tabs : list Tab) (similarity_matrix : list (list Q))
    (threshold : Q) :
  square (length tabs) similarity_matrix →
  ∃ edges ps,
    build_edges tabs similarity_matrix threshold = Some edges ∧
    Forall2 (edge_at tabs similarity_matrix) ps edges ∧
    StronglySorted pair_lt ps ∧
    ∀ p, p ∈ ps ↔ passes similarity_matrix threshold (length tabs) p.
Proof.
  intros Hsq. unfold build_edges.
  destruct (for_each_range
              (λ i edges, edges_at tabs similarity_matrix threshold i (S i) edges)
              0 (length tabs)
              (λ edges i, for_each (range (i + 1) (length tabs))
                            (edge_step tabs similarity_matrix threshold i) edges)
              []) as (edges & Hrun & (ps & Hall & Hsort & Hmem)).
  - lia.
  - exists []. split_and!; [constructor | constructor |].
    intros p. split; [by intros ?%elem_of_nil |].
    intros [_ [? ?]]. lia.
  - intros i edges Hi He.
    destruct (for_each_range
                (λ j edges, edges_at tabs similarity_matrix threshold i j edges)
                (i + 1) (length tabs)
                (edge_step tabs similarity_matrix threshold i) edges)
      as (edges' & Hrow & He'); [lia | | |].
    + by replace (i + 1) with (S i) by lia.
    + intros j e1 Hj He1. apply edge_step_edges_at; [done | lia | done].
    + exists edges'. split; [done |].
      eapply edges_at_ext; [| exact He']. intros p Hp. unfold visited. lia.
  - exists edges, ps. split_and!; [done | done | done |].
    intros p. rewrite Hmem. split; [by intros [? _] |].
    intros Hp. split; [done |]. destruct Hp as [? _]. unfold visited. lia.
Qed.

(** The matrix of the two sample tabs that score [1/3]. *)
Definition third_matrix : list (list Q) := [ [0; 1 # 3]; [1 # 3; 0] ]%Q.

Lemma third_matrix_square : square (length Samples.third_tabs) third_matrix.
Proof.
  intros [| [| i]] [| [| j]] Hi Hj; simpl in Hi, Hj; first [lia | by eexists].
Defined.

Lemma build_edges_exact_witness :
  square (length Samples.third_tabs) third_matrix ∧
  ∃ edges ps,
    build_edges Samples.third_tabs third_matrix (2 # 10) = Some edges ∧
    Forall2 (edge_at Samples.third_tabs third_matrix) ps edges ∧
    StronglySorted pair_lt ps ∧
    ∀ p, p ∈ ps ↔ passes third_matrix (2 # 10) (length Samples.third_tabs) p.
Proof.
  split; [exact third_matrix_square |].
  exact (build_edges_exact Samples.third_tabs third_matrix (2 # 10)
           third_matrix_square).
Defined.

(** Two runs of a loop whose bodies keep a relation between their states. *)
Lemma for_each_rel {A St St' : Type} (R : St → St' → Prop) (xs : list A)
    (f : St → A → option St) (f' : St' → A → option St') :
  (∀ x s s' t, R s s' → f s x = Some t → ∃ t', f' s' x = Some t' ∧ R t t') →
  ∀ s s' r, R s s' → for_each xs f s = Some r →
    ∃ r', for_each xs f' s' = Some r' ∧ R r r'.
Proof.
  intros Hstep. induction xs as [| x xs IH]; intros s s' r HR Hrun; simpl in *.
  - simplify_eq. by exists s'.
  - destruct (f s x) as [t |] eqn:Hf; [| done]. simpl in Hrun.
    destruct (Hstep _ _ _ _ HR Hf) as (t' & -> & HR'). simpl. by eapply IH.
Qed.

(** [build_edges] (lines 353-367): raising the threshold only removes
    edges. The edges at a higher threshold are a sub-list of the edges at a
    lower one, in the same order. *)
Theorem build_edges_threshold_monotone (tabs : list Tab)
    (similarity_matrix : list (list Q)) (threshold threshold' : Q) :
  square (length tabs) similarity_matrix → (threshold <= threshold')%Q →
  ∃ edges edges',
    build_edges tabs similarity_matrix threshold = Some edges ∧
    build_edges tabs similarity_matrix threshold' = Some edges' ∧
    edges' `sublist_of` edges.
Proof.
  intros Hsq Hle.
  destruct (build_edges_spec tabs similarity_matrix threshold Hsq)
    as (edges & Hrun & _).
  exists edges.
  destruct (for_each_rel (λ e e' : list Edge, e' `sublist_of` e)
              (range 0 (length tabs))
              (λ edges i, for_each (range (i + 1) (length tabs))
                            (edge_step tabs similarity_matrix threshold i) edges)
              (λ edges i, for_each (range (i + 1) (length tabs))
                            (edge_step tabs similarity_matrix threshold' i) edges))
    with (s := @nil Edge) (s' := @nil Edge) (r := edges)
    as (edges' & Hrun' & Hsub); [| done | exact Hrun | by exists edges'].
  intros i s s' t HR Hrow.
  eapply (for_each_rel (λ e e' : list Edge, e' `sublist_of` e));
    [| exact HR | exact Hrow].
  intros j e e' e1 He Hstep. unfold edge_step in *.
  destruct (cell similarity_matrix i j) as [w |]; [| done]. csimpl in *.
  destruct (Qle_bool threshold' w) eqn:Hc'.
  - assert (Hc : Qle_bool threshold w = true).
    { apply Qle_bool_iff. apply Qle_bool_iff in Hc'. by eapply Qle_trans. }
    rewrite Hc in Hstep.
    destruct (tabs !! i) as [ti |]; [| done]. csimpl in *.
    destruct (tabs !! j) as [tj |]; [| done]. csimpl in *. simplify_eq.
    eexists. split; [done |]. by apply sublist_app.
  - exists e'. split; [done |].
    destruct (Qle_bool threshold w); [| by simplify_eq].
    destruct (tabs !! i) as [ti |]; [| done]. csimpl in *.
    destruct (tabs !! j) as [tj |]; [| done]. csimpl in *. simplify_eq.
    by apply sublist_inserts_r.
Qed.

Lemma build_edges_threshold_monotone_witness :
  square (length Samples.third_tabs) third_matrix ∧ (2 # 10 <= 1 # 2)%Q ∧
  ∃ edges edges',
    build_edges Samples.third_tabs third_matrix (2 # 10) = Some edges ∧
    build_edges Samples.third_tabs third_matrix (1 # 2) = Some edges' ∧
    edges' `sublist_of` edges.
Proof.
  assert (Hle : (2 # 10 <= 1 # 2)%Q) by (by vm_compute).
  split; [exact third_matrix_square |]. split; [exact Hle |].
  exact (build_edges_threshold_monotone Samples.third_tabs third_matrix
           (2 # 10) (1 # 2) third_matrix_square Hle).
Defined.

End EdgeProps.

(** ** The edges of the graph *)
Module EdgeClaims.
Import Groups DedupeSpec GroupsSpec GraphSpec.
Import UFFacts LoopFacts DedupeFacts GroupsFacts GraphFacts ScoreProps.

Section Scored.
Variable sqrt : Q → Q.
Variable label_group : list Tab → list (list string) → string.

(** The edges of the graph are the edges [build_edges] finds in the matrix
    [build_similarity_matrix] makes of the primary tabs. *)
Lemma main_scored tabs args :
  ∃ tabs' pm dups m edges t2g graph,
    dedupe_tabs tabs (args_dedupe_hamming args) = Some (tabs', pm, dups) ∧
    build_similarity_matrix sqrt (filter (λ t, tab_duplicate_of t = None) tabs')
      (args_domain_bonus args) = Some m ∧
    (∀ i j ti tj,
       filter (λ t, tab_duplicate_of t = None) tabs' !! i = Some ti →
       filter (λ t, tab_duplicate_of t = None) tabs' !! j = Some tj →
       cell m i j = Some (if decide (i = j) then 0%Q
                          else similarity_score sqrt ti tj (args_domain_bonus args))) ∧
    (∀ e, e ∈ edges →
       edge_of (filter (λ t, tab_duplicate_of t = None) tabs') m
         (args_edge_threshold args) e) ∧
    main sqrt label_group tabs args = Some graph ∧
    graph_tabs graph =
      pop_fields (args_store_embeddings args) <$> (assigned pm t2g <$> tabs') ∧
    graph_edges graph = edges.
Proof.
  destruct (dedupe_spec tabs (args_dedupe_hamming args))
    as (p0 & cl & tabs' & pm & dups & _ & Hrun & _ & _ & _ & _ & _ & Hlen' & _).
  set (primary_tabs := filter (λ t, tab_duplicate_of t = None) tabs').
  destruct (build_similarity_matrix_cells sqrt primary_tabs (args_domain_bonus args))
    as (m & Hm & Hlenm & Hrows & Hcells).
  assert (Hsq : square (length primary_tabs) m).
  { intros i j Hi Hj.
    destruct (lookup_lt_is_Some_2 primary_tabs i Hi) as [ti Hti].
    destruct (lookup_lt_is_Some_2 primary_tabs j Hj) as [tj Htj].
    rewrite (Hcells i j ti tj Hti Htj). by eexists. }
  destruct (build_edges_spec primary_tabs m (args_edge_threshold args) Hsq)
    as (edges & He & Hedges).
  destruct (build_groups_spec primary_tabs m (args_group_threshold args)
              (negb (args_no_domain_group args)) (args_domain_group_min args)
              (negb (args_no_mutual_knn args)) (args_knn_k args) Hsq)
    as (gm & groups & t2g & _ & Hg & _).
  pose proof (assign_tabs pm t2g tabs' [] (empty_groups_map groups)) as Ha.
  destruct (foldl (assign_step pm t2g) ([], empty_groups_map groups) tabs')
    as [tabs2 groups_map] eqn:Hfold.
  simpl in Ha. subst tabs2.
  eexists tabs', pm, dups, m, edges, t2g, _.
  split_and!; [done | done | done | done | | |].
  - unfold main. rewrite Hrun. cbn [mbind option_bind].
    fold primary_tabs. rewrite Hm. cbn [mbind option_bind].
    rewrite He. cbn [mbind option_bind]. rewrite Hg. cbn [mbind option_bind].
    rewrite Hfold. reflexivity.
  - reflexivity.
  - reflexivity.
Qed.

(** C8, amended. When ids are assigned in input order, [main] returns a
    graph, and every edge of it joins two primary tabs of the graph, the
    smaller id as the source. The two tabs score at or above the edge
    threshold, and the weight field of the edge is their score rounded to
    three decimals: the stored weight, not the score, can lie below the
    threshold. *)
Theorem edges_join_primaries (tabs : list Tab) (args : Args) :
  ids_positional tabs →
  ∃ tabs' primary_map dups graph,
    dedupe_tabs tabs (args_dedupe_hamming args) = Some (tabs', primary_map, dups) ∧
    main sqrt label_group tabs args = Some graph ∧
    ∀ e, e ∈ graph_edges graph →
      primary_id graph (edge_source e) ∧ primary_id graph (edge_target e) ∧
      edge_source e < edge_target e ∧
      scored_edge sqrt (args_domain_bonus args) (args_edge_threshold args) tabs' e.
Proof.
  intros Hids.
  destruct (main_scored tabs args)
    as (tabs' & pm & dups & m & edges & t2g & graph
        & Hrun & Hm & Hcells & Hedges & Hmain & Htabs & Hgedges).
  exists tabs', pm, dups, graph. split_and!; [done | done |].
  intros e Hin. rewrite Hgedges in Hin.
  destruct (Hedges e Hin)
    as (i & j & ti & tj & w & Hij & Hti & Htj & Hw & Hle & Hs & Ht & Hwe & _).
  rewrite (Hcells i j ti tj Hti Htj), decide_False in Hw by lia.
  injection Hw as <-.
  destruct (filter_lookup_order _ _ _ _ _ _ Hij Hti Htj)
    as (i' & j' & Hij' & Hti' & Htj' & Hpi & Hpj).
  pose proof (dedupe_tabs_ids _ _ _ _ _ Hids Hrun) as Hids'.
  assert (Hprimary : ∀ k t, tabs' !! k = Some t → tab_duplicate_of t = None →
                       primary_id graph (tab_id t)).
  { intros k t Hk Hd. eexists. split_and!; [| | ].
    - rewrite Htabs. apply list_elem_of_fmap_2, list_elem_of_fmap_2.
      by eapply list_elem_of_lookup_2.
    - done.
    - done. }
  split_and!.
  - rewrite Hs. by eapply Hprimary.
  - rewrite Ht. by eapply Hprimary.
  - rewrite Hs, Ht, (Hids' _ _ Hti'), (Hids' _ _ Htj'). lia.
  - exists ti, tj. rewrite Hs, Ht, (Hids' _ _ Hti'), (Hids' _ _ Htj').
    split_and!; [done | done | done | done | done | done].
Qed.

End Scored.

Lemma edges_join_primaries_witness :
  ids_positional Samples.third_tabs ∧
  ∃ tabs' primary_map dups graph,
    dedupe_tabs Samples.third_tabs
      (args_dedupe_hamming (Samples.sample_args (2 # 10))) =
      Some (tabs', primary_map, dups) ∧
    main Samples.unused_sqrt Samples.first_title Samples.third_tabs
      (Samples.sample_args (2 # 10)) = Some graph ∧
    ∀ e, e ∈ graph_edges graph →
      primary_id graph (edge_source e) ∧ primary_id graph (edge_target e) ∧
      edge_source e < edge_target e ∧
      scored_edge Samples.unused_sqrt
        (args_domain_bonus (Samples.sample_args (2 # 10)))
        (args_edge_threshold (Samples.sample_args (2 # 10))) tabs' e.
Proof.
  split; [exact GraphClaims.third_tabs_positional |].
  exact (edges_join_primaries Samples.unused_sqrt Samples.first_title
           Samples.third_tabs (Samples.sample_args (2 # 10))
           GraphClaims.third_tabs_positional).
Defined.

End EdgeClaims.

(** ** Properties of the near-duplicate resolver *)
Module DedupeProps.
Import Str Dedupe DedupeSpec UF UFFacts LoopFacts DedupeFacts.

Lemma near_unfilled tabs thr a b :
  near (filled <$> tabs) thr a b → near tabs thr a b.
Proof.
  intros (ta & tb & sa & sb & Ha & Hb & Hsa & Hsb & Hn).
  rewrite list_lookup_fmap in Ha, Hb.
  destruct (tabs !! a) as [ta0 |] eqn:Ha0; [| done].
  destruct (tabs !! b) as [tb0 |] eqn:Hb0; [| done].
  simpl in Ha, Hb. simplify_eq.
  rewrite filled_simhash in Hsa, Hsb.
  exists ta0, tb0, sa, sb. split_and!; [done | done | done | done |].
  unfold near_duplicate in *. by rewrite !filled_domain in Hn.
Qed.

Section Upper.
Context (E : relation nat) `{!Equivalence E}.

Lemma exact_phase_upper tabs :
  (∀ a b, same_key tabs a b → E a b) →
  ∃ parent canonical_map,
    exact_phase tabs (range 0 (length tabs)) =
      Some (filled <$> tabs, parent, canonical_map) ∧
    length parent = length tabs ∧ forest parent ∧
    ∀ a b, same parent a b → E a b.
Proof.
  intros Hkey.
  destruct (exact_phase_spec tabs) as (parent & cmap & Hrun & Hlen & Hf & _).
  exists parent, cmap. split_and!; [done | done | done |].
  unfold exact_phase in Hrun.
  destruct (for_each_range
              (λ k st, exact_inv tabs k st ∧ ∀ a b, same st.1.2 a b → E a b)
              0 (length tabs) exact_step (tabs, range 0 (length tabs), ∅))
    as (st & Hrun' & _ & HE).
  - lia.
  - split.
    + unfold exact_inv, range. split_and!.
      * rewrite length_seq. lia.
      * apply forest_seq.
      * intros i. by rewrite decide_False by lia.
      * intros c f Hc. by rewrite lookup_empty in Hc.
      * intros i t Hi. lia.
    + simpl. intros a b ->%same_seq. reflexivity.
  - intros k st [_ Hk] [Hinv HE].
    destruct (exact_step_inv tabs k st Hk Hinv) as (st' & Hstep & Hinv').
    exists st'. split_and!; [done | done |].
    destruct st as [[tabs' p] cm]. destruct Hinv as (Hlenp & Hfp & Htabs & Hmap & _).
    simpl in HE. unfold exact_step in Hstep.
    destruct (lookup_lt_is_Some_2 tabs k Hk) as [t Ht].
    assert (Ht' : tabs' !! k = Some t).
    { rewrite Htabs. by rewrite decide_False by lia. }
    rewrite Ht' in Hstep. cbn [mbind option_bind] in Hstep.
    destruct (truthy (dedupe_key t)) eqn:Htr; cbn [negb] in Hstep;
      [| by simplify_eq].
    destruct (cm !! dedupe_key t) as [f |] eqn:Hc; [| by simplify_eq].
    destruct (Hmap _ _ Hc) as (Hfk & tf & Htf & Hkf).
    destruct (union_partition p k f Hfp ltac:(lia) ltac:(lia))
      as (p' & Hu & _ & _ & _ & _ & Hup).
    rewrite Hu in Hstep. cbn [mbind option_bind] in Hstep. simplify_eq. simpl.
    apply (Hup E _ HE). apply Hkey. exists t, tf. split_and!; [done | done | congruence | done].
  - rewrite Hrun in Hrun'. by simplify_eq.
Qed.

Lemma near_phase_upper tabs thr p :
  length p = length tabs → forest p →
  (∀ a b, same p a b → E a b) →
  (∀ a b, near tabs thr a b → E a b) →
  ∃ p', near_phase tabs thr p = Some p' ∧ length p' = length tabs ∧ forest p' ∧
    ∀ a b, same p' a b → E a b.
Proof.
  intros Hlen Hf HE Hnear. unfold near_phase.
  apply (for_each_range
           (λ (_ : nat) q, length q = length tabs ∧ forest q ∧
              ∀ a b, same q a b → E a b)); [lia | done |].
  intros i q [_ Hi] Hq. unfold near_row.
  destruct (lookup_lt_is_Some_2 tabs i Hi) as [ti Hti]. rewrite Hti. csimpl.
  destruct (tab_simhash ti) as [sim_a |] eqn:Hsa; [| by exists q].
  apply (for_each_range
           (λ (_ : nat) q, length q = length tabs ∧ forest q ∧
              ∀ a b, same q a b → E a b)); [lia | done |].
  intros j q1 Hj (Hlen1 & Hf1 & HE1). unfold near_step.
  destruct (lookup_lt_is_Some_2 tabs j) as [tj Htj]; [lia |]. rewrite Htj. csimpl.
  destruct (tab_simhash tj) as [sim_b |] eqn:Hsb; [| by exists q1].
  destruct (near_duplicate thr ti tj sim_a sim_b) eqn:Hn; [| by exists q1].
  destruct (union_partition q1 i j Hf1 ltac:(lia) ltac:(lia))
    as (q2 & Hu & Hlen2 & Hf2 & _ & _ & Hup).
  exists q2. split_and!; [done | congruence | done |].
  apply (Hup E _ HE1). apply Hnear. by exists ti, tj, sim_a, sim_b.
Qed.

(** The clusters lie within every equivalence that holds the pairs with an
    equal key and the pairs with near fingerprints. *)
Lemma dedupe_clusters_upper tabs thr groups :
  dedupe_clusters tabs thr = Some (filled <$> tabs, groups) →
  (∀ a b, same_key tabs a b → E a b) →
  (∀ a b, near tabs thr a b → E a b) →
  ∀ r l a b, (r, l) ∈ groups → a ∈ l → b ∈ l → E a b.
Proof.
  intros Hcl Hkey Hnear.
  destruct (exact_phase_upper tabs Hkey) as (p1 & cmap & Hrun1 & Hlen1 & Hf1 & HE1).
  destruct (near_phase_upper (filled <$> tabs) thr p1) as (p2 & Hrun2 & Hlen2 & Hf2 & HE2).
  { by rewrite length_fmap. } { done. } { done. }
  { intros a b Hn. by apply Hnear, near_unfilled. }
  rewrite length_fmap in Hlen2.
  destruct (collect_groups_spec p2 Hf2) as (p3 & groups2 & Hcollect & Hok).
  assert (groups2 = groups) as ->.
  { unfold dedupe_clusters in Hcl. rewrite Hrun1 in Hcl.
    cbn [mbind option_bind] in Hcl. rewrite Hrun2 in Hcl.
    cbn [mbind option_bind] in Hcl. rewrite length_fmap, <- Hlen2, Hcollect in Hcl.
    by simplify_eq/=. }
  intros r l a b Hin Ha Hb. apply HE2.
  by eapply GroupsFacts.clusters_ok_entry_same.
Qed.

End Upper.

(** What [dedupe_tabs] returns for the tab at an index: its cluster and
    its primary. *)
Lemma dedupe_tabs_at tabs thr :
  ∃ groups tabs' pm dups,
    dedupe_clusters tabs thr = Some (filled <$> tabs, groups) ∧
    dedupe_tabs tabs thr = Some (tabs', pm, dups) ∧
    length tabs' = length tabs ∧
    (∀ a b, same_key tabs a b → ∃ r l, (r, l) ∈ groups ∧ a ∈ l ∧ b ∈ l) ∧
    (∀ a b, near tabs thr a b → ∃ r l, (r, l) ∈ groups ∧ a ∈ l ∧ b ∈ l) ∧
    ∀ idx, idx < length tabs →
      ∃ r l p, (r, l) ∈ groups ∧ idx ∈ l ∧ p ∈ l ∧ (∀ y, y ∈ l → p ≤ y) ∧
        (∀ y, y ∈ l → pm !! y = Some p) ∧
        tabs' !! idx = resolved (filled <$> tabs) l p idx.
Proof.
  destruct (dedupe_spec tabs thr)
    as (p0 & groups & tabs' & pm & dups & Hcl & Hrun & Hlen & Hf & Hok & Hkey & Hnear
        & Hlen' & Hall).
  exists groups, tabs', pm, dups. split_and!; [done | done | done | | |].
  - intros a b Hab. by eapply clusters_ok_same, Hkey.
  - intros a b Hab. by eapply clusters_ok_same, Hnear.
  - intros idx Hidx.
    destruct (clusters_ok_class p0 groups idx Hok Hf ltac:(lia)) as (r & l & Hin & Hclass).
    destruct (Hall _ _ Hin) as (p & _ & Hp & Hle & Hres).
    exists r, l, p. split_and!; [done | | done | done | |].
    + apply Hclass, same_refl; [done | lia].
    + intros y Hy. by destruct (Hres y Hy).
    + destruct (Hres idx) as [_ ?]; [| done]. apply Hclass, same_refl; [done | lia].
Qed.

Lemma dedupe_tabs_upper (E : relation nat) `{!Equivalence E} tabs thr :
  (∀ a b, same_key tabs a b → E a b) →
  (∀ a b, near tabs thr a b → E a b) →
  ∃ tabs' pm dups,
    dedupe_tabs tabs thr = Some (tabs', pm, dups) ∧
    ∀ idx, idx < length tabs → ∃ p, pm !! idx = Some p ∧ E idx p.
Proof.
  intros Hkey Hnear.
  destruct (dedupe_tabs_at tabs thr)
    as (groups & tabs' & pm & dups & Hcl & Hrun & _ & _ & _ & Hat).
  exists tabs', pm, dups. split; [done |]. intros idx Hidx.
  destruct (Hat idx Hidx) as (r & l & p & Hin & Hi & Hp & _ & Hpm & _).
  exists p. split; [by apply Hpm |].
  by eapply (dedupe_clusters_upper E).
Qed.

(** [dedupe_tabs] (lines 497-536) merges nothing without a link: a tab and
    its primary are joined by a chain of pairs that have an equal non-empty
    key or, with a shared non-empty domain, fingerprints within the
    threshold. Every equivalence on the indices that holds all such pairs
    holds each tab with its primary. *)
Theorem dedupe_tabs_merges_only_linked (E : relation nat) (tabs : list Tab)
    (hamming_threshold : Z) :
  Equivalence E →
  (∀ a b, same_key tabs a b → E a b) →
  (∀ a b, near tabs hamming_threshold a b → E a b) →
  ∃ tabs' primary_map dups,
    dedupe_tabs tabs hamming_threshold = Some (tabs', primary_map, dups) ∧
    ∀ idx, idx < length tabs →
      ∃ primary, primary_map !! idx = Some primary ∧ E idx primary.
Proof. intros HE. by apply dedupe_tabs_upper. Qed.

Lemma bridge_tabs_unlinked a b :
  (same_key Samples.bridge_tabs a b → a = b) ∧
  (near Samples.bridge_tabs 3 a b → a = b).
Proof.
  split.
  - intros (ta & tb & Ha & Hb & Hk & _).
    destruct a as [| [| [| a]]], b as [| [| [| b]]]; simplify_eq/=; done.
  - intros (ta & tb & sa & sb & Ha & Hb & Hsa & _).
    destruct a as [| [| [| a]]]; simplify_eq/=.
Defined.

Lemma dedupe_tabs_merges_only_linked_witness :
  Equivalence (@eq nat) ∧
  (∀ a b, same_key Samples.bridge_tabs a b → a = b) ∧
  (∀ a b, near Samples.bridge_tabs 3 a b → a = b) ∧
  ∃ tabs' primary_map dups,
    dedupe_tabs Samples.bridge_tabs 3 = Some (tabs', primary_map, dups) ∧
    ∀ idx, idx < length Samples.bridge_tabs →
      ∃ primary, primary_map !! idx = Some primary ∧ idx = primary.
Proof.
  split_and!; [apply _ | intros a b; apply bridge_tabs_unlinked
               | intros a b; apply bridge_tabs_unlinked |].
  exact (dedupe_tabs_merges_only_linked eq Samples.bridge_tabs 3 _
           (λ a b, proj1 (bridge_tabs_unlinked a b))
           (λ a b, proj2 (bridge_tabs_unlinked a b))).
Defined.

Lemma near_threshold_mono tabs thr thr' a b :
  (thr ≤ thr')%Z → near tabs thr a b → near tabs thr' a b.
Proof.
  intros Hle (ta & tb & sa & sb & Ha & Hb & Hsa & Hsb & Hn).
  exists ta, tb, sa, sb. split_and!; [done | done | done | done |].
  unfold near_duplicate in *.
  apply andb_true_iff in Hn as [Hn Hd]. apply andb_true_iff. split; [done |].
  apply bool_decide_eq_true in Hd. apply bool_decide_eq_true. lia.
Qed.

(** [dedupe_tabs] (lines 508-518): a larger Hamming threshold only merges
    more. Two tabs with the same primary at a threshold have the same
    primary at every larger threshold. *)
Theorem dedupe_tabs_threshold_monotone (tabs : list Tab)
    (hamming_threshold hamming_threshold' : Z) :
  (hamming_threshold ≤ hamming_threshold')%Z →
  ∃ tabs1 primary_map dups tabs2 primary_map' dups',
    dedupe_tabs tabs hamming_threshold = Some (tabs1, primary_map, dups) ∧
    dedupe_tabs tabs hamming_threshold' = Some (tabs2, primary_map', dups') ∧
    ∀ a b, a < length tabs → b < length tabs →
      primary_map !! a = primary_map !! b → primary_map' !! a = primary_map' !! b.
Proof.
  intros Hle.
  destruct (dedupe_spec tabs hamming_threshold')
    as (p0 & groups' & tabs2 & pm' & dups' & _ & Hrun' & _ & _ & Hok & Hkey & Hnear
        & _ & Hall).
  assert (Hsame : ∀ a b, same p0 a b → pm' !! a = pm' !! b).
  { intros a b Hab.
    destruct (clusters_ok_same _ _ _ _ Hok Hab) as (r & l & Hin & Ha & Hb).
    destruct (Hall _ _ Hin) as (p & _ & _ & _ & Hres).
    destruct (Hres a Ha) as [-> _]. by destruct (Hres b Hb) as [-> _]. }
  assert (HE : Equivalence (λ a b : nat, pm' !! a = pm' !! b)).
  { split; [by intros ? | by intros ? ? | intros ? ? ?; congruence]. }
  destruct (dedupe_tabs_upper (λ a b, pm' !! a = pm' !! b) tabs hamming_threshold)
    as (tabs1 & pm & dups & Hrun & Hlink).
  - intros a b Hab. by apply Hsame, Hkey.
  - intros a b Hab. apply Hsame, Hnear. by eapply near_threshold_mono.
  - exists tabs1, pm, dups, tabs2, pm', dups'. split_and!; [done | done |].
    intros a b Ha Hb Hab.
    destruct (Hlink a Ha) as (pa & Hpa & Ea). destruct (Hlink b Hb) as (pb & Hpb & Eb).
    rewrite Ea, Eb. congruence.
Qed.

Lemma dedupe_tabs_threshold_monotone_witness :
  (0 ≤ 3)%Z ∧
  ∃ tabs1 primary_map dups tabs2 primary_map' dups',
    dedupe_tabs Samples.chain_tabs 0 = Some (tabs1, primary_map, dups) ∧
    dedupe_tabs Samples.chain_tabs 3 = Some (tabs2, primary_map', dups') ∧
    ∀ a b, a < length Samples.chain_tabs → b < length Samples.chain_tabs →
      primary_map !! a = primary_map !! b → primary_map' !! a = primary_map' !! b.
Proof.
  assert (Hle : (0 ≤ 3)%Z) by lia.
  split; [exact Hle |].
  exact (dedupe_tabs_threshold_monotone Samples.chain_tabs 0 3 Hle).
Defined.

(** *** The primary map and the duplicate count *)

Lemma resolved_fields tabs l p idx t t' :
  tabs !! idx = Some t → resolved tabs l p idx = Some t' →
  tab_id t' = tab_id t ∧ tab_url t' = tab_url t ∧ tab_domain t' = tab_domain t ∧
  tab_simhash t' = tab_simhash t ∧
  tab_duplicate_of t' = if decide (idx = p) then tab_duplicate_of t else Some p.
Proof.
  intros Ht Hres. apply resolved_Some in Hres as (t0 & tp & Ht0 & Htp & ->).
  assert (t0 = t) as -> by congruence.
  destruct (decide (idx = p)) as [-> | Hne].
  - assert (tp = t) as -> by congruence.
    unfold resolved_primary. by destruct (cluster_aliases tabs l p).
  - unfold resolved_alias. by destruct (truthy (tab_canonical_url t)).
Qed.

Lemma dedupe_tabs_fields (tabs : list Tab) (hamming_threshold : Z) :
  ∃ tabs' primary_map dups,
    dedupe_tabs tabs hamming_threshold = Some (tabs', primary_map, dups) ∧
    length tabs' = length tabs ∧
    ∀ idx t, tabs !! idx = Some t →
      ∃ primary t', primary_map !! idx = Some primary ∧ primary ≤ idx ∧
        primary_map !! primary = Some primary ∧
        tabs' !! idx = Some t' ∧
        tab_id t' = tab_id t ∧ tab_url t' = tab_url t ∧
        tab_domain t' = tab_domain t ∧ tab_simhash t' = tab_simhash t ∧
        tab_duplicate_of t' =
          if decide (idx = primary) then tab_duplicate_of t else Some primary.
Proof.
  destruct (dedupe_tabs_at tabs hamming_threshold)
    as (groups & tabs' & pm & dups & _ & Hrun & Hlen & _ & _ & Hat).
  exists tabs', pm, dups. split_and!; [done | done |]. intros idx t Ht.
  destruct (Hat idx (lookup_lt_Some _ _ _ Ht))
    as (r & l & p & Hin & Hi & Hp & Hle & Hpm & Hres).
  destruct (lookup_lt_is_Some_2 tabs' idx) as [t' Ht'].
  { rewrite Hlen. by eapply lookup_lt_Some. }
  rewrite Ht' in Hres. symmetry in Hres.
  destruct (resolved_fields (filled <$> tabs) l p idx (filled t) t')
    as (Hid & Hurl & Hdom & Hsim & Hdup); [by rewrite list_lookup_fmap, Ht | done |].
  rewrite filled_id in Hid. rewrite filled_url in Hurl. rewrite filled_domain in Hdom.
  rewrite filled_simhash in Hsim. rewrite filled_duplicate_of in Hdup.
  exists p, t'. split_and!; try done; [by apply Hpm | by apply Hle | by apply Hpm].
Qed.

(** [dedupe_tabs] (lines 483-549) returns on every list of tabs. Every tab
    has a primary in [primary_map]; the primary has no larger index and is
    its own primary. The call keeps the id, the URL, the domain and the
    fingerprint of every tab, sets [duplicate_of] of a tab that is not its
    own primary to the primary's index, and leaves [duplicate_of] of a
    primary as it was. *)
Theorem dedupe_tabs_primary_map (tabs : list Tab) (hamming_threshold : Z) :
  ∃ tabs' primary_map dups,
    dedupe_tabs tabs hamming_threshold = Some (tabs', primary_map, dups) ∧
    length tabs' = length tabs ∧
    ∀ idx t, tabs !! idx = Some t →
      ∃ primary t', primary_map !! idx = Some primary ∧ primary ≤ idx ∧
        primary_map !! primary = Some primary ∧
        tabs' !! idx = Some t' ∧
        tab_id t' = tab_id t ∧ tab_url t' = tab_url t ∧
        tab_domain t' = tab_domain t ∧ tab_simhash t' = tab_simhash t ∧
        tab_duplicate_of t' =
          if decide (idx = primary) then tab_duplicate_of t else Some primary.
Proof. apply dedupe_tabs_fields. Qed.

Lemma mark_loop_count tabs p l : ∀ pm d al pm' d' al',
  for_each l (mark_step tabs p) (pm, d, al) = Some (pm', d', al') →
  d' = d + length (filter (λ i, i ≠ p) l).
Proof.
  induction l as [| idx l IH]; intros pm d al pm' d' al' Hrun; simpl in Hrun.
  - simplify_eq. simpl. lia.
  - rewrite filter_cons. destruct (decide (idx ≠ p)) as [Hne | Heq].
    + destruct (tabs !! idx) as [t |]; [| done]. cbn [mbind option_bind] in Hrun.
      apply IH in Hrun. simpl. lia.
    + cbn [mbind option_bind] in Hrun. apply IH in Hrun. lia.
Qed.

Lemma resolve_step_count tabs pm d r l tabs' pm' d' :
  resolve_step (tabs, pm, d) (r, l) = Some (tabs', pm', d') →
  ∃ p, list_min l = Some p ∧ d' = d + length (filter (λ i, i ≠ p) l).
Proof.
  unfold resolve_step. cbn [snd]. intros Hrun.
  destruct (list_min l) as [p |]; [| done]. cbn [mbind option_bind] in Hrun.
  exists p. split; [done |].
  destruct (for_each l (mark_step tabs p) (pm, d, [])) as [[[pm1 d1] al] |] eqn:Hmark;
    [| done].
  apply mark_loop_count in Hmark. cbn [mbind option_bind] in Hrun.
  destruct al as [| a al].
  - by simplify_eq.
  - destruct (tabs !! p) as [tp |]; [| done]. cbn [mbind option_bind] in Hrun.
    destruct (for_each l (link_step p) _) as [tabs2 |]; [| done].
    cbn [mbind option_bind] in Hrun. by simplify_eq.
Qed.

(** The members of a cluster other than its smallest index. *)
Definition others (l : list nat) : list nat :=
  filter (λ i, Some i ≠ list_min l) l.

Lemma resolve_count groups : ∀ tabs pm d tabs' pm' d',
  for_each groups resolve_step (tabs, pm, d) = Some (tabs', pm', d') →
  d' = d + sum_list ((λ e, length (others e.2)) <$> groups).
Proof.
  induction groups as [| [r l] groups IH]; intros tabs pm d tabs' pm' d' Hrun;
    cbn [for_each] in Hrun.
  - simplify_eq. simpl. lia.
  - destruct (resolve_step (tabs, pm, d) (r, l)) as [[[tabs1 pm1] d1] |] eqn:Hstep;
      [| done].
    cbn [mbind option_bind] in Hrun. apply IH in Hrun.
    apply resolve_step_count in Hstep as (p & Hp & ->).
    rewrite fmap_cons. simpl. unfold others at 1. rewrite Hp.
    assert (filter (λ i, Some i ≠ Some p) l = filter (λ i, i ≠ p) l) as ->.
    { apply list_filter_iff. intros i. split; [congruence | by intros ? [=]]. }
    lia.
Qed.

Lemma length_filter_mjoin {A : Type} (P : A → Prop) `{!∀ x, Decision (P x)}
    (ls : list (list A)) :
  length (filter P (mjoin ls)) = sum_list ((λ l, length (filter P l)) <$> ls).
Proof.
  induction ls as [| l ls IH]; [done |].
  rewrite fmap_cons. simpl. by rewrite filter_app, length_app, IH.
Qed.

Lemma length_filter_indices {A : Type} (P : A → Prop) `{!∀ x, Decision (P x)}
    (Q : nat → Prop) `{!∀ i, Decision (Q i)} (l : list A) : ∀ k,
  (∀ i x, l !! i = Some x → (P x ↔ Q (k + i))) →
  length (filter P l) = length (filter Q (seq k (length l))).
Proof.
  induction l as [| x l IH]; intros k Hpq; [done |].
  simpl. rewrite !filter_cons.
  assert (Hx : P x ↔ Q k).
  { rewrite (Hpq 0 x eq_refl). by replace (k + 0) with k by lia. }
  assert (Hl : length (filter P l) = length (filter Q (seq (S k) (length l)))).
  { apply IH. intros i y Hy. rewrite (Hpq (S i) y Hy).
    by replace (k + S i) with (S k + i) by lia. }
  destruct (decide (P x)), (decide (Q k)); simpl; first [lia | tauto].
Qed.

Lemma filter_ext_in {A : Type} (P Q : A → Prop) `{!∀ x, Decision (P x)}
    `{!∀ x, Decision (Q x)} (l : list A) :
  (∀ x, x ∈ l → (P x ↔ Q x)) → filter P l = filter Q l.
Proof.
  induction l as [| x l IH]; intros Hpq; [done |].
  rewrite !filter_cons. rewrite IH by (intros y Hy; apply Hpq; by right).
  pose proof (Hpq x ltac:(by left)).
  destruct (decide (P x)), (decide (Q x)); first [done | tauto].
Qed.

Lemma dedupe_tabs_count (tabs : list Tab) (hamming_threshold : Z) :
  Forall (λ t, tab_duplicate_of t = None) tabs →
  ∃ tabs' primary_map dups,
    dedupe_tabs tabs hamming_threshold = Some (tabs', primary_map, dups) ∧
    dups = length (filter (λ t, tab_duplicate_of t ≠ None) tabs') ∧
    dups + length (filter (λ t, tab_duplicate_of t = None) tabs') = length tabs.
Proof.
  intros Hnone.
  destruct (dedupe_spec tabs hamming_threshold)
    as (p0 & groups & tabs' & pm & dups & Hcl & Hrun & Hlen & Hf & Hok & _ & _
        & Hlen' & Hall).
  exists tabs', pm, dups. split; [done |].
  assert (Hcount : dups = length (filter (λ idx, pm !! idx ≠ Some idx)
                                    (seq 0 (length tabs)))).
  { pose proof Hrun as Hres. unfold dedupe_tabs in Hres. rewrite Hcl in Hres.
    cbn [mbind option_bind] in Hres. unfold resolve in Hres.
    apply resolve_count in Hres. rewrite Hres. simpl.
    rewrite <- Hlen, <- (GroupsProps.clusters_ok_partition p0 groups Hf Hok).
    rewrite length_filter_mjoin, <- list_fmap_compose.
    f_equal. apply list_fmap_ext. intros i [r l] Hi. simpl.
    apply list_elem_of_lookup_2 in Hi.
    destruct (Hall _ _ Hi) as (p & Hmin & _ & _ & Hres').
    unfold others. f_equal. apply filter_ext_in. intros idx Hidx.
    destruct (Hres' idx Hidx) as [-> _]. rewrite Hmin.
    split; intros H [=]; by apply H; f_equal. }
  assert (Hflag : length (filter (λ t, tab_duplicate_of t ≠ None) tabs') = dups).
  { rewrite Hcount, <- Hlen'.
    apply (length_filter_indices _ (λ idx, pm !! idx ≠ Some idx) tabs' 0).
    intros i t' Ht'. simpl.
    destruct (lookup_lt_is_Some_2 tabs i) as [t Ht].
    { rewrite <- Hlen'. by eapply lookup_lt_Some. }
    destruct (dedupe_tabs_fields tabs hamming_threshold)
      as (tabs2 & pm2 & dups2 & Hrun2 & _ & Hfields).
    rewrite Hrun in Hrun2. simplify_eq.
    destruct (Hfields i t Ht) as (p & t2 & Hp & _ & _ & Ht2 & _ & _ & _ & _ & Hdup).
    assert (t2 = t') as -> by congruence.
    rewrite Hp, Hdup. rewrite Forall_forall in Hnone.
    rewrite (Hnone t) by (by eapply list_elem_of_lookup_2).
    destruct (decide (i = p)) as [-> | Hne].
    - split; [done | by intros []].
    - split; [intros _ [=]; by apply Hne | done]. }
  split; [done |].
  rewrite <- Hflag, <- Hlen'.
  pose proof (filter_app_complement (λ t, tab_duplicate_of t ≠ None) tabs') as Hperm.
  apply Permutation_length in Hperm. rewrite length_app in Hperm.
  rewrite <- Hperm. f_equal. f_equal. apply filter_ext_in. intros t _.
  split; [by intros -> ? | intros Hn; by destruct (tab_duplicate_of t); [destruct Hn |]].
Qed.

(** [dedupe_tabs], the count it returns (lines 525-536). When no tab comes
    with [duplicate_of] set, the number [duplicates] is the number of tabs
    that leave with [duplicate_of] set, and together with the tabs that
    leave without it (the primary tabs) it makes the number of tabs. *)
Theorem dedupe_tabs_counts_duplicates (tabs : list Tab) (hamming_threshold : Z) :
  Forall (λ t, tab_duplicate_of t = None) tabs →
  ∃ tabs' primary_map dups,
    dedupe_tabs tabs hamming_threshold = Some (tabs', primary_map, dups) ∧
    dups = length (filter (λ t, tab_duplicate_of t ≠ None) tabs') ∧
    dups + length (filter (λ t, tab_duplicate_of t = None) tabs') = length tabs.
Proof. apply dedupe_tabs_count. Qed.

Lemma dedupe_tabs_counts_duplicates_witness :
  Forall (λ t, tab_duplicate_of t = None) Samples.chain_tabs ∧
  ∃ tabs' primary_map dups,
    dedupe_tabs Samples.chain_tabs 3 = Some (tabs', primary_map, dups) ∧
    dups = length (filter (λ t, tab_duplicate_of t ≠ None) tabs') ∧
    dups + length (filter (λ t, tab_duplicate_of t = None) tabs')
      = length Samples.chain_tabs.
Proof.
  assert (Hnone : Forall (λ t, tab_duplicate_of t = None) Samples.chain_tabs)
    by (by repeat constructor).
  split; [exact Hnone |].
  exact (dedupe_tabs_counts_duplicates Samples.chain_tabs 3 Hnone).
Defined.

End DedupeProps.

(** ** Properties of the assembled graph *)
Module GraphProps.
Import Groups DedupeSpec GroupsSpec GraphSpec.
Import UFFacts LoopFacts DedupeFacts GroupsFacts GraphFacts.

(** The group that the assignment loop finds for a tab: the group of the
    tab's primary. *)
Definition group_key (primary_map tab_to_group : gmap nat nat) (tab : Tab)
  : option nat :=
  tab_to_group !! default (tab_id tab) (primary_map !! tab_id tab).

Lemma assigned_group_id pm t2g t gid :
  tab_group_id (assigned pm t2g t) = Z.of_nat gid ↔ group_key pm t2g t = Some gid.
Proof.
  unfold assigned, group_key. simpl.
  destruct (t2g !! default (tab_id t) (pm !! tab_id t)) as [g |]; simpl.
  - split; [intros ?; f_equal; lia | by intros [= ->]].
  - split; [lia | done].
Qed.

Lemma empty_groups_map_lookup groups gid :
  empty_groups_map groups !! gid =
    if decide (gid ∈ group_id <$> groups) then Some [] else None.
Proof.
  unfold empty_groups_map.
  assert (Hgen : ∀ m0 : gmap nat (list nat),
            foldl (λ m g, <[group_id g := []]> m) m0 groups !! gid =
              if decide (gid ∈ group_id <$> groups) then Some [] else m0 !! gid).
  { induction groups as [| g groups IH]; intros m0; [done |].
    cbn [foldl]. rewrite IH, fmap_cons.
    destruct (decide (gid ∈ group_id <$> groups)) as [Hin | Hin].
    - rewrite decide_True; [done | by right].
    - destruct (decide (gid = group_id g)) as [-> | Hne].
      + rewrite lookup_insert_eq. rewrite decide_True; [done | by left].
      + rewrite lookup_insert_ne by done.
        rewrite decide_False; [done |]. by intros [? | ?]%elem_of_cons. }
  rewrite Hgen. by rewrite lookup_empty.
Qed.

(** The dictionary [groups_map] after the assignment loop: under the id of a
    group, the ids of the tabs sent to that group, in the order of the
    tabs. *)
Lemma assign_groups_map pm t2g gid tabs : ∀ updated groups_map,
  (foldl (assign_step pm t2g) (updated, groups_map) tabs).2 !! gid =
    (λ ids, ids ++ (tab_id <$> filter (λ t, group_key pm t2g t = Some gid) tabs))
      <$> groups_map !! gid.
Proof.
  induction tabs as [| t tabs IH]; intros updated gm.
  - simpl. destruct (gm !! gid); simpl; [by rewrite app_nil_r | done].
  - cbn [foldl]. unfold assign_step at 2. rewrite IH. rewrite filter_cons.
    fold (group_key pm t2g t).
    destruct (group_key pm t2g t) as [g |] eqn:Hg.
    + destruct (gm !! g) as [ids |] eqn:Hids.
      * destruct (decide (g = gid)) as [-> | Hne].
        -- rewrite lookup_insert_eq, Hids. rewrite decide_True by done. simpl.
           by rewrite <- app_assoc.
        -- rewrite lookup_insert_ne by done.
           rewrite decide_False by congruence. done.
      * destruct (decide (g = gid)) as [-> | Hne].
        -- by rewrite Hids.
        -- rewrite decide_False by congruence. done.
    + rewrite decide_False by done. done.
Qed.

Lemma filter_fmap_ids (P : Tab → Prop) `{!∀ t, Decision (P t)} (f : Tab → Tab)
    (tabs : list Tab) :
  (∀ t, tab_id (f t) = tab_id t) →
  tab_id <$> filter P (f <$> tabs) = tab_id <$> filter (λ t, P (f t)) tabs.
Proof.
  intros Hid. induction tabs as [| t tabs IH]; [done |].
  rewrite fmap_cons, !filter_cons. destruct (decide (P (f t))).
  - rewrite !fmap_cons, IH. by rewrite Hid.
  - done.
Qed.

Lemma ids_positional_seq tabs :
  ids_positional tabs → tab_id <$> tabs = seq 0 (length tabs).
Proof.
  intros Hids. apply list_eq. intros i. rewrite list_lookup_fmap.
  destruct (tabs !! i) as [t |] eqn:Ht; simpl.
  - rewrite lookup_seq_lt by (by eapply lookup_lt_Some). by rewrite (Hids _ _ Ht).
  - rewrite lookup_seq_ge; [done |]. by apply lookup_ge_None.
Qed.

Lemma ids_positional_filter_NoDup (P : Tab → Prop) `{!∀ t, Decision (P t)} tabs :
  ids_positional tabs → NoDup (tab_id <$> filter P tabs).
Proof.
  intros Hids. apply (sublist_NoDup _ (tab_id <$> tabs)).
  - rewrite ids_positional_seq by done. apply NoDup_seq.
  - apply fmap_sublist, sublist_filter.
Qed.

Section Assembled.
Variable sqrt : Q → Q.
Variable label_group : list Tab → list (list string) → string.

(** The graph of [main], with its groups. *)
Lemma main_full tabs args :
  ∃ tabs' pm dups m edges groups t2g groups_map graph,
    dedupe_tabs tabs (args_dedupe_hamming args) = Some (tabs', pm, dups) ∧
    square (length (filter (λ t, tab_duplicate_of t = None) tabs')) m ∧
    (foldl (assign_step pm t2g) ([], empty_groups_map groups) tabs').2 = groups_map ∧
    build_groups (filter (λ t, tab_duplicate_of t = None) tabs') m
      (args_group_threshold args) (negb (args_no_domain_group args))
      (args_domain_group_min args) (negb (args_no_mutual_knn args))
      (args_knn_k args) = Some (groups, t2g) ∧
    main sqrt label_group tabs args = Some graph ∧
    graph_tabs graph =
      pop_fields (args_store_embeddings args) <$> (assigned pm t2g <$> tabs') ∧
    graph_groups graph =
      label_step label_group (index_by_id (assigned pm t2g <$> tabs')) groups_map
        (tab_tokens <$> filter (λ t, tab_duplicate_of t = None) tabs') <$> groups ∧
    graph_edges graph = edges ∧
    graph_stats graph = {| tab_count := length tabs; group_count := length groups;
                           edge_count := length edges; duplicates := dups |}.
Proof.
  destruct (dedupe_spec tabs (args_dedupe_hamming args))
    as (p0 & cl & tabs' & pm & dups & _ & Hrun & _ & _ & _ & _ & _ & Hlen' & _).
  set (primary_tabs := filter (λ t, tab_duplicate_of t = None) tabs').
  destruct (build_similarity_matrix_square sqrt primary_tabs (args_domain_bonus args))
    as (m & Hm & Hsq).
  destruct (build_edges_spec primary_tabs m (args_edge_threshold args) Hsq)
    as (edges & He & Hedges).
  destruct (build_groups_spec primary_tabs m (args_group_threshold args)
              (negb (args_no_domain_group args)) (args_domain_group_min args)
              (negb (args_no_mutual_knn args)) (args_knn_k args) Hsq)
    as (gm & groups & t2g & _ & Hg & _).
  pose proof (assign_tabs pm t2g tabs' [] (empty_groups_map groups)) as Ha.
  destruct (foldl (assign_step pm t2g) ([], empty_groups_map groups) tabs')
    as [tabs2 groups_map] eqn:Hfold.
  simpl in Ha. subst tabs2.
  eexists tabs', pm, dups, m, edges, groups, t2g, groups_map, _.
  split_and!; [done | done | by rewrite Hfold | done | | | | |].
  - unfold main. rewrite Hrun. cbn [mbind option_bind].
    fold primary_tabs. rewrite Hm. cbn [mbind option_bind].
    rewrite He. cbn [mbind option_bind]. rewrite Hg. cbn [mbind option_bind].
    rewrite Hfold. reflexivity.
  - reflexivity.
  - reflexivity.
  - reflexivity.
  - cbn [graph_stats]. by rewrite !length_fmap, Hlen'.
Qed.

End Assembled.

Section Grouped.
Variable sqrt : Q → Q.
Variable label_group : list Tab → list (list string) → string.

(** [main], the assignment of groups (lines 795-818). When ids are
    positions and no tab comes with [duplicate_of] set, [main] returns a
    graph in which every tab, primary or duplicate, carries the id of a
    group of the graph (never [-1]); group [i] of the list has id [i], lists
    exactly the ids of the tabs that carry [i], in the order of the tabs,
    and has their number as its size; and a duplicate points to a primary
    tab that carries the same group id. *)
Theorem main_groups_every_tab (tabs : list Tab) (args : Args) :
  ids_positional tabs → Forall (λ t, tab_duplicate_of t = None) tabs →
  ∃ graph, main sqrt label_group tabs args = Some graph ∧
    (∀ t, t ∈ graph_tabs graph →
       ∃ g, g ∈ graph_groups graph ∧ tab_group_id t = Z.of_nat (labeled_id g)) ∧
    (∀ i g, graph_groups graph !! i = Some g →
       labeled_id g = i ∧
       labeled_tab_ids g =
         tab_id <$> filter (λ t, tab_group_id t = Z.of_nat i) (graph_tabs graph) ∧
       labeled_size g = length (labeled_tab_ids g)) ∧
    (∀ t primary, t ∈ graph_tabs graph → tab_duplicate_of t = Some primary →
       ∃ tp, graph_tabs graph !! primary = Some tp ∧ tab_id tp = primary ∧
         tab_duplicate_of tp = None ∧ tab_group_id tp = tab_group_id t).
Proof.
  intros Hids Hnone.
  destruct (main_full sqrt label_group tabs args)
    as (tabs' & pm & dups & m & edges & groups & t2g & groups_map & graph
        & Hrun & Hsq & Hmap & Hg & Hmain & Htabs & Hgroups & _).
  subst groups_map.
  set (primary_tabs := filter (λ t, tab_duplicate_of t = None) tabs') in *.
  pose proof (dedupe_tabs_ids _ _ _ _ _ Hids Hrun) as Hids'.
  destruct (DedupeProps.dedupe_tabs_fields tabs (args_dedupe_hamming args))
    as (tabs2 & pm2 & dups2 & Hrun2 & Hlen' & Hfields).
  rewrite Hrun in Hrun2. symmetry in Hrun2. simplify_eq.
  (* every tab of the resolver's output, with its primary *)
  assert (Hat : ∀ idx t', tabs' !! idx = Some t' →
            ∃ p tp, pm !! idx = Some p ∧ pm !! p = Some p ∧ tab_id t' = idx ∧
              tabs' !! p = Some tp ∧ tab_id tp = p ∧ tab_duplicate_of tp = None ∧
              tab_duplicate_of t' = if decide (idx = p) then None else Some p).
  { intros idx t' Ht'.
    destruct (lookup_lt_is_Some_2 tabs idx) as [t Ht].
    { rewrite <- Hlen'. by eapply lookup_lt_Some. }
    rewrite Forall_forall in Hnone.
    destruct (Hfields idx t Ht) as (p & t2 & Hp & Hle & Hpp & Ht2 & _ & _ & _ & _ & Hdup).
    assert (t2 = t') as -> by congruence.
    destruct (lookup_lt_is_Some_2 tabs p) as [t0 Ht0].
    { apply lookup_lt_Some in Ht. lia. }
    destruct (Hfields p t0 Ht0) as (p' & tp & Hp' & _ & _ & Htp & _ & _ & _ & _ & Hdupp).
    assert (p' = p) as -> by congruence.
    rewrite decide_True in Hdupp by done.
    rewrite (Hnone t0) in Hdupp by (by eapply list_elem_of_lookup_2).
    rewrite (Hnone t) in Hdup by (by eapply list_elem_of_lookup_2).
    exists p, tp. split_and!; try done; by apply Hids'. }
  (* the groups of the primary tabs *)
  destruct (GroupsProps.build_groups_keys primary_tabs m (args_group_threshold args)
              (negb (args_no_domain_group args)) (args_domain_group_min args)
              (negb (args_no_mutual_knn args)) (args_knn_k args) Hsq)
    as (groups2 & t2g2 & Hg2 & Hkeys & Hlookup).
  { by apply ids_positional_filter_NoDup. }
  rewrite Hg in Hg2. symmetry in Hg2. simplify_eq.
  destruct (GroupsProps.build_groups_full primary_tabs m (args_group_threshold args)
              (negb (args_no_domain_group args)) (args_domain_group_min args)
              (negb (args_no_mutual_knn args)) (args_knn_k args) Hsq)
    as (p1 & gm1 & groups3 & t2g3 & Hg3 & _ & _ & _ & Hnum & _).
  rewrite Hg in Hg3. symmetry in Hg3. simplify_eq.
  assert (Hgid : ∀ i g, groups !! i = Some g → group_id g = i).
  { intros i g Hi.
    destruct (Forall2_lookup_r _ _ _ _ _ Hnum Hi) as (e & He & Hid & _).
    by apply list_lookup_imap_Some in He as (? & _ & ->). }
  assert (Hkey : ∀ idx t', tabs' !! idx = Some t' →
            ∃ p gid g, pm !! idx = Some p ∧ group_key pm t2g t' = Some gid ∧
              t2g !! p = Some gid ∧ groups !! gid = Some g).
  { intros idx t' Ht'.
    destruct (Hat idx t' Ht') as (p & tp & Hp & _ & Hid & Htp & Hidp & Hdp & _).
    destruct (Hkeys tp) as [gid Hgid'].
    { apply list_elem_of_filter. split; [done | by eapply list_elem_of_lookup_2]. }
    rewrite Hidp in Hgid'.
    destruct (proj1 (Hlookup p gid) Hgid') as (g & Hgg & _).
    exists p, gid, g. split_and!; [done | | done | done].
    unfold group_key. rewrite Hid, Hp. done. }
  exists graph. split; [done |]. split_and!.
  - intros t Ht. rewrite Htabs in Ht.
    apply list_elem_of_fmap in Ht as (t1 & -> & Ht1).
    apply list_elem_of_fmap in Ht1 as (t' & -> & Ht').
    apply list_elem_of_lookup in Ht' as (idx & Ht').
    destruct (Hkey idx t' Ht') as (p & gid & g & _ & Hk & _ & Hgg).
    eexists. split.
    + rewrite Hgroups. apply list_elem_of_fmap_2. by eapply list_elem_of_lookup_2.
    + cbn [label_step labeled_id pop_fields tab_group_id].
      rewrite (Hgid _ _ Hgg). by apply assigned_group_id.
  - intros i g' Hi. rewrite Hgroups, list_lookup_fmap in Hi.
    destruct (groups !! i) as [g |] eqn:Hgi; [| done]. simpl in Hi. simplify_eq.
    pose proof (Hgid _ _ Hgi) as Hidg.
    cbn [label_step labeled_id labeled_tab_ids labeled_size].
    split_and!; [done | | done].
    rewrite Hidg, assign_groups_map, empty_groups_map_lookup.
    rewrite decide_True.
    2:{ apply list_elem_of_fmap. exists g. split; [done | by eapply list_elem_of_lookup_2]. }
    simpl. rewrite Htabs, <- list_fmap_compose.
    rewrite filter_fmap_ids by done. f_equal.
    apply DedupeProps.filter_ext_in. intros t _. simpl.
    symmetry. apply (assigned_group_id pm t2g t i).
  - intros t primary Ht Hdup. rewrite Htabs in Ht.
    apply list_elem_of_fmap in Ht as (t1 & -> & Ht1).
    apply list_elem_of_fmap in Ht1 as (t' & -> & Ht').
    apply list_elem_of_lookup in Ht' as (idx & Ht').
    destruct (Hat idx t' Ht') as (p & tp & Hp & Hpp & Hid & Htp & Hidp & Hdp & Hd).
    assert (Hsame : tab_group_id (assigned pm t2g tp) = tab_group_id (assigned pm t2g t')).
    { unfold assigned. cbn [set_group_id tab_group_id].
      by rewrite Hid, Hidp, Hp, Hpp. }
    cbn [pop_fields tab_duplicate_of assigned set_group_id] in Hdup.
    rewrite Hd in Hdup. destruct (decide (idx = p)) as [-> | Hne]; [done |].
    assert (primary = p) as -> by congruence.
    exists (pop_fields (args_store_embeddings args) (assigned pm t2g tp)).
    split_and!; [| done | done | done].
    by rewrite Htabs, !list_lookup_fmap, Htp.
Qed.

End Grouped.

Lemma chain_positional : ids_positional Samples.chain_tabs.
Proof. intros [| [| [| i]]] t Ht; by simplify_eq/=. Defined.

Lemma chain_unflagged : Forall (λ t, tab_duplicate_of t = None) Samples.chain_tabs.
Proof. by repeat constructor. Defined.

Lemma main_groups_every_tab_witness :
  ids_positional Samples.chain_tabs ∧
  Forall (λ t, tab_duplicate_of t = None) Samples.chain_tabs ∧
  ∃ graph, main Samples.unused_sqrt Samples.first_title Samples.chain_tabs
             (Samples.sample_args (2 # 10)) = Some graph ∧
    (∀ t, t ∈ graph_tabs graph →
       ∃ g, g ∈ graph_groups graph ∧ tab_group_id t = Z.of_nat (labeled_id g)) ∧
    (∀ i g, graph_groups graph !! i = Some g →
       labeled_id g = i ∧
       labeled_tab_ids g =
         tab_id <$> filter (λ t, tab_group_id t = Z.of_nat i) (graph_tabs graph) ∧
       labeled_size g = length (labeled_tab_ids g)) ∧
    (∀ t primary, t ∈ graph_tabs graph → tab_duplicate_of t = Some primary →
       ∃ tp, graph_tabs graph !! primary = Some tp ∧ tab_id tp = primary ∧
         tab_duplicate_of tp = None ∧ tab_group_id tp = tab_group_id t).
Proof.
  split; [exact chain_positional |]. split; [exact chain_unflagged |].
  exact (main_groups_every_tab Samples.unused_sqrt Samples.first_title
           Samples.chain_tabs (Samples.sample_args (2 # 10))
           chain_positional chain_unflagged).
Defined.

Lemma length_filter_fmap_same (P : Tab → Prop) `{!∀ t, Decision (P t)}
    (f : Tab → Tab) (tabs : list Tab) :
  (∀ t, P (f t) ↔ P t) →
  length (filter P (f <$> tabs)) = length (filter P tabs).
Proof.
  intros Hp. induction tabs as [| t tabs IH]; [done |].
  rewrite fmap_cons, !filter_cons. pose proof (Hp t).
  destruct (decide (P (f t))), (decide (P t)); simpl; first [lia | tauto].
Qed.

Section Counted.
Variable sqrt : Q → Q.
Variable label_group : list Tab → list (list string) → string.

(** [main], the counters of the graph (lines 829-839). [main] returns on
    every list of tabs, and the counters agree with the graph: [tab_count]
    is the number of tabs given and of tabs in the graph, [group_count] the
    number of groups, [edge_count] the number of edges; when no tab comes
    with [duplicate_of] set, [duplicates] is the number of tabs of the graph
    with [duplicate_of] set, so that [duplicates] and the primary tabs make
    [tab_count]. *)
Theorem main_counters_agree (tabs : list Tab) (args : Args) :
  Forall (λ t, tab_duplicate_of t = None) tabs →
  ∃ graph, main sqrt label_group tabs args = Some graph ∧
    tab_count (graph_stats graph) = length tabs ∧
    tab_count (graph_stats graph) = length (graph_tabs graph) ∧
    group_count (graph_stats graph) = length (graph_groups graph) ∧
    edge_count (graph_stats graph) = length (graph_edges graph) ∧
    duplicates (graph_stats graph) =
      length (filter (λ t, tab_duplicate_of t ≠ None) (graph_tabs graph)) ∧
    duplicates (graph_stats graph) +
      length (filter (λ t, tab_duplicate_of t = None) (graph_tabs graph)) =
      tab_count (graph_stats graph).
Proof.
  intros Hnone.
  destruct (main_full sqrt label_group tabs args)
    as (tabs' & pm & dups & m & edges & groups & t2g & groups_map & graph
        & Hrun & _ & _ & _ & Hmain & Htabs & Hgroups & Hedges & Hstats).
  destruct (DedupeProps.dedupe_tabs_count tabs (args_dedupe_hamming args) Hnone)
    as (tabs2 & pm2 & dups2 & Hrun2 & Hd & Hsum).
  rewrite Hrun in Hrun2. symmetry in Hrun2. simplify_eq.
  assert (Hlen : length tabs' = length tabs).
  { destruct (dedupe_spec tabs (args_dedupe_hamming args))
      as (? & ? & ? & ? & ? & _ & Hr & _ & _ & _ & _ & _ & Hl & _).
    rewrite Hrun in Hr. by simplify_eq. }
  exists graph. rewrite Hstats, Hgroups. cbn [tab_count group_count edge_count duplicates].
  split_and!; [done | done | | by rewrite length_fmap | done | |].
  - by rewrite Htabs, !length_fmap.
  - rewrite Htabs, <- list_fmap_compose. symmetry.
    by apply (length_filter_fmap_same (λ t, tab_duplicate_of t ≠ None)).
  - rewrite Htabs, <- list_fmap_compose.
    rewrite (length_filter_fmap_same (λ t, tab_duplicate_of t = None)) by done. lia.
Qed.

End Counted.

Lemma main_counters_agree_witness :
  Forall (λ t, tab_duplicate_of t = None) Samples.chain_tabs ∧
  ∃ graph, main Samples.unused_sqrt Samples.first_title Samples.chain_tabs
             (Samples.sample_args (2 # 10)) = Some graph ∧
    tab_count (graph_stats graph) = length Samples.chain_tabs ∧
    tab_count (graph_stats graph) = length (graph_tabs graph) ∧
    group_count (graph_stats graph) = length (graph_groups graph) ∧
    edge_count (graph_stats graph) = length (graph_edges graph) ∧
    duplicates (graph_stats graph) =
      length (filter (λ t, tab_duplicate_of t ≠ None) (graph_tabs graph)) ∧
    duplicates (graph_stats graph) +
      length (filter (λ t, tab_duplicate_of t = None) (graph_tabs graph)) =
      tab_count (graph_stats graph).
Proof.
  split; [exact chain_unflagged |].
  exact (main_counters_agree Samples.unused_sqrt Samples.first_title
           Samples.chain_tabs (Samples.sample_args (2 # 10)) chain_unflagged).
Defined.

End GraphProps.

(** ** Properties of the loader *)
Module LoadProps.
Import Str Text DedupeSpec.

Lemma rstrip_idem f s : rstrip f (rstrip f s) = rstrip f s.
Proof.
  induction s as [| a s IH]; [done |]. simpl.
  destruct (rstrip f s) as [| b r] eqn:Hr.
  - destruct (f a) eqn:Hf; [done |]. simpl. by rewrite Hf.
  - simpl in *. rewrite IH. done.
Qed.

Lemma lstrip_fixed f s :
  match s with String a _ => f a = false | EmptyString => True end →
  lstrip f s = s.
Proof. destruct s as [| a s]; [done |]. simpl. by intros ->. Qed.

Lemma lstrip_head f s :
  match lstrip f s with String a _ => f a = false | EmptyString => True end.
Proof.
  induction s as [| a s IH]; [done |]. simpl.
  destruct (f a) eqn:Hf; [done |]. by simpl.
Qed.

Lemma rstrip_head f s :
  match s with String a _ => f a = false | EmptyString => True end →
  match rstrip f s with String a _ => f a = false | EmptyString => True end.
Proof.
  destruct s as [| a s]; [done |]. simpl. intros Hf.
  destruct (rstrip f s); [by rewrite Hf | done].
Qed.

(** [strip] leaves a stripped string as it is. *)
Lemma strip_idem s : strip (strip s) = strip s.
Proof.
  unfold strip.
  rewrite (lstrip_fixed is_space (rstrip is_space (lstrip is_space s))).
  - apply rstrip_idem.
  - apply rstrip_head, lstrip_head.
Qed.

Lemma ascii_rstrip f s : Utf8.ascii_text s → Utf8.ascii_text (rstrip f s).
Proof.
  unfold Utf8.ascii_text. induction s as [| a s IH]; [done |]. simpl.
  intros [Ha Hs]%andb_prop. specialize (IH Hs).
  destruct (rstrip f s) as [| b r].
  - destruct (f a); [done |]. simpl. by rewrite Ha.
  - cbn [all_chars] in *. by rewrite Ha.
Qed.

Lemma ascii_strip s : Utf8.ascii_text s → Utf8.ascii_text (strip s).
Proof.
  intros Hs. apply ascii_rstrip. by apply CallFacts.all_chars_lstrip.
Qed.

Lemma normalize_domain_is_Some url :
  is_Some (normalize_domain url) ↔ is_Some (Urllib.urlparse url).
Proof.
  unfold normalize_domain.
  destruct (Urllib.urlparse url) as [parsed |]; simpl.
  - split; [by eexists | intros _].
    destruct (split ":" (lower (Urllib.netloc parsed))) as [| d ds] eqn:Hs.
    + exfalso. revert Hs. generalize (lower (Urllib.netloc parsed)).
      intros s. destruct s as [| a s]; simpl; [done |].
      case_bool_decide; [done |]. by destruct (split ":" s).
    + simpl. by eexists.
  - split; by intros [? ?].
Qed.

Section Loaded.
Context {J : Type}.

(** The URLs [load_tabs] keeps, in the order of the file: the stripped
    URLs that are not empty. *)
Definition kept_urls (ts : list RawTab) : list string :=
  filter (λ u, u ≠ "") ((λ t, strip (default "" (raw_url t))) <$> ts).

Definition all_tabs (data : list (Window J)) : list RawTab :=
  mjoin (window_tabs <$> data).

Definition url_of (l : Loaded J) : string := tab_url (loaded_tab l).

(** What holds of every tab [load_tabs] appends. *)
Definition well_loaded (l : Loaded J) : Prop :=
  let t := loaded_tab l in
  tab_url t ≠ "" ∧ strip (tab_url t) = tab_url t ∧
  canonicalize_url_call (tab_url t) = Some (tab_canonical_url t) ∧
  normalize_domain (tab_url t) = Some (tab_domain t) ∧
  strip (tab_title t) = tab_title t ∧
  tab_duplicate_of t = None.

Lemma kept_urls_app ts1 ts2 : kept_urls (ts1 ++ ts2) = kept_urls ts1 ++ kept_urls ts2.
Proof. unfold kept_urls. by rewrite fmap_app, filter_app. Qed.

Lemma kept_urls_skip t :
  strip (default "" (raw_url t)) = "" → kept_urls [t] = [].
Proof.
  intros He. unfold kept_urls. simpl.
  rewrite filter_cons, decide_False by (by intros H; apply H). done.
Qed.

Lemma kept_urls_keep t :
  strip (default "" (raw_url t)) ≠ "" →
  kept_urls [t] = [strip (default "" (raw_url t))].
Proof.
  intros Hne. unfold kept_urls. simpl.
  by rewrite filter_cons, decide_True.
Qed.

Lemma load_tab_skip (w : Window J) acc t :
  strip (default "" (raw_url t)) = "" → load_tab w acc t = Some acc.
Proof. unfold load_tab. by intros ->. Qed.

Lemma load_tab_keep (w : Window J) acc t :
  strip (default "" (raw_url t)) ≠ "" →
  load_tab w acc t =
    canonical_url ← canonicalize_url_call (strip (default "" (raw_url t)));
    domain ← normalize_domain (strip (default "" (raw_url t)));
    Some (acc ++
      [{| loaded_tab :=
            {| tab_id := length acc;
               tab_url := strip (default "" (raw_url t));
               tab_title := strip (default "" (raw_title t));
               tab_domain := domain;
               tab_canonical_url := canonical_url;
               tab_keywords := []; tab_tokens := []; tab_embedding := None;
               tab_simhash := None; tab_duplicate_of := None;
               tab_aliases := []; tab_group_id := (-1)%Z |};
          loaded_browser := window_browser w;
          loaded_window_id := window_id w |}]).
Proof.
  intros Hne. unfold load_tab.
  apply DedupeFacts.truthy_true in Hne. by rewrite Hne.
Qed.

(** The invariant of both loops. *)
Definition loaded_ok (acc : list (Loaded J)) : Prop :=
  ids_positional (loaded_tab <$> acc) ∧ Forall well_loaded acc.

Lemma load_tab_ok (w : Window J) acc t acc' :
  loaded_ok acc → load_tab w acc t = Some acc' →
  loaded_ok acc' ∧ url_of <$> acc' = (url_of <$> acc) ++ kept_urls [t].
Proof.
  intros [Hids Hall] Hrun.
  destruct (decide (strip (default "" (raw_url t)) = "")) as [He | Hne].
  - rewrite load_tab_skip in Hrun by done. simplify_eq.
    split; [done |]. by rewrite kept_urls_skip, app_nil_r.
  - rewrite load_tab_keep in Hrun by done.
    destruct (canonicalize_url_call _) as [canonical_url |] eqn:Hc; [| done].
    simpl in Hrun.
    destruct (normalize_domain _) as [domain |] eqn:Hd; [| done].
    simpl in Hrun. simplify_eq. split; [split |].
    + intros i t'. rewrite fmap_app. simpl. intros Hi.
      apply lookup_app_Some in Hi as [Hi | [Hge Hi]]; [by apply Hids |].
      rewrite length_fmap in Hge, Hi.
      apply list_lookup_singleton_Some in Hi as [Hi <-]. simpl. lia.
    + apply Forall_app. split; [done |]. apply Forall_singleton.
      unfold well_loaded. simpl. by rewrite !strip_idem.
    + rewrite fmap_app. f_equal. by rewrite kept_urls_keep.
Qed.

Lemma load_window_ok (w : Window J) ts acc acc' :
  loaded_ok acc → for_each ts (load_tab w) acc = Some acc' →
  loaded_ok acc' ∧ url_of <$> acc' = (url_of <$> acc) ++ kept_urls ts.
Proof.
  revert acc. induction ts as [| t ts IH]; intros acc Hok Hrun; simpl in Hrun.
  - simplify_eq. split; [done |]. by rewrite app_nil_r.
  - destruct (load_tab w acc t) as [acc1 |] eqn:Ht; [| done]. simpl in Hrun.
    destruct (load_tab_ok _ _ _ _ Hok Ht) as [Hok1 Hu1].
    destruct (IH _ Hok1 Hrun) as [Hok' Hu'].
    split; [done |].
    rewrite Hu', Hu1, <- app_assoc, <- kept_urls_app. done.
Qed.

Lemma load_windows_ok (data : list (Window J)) acc acc' :
  loaded_ok acc →
  for_each data (λ tabs w, for_each (window_tabs w) (load_tab w) tabs) acc = Some acc' →
  loaded_ok acc' ∧ url_of <$> acc' = (url_of <$> acc) ++ kept_urls (all_tabs data).
Proof.
  revert acc. induction data as [| w data IH]; intros acc Hok Hrun; simpl in Hrun.
  - simplify_eq. split; [done |]. by rewrite app_nil_r.
  - destruct (for_each (window_tabs w) (load_tab w) acc) as [acc1 |] eqn:Hw; [| done].
    simpl in Hrun.
    destruct (load_window_ok _ _ _ _ Hok Hw) as [Hok1 Hu1].
    destruct (IH _ Hok1 Hrun) as [Hok' Hu'].
    split; [done |].
    unfold all_tabs. rewrite fmap_cons. simpl. fold (all_tabs data).
    rewrite Hu', Hu1, <- app_assoc, <- kept_urls_app. done.
Qed.

(** A URL on which both calls of the loop body return. *)
Definition loads (u : string) : Prop :=
  is_Some (canonicalize_url_call u) ∧ is_Some (normalize_domain u).

Lemma load_window_returns (w : Window J) ts acc :
  is_Some (for_each ts (load_tab w) acc) ↔ Forall loads (kept_urls ts).
Proof.
  revert acc. induction ts as [| t ts IH]; intros acc; simpl.
  - split; [intros _; constructor | by eexists].
  - change (t :: ts) with ([t] ++ ts). rewrite kept_urls_app. rewrite Forall_app.
    destruct (decide (strip (default "" (raw_url t)) = "")) as [He | Hne].
    + rewrite load_tab_skip, kept_urls_skip by done. simpl. rewrite IH.
      split; [by split | by intros [_ ?]].
    + rewrite load_tab_keep, kept_urls_keep by done.
      rewrite Forall_singleton. unfold loads.
      destruct (canonicalize_url_call _) as [canonical_url |]; simpl;
        [| split; [by intros [? ?] | by intros [[[? ?] _] _]]].
      destruct (normalize_domain _) as [domain |]; simpl.
      * rewrite IH. split; [by split; [split; eexists |] | by intros [_ ?]].
      * split; [by intros [? ?] | by intros [[_ [? ?]] _]].
Qed.

Lemma load_windows_returns (data : list (Window J)) acc :
  is_Some (for_each data (λ tabs w, for_each (window_tabs w) (load_tab w) tabs) acc) ↔
  Forall loads (kept_urls (all_tabs data)).
Proof.
  revert acc. induction data as [| w data IH]; intros acc; simpl.
  - split; [intros _; constructor | by eexists].
  - unfold all_tabs. rewrite fmap_cons. simpl. fold (all_tabs data).
    rewrite kept_urls_app, Forall_app, <- (load_window_returns w _ acc).
    destruct (for_each (window_tabs w) (load_tab w) acc) as [acc1 |]; simpl.
    + rewrite IH. split; [by split; [eexists |] | by intros [_ ?]].
    + split; [by intros [? ?] | by intros [[? ?] _]].
Qed.

(** The URLs of the file are ASCII text. *)
Definition ascii_urls (data : list (Window J)) : Prop :=
  Forall (λ t, Utf8.ascii_text (default "" (raw_url t))) (all_tabs data).

Lemma ascii_kept_urls ts :
  Forall (λ t, Utf8.ascii_text (default "" (raw_url t))) ts →
  Forall Utf8.ascii_text (kept_urls ts).
Proof.
  intros Hall. unfold kept_urls.
  apply Forall_forall. intros u [_ Hin]%list_elem_of_filter.
  apply list_elem_of_fmap in Hin as (t & -> & Hin).
  rewrite Forall_forall in Hall. by apply ascii_strip, Hall.
Qed.

(** [load_tabs] (lines 128-154). When it returns, the identifier of a tab
    is its position in the list, the URLs are the non-blank stripped URLs of
    the file in the order of the file, and every tab holds a stripped
    non-empty URL, the canonical form and the domain of that URL, a stripped
    title, and is no duplicate. *)
Theorem load_tabs_positions (data : list (Window J)) tabs :
  load_tabs data = Some tabs →
  ids_positional (loaded_tab <$> tabs) ∧
  Forall well_loaded tabs ∧
  url_of <$> tabs = kept_urls (all_tabs data).
Proof.
  intros Hrun. unfold load_tabs in Hrun.
  apply load_windows_ok in Hrun as [[Hids Hall] Hurls].
  - done.
  - split; [by intros i t Hi | constructor].
Qed.

(** [load_tabs] (lines 136-153) and [normalize_domain] (lines 120-125), on
    a file whose URLs are ASCII text. [load_tabs] raises exactly when
    [urlparse] rejects one of the non-blank URLs of the file:
    [normalize_domain] does not catch the error that [canonicalize_url]
    catches, so one such tab makes the whole load fail. *)
Theorem load_tabs_returns (data : list (Window J)) :
  ascii_urls data →
  is_Some (load_tabs data) ↔
  Forall (λ u, is_Some (Urllib.urlparse u)) (kept_urls (all_tabs data)).
Proof.
  intros Hascii%ascii_kept_urls. unfold load_tabs.
  rewrite load_windows_returns, !Forall_forall.
  rewrite Forall_forall in Hascii.
  split; intros Hall u Hu.
  - apply normalize_domain_is_Some, (Hall u Hu).
  - split; [| by apply normalize_domain_is_Some, Hall].
    pose proof (CallFacts.call_returns u (Hascii u Hu)) as Hcall.
    destruct (Hall u Hu) as [parsed Hp]. rewrite Hp in Hcall.
    destruct Hcall as [_ ->]. by eexists.
Qed.

End Loaded.

Definition sample_windows : list (Window nat) :=
  [ {| window_browser := 1; window_id := 7;
       window_tabs :=
         [ {| raw_url := Some " https://www.example.com/a?utm_source=x ";
              raw_title := Some " A " |};
           {| raw_url := Some "   "; raw_title := Some "blank" |};
           {| raw_url := None; raw_title := None |} ] |};
    {| window_browser := 2; window_id := 8;
       window_tabs :=
         [ {| raw_url := Some "http://b.org:8080/"; raw_title := None |} ] |} ].

Lemma load_tabs_positions_witness :
  ∃ tabs, load_tabs sample_windows = Some tabs ∧
    ids_positional (loaded_tab <$> tabs) ∧
    Forall well_loaded tabs ∧
    url_of <$> tabs = kept_urls (all_tabs sample_windows).
Proof.
  eexists. split; [by vm_compute |].
  apply (load_tabs_positions sample_windows). by vm_compute.
Defined.

Lemma load_tabs_returns_witness :
  ascii_urls sample_windows ∧
  (is_Some (load_tabs sample_windows) ↔
   Forall (λ u, is_Some (Urllib.urlparse u)) (kept_urls (all_tabs sample_windows))).
Proof.
  assert (Hascii : ascii_urls sample_windows).
  { unfold ascii_urls, all_tabs. simpl. by repeat constructor. }
  split; [exact Hascii | exact (load_tabs_returns sample_windows Hascii)].
Defined.

(** One tab whose host is in brackets and is no IP address: [urlparse]
    raises [ValueError], [canonicalize_url] returns the URL as it is, and
    [normalize_domain] lets the exception through. *)
Lemma load_tabs_raises_on_bracketed_host :
  canonicalize_url_call "http://[abc]/" = Some "http://[abc]/" ∧
  normalize_domain "http://[abc]/" = None ∧
  load_tabs [ {| window_browser := 1; window_id := 7;
                 window_tabs :=
                   [ {| raw_url := Some "https://example.com/"; raw_title := None |};
                     {| raw_url := Some "http://[abc]/"; raw_title := None |} ] |} ]
    = None.
Proof. by vm_compute. Qed.

End LoadProps.

(** ** Properties of the text helpers *)
Module TextProps.
Import Str Text CanonShape.

Lemma take_drop_L n s : take n s +:+ drop n s = s.
Proof.
  revert s. induction n as [| n IH]; intros [| a s]; simpl; try done.
  by rewrite append_cons, IH.
Qed.

Lemma len_take n s : len (take n s) = n `min` len s.
Proof.
  revert s. induction n as [| n IH]; intros [| a s]; simpl; try done.
  by rewrite IH.
Qed.

Lemma len_append a b : len (a +:+ b) = len a + len b.
Proof. induction a as [| x a IH]; [done |]. rewrite append_cons. simpl. by rewrite IH. Qed.

Lemma take_all n s : len s ≤ n → take n s = s.
Proof.
  revert s. induction n as [| n IH]; intros [| a s]; simpl; try done; try lia.
  intros Hle. rewrite IH; [done | lia].
Qed.

(** [rfind_from] returns the position of an occurrence. *)
Lemma rfind_from_Some i c s j :
  rfind_from i c s = Some j →
  i ≤ j < i + len s ∧ ∃ rest, s = take (j - i) s +:+ String c rest.
Proof.
  revert i. induction s as [| a s IH]; intros i; simpl; [done |].
  destruct (rfind_from (S i) c s) as [j' |] eqn:Hr.
  - intros [= ->]. destruct (IH _ Hr) as (Hj & rest & Hs).
    split; [lia |]. exists rest.
    replace (j - i) with (S (j - S i)) by lia. simpl.
    by rewrite append_cons, <- Hs.
  - case_bool_decide as Ha; [| done]. intros [= ->]. subst a.
    split; [lia |]. exists s. by rewrite Nat.sub_diag.
Qed.

(** The cut at the last space: the clipped text stays, or it is cut after
    more than 200 characters, right before a space. *)
Lemma cut_at_space clipped :
  let last_space := rfind " " clipped in
  let r := if (200 <? last_space)%Z then slice_to last_space clipped else clipped in
  r = clipped ∨
  (200 < len r < len clipped ∧ ∃ rest, clipped = r +:+ String " " rest).
Proof.
  intros last_space r. subst r last_space. unfold rfind.
  destruct (rfind_from 0 " " clipped) as [j |] eqn:Hr; simpl; [| by left].
  destruct (200 <? Z.of_nat j)%Z eqn:Hj; [| by left]. right.
  apply Z.ltb_lt in Hj.
  apply rfind_from_Some in Hr as (Hlt & rest & Hs).
  rewrite Nat.sub_0_r in Hs.
  unfold slice_to. rewrite (proj2 (Z.leb_le 0 (Z.of_nat j))) by lia.
  rewrite Nat2Z.id, len_take. split; [lia |]. by exists rest.
Qed.

(** [truncate_text] (lines 185-192). With a limit of at least one
    character, [truncate_text] returns a prefix of the text that is no
    longer than the limit. A text within the
    limit is returned whole; a longer one is cut to [max_chars - 1]
    characters, or to fewer but more than 200 where the text goes on with a
    space. *)
Theorem truncate_text_prefix text max_chars :
  (1 ≤ max_chars)%Z →
  let r := truncate_text text max_chars in
  ∃ rest, text = r +:+ rest ∧
    (Z.of_nat (len r) ≤ max_chars)%Z ∧
    ((Z.of_nat (len text) ≤ max_chars)%Z → rest = "") ∧
    ((max_chars < Z.of_nat (len text))%Z →
       Z.of_nat (len r) = (max_chars - 1)%Z ∨
       (200 < len r ∧ ∃ rest', rest = String " " rest')).
Proof.
  intros Hmax r. subst r. unfold truncate_text.
  destruct (Z.of_nat (len text) <=? max_chars)%Z eqn:Hfit.
  - apply Z.leb_le in Hfit. exists "". split; [| split; [done | split; [done | lia]]].
    by rewrite append_nil_r.
  - apply Z.leb_gt in Hfit.
    set (clipped := slice_to (max_chars - 1) text).
    assert (clipped = take (Z.to_nat (max_chars - 1)) text) as Hclip.
    { unfold clipped, slice_to. by rewrite (proj2 (Z.leb_le 0 (max_chars - 1))) by lia. }
    assert (len clipped = Z.to_nat (max_chars - 1)) as Hlen.
    { rewrite Hclip, len_take. lia. }
    assert (text = clipped +:+ drop (Z.to_nat (max_chars - 1)) text) as Htext.
    { by rewrite Hclip, take_drop_L. }
    assert (drop (Z.to_nat (max_chars - 1)) text ≠ "") as Hrest.
    { intros He. rewrite He in Htext.
      apply (f_equal len) in Htext. rewrite len_append in Htext. simpl in Htext. lia. }
    destruct (cut_at_space clipped) as [-> | [Hr (rest & Hcut)]].
    + eexists. split; [exact Htext |]. split; [lia |]. split; [lia |].
      intros _. left. lia.
    + exists (String " " rest +:+ drop (Z.to_nat (max_chars - 1)) text).
      split; [| split; [lia | split; [lia |]]].
      * rewrite <- append_assoc, <- Hcut. exact Htext.
      * intros _. right. split; [lia |]. by eexists.
Qed.

Lemma truncate_text_prefix_witness :
  (1 ≤ 4)%Z ∧
  ∃ rest, "a bc def" = truncate_text "a bc def" 4 +:+ rest ∧
    (Z.of_nat (len (truncate_text "a bc def" 4)) ≤ 4)%Z ∧
    ((Z.of_nat (len "a bc def") ≤ 4)%Z → rest = "") ∧
    ((4 < Z.of_nat (len "a bc def"))%Z →
       Z.of_nat (len (truncate_text "a bc def" 4)) = (4 - 1)%Z ∨
       (200 < len (truncate_text "a bc def" 4) ∧ ∃ rest', rest = String " " rest')).
Proof. split; [lia |]. apply (truncate_text_prefix "a bc def" 4). lia. Defined.

(** [truncate_text] (lines 185-192) with a limit of zero or less does not
    empty the text: the slice [text[: max_chars - 1]] then counts from the
    end, and on a text of at most 201 characters the call removes the last
    [1 - max_chars] characters, so more than [max_chars] characters can
    stay. *)
Theorem truncate_text_nonpositive text max_chars :
  (max_chars ≤ 0)%Z → len text ≤ 201 →
  truncate_text text max_chars = take (len text - Z.to_nat (1 - max_chars)) text.
Proof.
  intros Hmax Hlen. unfold truncate_text.
  destruct (Z.of_nat (len text) <=? max_chars)%Z eqn:Hfit.
  - apply Z.leb_le in Hfit. destruct text; simpl in *; [done | lia].
  - assert (slice_to (max_chars - 1) text
            = take (len text - Z.to_nat (1 - max_chars)) text) as ->.
    { unfold slice_to. rewrite (proj2 (Z.leb_gt 0 (max_chars - 1))) by lia.
      by replace (- (max_chars - 1))%Z with (1 - max_chars)%Z by lia. }
    set (clipped := take _ text).
    destruct (cut_at_space clipped) as [Heq | [Hr _]]; [exact Heq |].
    exfalso. assert (len clipped ≤ 201); [| lia].
    unfold clipped. rewrite len_take. lia.
Qed.

Lemma truncate_text_nonpositive_witness :
  (0 ≤ 0)%Z ∧ len "abc" ≤ 201 ∧ truncate_text "abc" 0 = "ab".
Proof.
  split; [lia |]. split; [simpl; lia |].
  apply (truncate_text_nonpositive "abc" 0); [lia | simpl; lia].
Defined.

End TextProps.

(** ** Properties of the summary cache *)
Module CacheProps.
Import Str.

Section Cache.
Context {A : Type}.
Implicit Types (cache : gmap string A) (entry : A).

Lemma truthy_nonempty s : s ≠ "" → truthy s = true.
Proof. intros Hs. unfold truthy. by rewrite bool_decide_eq_false_2. Qed.

(** The key of the first insertion. *)
Definition cache_key (tab_canonical url : string) : string :=
  if truthy tab_canonical then tab_canonical else canonicalize_url url.

Lemma cache_key_nonempty tab_canonical url : cache_key tab_canonical url ≠ "".
Proof.
  unfold cache_key, truthy. case_bool_decide; simpl; [| done].
  apply CanonShape.canonicalize_url_nonempty.
Qed.

(** What [store_cache_entry] leaves in the cache. *)
Lemma store_cache_entry_lookup cache tab_canonical url entry k :
  store_cache_entry cache tab_canonical url entry !! k =
    if decide (k = cache_key tab_canonical url ∨ k = canonicalize_url url)
    then Some entry else cache !! k.
Proof.
  unfold store_cache_entry. fold (cache_key tab_canonical url).
  rewrite (truthy_nonempty _ (cache_key_nonempty tab_canonical url)).
  rewrite (truthy_nonempty _ (CanonShape.canonicalize_url_nonempty url)). simpl.
  case_bool_decide as Halt; simpl.
  - rewrite Halt. destruct (decide (k = cache_key tab_canonical url)) as [-> | Hne].
    + rewrite lookup_insert_eq. by rewrite decide_True by by left.
    + rewrite lookup_insert_ne by done. by rewrite decide_False by (by intros [? | ?]).
  - destruct (decide (k = canonicalize_url url)) as [-> | Hne].
    + rewrite lookup_insert_eq. by rewrite decide_True by by right.
    + rewrite lookup_insert_ne by done.
      destruct (decide (k = cache_key tab_canonical url)) as [-> | Hne'].
      * rewrite lookup_insert_eq. by rewrite decide_True by by left.
      * rewrite lookup_insert_ne by done. by rewrite decide_False by (by intros [? | ?]).
Qed.

Lemma store_cache_entry_nonempty cache tab_canonical url entry :
  size (store_cache_entry cache tab_canonical url entry) ≠ 0.
Proof.
  intros Hsize. apply map_size_empty_iff in Hsize.
  pose proof (store_cache_entry_lookup cache tab_canonical url entry
                (canonicalize_url url)) as Hl.
  rewrite Hsize, lookup_empty, decide_True in Hl by by right. done.
Qed.

(** [get_cache_entry] (lines 559-565) after the update of the cache in
    [main] (lines 754-769). An entry stored for a tab is the one a later
    lookup of the tab's URL returns, when the cache held nothing under the
    raw URL; the key returned is the raw URL or its canonical form. *)
Theorem cache_store_then_get cache tab_canonical url entry :
  cache !! url = None →
  ∃ key, get_cache_entry (store_cache_entry cache tab_canonical url entry) url
           = (Some entry, Some key) ∧
         (key = url ∨ key = canonicalize_url url).
Proof.
  intros Hnone. unfold get_cache_entry.
  rewrite decide_False by apply store_cache_entry_nonempty.
  rewrite !store_cache_entry_lookup.
  rewrite (decide_True (P := canonicalize_url url = _ ∨ _)) by by right.
  case_decide.
  - exists url. split; [done | by left].
  - rewrite Hnone. exists (canonicalize_url url). split; [done | by right].
Qed.

(** [get_cache_entry] (lines 559-565) tries the raw URL first: an entry
    the cache already holds under the raw URL shadows the entry that [main]
    (lines 754-769) has just stored, when the raw URL is neither key of
    that store. *)
Theorem cache_raw_url_shadows cache tab_canonical url entry old :
  cache !! url = Some old →
  url ≠ canonicalize_url url →
  url ≠ tab_canonical →
  get_cache_entry (store_cache_entry cache tab_canonical url entry) url
    = (Some old, Some url).
Proof.
  intros Hold Hraw Htab. unfold get_cache_entry.
  rewrite decide_False by apply store_cache_entry_nonempty.
  rewrite store_cache_entry_lookup, decide_False, Hold; [done |].
  unfold cache_key. destruct (truthy tab_canonical); by intros [? | ?].
Qed.

End Cache.

Definition sample_cache : gmap string nat :=
  {[ "https://example.com/a?utm_source=x" := 1 ]}.

Lemma cache_store_then_get_witness :
  (∅ : gmap string nat) !! "https://example.com/a?utm_source=x" = None ∧
  ∃ key,
    get_cache_entry
      (store_cache_entry (∅ : gmap string nat) "https://example.com/a"
         "https://example.com/a?utm_source=x" 2)
      "https://example.com/a?utm_source=x" = (Some 2, Some key) ∧
    (key = "https://example.com/a?utm_source=x" ∨
     key = canonicalize_url "https://example.com/a?utm_source=x").
Proof.
  split; [done |].
  apply (cache_store_then_get ∅ "https://example.com/a"
           "https://example.com/a?utm_source=x" 2). done.
Defined.

Lemma cache_raw_url_shadows_witness :
  get_cache_entry
    (store_cache_entry sample_cache "https://example.com/a"
       "https://example.com/a?utm_source=x" 2)
    "https://example.com/a?utm_source=x"
  = (Some 1, Some "https://example.com/a?utm_source=x").
Proof.
  apply (cache_raw_url_shadows sample_cache "https://example.com/a"
           "https://example.com/a?utm_source=x" 2 1).
  - done.
  - by vm_compute.
  - done.
Defined.

End CacheProps.

(** ** Properties of the tokenizer and of the keyword extraction *)
Module TokenProps.
Import Str Text CanonShape TextProps.

(** *** Tokens *)

Definition starts_space (s : string) : bool :=
  match s with
  | String b _ => is_space b
  | EmptyString => true
  end.

(** A word character begins a piece, or goes in front of the first one. *)
Definition cons_word (c : ascii) (starts : bool) (pieces : list string) : list string :=
  if starts then String c "" :: pieces
  else match pieces with
       | w :: ws => String c w :: ws
       | [] => [String c ""]
       end.

Lemma split_ws_cons c s :
  is_space c = false →
  split_ws (String c s) = cons_word c (starts_space s) (split_ws s).
Proof.
  intros Hc. simpl. rewrite Hc. destruct s as [| b s']; [done |].
  unfold cons_word, starts_space. by destruct (is_space b) eqn:Hb.
Qed.

Lemma split_ws_space c s : is_space c = true → split_ws (String c s) = split_ws s.
Proof. intros Hc. simpl. by rewrite Hc. Qed.

Lemma split_ws_nonempty s : starts_space s = false → split_ws s ≠ [].
Proof.
  destruct s as [| b s']; [done |]. simpl. intros ->.
  destruct s' as [| b' s'']; [done |].
  destruct (is_space b'); [done |]. by destruct (split_ws _).
Qed.

Lemma is_word_char_not_space c : is_word_char c = true → is_space c = false.
Proof.
  unfold is_word_char, is_space, is_lower, is_digit, between.
  generalize (code c). intros n.
  rewrite !orb_true_iff, !andb_true_iff, !Nat.leb_le.
  intros Hw. apply orb_false_iff. split; apply andb_false_iff;
    rewrite !Nat.leb_gt; lia.
Qed.

(** The pieces of a text made of characters of [P] and of white space are
    made of characters of [P]. *)
Lemma split_ws_chars (P : ascii → bool) s :
  all_chars (λ c, P c || is_space c) s = true →
  Forall (λ w, all_chars P w = true) (split_ws s).
Proof.
  induction s as [| a s IH]; [constructor |].
  cbn [all_chars]. intros [Ha Hs]%andb_true_iff. specialize (IH Hs).
  destruct (is_space a) eqn:Hsp.
  - by rewrite split_ws_space.
  - rewrite split_ws_cons by done. rewrite orb_false_r in Ha.
    unfold cons_word. destruct (starts_space s).
    + constructor; [simpl; by rewrite Ha | done].
    + destruct (split_ws s) as [| w ws].
      * constructor; [simpl; by rewrite Ha | done].
      * inversion IH; subst. constructor; [simpl; by rewrite Ha | done].
Qed.

Lemma sub_other_chars r s :
  all_chars (λ c, is_word_char c || is_space c) (sub_other r s) = true.
Proof.
  revert r. induction s as [| c s IH]; intros r; [done |]. simpl.
  destruct (is_word_char c) eqn:Hc.
  - simpl. by rewrite Hc, IH.
  - destruct r; [apply IH |]. simpl. by rewrite IH.
Qed.

(** The state of the run does not change the pieces. *)
Lemma split_ws_sub_other r s :
  split_ws (sub_other r s) = split_ws (sub_other false s).
Proof.
  destruct s as [| c s]; [done |]. simpl.
  destruct (is_word_char c); [done |]. destruct r; [| done].
  by rewrite split_ws_space.
Qed.

Lemma starts_space_sub_other a b :
  starts_space (sub_other false (a +:+ String " " b)) =
  starts_space (sub_other false a).
Proof.
  destruct a as [| c a]; [done |]. rewrite append_cons. simpl.
  by destruct (is_word_char c).
Qed.

Lemma split_ws_sub_other_app a b r :
  split_ws (sub_other r (a +:+ String " " b)) =
  split_ws (sub_other r a) ++ split_ws (sub_other false b).
Proof.
  revert r. induction a as [| c a IH]; intros r.
  - rewrite append_nil_l. rewrite split_ws_sub_other. simpl.
    apply split_ws_sub_other.
  - rewrite append_cons. cbn [sub_other].
    destruct (is_word_char c) eqn:Hc.
    + rewrite !split_ws_cons by by apply is_word_char_not_space.
      rewrite starts_space_sub_other, IH.
      unfold cons_word. destruct (starts_space (sub_other false a)) eqn:Hst; [done |].
      pose proof (split_ws_nonempty _ Hst) as Hne.
      by destruct (split_ws (sub_other false a)).
    + destruct r; [apply IH |].
      rewrite !split_ws_space by done. apply IH.
Qed.

Lemma lower_app a b : lower (a +:+ b) = lower a +:+ lower b.
Proof.
  induction a as [| c a IH]; [done |].
  rewrite append_cons. simpl. by rewrite append_cons, IH.
Qed.

(** [tokenize] (lines 284-288). Every token has at least three characters,
    all of [[a-z0-9]], and is no stop word; the case of the text does not
    matter. *)
Theorem tokenize_tokens text :
  Forall (λ t, 3 ≤ len t ∧ (t ∉ STOPWORDS) ∧ all_chars is_word_char t = true)
         (tokenize text) ∧
  tokenize (lower text) = tokenize text.
Proof.
  split.
  - unfold tokenize. apply Forall_forall. intros t Ht.
    apply list_elem_of_filter in Ht as [[Hlen Hstop] Ht].
    split; [done |]. split; [done |].
    pose proof (split_ws_chars is_word_char _ (sub_other_chars false (lower text))) as Hall.
    rewrite Forall_forall in Hall. by apply Hall.
  - unfold tokenize. by rewrite CanonFacts.lower_idem.
Qed.

(** [tokenize] (lines 284-288) works text by text: the tokens of two texts
    joined by a space, as [main] joins the title and the summary, are the
    tokens of the first followed by the tokens of the second. *)
Theorem tokenize_joined a b :
  tokenize (a +:+ " " +:+ b) = tokenize a ++ tokenize b.
Proof.
  unfold tokenize. rewrite lower_app. 
  change (lower (" " +:+ b)) with (String " " (lower b)).
  by rewrite split_ws_sub_other_app, filter_app.
Qed.

End TokenProps.

(** ** Properties of the keyword extraction *)
Module KeywordProps.
Import Str Text.

Section Counting.
Context {K : Type} `{EqDecision K}.
Implicit Types (k : K) (counts : list (K * nat)) (items : list K).

(** The number of occurrences of [k]. *)
Definition occ (k : K) (items : list K) : nat := length (filter (λ x, x = k) items).

Lemma occ_snoc k items x :
  occ k (items ++ [x]) = occ k items + (if decide (x = k) then 1 else 0).
Proof.
  unfold occ. rewrite filter_app, length_app. f_equal.
  rewrite filter_cons. by destruct (decide (x = k)).
Qed.

Lemma occ_pos k items : 0 < occ k items ↔ k ∈ items.
Proof.
  unfold occ. split.
  - intros Hpos. destruct (filter (λ x, x = k) items) as [| y l] eqn:Hf; [simpl in Hpos; lia |].
    assert (y ∈ filter (λ x, x = k) items) as Hy by (rewrite Hf; by left).
    apply list_elem_of_filter in Hy as [-> Hy]. done.
  - intros Hin.
    assert (k ∈ filter (λ x, x = k) items) as Hk by (by apply list_elem_of_filter).
    destruct (filter (λ x, x = k) items); [by apply elem_of_nil in Hk | simpl; lia].
Qed.

Lemma count_up_keys k counts :
  (count_up k counts).*1 = if decide (k ∈ counts.*1) then counts.*1 else counts.*1 ++ [k].
Proof.
  induction counts as [| [k0 n0] counts IH]; [done |].
  cbn [count_up]. rewrite (fmap_cons fst (k0, n0)). cbn [fst].
  destruct (decide (k0 = k)) as [-> | Hne].
  - rewrite fmap_cons. cbn [fst]. rewrite decide_True; [done | by left].
  - rewrite fmap_cons, IH. cbn [fst].
    destruct (decide (k ∈ counts.*1)) as [Hin | Hnin].
    + rewrite decide_True; [done | by right].
    + rewrite decide_False; [done |].
      intros [? | ?]%elem_of_cons; [by subst | done].
Qed.

Lemma count_up_elem k counts k' n' :
  NoDup counts.*1 →
  (k', n') ∈ count_up k counts ↔
    (k' ≠ k ∧ (k', n') ∈ counts) ∨
    (k' = k ∧ ((∃ n, (k, n) ∈ counts ∧ n' = S n) ∨ ((k ∉ counts.*1) ∧ n' = 1))).
Proof.
  induction counts as [| [k0 n0] counts IH]; cbn [count_up]; intros Hnd.
  - split.
    + intros [= -> ->]%list_elem_of_singleton. right. split; [done |]. right.
      split; [| done]. by intros ?%elem_of_nil.
    + intros [[_ Hin] | [-> [(n & Hin & _) | [_ ->]]]].
      * by apply elem_of_nil in Hin.
      * by apply elem_of_nil in Hin.
      * by apply list_elem_of_singleton.
  - rewrite fmap_cons in Hnd |- *. cbn [fst] in Hnd |- *.
    apply NoDup_cons in Hnd as [Hk0 Hnd]. specialize (IH Hnd).
    assert (∀ n, (k0, n) ∉ counts) as Hk0'.
    { intros n Hin. apply Hk0. apply list_elem_of_fmap. by exists (k0, n). }
    destruct (decide (k0 = k)) as [-> | Hne].
    + split.
      * intros [Heq | Hin]%elem_of_cons.
        -- injection Heq as -> ->. right. split; [done |]. left.
           exists n0. split; [by left | done].
        -- left. split; [| by right]. intros ->. by apply (Hk0' n').
      * intros [[Hne Hin] | [-> Hk]].
        -- apply elem_of_cons in Hin as [Heq | Hin]; [by injection Heq as -> -> |].
           by right.
        -- destruct Hk as [(n & Hin & ->) | [Hnin _]].
           ++ apply elem_of_cons in Hin as [Heq | Hin].
              ** injection Heq as ->. by left.
              ** by apply Hk0' in Hin.
           ++ exfalso. apply Hnin. by left.
    + split.
      * intros [Heq | Hin]%elem_of_cons.
        -- injection Heq as -> ->. left. split; [done | by left].
        -- apply IH in Hin as [[Hk' Hin] | [-> Hk]].
           ++ left. split; [done | by right].
           ++ right. split; [done |].
              destruct Hk as [(n & Hin & ->) | [Hnin ->]].
              ** left. exists n. split; [by right | done].
              ** right. split; [| done].
                 intros [? | ?]%elem_of_cons; [by subst | done].
      * intros [[Hk' Hin] | [-> Hk]].
        -- apply elem_of_cons in Hin as [Heq | Hin]; [rewrite Heq; by left |].
           right. apply IH. by left.
        -- right. apply IH. right. split; [done |].
           destruct Hk as [(n & Hin & ->) | [Hnin ->]].
           ++ apply elem_of_cons in Hin as [Heq | Hin]; [by injection Heq as -> |].
              left. by exists n.
           ++ right. split; [| done]. intros Hin. apply Hnin. by right.
Qed.

Lemma Counter_snoc items x : Counter (items ++ [x]) = count_up x (Counter items).
Proof. unfold Counter. by rewrite foldl_snoc. Qed.

(** [Counter] holds every item once, with the number of its occurrences. *)
Lemma Counter_spec items :
  NoDup (Counter items).*1 ∧
  ∀ k n, (k, n) ∈ Counter items ↔ (n = occ k items ∧ 0 < n).
Proof.
  induction items as [| x items [Hnd IH]] using rev_ind.
  - split; [constructor |]. intros k n. split; [by intros ?%elem_of_nil |].
    intros [-> Hpos]. unfold occ in Hpos. simpl in Hpos. lia.
  - rewrite Counter_snoc. split.
    + rewrite count_up_keys. case_decide as Hin; [done |].
      apply NoDup_app. split; [done |]. split; [| apply NoDup_singleton].
      intros k Hk ->%list_elem_of_singleton. done.
    + intros k n. rewrite count_up_elem by done. rewrite occ_snoc.
      assert (x ∉ (Counter items).*1 ↔ occ x items = 0) as Hx.
      { split.
        - intros Hnin. destruct (occ x items) as [| m] eqn:Hm; [done |].
          exfalso. apply Hnin. apply list_elem_of_fmap. exists (x, S m).
          split; [done |]. apply IH. split; [done | lia].
        - intros Hz [[k' m] [Heq Hin]]%list_elem_of_fmap. simpl in Heq. subst k'.
          apply IH in Hin as [-> Hpos]. lia. }
      split.
      * intros [[Hne Hin] | [-> [(m & Hin & ->) | [Hnin ->]]]].
        -- apply IH in Hin as [-> Hpos]. rewrite decide_False by done. lia.
        -- apply IH in Hin as [-> Hpos]. rewrite decide_True by done. lia.
        -- apply Hx in Hnin. rewrite decide_True by done. lia.
      * intros [-> Hpos]. destruct (decide (x = k)) as [-> | Hne].
        -- right. split; [done |].
           destruct (occ k items) as [| m] eqn:Hm.
           ++ right. split; [by apply Hx | done].
           ++ left. exists (S m). split; [| lia]. apply IH. split; [done | lia].
        -- left. split; [done |]. apply IH. split; lia.
Qed.

Lemma Counter_keys items k : k ∈ (Counter items).*1 ↔ k ∈ items.
Proof.
  destruct (Counter_spec items) as [_ Hc]. split.
  - intros [[k' n] [Heq Hin]]%list_elem_of_fmap. simpl in Heq. subst k'.
    apply occ_pos. by apply Hc in Hin as [-> ?].
  - intros Hpos%occ_pos. apply list_elem_of_fmap. exists (k, occ k items).
    split; [done |]. by apply Hc.
Qed.

(** *** The descending sort *)

Definition by_count (a b : K * nat) : Prop := b.2 ≤ a.2.

Lemma insert_by_count_perm (x : K * nat) l : insert_by_count x l ≡ₚ x :: l.
Proof.
  induction l as [| y l IH]; simpl; [done |].
  destruct (x.2 <=? y.2); [| done]. rewrite IH. apply perm_swap.
Qed.

Lemma insert_by_count_sorted (x : K * nat) l :
  StronglySorted by_count l → StronglySorted by_count (insert_by_count x l).
Proof.
  induction 1 as [| y l Hs IH Hall]; simpl.
  - repeat constructor.
  - destruct (x.2 <=? y.2) eqn:Hle.
    + apply Nat.leb_le in Hle. constructor; [done |].
      rewrite insert_by_count_perm. constructor; [done | done].
    + apply Nat.leb_gt in Hle. constructor; [by constructor |].
      constructor; [unfold by_count; lia |].
      eapply Forall_impl; [exact Hall |]. unfold by_count. simpl. intros z Hz. lia.
Qed.

Lemma sort_by_count_spec (l : list (K * nat)) :
  sort_by_count l ≡ₚ l ∧ StronglySorted by_count (sort_by_count l).
Proof.
  unfold sort_by_count. induction l as [| x l [Hp Hs]] using rev_ind.
  - split; [done | constructor].
  - rewrite foldl_snoc. split.
    + rewrite insert_by_count_perm, Hp. by rewrite Permutation_app_comm.
    + by apply insert_by_count_sorted.
Qed.

Lemma sorted_lookup {B : Type} (R : relation B) (l : list B) i j a b :
  StronglySorted R l → l !! i = Some a → l !! j = Some b → i < j → R a b.
Proof.
  intros Hs Ha Hb Hlt. rewrite <- (take_drop j l) in Hs.
  eapply StronglySorted_app_1_elem_of; [exact Hs | |].
  - apply list_elem_of_lookup. exists i. by rewrite lookup_take_lt.
  - apply list_elem_of_lookup. exists 0. by rewrite lookup_drop, Nat.add_0_r.
Qed.

End Counting.

(** The number of occurrences of a token in the text. *)
Definition frequency (text token : string) : nat := occ token (tokenize text).

(** [extract_keywords] (lines 314-317) returns the [max_keywords] most
    frequent tokens of
    the text, or all distinct tokens when there are fewer, and none for a
    bound of zero or less: no keyword is repeated, each is a token, they
    come by decreasing frequency, and no token left out is more frequent
    than a keyword. *)
Theorem extract_keywords_most_frequent text max_keywords :
  let keywords := extract_keywords text max_keywords in
  NoDup keywords ∧
  length keywords = Z.to_nat max_keywords `min` length (remove_dups (tokenize text)) ∧
  (∀ k, k ∈ keywords → k ∈ tokenize text) ∧
  (∀ i j a b, keywords !! i = Some a → keywords !! j = Some b → i ≤ j →
     frequency text b ≤ frequency text a) ∧
  (∀ a b, a ∈ keywords → b ∈ tokenize text → b ∉ keywords →
     frequency text b ≤ frequency text a).
Proof.
  intros keywords. subst keywords. unfold extract_keywords, most_common, frequency.
  set (tokens := tokenize text).
  destruct (Counter_spec tokens) as [Hnd Hc].
  destruct (sort_by_count_spec (Counter tokens)) as [Hperm Hsorted].
  assert (length (Counter tokens) = length (remove_dups tokens)) as Hlen.
  { rewrite <- (length_fmap fst). apply Permutation_length.
    apply NoDup_Permutation; [done | apply NoDup_remove_dups |].
    intros k. by rewrite Counter_keys, elem_of_remove_dups. }
  destruct (max_keywords <=? 0)%Z eqn:Hmax.
  - apply Z.leb_le in Hmax. replace (Z.to_nat max_keywords) with 0 by lia. simpl.
    split; [constructor |]. split; [done |].
    split; [by intros k ?%elem_of_nil |].
    split; [by intros i j a b ? |]. by intros a b ?%elem_of_nil.
  - set (n := Z.to_nat max_keywords). set (sorted := sort_by_count (Counter tokens)) in *.
    assert (NoDup sorted.*1) as Hnd' by (by rewrite Hperm).
    assert (∀ k m, (k, m) ∈ sorted → m = occ k tokens ∧ k ∈ tokens) as Hin.
    { intros k m Hk. rewrite Hperm in Hk. apply Hc in Hk as [-> Hpos].
      split; [done | by apply occ_pos]. }
    rewrite <- (take_drop n sorted) in Hsorted, Hnd', Hin.
    rewrite fmap_app in Hnd'. apply NoDup_app in Hnd' as (Hnd1 & Hdisj & _).
    apply StronglySorted_app in Hsorted as (Hs12 & Hs1 & _).
    split; [done |]. split.
    { by rewrite length_fmap, length_take, Hperm, Hlen. }
    split.
    { intros k [[k' m] [Heq Hk]]%list_elem_of_fmap. simpl in Heq. subst k'.
      eapply Hin. apply elem_of_app. by left. }
    split.
    { intros i j a b Ha Hb Hij.
      apply list_lookup_fmap_Some in Ha as ([a' ma] & Heq & Ha). simpl in Heq. subst a'.
      apply list_lookup_fmap_Some in Hb as ([b' mb] & Heq & Hb). simpl in Heq. subst b'.
      destruct (Hin a ma) as [-> _]; [apply elem_of_app; left; by eapply list_elem_of_lookup_2 |].
      destruct (Hin b mb) as [-> _]; [apply elem_of_app; left; by eapply list_elem_of_lookup_2 |].
      destruct (decide (i = j)) as [-> | Hne]; [by simplify_eq |].
      assert (i < j) as Hlt by lia.
      exact (sorted_lookup _ _ _ _ _ _ Hs1 Ha Hb Hlt). }
    intros a b Ha Hb Hnb.
    apply list_elem_of_fmap in Ha as ([a' ma] & Heq & Ha). simpl in Heq. subst a'.
    assert ((b, occ b tokens) ∈ sorted) as Hb'.
    { rewrite Hperm. apply Hc. split; [done | by apply occ_pos]. }
    rewrite <- (take_drop n sorted) in Hb'. apply elem_of_app in Hb' as [Hb' | Hb'].
    { exfalso. apply Hnb. apply list_elem_of_fmap. by exists (b, occ b tokens). }
    destruct (Hin a ma) as [-> _]; [apply elem_of_app; by left |].
    exact (Hs12 _ _ Ha Hb').
Qed.

End KeywordProps.

(** ** Properties of the fingerprint and of its distance *)
Module FingerprintProps.
Import FingerprintFacts.

(** *** The fingerprint takes a majority vote on every bit *)
Section Majority.
Variable token_hash : string → Z.

(** The tokens with bit [i] set in their hash, minus those without. *)
Definition votes (i : nat) (tokens : list string) : Z :=
  foldr (λ t acc, (delta (token_hash t) i + acc)%Z) 0%Z tokens.

Lemma votes_app i l1 l2 : votes i (l1 ++ l2) = (votes i l1 + votes i l2)%Z.
Proof.
  unfold votes. induction l1 as [| t l1 IH]; simpl; [done |]. rewrite IH. lia.
Qed.

Lemma voted_lookup tokens : ∀ v j,
  j < 64 →
  foldl (vote_token token_hash) v tokens !! j =
    (λ s, s + votes j tokens)%Z <$> v !! j.
Proof.
  induction tokens as [| t tokens IH]; intros v j Hj; unfold votes; simpl.
  - destruct (v !! j) as [s |]; simpl; [f_equal; lia | done].
  - rewrite IH, vote_token_lookup, decide_True by done. unfold votes.
    destruct (v !! j) as [s |]; simpl; [f_equal; lia | done].
Qed.

Lemma voted_replicate tokens i :
  foldl (vote_token token_hash) (replicate 64 0%Z) tokens !! i =
    if decide (i < 64) then Some (votes i tokens) else None.
Proof.
  destruct (decide (i < 64)) as [Hi | Hi].
  - by rewrite voted_lookup, lookup_replicate_2.
  - apply lookup_ge_None_2. rewrite votes_length, length_replicate. lia.
Qed.

Lemma shifted_bit (k : nat) (n : Z) :
  (0 ≤ n)%Z → Z.testbit (Z.shiftl 1 (Z.of_nat k)) n = bool_decide (Z.of_nat k = n).
Proof.
  intros Hn. rewrite Z.shiftl_1_l, Z.pow2_bits_eqb by lia.
  case_bool_decide; [by apply Z.eqb_eq | by apply Z.eqb_neq].
Qed.

(** The bits [set_bit] leaves in the value, for the entries of
    [enumerate(vector)] numbered from [k]. *)
Lemma set_bits_testbit (v : list Z) : ∀ (k : nat) (value : Z) (i : nat),
  Z.testbit (foldl set_bit value (imap (λ j s, (k + j, s)) v)) (Z.of_nat i) =
    Z.testbit value (Z.of_nat i) ||
    match (if decide (k ≤ i) then v !! (i - k) else None) with
    | Some s => (0 <? s)%Z
    | None => false
    end.
Proof.
  induction v as [| s v IH]; intros k value i.
  - simpl. destruct (decide (k ≤ i)); by rewrite orb_false_r.
  - cbn [imap foldl].
    rewrite (imap_ext _ (λ j s', (S k + j, s'))) by (intros; simpl; f_equal; lia).
    rewrite IH. rewrite Nat.add_0_r.
    assert (Z.testbit (set_bit value (k, s)) (Z.of_nat i)
            = Z.testbit value (Z.of_nat i) || (bool_decide (k = i) && (0 <? s)%Z)) as ->.
    { unfold set_bit. simpl. destruct (0 <? s)%Z.
      - rewrite Z.lor_spec, shifted_bit by lia. f_equal.
        rewrite andb_true_r. apply bool_decide_ext. lia.
      - by rewrite andb_false_r, orb_false_r. }
    rewrite <- orb_assoc. f_equal.
    destruct (decide (k = i)) as [-> | Hne].
    + rewrite bool_decide_eq_true_2 by done.
      rewrite decide_False, decide_True by lia.
      rewrite Nat.sub_diag. simpl. by rewrite orb_false_r.
    + rewrite bool_decide_eq_false_2 by done. simpl.
      destruct (decide (S k ≤ i)) as [Hle | Hgt].
      * rewrite decide_True by lia.
        replace (i - k) with (S (i - S k)) by lia. done.
      * rewrite (decide_False (P := k ≤ i)) by lia. done.
Qed.

Lemma vector_value_testbit (v : list Z) (i : nat) :
  Z.testbit (vector_value v) (Z.of_nat i) =
    match v !! i with Some s => (0 <? s)%Z | None => false end.
Proof.
  unfold vector_value.
  rewrite (imap_ext _ (λ j s, (0 + j, s)) v) by done.
  rewrite set_bits_testbit, Z.bits_0, decide_True, Nat.sub_0_r by lia. done.
Qed.

Lemma simhash_bits tokens value (i : nat) :
  simhash_from_tokens token_hash tokens = Some value →
  Z.testbit value (Z.of_nat i) = bool_decide (i < 64) && (0 <? votes i tokens)%Z.
Proof.
  intros Hv. destruct tokens as [| t l]; [done |].
  assert (value = vector_value
            (foldl (vote_token token_hash) (replicate 64 0%Z) (t :: l))) as ->.
  { by injection Hv. }
  rewrite vector_value_testbit, voted_replicate.
  destruct (decide (i < 64)) as [Hi | Hi].
  - by rewrite bool_decide_eq_true_2.
  - by rewrite bool_decide_eq_false_2.
Qed.

Lemma simhash_range tokens value :
  simhash_from_tokens token_hash tokens = Some value → (0 ≤ value < 2 ^ 64)%Z.
Proof.
  intros Hv. destruct tokens as [| t l]; [done |].
  assert (value = vector_value
            (foldl (vote_token token_hash) (replicate 64 0%Z) (t :: l))) as ->.
  { by injection Hv. }
  apply vector_value_range. by rewrite votes_length, length_replicate.
Qed.

(** Two fingerprints with the same votes are the same value. *)
Lemma simhash_ext tokens tokens' value value' :
  simhash_from_tokens token_hash tokens = Some value →
  simhash_from_tokens token_hash tokens' = Some value' →
  (∀ i, i < 64 → (0 <? votes i tokens)%Z = (0 <? votes i tokens')%Z) →
  value = value'.
Proof.
  intros Hv Hv' Hvotes. apply Z.bits_inj'. intros n Hn.
  rewrite <- (Z2Nat.id n) by done.
  rewrite (simhash_bits _ _ _ Hv), (simhash_bits _ _ _ Hv').
  case_bool_decide; [| done]. simpl. by apply Hvotes.
Qed.

(** [simhash_from_tokens] (lines 291-307) takes a majority vote on every
    bit. Bit [i] of the fingerprint is set exactly when [i] is below 64 and
    more tokens of the list, counted with their repetitions, have bit [i]
    of their hash set than not; a tie leaves the bit clear. *)
Theorem simhash_from_tokens_majority tokens value (i : nat) :
  simhash_from_tokens token_hash tokens = Some value →
  Z.testbit value (Z.of_nat i) = bool_decide (i < 64) && (0 <? votes i tokens)%Z.
Proof. apply simhash_bits. Qed.

(** [simhash_from_tokens] (lines 291-307): repeating the whole token list
    does not change the fingerprint. *)
Theorem simhash_from_tokens_repeated tokens :
  simhash_from_tokens token_hash (tokens ++ tokens) =
  simhash_from_tokens token_hash tokens.
Proof.
  destruct tokens as [| t l]; [done |].
  destruct (simhash_from_tokens token_hash ((t :: l) ++ t :: l)) as [v |] eqn:Hv; [| done].
  destruct (simhash_from_tokens token_hash (t :: l)) as [v' |] eqn:Hv'; [| done].
  f_equal. eapply simhash_ext; [done | done |].
  intros i Hi. rewrite votes_app.
  destruct (0 <? votes i (t :: l))%Z eqn:Hs.
  - apply Z.ltb_lt in Hs. apply Z.ltb_lt. lia.
  - apply Z.ltb_ge in Hs. apply Z.ltb_ge. lia.
Qed.

(** The fingerprint of a single token is the low 64 bits of its hash. *)
Lemma simhash_from_tokens_single token :
  simhash_from_tokens token_hash [token] =
    Some (Z.land (token_hash token) (Z.ones 64)).
Proof.
  destruct (simhash_from_tokens token_hash [token]) as [v |] eqn:Hv; [| done].
  f_equal. apply Z.bits_inj'. intros n Hn.
  rewrite <- (Z2Nat.id n) by done.
  rewrite (simhash_bits _ _ _ Hv), Z.land_spec. simpl. unfold delta.
  case_bool_decide as Hi.
  - rewrite Z.ones_spec_low by lia. rewrite andb_true_r. simpl.
    by destruct (Z.testbit (token_hash token) (Z.of_nat (Z.to_nat n))).
  - rewrite Z.ones_spec_high by lia. by rewrite andb_false_r.
Qed.

End Majority.

Lemma simhash_from_tokens_majority_witness :
  ∃ value, simhash_from_tokens sample_hash ["rust"; "borrow"; "checker"] = Some value ∧
    Z.testbit value (Z.of_nat 4) =
      bool_decide (4 < 64) && (0 <? votes sample_hash 4 ["rust"; "borrow"; "checker"])%Z.
Proof.
  eexists. split; [by vm_compute |].
  apply (simhash_from_tokens_majority sample_hash ["rust"; "borrow"; "checker"]).
  by vm_compute.
Defined.

(** *** The distance *)

Lemma pos_bit_count_pos p : 0 < pos_bit_count p.
Proof. induction p; simpl; lia. Qed.

Lemma bit_count_zero z : bit_count z = 0 ↔ z = 0%Z.
Proof.
  destruct z as [| p | p]; simpl; [done | |];
    pose proof (pos_bit_count_pos p); split; (lia || done).
Qed.

Definition N_bit_count (n : N) : nat :=
  match n with
  | N0 => 0
  | Npos p => pos_bit_count p
  end.

Lemma N_bit_count_double n : N_bit_count (Pos.Ndouble n) = N_bit_count n.
Proof. by destruct n. Qed.

Lemma N_bit_count_succ_double n : N_bit_count (Pos.Nsucc_double n) = S (N_bit_count n).
Proof. by destruct n. Qed.

Lemma pos_lxor_bit_count p : ∀ q,
  N_bit_count (Pos.lxor p q) ≤ pos_bit_count p + pos_bit_count q.
Proof.
  induction p as [p IH | p IH |]; intros [q | q |];
    unfold Pos.lxor; fold Pos.lxor; simpl;
    rewrite ?N_bit_count_double, ?N_bit_count_succ_double;
    try specialize (IH q); lia.
Qed.

Lemma bit_count_of_N n : bit_count (Z.of_N n) = N_bit_count n.
Proof. by destruct n. Qed.

(** The ones of [x ^ y] are among the ones of [x] and of [y]. *)
Lemma bit_count_lxor x y :
  (0 ≤ x)%Z → (0 ≤ y)%Z →
  bit_count (Z.lxor x y) ≤ bit_count x + bit_count y.
Proof.
  intros Hx Hy.
  destruct x as [| p | p]; [rewrite Z.lxor_0_l; lia | | lia].
  destruct y as [| q | q]; [rewrite Z.lxor_0_r; lia | | lia].
  change (Z.lxor (Z.pos p) (Z.pos q)) with (Z.of_N (Pos.lxor p q)).
  rewrite bit_count_of_N. apply pos_lxor_bit_count.
Qed.

Lemma pos_bit_count_bound p : ∀ n : nat,
  (Zpos p < 2 ^ Z.of_nat n)%Z → pos_bit_count p ≤ n.
Proof.
  induction p as [p IH | p IH |]; intros n Hlt; simpl.
  - destruct n as [| n]; [simpl in Hlt; lia |].
    rewrite Nat2Z.inj_succ, Z.pow_succ_r in Hlt by lia.
    specialize (IH n). lia.
  - destruct n as [| n]; [simpl in Hlt; lia |].
    rewrite Nat2Z.inj_succ, Z.pow_succ_r in Hlt by lia.
    specialize (IH n). lia.
  - destruct n as [| n]; [simpl in Hlt; lia | lia].
Qed.

Lemma lxor_range x y (n : nat) :
  (0 ≤ x < 2 ^ Z.of_nat n)%Z → (0 ≤ y < 2 ^ Z.of_nat n)%Z →
  (0 ≤ Z.lxor x y < 2 ^ Z.of_nat n)%Z.
Proof.
  intros Hx Hy.
  assert (0 ≤ Z.lxor x y)%Z as Hnn by (apply Z.lxor_nonneg; lia).
  split; [done |].
  destruct (decide (Z.lxor x y = 0%Z)) as [-> | Hnz]; [lia |].
  assert (0 < Z.of_nat n)%Z as Hn.
  { destruct n as [| n]; [| lia]. change (2 ^ Z.of_nat 0)%Z with 1%Z in Hx, Hy.
    assert (x = 0%Z) as -> by lia. assert (y = 0%Z) as -> by lia. done. }
  apply Z.log2_lt_pow2; [lia |].
  eapply Z.le_lt_trans; [apply Z.log2_lxor; lia |].
  apply Z.max_lub_lt.
  - destruct (decide (x = 0%Z)) as [-> | ?]; [exact Hn |].
    apply Z.log2_lt_pow2; lia.
  - destruct (decide (y = 0%Z)) as [-> | ?]; [exact Hn |].
    apply Z.log2_lt_pow2; lia.
Qed.

(** [hamming_distance] (lines 310-311) is a metric on the non-negative
    integers: it is
    zero between equal values only, symmetric, and satisfies the triangle
    inequality. *)
Theorem hamming_distance_metric a b c :
  (0 ≤ a)%Z → (0 ≤ b)%Z → (0 ≤ c)%Z →
  (hamming_distance a b = 0 ↔ a = b) ∧
  hamming_distance a b = hamming_distance b a ∧
  hamming_distance a c ≤ hamming_distance a b + hamming_distance b c.
Proof.
  intros Ha Hb Hc. unfold hamming_distance. split; [| split].
  - rewrite bit_count_zero. apply Z.lxor_eq_0_iff.
  - by rewrite Z.lxor_comm.
  - replace (Z.lxor a c) with (Z.lxor (Z.lxor a b) (Z.lxor b c)).
    + apply bit_count_lxor; apply Z.lxor_nonneg; lia.
    + rewrite Z.lxor_assoc, <- (Z.lxor_assoc b b c), Z.lxor_nilpotent, Z.lxor_0_l. done.
Qed.

Lemma hamming_distance_metric_witness :
  (hamming_distance 5 3 = 0 ↔ 5%Z = 3%Z) ∧
  hamming_distance 5 3 = hamming_distance 3 5 ∧
  hamming_distance 5 12 ≤ hamming_distance 5 3 + hamming_distance 3 12.
Proof. apply (hamming_distance_metric 5 3 12); lia. Defined.

(** [hamming_distance] (lines 310-311) on the values of
    [simhash_from_tokens] (lines 291-307): two fingerprints are at distance
    64 at most, so a threshold of 64 or more accepts every pair of
    fingerprints. *)
Theorem hamming_distance_fingerprints (token_hash : string → Z) tokens tokens' a b :
  simhash_from_tokens token_hash tokens = Some a →
  simhash_from_tokens token_hash tokens' = Some b →
  hamming_distance a b ≤ 64.
Proof.
  intros Ha%simhash_range Hb%simhash_range. unfold hamming_distance.
  pose proof (lxor_range a b 64 Ha Hb) as Hr.
  destruct (Z.lxor a b) as [| p | p]; simpl; [lia | | lia].
  apply pos_bit_count_bound. lia.
Qed.

Lemma hamming_distance_fingerprints_witness :
  ∃ a b, simhash_from_tokens sample_hash ["rust"; "borrow"] = Some a ∧
         simhash_from_tokens sample_hash ["checker"] = Some b ∧
         hamming_distance a b ≤ 64.
Proof.
  do 2 eexists. split; [by vm_compute |]. split; [by vm_compute |].
  apply (hamming_distance_fingerprints sample_hash ["rust"; "borrow"] ["checker"]);
    by vm_compute.
Defined.

End FingerprintProps.

(** ** Properties of the embedding text *)
Module EmbedProps.
Import Str Text CanonShape TextProps.

Lemma join_with_nonempty sep x l : x ≠ "" → join_with sep (x :: l) ≠ "".
Proof.
  destruct x as [| a x]; [done |]. intros _.
  destruct l as [| y l]; [done |]. cbn [join_with]. by rewrite append_cons.
Qed.

(** A first part makes the text non-empty and the fallback unused. *)
Lemma embedding_parts (title summary domain : string) p ps :
  p ≠ "" → ¬ (title = "" ∧ summary = "" ∧ domain = "") →
  ∀ fallback,
    let text other :=
      join_with (String (ascii_of_nat 10) "")
        (if negb (bool_decide (p :: ps ≠ [])) && truthy other
         then (p :: ps) ++ [other] else p :: ps) in
    (text fallback = "" ↔ title = "" ∧ summary = "" ∧ domain = "" ∧ fallback = "") ∧
    (title = "" → summary = "" → domain = "" → text fallback = fallback) ∧
    (¬ (title = "" ∧ summary = "" ∧ domain = "") →
       ∀ other, text other = text fallback).
Proof.
  intros Hp Hne fallback text. subst text. cbv beta.
  rewrite bool_decide_eq_true_2 by done. cbn [negb andb]. split_and!.
  - split; [by intros ?%join_with_nonempty |].
    intros (? & ? & ? & _). by destruct Hne.
  - intros ? ? ?. by destruct Hne.
  - by intros _ other.
Qed.

(** [build_embedding_text] (lines 204-214). The embedding text is empty
    exactly when the title, the summary, the
    domain and the fallback are all empty; the fallback is the whole result
    when the other three are empty and is not read otherwise. *)
Theorem build_embedding_text_fallback title summary domain fallback :
  (build_embedding_text title summary domain fallback = "" ↔
     title = "" ∧ summary = "" ∧ domain = "" ∧ fallback = "") ∧
  (title = "" → summary = "" → domain = "" →
     build_embedding_text title summary domain fallback = fallback) ∧
  (¬ (title = "" ∧ summary = "" ∧ domain = "") →
     ∀ other, build_embedding_text title summary domain other =
              build_embedding_text title summary domain fallback).
Proof.
  unfold build_embedding_text.
  destruct (truthy title) eqn:Et; [apply DedupeFacts.truthy_true in Et | apply DedupeFacts.truthy_false in Et];
  (destruct (truthy summary) eqn:Es; [apply DedupeFacts.truthy_true in Es | apply DedupeFacts.truthy_false in Es]);
  (destruct (truthy domain) eqn:Ed; [apply DedupeFacts.truthy_true in Ed | apply DedupeFacts.truthy_false in Ed]);
    rewrite ?app_nil_l; cbn [app];
    try (apply (embedding_parts title summary domain); [done | by intros (? & ? & ?)]).
  subst. rewrite bool_decide_eq_false_2 by (by intros H; apply H). cbn [negb andb].
  split_and!.
  - destruct (truthy fallback) eqn:Ef.
    + apply DedupeFacts.truthy_true in Ef. simpl. split; [done | by intros (_ & _ & _ & ?)].
    + apply DedupeFacts.truthy_false in Ef. by subst.
  - intros _ _ _. destruct (truthy fallback) eqn:Ef; [done |].
    apply DedupeFacts.truthy_false in Ef. by subst.
  - intros H. by destruct H.
Qed.

End EmbedProps.
